(** * BudgetSnap: the receipt-text-to-transaction pipeline

    A shallow embedding of the extraction core of the repository:

    - [supabase/functions/_shared/categorizer.ts]   (keyword categorizer)
    - [supabase/functions/_shared/receipt-parser.ts] (legacy rule-based parser)
    - [supabase/functions/structure_with_gemini]     (AI structuring extractor:
      [extractJson], [validate] and the request handler)
    - [supabase/functions/process_image/index.ts]    (the orchestrator)
    - [supabase/functions/signed_image_url/index.ts] (signed URLs of images)
    - [supabase/functions/query/index.ts]            (month names and text
      queries)

    Conventions of the model.

    - A JavaScript string is the list of its UTF-16 code units ([jsstr]);
      [String.prototype.length] is [length].
    - [String.prototype.toLowerCase] is a parameter of the development
      ([toLowerCase]); concrete runs use [asciiLower], which agrees with it on
      ASCII text.
    - A JavaScript number is modelled by its exact rational value ([Q]);
      IEEE-754 rounding, infinities and the sign of zero are outside the
      model.
    - Regular expressions are embedded as syntax trees ([regex]) run by a
      backtracking matcher with the priorities of ECMAScript (leftmost start,
      left alternative first, greedy quantifiers).
    - Host services the code calls are parameters: the processing day
      ([today]), generic date parsing ([hostDate]), [JSON.parse] and the
      rendering of non-zero numbers ([NumberToString]).
    - The text queries add the sums of the host, with its rounding, as
      parameters, and read its clock as integers: time values in
      milliseconds and calendar days, after the Date chapter of
      ECMAScript, the offset of local time being a function of the time
      value. *)

From Stdlib Require Import String Ascii.
From Stdlib Require Import List Bool Arith NArith ZArith QArith Lia.
Import ListNotations.

Close Scope Q_scope.

(* ===================================================================== *)
(** * Strings as UTF-16 code units                                         *)
(* ===================================================================== *)

Definition cu := N.
Definition jsstr := list cu.

(** An ASCII literal of the source as a [jsstr]. *)
Definition lit (s : string) : jsstr :=
  map N_of_ascii (list_ascii_of_string s).

Definition cu_eqb (a b : cu) : bool := N.eqb a b.
Arguments cu_eqb (a b)%_N.

Fixpoint str_eqb (a b : jsstr) : bool :=
  match a, b with
  | [], [] => true
  | x :: a', y :: b' => cu_eqb x y && str_eqb a' b'
  | _, _ => false
  end.

Definition inRange (lo hi c : cu) : bool := (N.leb lo c && N.leb c hi)%bool.
Arguments inRange (lo hi c)%_N.

Definition isDigit (c : cu) : bool := inRange 48 57 c.
Definition isUpper (c : cu) : bool := inRange 65 90 c.
Definition isLower (c : cu) : bool := inRange 97 122 c.
Definition isLetter (c : cu) : bool := (isLower c || isUpper c)%bool.

(** [\w]: ASCII letters, digits and the underscore. *)
Definition isWordChar (c : cu) : bool :=
  (isLetter c || isDigit c || cu_eqb c 95)%bool.

(** [\s], and what [String.prototype.trim] strips: ECMAScript WhiteSpace and
    LineTerminator code points. *)
Definition isSpace (c : cu) : bool :=
  (inRange 9 13 c || cu_eqb c 32 || cu_eqb c 160 || cu_eqb c 5760
   || inRange 8192 8202 c || cu_eqb c 8232 || cu_eqb c 8233
   || cu_eqb c 8239 || cu_eqb c 8287 || cu_eqb c 12288 || cu_eqb c 65279)%bool.

(** The currency symbols of the parser: $ € £ ¥ ₹ ₽. *)
Definition cDollar : cu := 36%N.
Definition cEuro : cu := 8364%N.
Definition cPound : cu := 163%N.
Definition cYen : cu := 165%N.
Definition cRupee : cu := 8377%N.
Definition cRuble : cu := 8381%N.

Definition isOtherCurrency (c : cu) : bool :=
  (cu_eqb c cEuro || cu_eqb c cPound || cu_eqb c cYen
   || cu_eqb c cRupee || cu_eqb c cRuble)%bool.

Definition isCurrency (c : cu) : bool :=
  (cu_eqb c cDollar || isOtherCurrency c)%bool.

(** ASCII case mapping of one code unit. *)
Definition lowerCu (c : cu) : cu := if isUpper c then (c + 32)%N else c.
Definition upperCu (c : cu) : cu := if isLower c then (c - 32)%N else c.

(** [toLowerCase] restricted to ASCII: the instance used for concrete runs. *)
Definition asciiLower (s : jsstr) : jsstr := map lowerCu s.

(** [s.startsWith(p)]. *)
Fixpoint startsWith (s p : jsstr) {struct p} : bool :=
  match p, s with
  | [], _ => true
  | x :: p', y :: s' => cu_eqb x y && startsWith s' p'
  | _ :: _, [] => false
  end.

(** [s.includes(k)]: [k] occurs in [s] as a contiguous substring. *)
Fixpoint includes (s k : jsstr) : bool :=
  (startsWith s k ||
   match s with
   | [] => false
   | _ :: s' => includes s' k
   end)%bool.

(** [s.split('\n')]. *)
Fixpoint splitLines_aux (cur : jsstr) (s : jsstr) : list jsstr :=
  match s with
  | [] => [rev cur]
  | c :: s' =>
      if cu_eqb c 10 then rev cur :: splitLines_aux [] s'
      else splitLines_aux (c :: cur) s'
  end.

Definition splitLines (s : jsstr) : list jsstr := splitLines_aux [] s.

Fixpoint trimStart (s : jsstr) : jsstr :=
  match s with
  | c :: s' => if isSpace c then trimStart s' else s
  | [] => []
  end.

(** [s.trim()]. *)
Definition trim (s : jsstr) : jsstr := rev (trimStart (rev (trimStart s))).

(** [s.padStart(2, '0')]. *)
Definition padStart2 (s : jsstr) : jsstr :=
  match s with
  | [] => [48; 48]%N
  | [c] => [48%N; c]
  | _ => s
  end.

(** [s.slice(0, n)] for [n >= 0]. *)
Definition slice0 (n : nat) (s : jsstr) : jsstr := firstn n s.

(* ===================================================================== *)
(** * Regular expressions                                                  *)
(* ===================================================================== *)

Inductive regex : Type :=
| REmpty                         (* the empty pattern *)
| RChar (p : cu -> bool)         (* one code unit of a class *)
| RSeq (r1 r2 : regex)           (* r1 r2 *)
| RAlt (r1 r2 : regex)           (* r1 | r2, left first *)
| RStar (r : regex)              (* r*, greedy *)
| RGroup (i : nat) (r : regex)   (* capturing group number i *)
| RWordB                         (* \b *)
| RBegin                         (* ^ *)
| REnd.                          (* $ *)

(** The state of a match in progress: the input already passed (nearest code
    unit first), the input still ahead, and the capture groups set so far. *)
Record mstate : Type := MState {
  seen : jsstr;
  rest : jsstr;
  caps : list (nat * jsstr)
}.

Definition isWordSeen (st : mstate) : bool :=
  match seen st with c :: _ => isWordChar c | [] => false end.

Definition isWordNext (st : mstate) : bool :=
  match rest st with c :: _ => isWordChar c | [] => false end.

(** The text read between two states of one run. *)
Definition consumed (st st' : mstate) : jsstr :=
  firstn (length (rest st) - length (rest st')) (rest st).

Definition setcap (i : nat) (st st' : mstate) : mstate :=
  MState (seen st') (rest st') ((i, consumed st st') :: caps st').

Definition matcher := mstate -> (mstate -> option mstate) -> option mstate.

(** Greedy iteration: one more round of [m] first, provided it reads at
    least one code unit (ECMAScript drops empty iterations), else go on. *)
Fixpoint star_loop (m : matcher) (n : nat) (st : mstate)
    (k : mstate -> option mstate) : option mstate :=
  match n with
  | O => k st
  | S n' =>
      match m st (fun st' =>
                    if length (rest st') <? length (rest st)
                    then star_loop m n' st' k else None) with
      | Some res => Some res
      | None => k st
      end
  end.

(** The backtracking matcher, in continuation-passing style. *)
Fixpoint rmatch (r : regex) : matcher :=
  fun st k =>
  match r with
  | REmpty => k st
  | RChar p =>
      match rest st with
      | c :: s' => if p c then k (MState (c :: seen st) s' (caps st)) else None
      | [] => None
      end
  | RSeq r1 r2 => rmatch r1 st (fun st' => rmatch r2 st' k)
  | RAlt r1 r2 =>
      match rmatch r1 st k with
      | Some res => Some res
      | None => rmatch r2 st k
      end
  | RStar r' => star_loop (rmatch r') (length (rest st)) st k
  | RGroup i r' => rmatch r' st (fun st' => k (setcap i st st'))
  | RWordB => if xorb (isWordSeen st) (isWordNext st) then k st else None
  | RBegin => match seen st with [] => k st | _ :: _ => None end
  | REnd => match rest st with [] => k st | _ :: _ => None end
  end.

(** A successful match: where it starts, its text, its groups, and the
    state after it. *)
Record rresult : Type := RResult {
  m_index : nat;
  m_text : jsstr;
  m_caps : list (nat * jsstr);
  m_end : mstate
}.

(** [match[i]] for [i >= 1]; [None] is [undefined]. *)
Fixpoint getcap (i : nat) (cs : list (nat * jsstr)) : option jsstr :=
  match cs with
  | [] => None
  | (j, s) :: cs' => if Nat.eqb i j then Some s else getcap i cs'
  end.

Definition m_group (i : nat) (m : rresult) : option jsstr := getcap i (m_caps m).

(** Leftmost match at or after the current position. *)
Fixpoint search (r : regex) (sn : jsstr) (s : jsstr) : option rresult :=
  let st := MState sn s [] in
  match rmatch r st Some with
  | Some st' => Some (RResult (length sn) (consumed st st') (caps st') st')
  | None =>
      match s with
      | [] => None
      | c :: s' => search r (c :: sn) s'
      end
  end.

(** [r.exec(s)] / [s.match(r)] without the g flag. *)
Definition exec (r : regex) (s : jsstr) : option rresult := search r [] s.

(** [r.test(s)]. *)
Definition test (r : regex) (s : jsstr) : bool :=
  match exec r s with Some _ => true | None => false end.

(** The successive matches of a global regex: each search resumes where the
    previous match ended, one code unit further after an empty match. *)
Fixpoint matchAll_loop (fuel : nat) (r : regex) (sn s : jsstr) : list rresult :=
  match fuel with
  | O => []
  | S fuel' =>
      match search r sn s with
      | None => []
      | Some m =>
          let st' := m_end m in
          match m_text m, rest st' with
          | [], [] => [m]
          | [], c :: s' => m :: matchAll_loop fuel' r (c :: seen st') s'
          | _ :: _, _ => m :: matchAll_loop fuel' r (seen st') (rest st')
          end
      end
  end.

(** [s.matchAll(r)] for a global [r]. *)
Definition matchAll (r : regex) (s : jsstr) : list rresult :=
  matchAll_loop (S (length s)) r [] s.

(** [s.match(r)] for a global [r]: the matched texts, [None] when there is
    none. *)
Definition matchG (r : regex) (s : jsstr) : option (list jsstr) :=
  match matchAll r s with
  | [] => None
  | ms => Some (map m_text ms)
  end.

(** [s.replace(r, by)] for a global [r] and a constant replacement. *)
Fixpoint replace_loop (ms : list rresult) (pos : nat) (s : jsstr) (by_ : jsstr)
  : jsstr :=
  match ms with
  | [] => s
  | m :: ms' =>
      let skip := m_index m - pos in
      firstn skip s ++ by_ ++
      replace_loop ms' (m_index m + length (m_text m))
        (skipn (skip + length (m_text m)) s) by_
  end.

Definition replaceAll (r : regex) (by_ : jsstr) (s : jsstr) : jsstr :=
  replace_loop (matchAll r s) 0 s by_.

(** ** Pattern notation *)

Definition rchar (c : cu) : regex := RChar (cu_eqb c).

(** A letter under the i flag: either ASCII case. *)
Definition cu_eqb_ci (c x : cu) : bool := cu_eqb (upperCu c) (upperCu x).
Definition rchar_ci (c : cu) : regex := RChar (cu_eqb_ci c).

Fixpoint rseq (rs : list regex) : regex :=
  match rs with
  | [] => REmpty
  | [r] => r
  | r :: rs' => RSeq r (rseq rs')
  end.

Fixpoint ralt (rs : list regex) : regex :=
  match rs with
  | [] => RChar (fun _ => false)
  | [r] => r
  | r :: rs' => RAlt r (ralt rs')
  end.

Definition rlit_ci (s : string) : regex := rseq (map rchar_ci (lit s)).

Definition ropt (r : regex) : regex := RAlt r REmpty.
Definition rplus (r : regex) : regex := RSeq r (RStar r).

(** [r{n}] and the greedy [r{n,n+extra}]. *)
Fixpoint rupto (extra : nat) (r : regex) : regex :=
  match extra with
  | O => REmpty
  | S e => ropt (RSeq r (rupto e r))
  end.

Fixpoint rrange (n extra : nat) (r : regex) : regex :=
  match n with
  | O => rupto extra r
  | S n' => RSeq r (rrange n' extra r)
  end.

Definition rdigit : regex := RChar isDigit.
Definition rspace : regex := RChar isSpace.

(** [[\s\S]]: any code unit. *)
Definition anyChar : cu -> bool := fun _ => true.

(* ===================================================================== *)
(** * JavaScript values                                                    *)
(* ===================================================================== *)

#[local] Unset Elimination Schemes.
Inductive jsvalue : Type :=
| JUndefined
| JNull
| JBool (b : bool)
| JNumber (q : Q)
| JInfinity (negative : bool)
| JString (s : jsstr)
| JArray (vs : list jsvalue)
| JObject (fields : list (jsstr * jsvalue)).
#[local] Set Elimination Schemes.

Inductive jstype : Type :=
| TUndefined | TObject | TBoolean | TNumber | TString.

(** [typeof v]. *)
Definition typeof (v : jsvalue) : jstype :=
  match v with
  | JUndefined => TUndefined
  | JNull => TObject
  | JBool _ => TBoolean
  | JNumber _ | JInfinity _ => TNumber
  | JString _ => TString
  | JArray _ => TObject
  | JObject _ => TObject
  end.

Definition jstype_eqb (a b : jstype) : bool :=
  match a, b with
  | TUndefined, TUndefined | TObject, TObject | TBoolean, TBoolean
  | TNumber, TNumber | TString, TString => true
  | _, _ => false
  end.

(** ToBoolean. *)
Definition truthy (v : jsvalue) : bool :=
  match v with
  | JUndefined | JNull => false
  | JBool b => b
  | JNumber q => negb (Qeq_bool q 0)
  | JInfinity _ => true
  | JString s => match s with [] => false | _ :: _ => true end
  | JArray _ | JObject _ => true
  end.

Definition isNull (v : jsvalue) : bool :=
  match v with JNull => true | _ => false end.

Fixpoint getField (fs : list (jsstr * jsvalue)) (key : jsstr) : jsvalue :=
  match fs with
  | [] => JUndefined
  | (k, v) :: fs' => if str_eqb k key then v else getField fs' key
  end.

Fixpoint setField (fs : list (jsstr * jsvalue)) (key : jsstr) (v : jsvalue)
  : list (jsstr * jsvalue) :=
  match fs with
  | [] => [(key, v)]
  | (k, w) :: fs' =>
      if str_eqb k key then (k, v) :: fs' else (k, w) :: setField fs' key v
  end.

(** [v.key] for one of the property names the code reads ([ok], [record],
    [date], [type], ...): an own property of an object; [undefined] on a
    primitive or an array, which have none of these names; [None] is the
    TypeError of reading a property of [null] or [undefined]. *)
Definition getProp (v : jsvalue) (key : string) : option jsvalue :=
  match v with
  | JUndefined | JNull => None
  | JObject fs => Some (getField fs (lit key))
  | _ => Some JUndefined
  end.

(** The same read where the receiver is known to be neither [null] nor
    [undefined]. *)
Definition prop (v : jsvalue) (key : string) : jsvalue :=
  match getProp v key with Some x => x | None => JUndefined end.

(** [v.key = x] on an object. *)
Definition setProp (v : jsvalue) (key : string) (x : jsvalue) : jsvalue :=
  match v with
  | JObject fs => JObject (setField fs (lit key) x)
  | _ => v
  end.

(** [list.includes(v)] for a list of string literals: strict equality. *)
Definition includesValue (l : list string) (v : jsvalue) : bool :=
  match v with
  | JString s => existsb (fun x => str_eqb (lit x) s) l
  | _ => false
  end.

(** [JSON.parse(JSON.stringify(v))]: a value after it has been sent as JSON
    and read back. An infinite number is written as [null]; a property whose
    value is [undefined] is left out, and [undefined] in an array is written
    as [null]; finite numbers, strings, booleans and [null] come back as they
    were. *)
Fixpoint jsonRoundTrip (v : jsvalue) : jsvalue :=
  match v with
  | JInfinity _ => JNull
  | JArray vs =>
      JArray (map (fun x => match x with
                            | JUndefined => JNull
                            | _ => jsonRoundTrip x
                            end) vs)
  | JObject fields =>
      JObject
        ((fix sent (l : list (jsstr * jsvalue)) : list (jsstr * jsvalue) :=
            match l with
            | [] => []
            | (k, JUndefined) :: l' => sent l'
            | (k, x) :: l' => (k, jsonRoundTrip x) :: sent l'
            end) fields)
  | _ => v
  end.

(** Results of code that may throw [new Error(msg)]. *)
Inductive result (A : Type) : Type :=
| Ok (a : A)
| Throw (msg : jsstr).
Arguments Ok {A} a.
Arguments Throw {A} msg.

(** The direction of a persisted transaction: ['debit' | 'credit']. *)
Inductive txtype : Type := debit | credit.

Definition txtype_eqb (a b : txtype) : bool :=
  match a, b with
  | debit, debit | credit, credit => true
  | _, _ => false
  end.

(* ===================================================================== *)
(** * Numbers read from text                                               *)
(* ===================================================================== *)

Definition digitVal (c : cu) : N := (c - 48)%N.

Fixpoint digitsVal (acc : N) (ds : jsstr) : N :=
  match ds with
  | [] => acc
  | d :: ds' => digitsVal (10 * acc + digitVal d)%N ds'
  end.

Fixpoint takeDigits (s : jsstr) : jsstr * jsstr :=
  match s with
  | c :: s' =>
      if isDigit c then let (ds, r) := takeDigits s' in (c :: ds, r)
      else ([], s)
  | [] => ([], [])
  end.

Definition pow10 (n : nat) : positive := Pos.pow 10 (Pos.of_nat n).

(** The value of [int.frac]. *)
Definition decimalQ (int frac : jsstr) : Q :=
  match frac with
  | [] => Z.of_N (digitsVal 0 int) # 1
  | _ :: _ =>
      Z.of_N (digitsVal 0 int * Npos (pow10 (length frac)) + digitsVal 0 frac)
      # pow10 (length frac)
  end.

(** A Number other than NaN: a finite double, as its exact rational value,
    or one of the two infinities. *)
Inductive jsnum : Type :=
| Finite (q : Q)
| Infinite (negative : bool).

(** A number as a value. *)
Definition JNum (n : jsnum) : jsvalue :=
  match n with
  | Finite q => JNumber q
  | Infinite negative => JInfinity negative
  end.

(** The nearest integer to [n / d], ties to even, for [d > 0]. *)
Definition halfEven (n d : Z) : Z :=
  let q := (n / d)%Z in
  match (2 * (n mod d) ?= d)%Z with
  | Lt => q
  | Gt => (q + 1)%Z
  | Eq => if Z.even q then q else (q + 1)%Z
  end.

(** The integer part of the binary logarithm of [n / d], for [n, d > 0]. *)
Definition floorLog2 (n d : Z) : Z :=
  let e := (Z.log2 n - Z.log2 d)%Z in
  if (if 0 <=? e then d * 2 ^ e <=? n else d <=? n * 2 ^ (- e))%Z
  then e else (e - 1)%Z.

(** The double nearest to [n / d], for [n, d > 0]: 53 significant bits,
    exponents down to -1074, ties to even, and Infinity from 2^1024 on. *)
Definition roundPositive (n d : Z) : jsnum :=
  let p := Z.max (floorLog2 n d - 52) (-1074) in
  if (0 <=? p)%Z then
    let m := halfEven n (d * 2 ^ p) in
    if (2 ^ 1024 <=? m * 2 ^ p)%Z then Infinite false
    else Finite (inject_Z (m * 2 ^ p))
  else
    Finite (Qred (halfEven (n * 2 ^ (- p)) d # Z.to_pos (2 ^ (- p)))).

(** The Number value of a decimal: the double nearest to it. *)
Definition roundDouble (q : Q) : jsnum :=
  match Qnum q with
  | Z0 => Finite 0
  | Zpos n => roundPositive (Zpos n) (Zpos (Qden q))
  | Zneg n =>
      match roundPositive (Zpos n) (Zpos (Qden q)) with
      | Finite x => Finite (Qred (- x))
      | Infinite _ => Infinite true
      end
  end.

(** [parseFloat(s)] on the texts the parser hands it: decimal digits with an
    optional fractional part, anything after it ignored, rounded to the
    nearest double; [None] is NaN. *)
Definition parseFloat (s : jsstr) : option jsnum :=
  let (int, r) := takeDigits s in
  let frac :=
    match r with
    | c :: r' => if cu_eqb c 46 then fst (takeDigits r') else []
    | [] => []
    end in
  match int, frac with
  | [], [] => None
  | _, _ => Some (roundDouble (decimalQ int frac))
  end.

Definition Qltb (a b : Q) : bool := negb (Qle_bool b a).

(** [a <= b] and [a < b] on numbers. *)
Definition num_leb (a b : jsnum) : bool :=
  match a, b with
  | Infinite true, _ => true
  | _, Infinite false => true
  | Finite x, Finite y => Qle_bool x y
  | _, _ => false
  end.

Definition num_ltb (a b : jsnum) : bool := negb (num_leb b a).

Definition num_max2 (a b : jsnum) : jsnum := if num_leb a b then b else a.

(** [Math.max(...(a :: l))]. *)
Definition maxOf (a : jsnum) (l : list jsnum) : jsnum :=
  fold_left num_max2 l a.

Definition ch (a : ascii) : cu := N_of_ascii a.

Definition rc (a : ascii) : regex := rchar (ch a).

(* ===================================================================== *)
(** * Keyword categorizer ([_shared/categorizer.ts])                       *)
(* ===================================================================== *)

(** [CATEGORY_KEYWORDS], in declaration order (the order of
    [Object.entries]). *)
Definition CATEGORY_KEYWORDS : list (string * list string) :=
  [ ("Dining",
     ["starbucks"; "mcdonald"; "kfc"; "restaurant"; "cafe"; "ubereats";
      "doordash"; "pizza"; "burger"; "subway"; "tim hortons"; "wendy";
      "taco bell"; "domino"; "food"; "bar"; "pub"; "bistro"; "diner";
      "grill"]);
    ("Groceries",
     ["walmart"; "costco"; "no frills"; "loblaws"; "aldi"; "kroger"; "metro";
      "supermarket"; "grocery"; "food basics"; "sobeys"; "safeway";
      "whole foods"; "produce"; "market"]);
    ("Transport",
     ["uber"; "lyft"; "gas"; "shell"; "esso"; "petro"; "bp"; "metro pass";
      "fuel"; "taxi"; "bus"; "transit"; "parking"; "toll"; "car wash";
      "vehicle"; "automotive"]);
    ("Utilities",
     ["hydro"; "electric"; "water"; "gas bill"; "internet"; "rogers"; "bell";
      "verizon"; "phone"; "cable"; "utility"; "power"; "heating"; "cooling"]);
    ("Rent",
     ["rent"; "landlord"; "property mgmt"; "lease"; "housing"; "apartment";
      "condo"; "mortgage"]);
    ("Income",
     ["salary"; "payroll"; "deposit"; "credited"; "refund"; "transfer in";
      "bonus"; "commission"; "dividend"; "interest"; "payment received"]);
    ("Shopping",
     ["amazon"; "target"; "best buy"; "clothing"; "shoes"; "electronics";
      "department store"; "mall"; "retail"; "purchase"]);
    ("Healthcare",
     ["pharmacy"; "doctor"; "hospital"; "clinic"; "medical"; "dental";
      "prescription"; "health"; "insurance"]);
    ("Entertainment",
     ["movie"; "theater"; "netflix"; "spotify"; "game"; "concert";
      "entertainment"; "streaming"; "subscription"]) ]%string.

(** [CATEGORY_KEYWORDS[name]]. *)
Fixpoint keywordsOf (table : list (string * list string)) (name : string)
  : list string :=
  match table with
  | [] => []
  | (c, kws) :: table' =>
      if String.eqb c name then kws else keywordsOf table' name
  end.

(** [for (const keyword of keywords) if (lower.includes(keyword)) return ...]:
    does the loop return? *)
Fixpoint keywordHit (lower : jsstr) (keywords : list string) : bool :=
  match keywords with
  | [] => false
  | keyword :: keywords' =>
      if includes lower (lit keyword) then true
      else keywordHit lower keywords'
  end.

(** The loop over [Object.entries(CATEGORY_KEYWORDS)]. *)
Fixpoint scanCategories (lower : jsstr) (type : txtype)
    (entries : list (string * list string)) : option string :=
  match entries with
  | [] => None
  | (category, keywords) :: entries' =>
      if (String.eqb category "Income" && negb (txtype_eqb type credit))%bool
      then scanCategories lower type entries'
      else if keywordHit lower keywords then Some category
      else scanCategories lower type entries'
  end.

(* ===================================================================== *)
(** * The patterns of the legacy parser ([_shared/receipt-parser.ts])      *)
(* ===================================================================== *)

Definition weekdayNames : list string :=
  ["Mon"; "Tue"; "Wed"; "Thu"; "Fri"; "Sat"; "Sun"]%string.

Definition monthNames : list string :=
  ["Jan"; "Feb"; "Mar"; "Apr"; "May"; "Jun";
   "Jul"; "Aug"; "Sep"; "Oct"; "Nov"; "Dec"]%string.

(** [(Mon|Tue|...)] and [(Jan|Feb|...)] under the i flag. *)
Definition rWeekday : regex := ralt (map rlit_ci weekdayNames).
Definition rMonth : regex := ralt (map rlit_ci monthNames).

(** [[\/\-.]] *)
Definition isDateSep (c : cu) : bool :=
  (cu_eqb c (ch "/") || cu_eqb c (ch "-") || cu_eqb c (ch "."))%bool.

(** [/\b(Mon|...|Sun),?\s+(Jan|...|Dec)\s+(\d{1,2}),?\s+(\d{4})\b/gi] *)
Definition datePattern1 : regex :=
  rseq [RWordB; RGroup 1 rWeekday; ropt (rc ","); rplus rspace;
        RGroup 2 rMonth; rplus rspace; RGroup 3 (rrange 1 1 rdigit);
        ropt (rc ","); rplus rspace; RGroup 4 (rrange 4 0 rdigit); RWordB].

(** [/\b(Jan|...|Dec)\s+(\d{1,2}),?\s+(\d{4})\b/gi] *)
Definition datePattern2 : regex :=
  rseq [RWordB; RGroup 1 rMonth; rplus rspace; RGroup 2 (rrange 1 1 rdigit);
        ropt (rc ","); rplus rspace; RGroup 3 (rrange 4 0 rdigit); RWordB].

(** [/\b(\d{1,2})[\/\-.](\d{1,2})[\/\-.](\d{4})\b/g] *)
Definition datePattern3 : regex :=
  rseq [RWordB; RGroup 1 (rrange 1 1 rdigit); RChar isDateSep;
        RGroup 2 (rrange 1 1 rdigit); RChar isDateSep;
        RGroup 3 (rrange 4 0 rdigit); RWordB].

(** [/\b(\d{4})[\/\-.](\d{1,2})[\/\-.](\d{1,2})\b/g] *)
Definition datePattern4 : regex :=
  rseq [RWordB; RGroup 1 (rrange 4 0 rdigit); RChar isDateSep;
        RGroup 2 (rrange 1 1 rdigit); RChar isDateSep;
        RGroup 3 (rrange 1 1 rdigit); RWordB].

(** [/\b(\d{1,2})\s+(Jan|...|Dec)[a-z]*\s+(\d{4})\b/gi] *)
Definition datePattern5 : regex :=
  rseq [RWordB; RGroup 1 (rrange 1 1 rdigit); rplus rspace; RGroup 2 rMonth;
        RStar (RChar isLetter); rplus rspace; RGroup 3 (rrange 4 0 rdigit);
        RWordB].

Definition datePatterns : list regex :=
  [datePattern1; datePattern2; datePattern3; datePattern4; datePattern5].

(** [/(Jan|...|Dec)\s+(\d{1,2}),?\s+(\d{4})/i] *)
Definition monthMatchRe : regex :=
  rseq [RGroup 1 rMonth; rplus rspace; RGroup 2 (rrange 1 1 rdigit);
        ropt (rc ","); rplus rspace; RGroup 3 (rrange 4 0 rdigit)].

(** [monthMap] *)
Definition monthMap : list (string * string) :=
  [("Jan", "01"); ("Feb", "02"); ("Mar", "03"); ("Apr", "04");
   ("May", "05"); ("Jun", "06"); ("Jul", "07"); ("Aug", "08");
   ("Sep", "09"); ("Oct", "10"); ("Nov", "11"); ("Dec", "12")]%string.

(** [monthMap[key]]; a missing key reads [undefined], which the template
    string renders as such. *)
Fixpoint monthLookup (table : list (string * string)) (key : jsstr) : jsstr :=
  match table with
  | [] => lit "undefined"
  | (k, v) :: table' =>
      if str_eqb (lit k) key then lit v else monthLookup table' key
  end.

(** [\d{1,3}(?:,\d{3})*(?:\.\d{2})?] *)
Definition amountBody : regex :=
  rseq [rrange 1 2 rdigit;
        RStar (rseq [rc ","; rrange 3 0 rdigit]);
        ropt (rseq [rc "."; rrange 2 0 rdigit])].

(** [/\$(\d{1,3}(?:,\d{3})*(?:\.\d{2})?)/g] and
    [/[€£¥₹₽](\d{1,3}(?:,\d{3})*(?:\.\d{2})?)/g] *)
Definition currencyPatterns : list regex :=
  [ RSeq (rchar cDollar) (RGroup 1 amountBody);
    RSeq (RChar isOtherCurrency) (RGroup 1 amountBody) ].

(** [/[$€£¥₹₽]/g], [/,/g], [/\s+/g] *)
Definition currencyRe : regex := RChar isCurrency.
Definition commaRe : regex := rc ",".
Definition spacesRe : regex := rplus rspace.

(** [/\d+\.?\d*/] (with or without its group and g flag) *)
Definition numberRe : regex :=
  rseq [rplus rdigit; ropt (rc "."); RStar rdigit].

Definition merchantNames : list string :=
  ["Amazon"; "Walmart"; "Costco"; "Target"; "Starbucks"; "McDonald";
   "Tim Hortons"; "Uber"; "Lyft"; "Netflix"; "Spotify"; "Apple"; "Google";
   "Microsoft"; "PayPal"]%string.

Definition rMerchant : regex := ralt (map rlit_ci merchantNames).

(** [/^(Amazon|...|PayPal)$/i] *)
Definition merchantWhole : regex := rseq [RBegin; RGroup 1 rMerchant; REnd].

(** [/(Amazon|...|PayPal)\s+/i] *)
Definition merchantSpaced : regex := rseq [RGroup 1 rMerchant; rplus rspace].

Definition merchantPatterns : list regex := [merchantWhole; merchantSpaced].

(** [/[a-zA-Z]/] *)
Definition letterRe : regex := RChar isLetter.

(** [[\d\s\/\-.:*]] *)
Definition isNumericNoise (c : cu) : bool :=
  (isDigit c || isSpace c || cu_eqb c (ch "/") || cu_eqb c (ch "-")
   || cu_eqb c (ch ".") || cu_eqb c (ch ":") || cu_eqb c (ch "*"))%bool.

(** [/^\d+[\d\s\/\-.:*]*$/] *)
Definition numericLineRe : regex :=
  rseq [RBegin; rplus rdigit; RStar (RChar isNumericNoise); REnd].

(** [/^\$\d/] *)
Definition priceRe : regex := rseq [RBegin; rchar cDollar; rdigit].

Definition creditIndicators : list string :=
  ["credited"; "refund"; "salary"; "payroll"; "deposit"; "bonus";
   "commission"; "dividend"; "interest"; "payment received"; "transfer in";
   "income"; "credit"; "received"]%string.

(** The substrings that disqualify a line as a merchant candidate, tested on
    the lower-cased line. *)
Definition noiseWords : list string :=
  ["transaction"; "details"; "posted"; "card number"; "category"; "budget";
   "note"; "merchant"; "website";
   "fri"; "mon"; "tue"; "wed"; "thu"; "sat"; "sun"]%string.

(** [candidateLines.sort((a, b) => a.length - b.length)]: the sort is stable. *)
Fixpoint insertByLength (x : jsstr) (l : list jsstr) : list jsstr :=
  match l with
  | [] => [x]
  | y :: l' =>
      if length x <=? length y then x :: l else y :: insertByLength x l'
  end.

Fixpoint sortByLength (l : list jsstr) : list jsstr :=
  match l with
  | [] => []
  | x :: l' => insertByLength x (sortByLength l')
  end.

(** [ParsedTransaction] *)
Record ParsedTransaction : Type := {
  pt_date : jsstr;
  pt_description : jsstr;
  pt_amount : jsnum;
  pt_type : txtype
}.

(* ===================================================================== *)
(** * The patterns of the AI extractor ([structure_with_gemini])           *)
(* ===================================================================== *)

(** [/\{[\s\S]*\}$/] *)
Definition jsonRe : regex :=
  rseq [rc "{"; RStar (RChar anyChar); rc "}"; REnd].

(** [/^\d{4}-\d{2}-\d{2}$/] *)
Definition ymdRe : regex :=
  rseq [RBegin; rrange 4 0 rdigit; rc "-"; rrange 2 0 rdigit; rc "-";
        rrange 2 0 rdigit; REnd].

Definition cats : list string :=
  ["shopping"; "rent"; "utility"; "grocery"; "dining"; "transportation";
   "entertainment"; "health"; "income"; "fees"; "transfers"; "education";
   "other"]%string.

(** [CanonicalTransaction]: the [structuredData] of the orchestrator. The AI
    path copies fields of the record as they are, so they are values. *)
Record structuredData : Type := {
  sd_date : jsvalue;
  sd_type : txtype;
  sd_category : jsvalue;
  sd_description : jsvalue;
  sd_amount : jsvalue;
  sd_notes : jsvalue
}.

(** What [callGemini] does: it throws, or returns the trimmed reply. *)
Inductive geminiOutcome : Type :=
| GeminiThrows (msg : jsstr)
| GeminiText (text : jsstr).

(** What the orchestrator's [fetch] of the structuring function does: it
    rejects, or yields a response with a status and a body; [body] is what
    [response.json()] returns, [None] when it throws. *)
Inductive fetchOutcome : Type :=
| FetchRejects
| FetchResponse (status : Z) (body : option jsvalue).

(** [response.ok] *)
Definition statusOk (status : Z) : bool :=
  (Z.leb 200 status && Z.leb status 299)%bool.

(** Why the orchestrator's [catch] ran. *)
Inductive structureFailure : Type :=
| InvalidResult     (* 'Gemini structure extraction returned invalid result' *)
| HostException.    (* an exception of fetch, of json() or a TypeError *)

(** The response of the orchestrator's [catch]:
    status 500, [{error: 'Failed to structure receipt data', details}]. *)
Record errorResponse : Type := {
  er_status : Z;
  er_error : string;
  er_details : structureFailure
}.

(* ===================================================================== *)
(** * The program                                                          *)
(* ===================================================================== *)

Section Pipeline.

(** [String.prototype.toLowerCase]. *)
Variable toLowerCase : jsstr -> jsstr.

(** [new Date().toISOString().split('T')[0]]: the processing day. *)
Variable today : jsstr.

(** [new Date(s)] through [toISOString().split('T')[0]]; [None] when the
    date is invalid ([isNaN(parsed.getTime())]). *)
Variable hostDate : jsstr -> option jsstr.

(** [JSON.parse]; [None] when it throws. *)
Variable JSON_parse : jsstr -> option jsvalue.

(** Number::toString on a number other than zero. *)
Variable NumberToString : Q -> jsstr.

(** ** Categorizer *)

(** [categorizeTransaction(description, type)] *)
Definition categorizeTransaction (description : jsstr) (type : txtype) : jsstr :=
  let lowerDescription := toLowerCase description in
  if (txtype_eqb type credit
      && keywordHit lowerDescription (keywordsOf CATEGORY_KEYWORDS "Income"))%bool
  then lit "Income"
  else
    match scanCategories lowerDescription type CATEGORY_KEYWORDS with
    | Some category => lit category
    | None => lit "Uncategorized"
    end.

(** ** Legacy parser *)

(** The body of the loop of [extractDate] for one pattern: [Some d] when it
    returns [d], [None] when the loop goes on. *)
Definition datePatternStep (text : jsstr) (pattern : regex) : option jsstr :=
  match matchG pattern text with
  | None => None
  | Some matches =>
      let dateStr := hd [] matches in
      let parsed := hostDate dateStr in
      if existsb (fun m => includes dateStr (lit m)) monthNames then
        match exec monthMatchRe dateStr with
        | Some monthMatch =>
            let g i := match m_group i monthMatch with
                       | Some s => s | None => lit "undefined" end in
            let month := monthLookup monthMap (g 1) in
            let day := padStart2 (g 2) in
            let year := g 3 in
            Some (year ++ lit "-" ++ month ++ lit "-" ++ day)
        | None => parsed
        end
      else parsed
  end.

Fixpoint extractDate_loop (text : jsstr) (patterns : list regex) : jsstr :=
  match patterns with
  | [] => today
  | pattern :: patterns' =>
      match datePatternStep text pattern with
      | Some d => d
      | None => extractDate_loop text patterns'
      end
  end.

(** [extractDate(text)] *)
Definition extractDate (text : jsstr) : jsstr :=
  extractDate_loop text datePatterns.

(** [extractNumberFromLine(line)]; [None] is NaN. *)
Definition extractNumberFromLine (line : jsstr) : option jsnum :=
  let cleaned :=
    replaceAll spacesRe (lit " ")
      (replaceAll commaRe [] (replaceAll currencyRe [] line)) in
  match exec (RGroup 1 numberRe) cleaned with
  | Some numberMatch =>
      match m_group 1 numberMatch with
      | Some s => parseFloat s
      | None => None
      end
  | None => Some (Finite 0)
  end.

(** [!isNaN(n) && n > 0] *)
Fixpoint keepPositive (l : list (option jsnum)) : list jsnum :=
  match l with
  | [] => []
  | Some n :: l' =>
      if num_ltb (Finite 0) n then n :: keepPositive l' else keepPositive l'
  | None :: l' => keepPositive l'
  end.

(** [extractAllNumbers(text)] *)
Definition extractAllNumbers (text : jsstr) : list jsnum :=
  let cleaned := replaceAll commaRe [] (replaceAll currencyRe [] text) in
  match matchG numberRe cleaned with
  | None => []
  | Some matches => keepPositive (map parseFloat matches)
  end.

(** The amounts one currency pattern pushes, in the order of its matches. *)
Definition currencyAmountsOf (text : jsstr) (pattern : regex)
  : list jsnum :=
  keepPositive
    (map (fun m =>
            let amountStr :=
              replaceAll commaRe []
                (match m_group 1 m with Some s => s | None => [] end) in
            parseFloat amountStr)
         (matchAll pattern text)).

(** [amounts] after the first loop of [extractAmount]. *)
Definition currencyAmounts (text : jsstr) : list jsnum :=
  flat_map (currencyAmountsOf text) currencyPatterns.

(** Is this a line of the "total" fallback? *)
Definition isTotalLine (line : jsstr) : bool :=
  let lowerLine := toLowerCase line in
  (includes lowerLine (lit "total") || includes lowerLine (lit "amount")
   || includes lowerLine (lit "balance"))%bool.

(** The second loop of [extractAmount]: [Some a] when it returns [a]. *)
Fixpoint totalLineAmount (lines : list jsstr) : option jsnum :=
  match lines with
  | [] => None
  | line :: lines' =>
      if isTotalLine line then
        match extractNumberFromLine line with
        | Some amount =>
            if num_ltb (Finite 0) amount then Some amount
            else totalLineAmount lines'
        | None => totalLineAmount lines'
        end
      else totalLineAmount lines'
  end.

(** [numbers.filter(n => n > 0 && n < 100000)] *)
Definition reasonableAmounts (numbers : list jsnum) : list jsnum :=
  filter (fun n => (num_ltb (Finite 0) n && num_ltb n (Finite 100000))%bool)
         numbers.

(** [extractAmount(text, lines)] *)
Definition extractAmount (text : jsstr) (lines : list jsstr) : jsnum :=
  match currencyAmounts text with
  | a :: amounts => maxOf a amounts
  | [] =>
      match totalLineAmount lines with
      | Some amount => amount
      | None =>
          match reasonableAmounts (extractAllNumbers text) with
          | n :: ns => maxOf n ns
          | [] => Finite 0
          end
      end
  end.

(** [match[1] || match[0]] *)
Definition merchantOfMatch (m : rresult) : jsstr :=
  match m_group 1 m with
  | Some (c :: s) => c :: s
  | _ => m_text m
  end.

(** The inner loop of [extractMerchant] over the patterns, for one line. *)
Fixpoint merchantInLine (line : jsstr) (patterns : list regex) : option jsstr :=
  match patterns with
  | [] => None
  | pattern :: patterns' =>
      match exec pattern line with
      | Some m => Some (merchantOfMatch m)
      | None => merchantInLine line patterns'
      end
  end.

(** The outer loop over the lines. *)
Fixpoint knownMerchant (lines : list jsstr) : option jsstr :=
  match lines with
  | [] => None
  | line :: lines' =>
      match merchantInLine line merchantPatterns with
      | Some name => Some name
      | None => knownMerchant lines'
      end
  end.

(** The filter of [candidateLines]. *)
Definition isCandidate (line : jsstr) : bool :=
  let lower := toLowerCase line in
  ((2 <? length line) && (length line <? 50)
   && test letterRe line
   && forallb (fun w => negb (includes lower (lit w))) noiseWords
   && negb (test numericLineRe line)
   && negb (test priceRe line)
   && negb (includes line (lit "866-")) && negb (includes line (lit "phone")))%bool.

Definition candidateLines (lines : list jsstr) : list jsstr :=
  filter isCandidate lines.

(** [extractMerchant(lines, fullText)] *)
Definition extractMerchant (lines : list jsstr) (fullText : jsstr) : jsstr :=
  match knownMerchant lines with
  | Some name => name
  | None =>
      match sortByLength (candidateLines lines) with
      | first :: _ => first
      | [] => lit "Unknown Merchant"
      end
  end.

(** [extractType(text)] *)
Definition extractType (text : jsstr) : txtype :=
  let lower := toLowerCase text in
  if keywordHit lower creditIndicators then credit else debit.

(** [ocrText.split('\n').map(line => line.trim()).filter(line => line.length > 0)] *)
Definition receiptLines (ocrText : jsstr) : list jsstr :=
  filter (fun line => 0 <? length line) (map trim (splitLines ocrText)).

(** [parseReceiptText(ocrText)] *)
Definition parseReceiptText (ocrText : jsstr) : ParsedTransaction :=
  let lines := receiptLines ocrText in
  let date := extractDate ocrText in
  let amount := extractAmount ocrText lines in
  let description := extractMerchant lines ocrText in
  let type := extractType ocrText in
  {| pt_date := date; pt_description := description;
     pt_amount := amount; pt_type := type |}.

(** ** AI structuring extractor *)

(** [extractJson(s)] *)
Definition extractJson (s : jsstr) : result jsvalue :=
  match exec jsonRe s with
  | None => Throw (lit "No JSON found in response")
  | Some m =>
      match JSON_parse (m_text m) with
      | Some v => Ok v
      | None => Throw (lit "Invalid JSON in response")
      end
  end.

(** ToString, as [RegExp.prototype.test] applies it to its argument. *)
Fixpoint ToString (v : jsvalue) : jsstr :=
  match v with
  | JUndefined => lit "undefined"
  | JNull => lit "null"
  | JBool true => lit "true"
  | JBool false => lit "false"
  | JNumber q => if Qeq_bool q 0 then lit "0" else NumberToString q
  | JInfinity negative => if negative then lit "-Infinity" else lit "Infinity"
  | JString s => s
  | JArray vs =>
      (fix join (l : list jsvalue) : jsstr :=
         match l with
         | [] => []
         | x :: l' =>
             (match x with
              | JUndefined | JNull => []
              | _ => ToString x
              end)
             ++ match l' with [] => [] | _ :: _ => ch "," :: join l' end
         end) vs
  | JObject _ => lit "[object Object]"
  end.

Definition isString (v : jsvalue) : bool := jstype_eqb (typeof v) TString.

(** [validate(rec)] *)
Definition validate (rec : jsvalue) : result jsvalue :=
  if (negb (truthy rec) || negb (jstype_eqb (typeof rec) TObject))%bool
  then Throw (lit "Invalid record structure")
  else if negb (includesValue ["in"; "out"]%string (prop rec "type"))
  then Throw (lit "Invalid type - must be 'in' or 'out'")
  else if negb (includesValue cats (prop rec "category"))
  then Throw (lit "Invalid category")
  else if (match prop rec "amount" with
           | JNumber amount => Qltb amount 0
           | JInfinity negative => negative
           | _ => true
           end)
  then Throw (lit "Invalid amount - must be positive number")
  else if (negb (isNull (prop rec "date"))
           && negb (test ymdRe (ToString (prop rec "date"))))%bool
  then Throw (lit "Invalid date format - must be YYYY-MM-DD")
  else if (negb (isNull (prop rec "sub_category"))
           && negb (isString (prop rec "sub_category")))%bool
  then Throw (lit "Invalid sub_category")
  else if (negb (isNull (prop rec "note"))
           && negb (isString (prop rec "note")))%bool
  then Throw (lit "Invalid note")
  else
    match prop rec "sub_category" with
    | JString s =>
        Ok (setProp rec "sub_category" (JString (slice0 60 (toLowerCase s))))
    | _ => Ok rec
    end.

(** [String(error)] for [new Error(msg)] *)
Definition errorString (msg : jsstr) : jsstr := lit "Error: " ++ msg.

(** The request handler of the structuring function, from the reply of
    [callGemini] on: the status and the JSON body of its response. *)
Definition structureWithGemini (g : geminiOutcome) : Z * jsvalue :=
  let failed msg :=
    (500%Z, JObject [(lit "ok", JBool false);
                     (lit "error", JString (errorString msg))]) in
  match g with
  | GeminiThrows msg => failed msg
  | GeminiText resp =>
      match extractJson resp with
      | Throw msg => failed msg
      | Ok parsed =>
          match validate parsed with
          | Throw msg => failed msg
          | Ok json =>
              (200%Z, JObject [(lit "ok", JBool true); (lit "record", json)])
          end
      end
  end.

(** ** Orchestrator ([process_image/index.ts]) *)

(** The fallback branch. *)
Definition legacyStructured (ocrText : jsstr) : structuredData :=
  let legacyParsed := parseReceiptText ocrText in
  let legacyCategory :=
    categorizeTransaction (pt_description legacyParsed) (pt_type legacyParsed) in
  {| sd_date := JString (pt_date legacyParsed);
     sd_type := pt_type legacyParsed;
     sd_category := JString legacyCategory;
     sd_description := JString (pt_description legacyParsed);
     sd_amount := JNum (pt_amount legacyParsed);
     sd_notes := JNull |}.

(** [a || b] *)
Definition orElse (a b : jsvalue) : jsvalue := if truthy a then a else b.

(** The mapping of a record of the structuring function. *)
Definition recordStructured (record : jsvalue) : structuredData :=
  {| sd_date := orElse (prop record "date") (JString today);
     sd_type :=
       match prop record "type" with
       | JString s => if str_eqb s (lit "in") then credit else debit
       | _ => debit
       end;
     sd_category := prop record "category";
     sd_description := orElse (prop record "sub_category")
                              (JString (lit "Transaction"));
     sd_amount := prop record "amount";
     sd_notes := prop record "note" |}.

Definition structureError (why : structureFailure) : errorResponse :=
  {| er_status := 500; er_error := "Failed to structure receipt data";
     er_details := why |}.

(** The [try] block of the handler that computes [structuredData], with its
    [catch]: the transaction to insert, or the error response. *)
Definition structureReceipt (ocrText : jsstr) (f : fetchOutcome)
  : structuredData + errorResponse :=
  match f with
  | FetchRejects => inr (structureError HostException)
  | FetchResponse status body =>
      if negb (statusOk status) then inl (legacyStructured ocrText)
      else
        match body with
        | None => inr (structureError HostException)
        | Some structureResult =>
            match getProp structureResult "ok",
                  getProp structureResult "record" with
            | Some ok, Some record =>
                if (truthy ok && truthy record)%bool
                then inl (recordStructured record)
                else inr (structureError InvalidResult)
            | _, _ => inr (structureError HostException)
            end
        end
  end.

End Pipeline.

(* ===================================================================== *)
(** * What a pattern matches                                               *)
(* ===================================================================== *)

(** [Matches r st st']: the pattern [r] can take the matcher from state [st]
    to state [st']. The relation lists every way to match; [rmatch] explores
    them in priority order. *)
Inductive Matches : regex -> mstate -> mstate -> Prop :=
| MEmpty st : Matches REmpty st st
| MChar p c sn s cs :
    p c = true ->
    Matches (RChar p) (MState sn (c :: s) cs) (MState (c :: sn) s cs)
| MSeq r1 r2 st st1 st2 :
    Matches r1 st st1 -> Matches r2 st1 st2 -> Matches (RSeq r1 r2) st st2
| MAltL r1 r2 st st' : Matches r1 st st' -> Matches (RAlt r1 r2) st st'
| MAltR r1 r2 st st' : Matches r2 st st' -> Matches (RAlt r1 r2) st st'
| MStarDone r st : Matches (RStar r) st st
| MStarStep r st st1 st2 :
    Matches r st st1 ->
    length (rest st1) < length (rest st) ->
    Matches (RStar r) st1 st2 ->
    Matches (RStar r) st st2
| MGroup i r st st' :
    Matches r st st' -> Matches (RGroup i r) st (setcap i st st')
| MWordB st :
    xorb (isWordSeen st) (isWordNext st) = true -> Matches RWordB st st
| MBegin st : seen st = [] -> Matches RBegin st st
| MEnd st : rest st = [] -> Matches REnd st st.

(** The start state of an attempt at a position of the subject: [pre] has
    been passed, [s] is ahead. *)
Definition startAt (pre s : jsstr) : mstate := MState (rev pre) s [].

(* ===================================================================== *)
(** * Properties of the matcher                                            *)
(* ===================================================================== *)

Lemma star_loop_sound (m : matcher) (r : regex) :
  (forall st k res, m st k = Some res ->
     exists st', Matches r st st' /\ k st' = Some res) ->
  forall n st k res, star_loop m n st k = Some res ->
    exists st', Matches (RStar r) st st' /\ k st' = Some res.
Proof.
  intros Hm n. induction n as [|n IH]; intros st k res H; simpl in H.
  - exists st. split; [constructor | exact H].
  - destruct (m st _) as [res'|] eqn:E.
    + inversion H; subst res'; clear H.
      apply Hm in E. destruct E as (st1 & M1 & K1).
      destruct (length (rest st1) <? length (rest st)) eqn:P; [|discriminate].
      apply Nat.ltb_lt in P.
      apply IH in K1. destruct K1 as (st2 & M2 & K2).
      exists st2. split; [eapply MStarStep; eauto | exact K2].
    + exists st. split; [constructor | exact H].
Qed.

(** Soundness: a result of the matcher comes from a match of the pattern
    followed by a success of the continuation. *)
Lemma rmatch_sound (r : regex) :
  forall st k res, rmatch r st k = Some res ->
    exists st', Matches r st st' /\ k st' = Some res.
Proof.
  induction r; intros st k res H; simpl in H.
  - exists st. split; [constructor | exact H].
  - destruct st as [sn s cs]. simpl in H.
    destruct s as [|c s]; [discriminate|].
    destruct (p c) eqn:Pc; [|discriminate].
    eexists. split; [constructor; exact Pc | exact H].
  - apply IHr1 in H. destruct H as (st1 & M1 & H).
    apply IHr2 in H. destruct H as (st2 & M2 & H).
    exists st2. split; [econstructor; eauto | exact H].
  - destruct (rmatch r1 st k) as [res'|] eqn:E.
    + inversion H; subst res'. apply IHr1 in E. destruct E as (st' & M & K).
      exists st'. split; [apply MAltL; exact M | exact K].
    + apply IHr2 in H. destruct H as (st' & M & K).
      exists st'. split; [apply MAltR; exact M | exact K].
  - eapply star_loop_sound; eauto.
  - apply IHr in H. destruct H as (st' & M & K).
    exists (setcap i st st'). split; [constructor; exact M | exact K].
  - destruct (xorb _ _) eqn:X; [|discriminate].
    exists st. split; [constructor; exact X | exact H].
  - destruct (seen st) eqn:S; [|discriminate].
    exists st. split; [constructor; exact S | exact H].
  - destruct (rest st) eqn:S; [|discriminate].
    exists st. split; [constructor; exact S | exact H].
Qed.

Lemma star_loop_complete (m : matcher) (r : regex) :
  (forall st st', Matches r st st' ->
     forall k, k st' <> None -> m st k <> None) ->
  forall st st', Matches (RStar r) st st' ->
  forall n k, length (rest st) <= n -> k st' <> None ->
    star_loop m n st k <> None.
Proof.
  intros Hm st st' M.
  remember (RStar r) as rs eqn:Ers.
  induction M; inversion Ers; subst; intros n k Hn Hk.
  - destruct n; simpl; [exact Hk|].
    destruct (m st _); [discriminate | exact Hk].
  - destruct n as [|n]; [lia|]. simpl.
    destruct (m st _) eqn:E; [discriminate|].
    exfalso. revert E. apply (Hm _ _ M1).
    pose proof H as Hlt. apply Nat.ltb_lt in H. rewrite H.
    apply IHM2; auto. lia.
Qed.

(** Completeness: when the pattern has a match after which the continuation
    succeeds, the matcher returns a result. *)
Lemma rmatch_complete (r : regex) :
  forall st st', Matches r st st' ->
  forall k, k st' <> None -> rmatch r st k <> None.
Proof.
  induction r; intros st st' M k Hk; inversion M; subst; simpl.
  - exact Hk.
  - rewrite H0. exact Hk.
  - eapply IHr1; eauto.
  - destruct (rmatch r1 _ k) eqn:E; [discriminate|].
    exfalso. revert E. eapply IHr1; eauto.
  - destruct (rmatch r1 _ k) eqn:E; [discriminate|].
    eapply IHr2; eauto.
  - eapply star_loop_complete; eauto.
  - eapply star_loop_complete; eauto.
  - eapply IHr; eauto.
  - rewrite H. exact Hk.
  - rewrite H. exact Hk.
  - rewrite H. exact Hk.
Qed.

(** A match reads a prefix of the input ahead and stacks it on the input
    passed. *)
Lemma Matches_reads r st st' :
  Matches r st st' ->
  exists w, rest st = w ++ rest st' /\ seen st' = rev w ++ seen st.
Proof.
  induction 1; simpl;
    try (exists []; split; reflexivity).
  - exists [c]. split; reflexivity.
  - destruct IHMatches1 as (w1 & R1 & S1).
    destruct IHMatches2 as (w2 & R2 & S2).
    exists (w1 ++ w2). rewrite R1, R2, S2, S1, rev_app_distr, !app_assoc.
    split; reflexivity.
  - exact IHMatches.
  - exact IHMatches.
  - destruct IHMatches1 as (w1 & R1 & S1).
    destruct IHMatches2 as (w2 & R2 & S2).
    exists (w1 ++ w2). rewrite R1, R2, S2, S1, rev_app_distr, !app_assoc.
    split; reflexivity.
  - exact IHMatches.
Qed.

Lemma consumed_app st st' w :
  rest st = w ++ rest st' -> consumed st st' = w.
Proof.
  intros E. unfold consumed. rewrite E, length_app.
  replace (length w + length (rest st') - length (rest st')) with (length w)
    by lia.
  rewrite firstn_app, firstn_all, Nat.sub_diag. simpl. apply app_nil_r.
Qed.

Lemma rmatch_Some_Matches r st res :
  rmatch r st Some = Some res -> Matches r st res.
Proof.
  intros H. apply rmatch_sound in H. destruct H as (st' & M & E).
  inversion E; subst. exact M.
Qed.

Lemma rmatch_None_iff r st :
  rmatch r st Some = None <-> (forall st', ~ Matches r st st').
Proof.
  split.
  - intros H st' M. revert H. eapply rmatch_complete; eauto. discriminate.
  - intros H. destruct (rmatch r st Some) eqn:E; [|reflexivity].
    apply rmatch_Some_Matches in E. exfalso. eapply H; eauto.
Qed.

(** The leftmost rule, on [search]: what a hit is, and that no earlier
    position matches. *)
Lemma search_Some r : forall s sn m,
  search r sn s = Some m ->
  exists pre post,
    s = pre ++ post /\
    Matches r (MState (rev pre ++ sn) post []) (m_end m) /\
    m_index m = length sn + length pre /\
    m_text m = consumed (MState (rev pre ++ sn) post []) (m_end m) /\
    m_caps m = caps (m_end m) /\
    (forall pre' post', s = pre' ++ post' -> length pre' < length pre ->
       forall st', ~ Matches r (MState (rev pre' ++ sn) post' []) st').
Proof.
  induction s as [|c s IH]; intros sn m H; simpl in H.
  - destruct (rmatch r _ Some) as [st'|] eqn:E; [|discriminate].
    inversion H; subst; clear H. simpl.
    apply rmatch_Some_Matches in E.
    exists [], []. simpl. repeat split; auto.
    intros pre' post' _ Hl. simpl in Hl. lia.
  - destruct (rmatch r _ Some) as [st'|] eqn:E.
    + inversion H; subst; clear H. simpl.
      apply rmatch_Some_Matches in E.
      exists [], (c :: s). simpl. repeat split; auto.
      intros pre' post' _ Hl. simpl in Hl. lia.
    + apply IH in H. destruct H as (pre & post & Es & M & Ei & Et & Ec & Hmin).
      exists (c :: pre), post. simpl. rewrite <- app_assoc. simpl.
      repeat split; auto.
      * rewrite Es. reflexivity.
      * rewrite Ei. simpl. lia.
      * intros pre' post' E' Hl st' M'.
        destruct pre' as [|c' pre'].
        -- simpl in *. subst post'.
           eapply rmatch_None_iff in E. apply E. exact M'.
        -- simpl in E'. inversion E'; subst c'.
           eapply (Hmin pre' post'); eauto.
           ++ simpl in Hl. lia.
           ++ simpl in M'. rewrite <- app_assoc in M'. exact M'.
Qed.

Lemma search_None r : forall s sn,
  search r sn s = None <->
  (forall pre post, s = pre ++ post ->
     forall st', ~ Matches r (MState (rev pre ++ sn) post []) st').
Proof.
  induction s as [|c s IH]; intros sn; simpl.
  - destruct (rmatch r _ Some) as [st'|] eqn:E.
    + split; [discriminate|]. intros H. exfalso.
      apply rmatch_Some_Matches in E. apply (H [] [] eq_refl _ E).
    + split; [|reflexivity]. intros _ pre post Es st' M.
      destruct pre; [|discriminate]. simpl in Es. subst post.
      eapply rmatch_None_iff in E. apply E. exact M.
  - destruct (rmatch r _ Some) as [st'|] eqn:E.
    + split; [discriminate|]. intros H. exfalso.
      apply rmatch_Some_Matches in E. apply (H [] (c :: s) eq_refl _ E).
    + rewrite IH. split.
      * intros H pre post Es st' M.
        destruct pre as [|c' pre].
        -- simpl in Es. subst post.
           eapply rmatch_None_iff in E. apply E. exact M.
        -- simpl in Es. inversion Es; subst c'.
           eapply (H pre post); eauto.
           simpl in M. rewrite <- app_assoc in M. exact M.
      * intros H pre post Es st' M.
        apply (H (c :: pre) post) with (st' := st');
          [simpl; rewrite Es; reflexivity|].
        simpl. rewrite <- app_assoc. exact M.
Qed.

(** The same for [exec]. *)
Lemma exec_Some r s m :
  exec r s = Some m ->
  exists pre post,
    s = pre ++ m_text m ++ post /\
    m_index m = length pre /\
    Matches r (startAt pre (m_text m ++ post)) (m_end m) /\
    rest (m_end m) = post /\
    m_caps m = caps (m_end m) /\
    (forall pre' post', s = pre' ++ post' -> length pre' < length pre ->
       forall st', ~ Matches r (startAt pre' post') st').
Proof.
  intros H. apply search_Some in H.
  destruct H as (pre & post & Es & M & Ei & Et & Ec & Hmin).
  rewrite app_nil_r in M.
  destruct (Matches_reads _ _ _ M) as (w & R & S). simpl in R.
  pose proof (consumed_app (MState (rev pre ++ []) post []) (m_end m) w R)
    as Cw.
  rewrite <- Et in Cw.
  exists pre, (rest (m_end m)). subst w. rewrite <- R.
  repeat split; auto.
  intros pre' post' E' Hl st' M'. eapply (Hmin pre' post'); eauto.
  rewrite app_nil_r. exact M'.
Qed.

Lemma exec_None r s :
  exec r s = None <->
  (forall pre post, s = pre ++ post ->
     forall st', ~ Matches r (startAt pre post) st').
Proof.
  unfold exec. rewrite search_None. split; intros H pre post Es st' M.
  - apply (H pre post Es st'). rewrite app_nil_r. exact M.
  - apply (H pre post Es st'). rewrite app_nil_r in M. exact M.
Qed.

Lemma test_true_iff r s :
  test r s = true <->
  exists pre post st', s = pre ++ post /\ Matches r (startAt pre post) st'.
Proof.
  unfold test. destruct (exec r s) as [m|] eqn:E.
  - split; [intros _|reflexivity].
    apply exec_Some in E. destruct E as (pre & post & Es & _ & M & _).
    exists pre, (m_text m ++ post), (m_end m). split; auto.
  - split; [discriminate|]. intros (pre & post & st' & Es & M).
    exfalso. rewrite exec_None in E. eapply E; eauto.
Qed.

(** A hit leaves less input than the search was given. *)
Lemma search_rest_length r s sn m :
  search r sn s = Some m ->
  length (m_text m) + length (rest (m_end m)) <= length s.
Proof.
  intros H. apply search_Some in H.
  destruct H as (pre & post & Es & M & _ & Et & _).
  destruct (Matches_reads _ _ _ M) as (w & R & _). simpl in R.
  rewrite Et, (consumed_app _ _ w) by exact R.
  subst s. rewrite R, !length_app. lia.
Qed.

(** The fuel of [matchAll] is enough: more of it finds no further match. *)
Lemma matchAll_loop_fuel r : forall n s sn fuel1 fuel2,
  length s <= n -> n < fuel1 -> n < fuel2 ->
  matchAll_loop fuel1 r sn s = matchAll_loop fuel2 r sn s.
Proof.
  induction n as [|n IH]; intros s sn fuel1 fuel2 L F1 F2;
    (destruct fuel1 as [|fuel1]; [lia|]);
    (destruct fuel2 as [|fuel2]; [lia|]); simpl;
    destruct (search r sn s) as [m|] eqn:E; try reflexivity;
    pose proof (search_rest_length r s sn m E) as Hl;
    destruct (m_text m) as [|c t] eqn:Et;
    destruct (rest (m_end m)) as [|c' s'] eqn:Er; simpl in Hl;
    try reflexivity; try lia;
    f_equal; apply IH; simpl; lia.
Qed.

Lemma matchAll_fuel r s fuel :
  length s < fuel -> matchAll_loop fuel r [] s = matchAll r s.
Proof.
  intros F. unfold matchAll.
  apply (matchAll_loop_fuel r (length s)); lia.
Qed.

(* ===================================================================== *)
(** * Properties of strings                                                *)
(* ===================================================================== *)

Lemma cu_eqb_eq a b : cu_eqb a b = true <-> a = b.
Proof. apply N.eqb_eq. Qed.

Lemma str_eqb_eq a : forall b, str_eqb a b = true <-> a = b.
Proof.
  induction a as [|x a IH]; intros [|y b]; simpl; split; intros H;
    try reflexivity; try discriminate.
  - apply andb_true_iff in H. destruct H as [H1 H2].
    apply cu_eqb_eq in H1. apply IH in H2. subst. reflexivity.
  - inversion H; subst. apply andb_true_iff. split.
    + apply cu_eqb_eq. reflexivity.
    + apply IH. reflexivity.
Qed.

Lemma startsWith_iff p : forall s,
  startsWith s p = true <-> exists b, s = p ++ b.
Proof.
  induction p as [|x p IH]; intros s; simpl.
  - split; [intros _; exists s; reflexivity | reflexivity].
  - destruct s as [|y s].
    + split; [discriminate | intros (b & E); discriminate].
    + rewrite andb_true_iff, cu_eqb_eq, IH. split.
      * intros (E & b & Es). subst. exists b. reflexivity.
      * intros (b & E). inversion E; subst. split; [reflexivity|].
        exists b. reflexivity.
Qed.

(** [includes] is the substring relation. *)
Lemma includes_iff k : forall s,
  includes s k = true <-> exists a b, s = a ++ k ++ b.
Proof.
  induction s as [|c s IH]; simpl; rewrite orb_true_iff, startsWith_iff.
  - split.
    + intros [(b & E) | H]; [|discriminate]. exists [], b. exact E.
    + intros (a & b & E). left. destruct a; [|discriminate].
      exists b. exact E.
  - rewrite IH. split.
    + intros [(b & E) | (a & b & E)].
      * exists [], b. exact E.
      * exists (c :: a), b. rewrite E. reflexivity.
    + intros (a & b & E). destruct a as [|c' a].
      * left. exists b. exact E.
      * right. inversion E; subst. exists a, b. reflexivity.
Qed.

(** A loop that returns at the first keyword found returns exactly when
    some keyword of the list occurs. *)
Lemma keywordHit_iff lower : forall keywords,
  keywordHit lower keywords = true <->
  exists k, In k keywords /\ includes lower (lit k) = true.
Proof.
  induction keywords as [|k ks IH]; simpl.
  - split; [discriminate | intros (k & [] & _)].
  - destruct (includes lower (lit k)) eqn:E.
    + split; [|reflexivity]. intros _. exists k. auto.
    + rewrite IH. split.
      * intros (k' & I & H). exists k'. auto.
      * intros (k' & [->|I] & H); [congruence|]. exists k'. auto.
Qed.

(* ===================================================================== *)
(** * The keyword categorizer                                              *)
(* ===================================================================== *)

Section CategorizerFacts.

Variable lower : jsstr.
Variable type : txtype.

(** A row of the table the scan passes over: Income on a debit. *)
Definition skippedRow (c : string) : Prop :=
  c = "Income"%string /\ type = debit.

Definition rowHit (kws : list string) : Prop :=
  exists k, In k kws /\ includes lower (lit k) = true.

Lemma skipped_test c :
  (String.eqb c "Income" && negb (txtype_eqb type credit))%bool = true <->
  skippedRow c.
Proof.
  unfold skippedRow.
  rewrite andb_true_iff, String.eqb_eq, negb_true_iff.
  destruct type; simpl; intuition congruence.
Qed.

(** The scan returns the first row, in the order of the table, that is not
    passed over and has a keyword in the description. *)
Lemma scanCategories_first : forall entries before c kws after,
  entries = before ++ (c, kws) :: after ->
  (forall c' kws', In (c', kws') before -> skippedRow c' \/ ~ rowHit kws') ->
  ~ skippedRow c -> rowHit kws ->
  scanCategories lower type entries = Some c.
Proof.
  intros entries before. revert entries.
  induction before as [|[c0 k0] before IH]; intros entries c kws after E Hb Hs Hh;
    subst entries; simpl.
  - destruct (String.eqb c "Income" && negb (txtype_eqb type credit))%bool eqn:S.
    + apply skipped_test in S. contradiction.
    + apply keywordHit_iff in Hh. rewrite Hh. reflexivity.
  - destruct (String.eqb c0 "Income" && negb (txtype_eqb type credit))%bool eqn:S.
    + eapply IH; eauto. intros. apply Hb. right. assumption.
    + destruct (keywordHit lower k0) eqn:K.
      * exfalso. destruct (Hb c0 k0 (or_introl eq_refl)) as [H|H].
        -- apply skipped_test in H. congruence.
        -- apply H. apply keywordHit_iff. exact K.
      * eapply IH; eauto. intros. apply Hb. right. assumption.
Qed.

Lemma scanCategories_none : forall entries,
  (forall c kws, In (c, kws) entries -> skippedRow c \/ ~ rowHit kws) ->
  scanCategories lower type entries = None.
Proof.
  induction entries as [|[c0 k0] entries IH]; intros H; simpl; [reflexivity|].
  destruct (String.eqb c0 "Income" && negb (txtype_eqb type credit))%bool eqn:S.
  - apply IH. intros. apply H. right. assumption.
  - destruct (keywordHit lower k0) eqn:K.
    + exfalso. destruct (H c0 k0 (or_introl eq_refl)) as [H'|H'].
      * apply skipped_test in H'. congruence.
      * apply H'. apply keywordHit_iff. exact K.
    + apply IH. intros. apply H. right. assumption.
Qed.

End CategorizerFacts.

(** The keywords of the Income row, spelled out. *)
Definition incomeKeywords : list string :=
  ["salary"; "payroll"; "deposit"; "credited"; "refund"; "transfer in";
   "bonus"; "commission"; "dividend"; "interest"; "payment received"]%string.

(** C5. [categorizeTransaction] is a function of its two arguments (any
    lower-casing function standing for [toLowerCase]). On a credit, one of
    the eleven Income keywords (salary, payroll, deposit, credited, refund,
    transfer in, bonus, commission, dividend, interest, payment received)
    found in the lower-cased description gives "Income" at once, before
    any row of the table: a credit "Salary from restaurant" is Income, the
    same description on a debit is Dining. Otherwise the table is scanned in
    its declared order (Dining, Groceries, Transport, Utilities, Rent,
    Income, Shopping, Healthcare, Entertainment), the Income row passed over
    on a debit, and the first row with a keyword occurring in the
    lower-cased description gives the category; with no such row the result
    is "Uncategorized". The three examples of the specification evaluate as
    stated. *)
Theorem categorize_first_match_wins
    (toLowerCase : jsstr -> jsstr) (description : jsstr) (type : txtype) :
  let lower := toLowerCase description in
  let result := categorizeTransaction toLowerCase description type in
  map fst CATEGORY_KEYWORDS =
    ["Dining"; "Groceries"; "Transport"; "Utilities"; "Rent"; "Income";
     "Shopping"; "Healthcare"; "Entertainment"]%string
  /\ (forall c kws, In (c, kws) CATEGORY_KEYWORDS ->
        c = "Income"%string -> kws = incomeKeywords)
  /\ (type = credit -> rowHit lower incomeKeywords -> result = lit "Income")
  /\ (forall before c kws after,
        ~ (type = credit /\ rowHit lower incomeKeywords) ->
        CATEGORY_KEYWORDS = before ++ (c, kws) :: after ->
        (forall c' kws', In (c', kws') before ->
           skippedRow type c' \/ ~ rowHit lower kws') ->
        ~ skippedRow type c -> rowHit lower kws ->
        result = lit c)
  /\ (~ (type = credit /\ rowHit lower incomeKeywords) ->
      (forall c kws, In (c, kws) CATEGORY_KEYWORDS ->
         skippedRow type c \/ ~ rowHit lower kws) ->
      result = lit "Uncategorized")
  /\ categorizeTransaction asciiLower (lit "Salary from restaurant") credit
     = lit "Income"
  /\ categorizeTransaction asciiLower (lit "Salary from restaurant") debit
     = lit "Dining"
  /\ categorizeTransaction asciiLower (lit "Payroll Deposit") credit
     = lit "Income"
  /\ categorizeTransaction asciiLower (lit "Starbucks Coffee") debit
     = lit "Dining"
  /\ categorizeTransaction asciiLower (lit "Unknown Store XYZ") debit
     = lit "Uncategorized".
Proof.
  intros lower result.
  assert (Ei : keywordsOf CATEGORY_KEYWORDS "Income" = incomeKeywords)
    by reflexivity.
  assert (Hno : ~ (type = credit /\ rowHit lower incomeKeywords) ->
          (txtype_eqb type credit
           && keywordHit lower (keywordsOf CATEGORY_KEYWORDS "Income"))%bool
          = false).
  { intros H. rewrite Ei. destruct (txtype_eqb type credit) eqn:T;
      [|reflexivity].
    destruct (keywordHit lower incomeKeywords) eqn:K; [|reflexivity].
    exfalso. apply H. split.
    - destruct type; [discriminate | reflexivity].
    - apply keywordHit_iff. exact K. }
  split; [reflexivity|].
  split.
  { intros c kws I E. subst c. simpl in I.
    repeat (destruct I as [I|I]; [inversion I; reflexivity|]).
    destruct I. }
  split; [|split; [|split; [|repeat split; vm_compute; reflexivity]]].
  - intros T H. subst result. unfold categorizeTransaction.
    apply keywordHit_iff in H. fold lower. rewrite Ei, T, H. reflexivity.
  - intros before c kws after N E Hb Hs Hh.
    subst result. unfold categorizeTransaction. fold lower.
    rewrite (Hno N).
    rewrite (scanCategories_first _ _ _ before c kws after E Hb Hs Hh).
    reflexivity.
  - intros N H. subst result. unfold categorizeTransaction.
    fold lower. rewrite (Hno N).
    rewrite (scanCategories_none _ _ _ H). reflexivity.
Qed.

(* ===================================================================== *)
(** * The validator of the AI extractor                                    *)
(* ===================================================================== *)

(** Inversion of a match along the syntax of a pattern made of
    constructors. *)
Ltac inv_match H := inversion H; subst; clear H.

Ltac inv_matches :=
  repeat match goal with
  | H : Matches (RSeq _ _) _ _ |- _ => inv_match H
  | H : Matches REmpty _ _ |- _ => inv_match H
  | H : Matches (RChar _) _ _ |- _ => inv_match H
  | H : Matches RBegin _ _ |- _ => inv_match H
  | H : Matches REnd _ _ |- _ => inv_match H
  | H : Matches (RGroup _ _) _ _ |- _ => inv_match H
  | H : Matches RWordB _ _ |- _ => inv_match H
  | H : Matches (RAlt _ _) _ _ |- _ => inv_match H
  end.

Lemma rev_nil_inv (A : Type) (l : list A) : rev l = [] -> l = [].
Proof.
  intros H. apply (f_equal (@rev A)) in H. rewrite rev_involutive in H.
  exact H.
Qed.

(** The shape [/^\d{4}-\d{2}-\d{2}$/] accepts: four digits, a dash, two
    digits, a dash, two digits, and nothing else. *)
Definition isYMD (s : jsstr) : Prop :=
  exists y1 y2 y3 y4 m1 m2 d1 d2,
    s = [y1; y2; y3; y4; ch "-"; m1; m2; ch "-"; d1; d2] /\
    Forall (fun c => isDigit c = true) [y1; y2; y3; y4; m1; m2; d1; d2].

Lemma ymdRe_iff s : test ymdRe s = true <-> isYMD s.
Proof.
  rewrite test_true_iff. split.
  - intros (pre & post & st' & Es & M).
    unfold startAt in M.
    cbv beta iota delta [ymdRe rseq rrange rupto rdigit rc rchar] in M.
    inv_matches.
    repeat match goal with
           | H : seen _ = [] |- _ => simpl in H; apply rev_nil_inv in H; subst
           | H : rest _ = [] |- _ => simpl in H; subst
           | H : cu_eqb _ _ = true |- _ => apply cu_eqb_eq in H; subst
           end.
    simpl.
    do 8 eexists. split; [reflexivity|].
    repeat constructor; assumption.
  - intros (y1 & y2 & y3 & y4 & m1 & m2 & d1 & d2 & Es & F).
    repeat match goal with
           | H : Forall _ (_ :: _) |- _ => inv_match H
           end.
    exists []. do 2 eexists. split; [reflexivity|].
    unfold startAt.
    cbv beta iota delta [ymdRe rseq rrange rupto rdigit rc rchar].
    repeat (econstructor; try eassumption; try reflexivity).
Qed.

Lemma includesValue_iff l v :
  includesValue l v = true <-> exists x, In x l /\ v = JString (lit x).
Proof.
  destruct v; simpl;
    try (split; [discriminate | intros (x & _ & E); discriminate]).
  rewrite existsb_exists. split.
  - intros (x & I & E). apply str_eqb_eq in E. subst. exists x. auto.
  - intros (x & I & E). inversion E; subst. exists x. split; auto.
    apply str_eqb_eq. reflexivity.
Qed.

Lemma getField_setField_same fs key v :
  getField (setField fs key v) key = v.
Proof.
  induction fs as [|[k w] fs IH]; simpl.
  - assert (E : str_eqb key key = true) by (apply str_eqb_eq; reflexivity).
    rewrite E. reflexivity.
  - destruct (str_eqb k key) eqn:E; simpl; rewrite E; auto.
Qed.

Lemma getField_setField_other fs key key' v :
  key' <> key ->
  getField (setField fs key v) key' = getField fs key'.
Proof.
  intros N. induction fs as [|[k w] fs IH]; simpl.
  - destruct (str_eqb key key') eqn:E; [|reflexivity].
    apply str_eqb_eq in E. congruence.
  - destruct (str_eqb k key) eqn:E; simpl.
    + destruct (str_eqb k key') eqn:E'; [|reflexivity].
      apply str_eqb_eq in E, E'. congruence.
    + rewrite IH. reflexivity.
Qed.

Lemma Qltb_false_iff a b : Qltb a b = false <-> (b <= a)%Q.
Proof.
  unfold Qltb. rewrite negb_false_iff. apply Qle_bool_iff.
Qed.

Lemma Qltb_true_iff a b : Qltb a b = true <-> (a < b)%Q.
Proof.
  unfold Qltb. rewrite negb_true_iff. split.
  - intros H. apply Qnot_le_lt. intros L. apply Qle_bool_iff in L. congruence.
  - intros H. destruct (Qle_bool b a) eqn:E; [|reflexivity].
    apply Qle_bool_iff in E. exfalso. eapply Qlt_not_le; eauto.
Qed.

Section ValidateFacts.

Variable NumberToString : Q -> jsstr.

(** The six conditions of the validator, on the fields of a record. *)
Definition typeOk (v : jsvalue) : Prop :=
  v = JString (lit "in") \/ v = JString (lit "out").

Definition categoryOk (v : jsvalue) : Prop :=
  exists c, In c cats /\ v = JString (lit c).

Definition amountOk (v : jsvalue) : Prop :=
  (exists q, v = JNumber q /\ (0 <= q)%Q) \/ v = JInfinity false.

Definition dateOk (v : jsvalue) : Prop :=
  v = JNull \/ isYMD (ToString NumberToString v).

Definition nullOrString (v : jsvalue) : Prop :=
  v = JNull \/ exists s, v = JString s.

Definition recordOk (rec : jsvalue) : Prop :=
  typeOk (prop rec "type") /\ categoryOk (prop rec "category") /\
  amountOk (prop rec "amount") /\ dateOk (prop rec "date") /\
  nullOrString (prop rec "sub_category") /\ nullOrString (prop rec "note").

Lemma typeOk_test v :
  includesValue ["in"; "out"]%string v = true <-> typeOk v.
Proof.
  rewrite includesValue_iff. unfold typeOk. simpl. split.
  - intros (x & [<-|[<-|[]]] & E); auto.
  - intros [E|E]; [exists "in"%string | exists "out"%string]; auto.
Qed.

Lemma amountOk_test v :
  match v with
  | JNumber amount => Qltb amount 0
  | JInfinity negative => negative
  | _ => true
  end = false <->
  amountOk v.
Proof.
  unfold amountOk. destruct v;
    try (split; [discriminate
                | intros [(q' & E & _)|E]; discriminate]).
  - rewrite Qltb_false_iff. split.
    + intros H. left. exists q. auto.
    + intros [(q' & E & H)|E]; [|discriminate].
      inversion E; subst. exact H.
  - split.
    + intros ->. right. reflexivity.
    + intros [(q' & E & _)|E]; [discriminate|].
      inversion E. reflexivity.
Qed.

Lemma dateOk_test v :
  (negb (isNull v) && negb (test ymdRe (ToString NumberToString v)))%bool
  = false <-> dateOk v.
Proof.
  unfold dateOk. rewrite <- ymdRe_iff.
  destruct (test ymdRe (ToString NumberToString v)) eqn:T.
  - rewrite andb_false_r. intuition.
  - destruct v; simpl; intuition; try discriminate.
Qed.

Lemma nullOrString_test v :
  (negb (isNull v) && negb (isString v))%bool = false <-> nullOrString v.
Proof.
  unfold nullOrString, isString.
  destruct v; simpl; split; intros H; try discriminate; auto;
    try (destruct H as [H|(s' & H)]; discriminate).
  right. eexists. reflexivity.
Qed.

End ValidateFacts.

(** The branch of the proof below where [validate] throws: no record is
    returned, and the message is the one of the failed check. *)
Ltac validate_throws Hv pick :=
  split;
  [ split;
    [ intros (r & E); rewrite Hv in E; discriminate
    | intros (A1 & A2 & A3 & A4 & A5 & A6); contradiction ]
  | split;
    [ intros msg E; rewrite Hv in E; inversion E; subst; pick
    | split;
      [ intros r s E; rewrite Hv in E; discriminate
      | split; [ intros r E; rewrite Hv in E; discriminate | assumption ] ] ] ].

(** On a parsed object, [validate] returns a record exactly when the six
    field conditions hold: type is "in" or "out", category is one of the
    values of [cats], amount is a number >= 0, date is null or its string
    form, as [RegExp.prototype.test] takes it, matches YYYY-MM-DD,
    sub_category is null or a string, note is null or a string. A violation
    throws an error whose message names the first offending field. When
    sub_category is a string, the returned record has it lower-cased and
    cut to at most 60 code units, the other fields unchanged; otherwise the
    record is returned as it is. *)
Lemma validate_accepts_exactly
    (toLowerCase : jsstr -> jsstr) (NumberToString : Q -> jsstr)
    (fields : list (jsstr * jsvalue)) :
  let rec := JObject fields in
  let v := validate toLowerCase NumberToString rec in
  ((exists r, v = Ok r) <-> recordOk NumberToString rec)
  /\ (forall msg, v = Throw msg ->
        (~ typeOk (prop rec "type")
         /\ msg = lit "Invalid type - must be 'in' or 'out'")
        \/ (~ categoryOk (prop rec "category")
            /\ msg = lit "Invalid category")
        \/ (~ amountOk (prop rec "amount")
            /\ msg = lit "Invalid amount - must be positive number")
        \/ (~ dateOk NumberToString (prop rec "date")
            /\ msg = lit "Invalid date format - must be YYYY-MM-DD")
        \/ (~ nullOrString (prop rec "sub_category")
            /\ msg = lit "Invalid sub_category")
        \/ (~ nullOrString (prop rec "note")
            /\ msg = lit "Invalid note"))
  /\ (forall r s, v = Ok r -> prop rec "sub_category" = JString s ->
        prop r "sub_category" = JString (firstn 60 (toLowerCase s))
        /\ length (firstn 60 (toLowerCase s)) <= 60
        /\ (forall key, lit key <> lit "sub_category" ->
              prop r key = prop rec key))
  /\ (forall r, v = Ok r -> prop rec "sub_category" = JNull -> r = rec)
  /\ (forall s, dateOk NumberToString (JString s) <-> isYMD s).
Proof.
  intros rec v.
  assert (F5 : forall s, dateOk NumberToString (JString s) <-> isYMD s).
  { intros s. unfold dateOk. simpl. split.
    - intros [E|E]; [discriminate | exact E].
    - intros E. right. exact E. }
  assert (Hv : v = validate toLowerCase NumberToString rec) by reflexivity.
  unfold validate in Hv. subst rec. simpl truthy in Hv. simpl typeof in Hv.
  simpl negb in Hv. simpl orb in Hv. cbv iota in Hv.
  set (rec := JObject fields) in *.
  pose proof (typeOk_test (prop rec "type")) as Ty.
  pose proof (includesValue_iff cats (prop rec "category")) as Ca.
  pose proof (amountOk_test (prop rec "amount")) as Am.
  pose proof (dateOk_test NumberToString (prop rec "date")) as Da.
  pose proof (nullOrString_test (prop rec "sub_category")) as Su.
  pose proof (nullOrString_test (prop rec "note")) as No.
  fold (categoryOk (prop rec "category")) in Ca.
  unfold recordOk.
  destruct (includesValue ["in"; "out"]%string (prop rec "type")) eqn:T;
    simpl negb in Hv; cbv iota in Hv.
  2:{ assert (~ typeOk (prop rec "type")) by (rewrite <- Ty; discriminate).
      validate_throws Hv ltac:(left; auto). }
  destruct (includesValue cats (prop rec "category")) eqn:C;
    simpl negb in Hv; cbv iota in Hv.
  2:{ assert (~ categoryOk (prop rec "category"))
        by (rewrite <- Ca; discriminate).
      validate_throws Hv ltac:(right; left; auto). }
  destruct (match prop rec "amount" with
            | JNumber amount => Qltb amount 0
            | JInfinity negative => negative
            | _ => true
            end) eqn:A.
  { assert (~ amountOk (prop rec "amount")) by (rewrite <- Am; discriminate).
    validate_throws Hv ltac:(do 2 right; left; auto). }
  destruct (negb (isNull (prop rec "date"))
            && negb (test ymdRe (ToString NumberToString (prop rec "date"))))%bool
    eqn:D.
  { assert (~ dateOk NumberToString (prop rec "date"))
      by (rewrite <- Da; discriminate).
    validate_throws Hv ltac:(do 3 right; left; auto). }
  destruct (negb (isNull (prop rec "sub_category"))
            && negb (isString (prop rec "sub_category")))%bool eqn:S.
  { assert (~ nullOrString (prop rec "sub_category"))
      by (rewrite <- Su; discriminate).
    validate_throws Hv ltac:(do 4 right; left; auto). }
  destruct (negb (isNull (prop rec "note"))
            && negb (isString (prop rec "note")))%bool eqn:N.
  { assert (~ nullOrString (prop rec "note")) by (rewrite <- No; discriminate).
    validate_throws Hv ltac:(do 5 right; auto). }
  assert (Hok : exists r, v = Ok r).
  { rewrite Hv. destruct (prop rec "sub_category"); eexists; reflexivity. }
  split; [|split; [|split; [|split]]].
  - split; [intros _ | intros _; exact Hok].
    repeat split; [apply Ty | apply Ca | apply Am | apply Da | apply Su
                   | apply No]; auto.
  - intros msg E. destruct Hok as (r & E'). congruence.
  - intros r s E Es. rewrite Hv, Es in E. inversion E; subst r.
    unfold prop, getProp, rec, setProp. cbv beta iota.
    split; [|split].
    + rewrite getField_setField_same. reflexivity.
    + apply firstn_le_length.
    + intros key Hk. rewrite getField_setField_other; auto.
  - intros r E Es. rewrite Hv, Es in E. inversion E. reflexivity.
  - exact F5.
Qed.

(* ===================================================================== *)
(** * The orchestrator                                                     *)
(* ===================================================================== *)

Section OrchestratorFacts.

Variable toLowerCase : jsstr -> jsstr.
Variable today : jsstr.
Variable hostDate : jsstr -> option jsstr.
Variable NumberToString : Q -> jsstr.

(** Only an object gets through [validate], and what comes out is an object
    with the same fields but for a normalized sub_category. *)
Lemma validate_Ok_object rec r :
  validate toLowerCase NumberToString rec = Ok r ->
  exists fs, rec = JObject fs.
Proof.
  destruct rec; try (cbv; discriminate).
  - unfold validate. simpl. destruct b; discriminate.
  - unfold validate. simpl. destruct (negb (Qeq_bool q 0)); discriminate.
  - unfold validate. simpl. destruct s; discriminate.
  - intros _. eexists. reflexivity.
Qed.

Lemma validate_Ok_cases fs r :
  validate toLowerCase NumberToString (JObject fs) = Ok r ->
  recordOk NumberToString (JObject fs) /\
  (r = JObject fs \/
   exists s, prop (JObject fs) "sub_category" = JString s /\
             r = setProp (JObject fs) "sub_category"
                   (JString (slice0 60 (toLowerCase s)))).
Proof.
  unfold validate. simpl truthy. simpl typeof. simpl negb. simpl orb.
  cbv iota. set (rec := JObject fs).
  destruct (includesValue ["in"; "out"]%string (prop rec "type")) eqn:T;
    [|discriminate].
  destruct (includesValue cats (prop rec "category")) eqn:C; [|discriminate].
  simpl negb. cbv iota.
  destruct (match prop rec "amount" with
            | JNumber amount => Qltb amount 0
            | JInfinity negative => negative
            | _ => true
            end) eqn:A; [discriminate|].
  destruct (negb (isNull (prop rec "date"))
            && negb (test ymdRe (ToString NumberToString (prop rec "date"))))%bool
    eqn:D; [discriminate|].
  destruct (negb (isNull (prop rec "sub_category"))
            && negb (isString (prop rec "sub_category")))%bool eqn:S;
    [discriminate|].
  destruct (negb (isNull (prop rec "note"))
            && negb (isString (prop rec "note")))%bool eqn:N; [discriminate|].
  intros H. split.
  - repeat split.
    + apply typeOk_test. exact T.
    + apply includesValue_iff in C. exact C.
    + apply amountOk_test. exact A.
    + apply (dateOk_test NumberToString). exact D.
    + apply nullOrString_test. exact S.
    + apply nullOrString_test. exact N.
  - destruct (prop rec "sub_category") eqn:E; inversion H; subst; auto.
    right. eexists. split; reflexivity.
Qed.

Lemma prop_setProp_same fs key v :
  prop (setProp (JObject fs) key v) key = v.
Proof. unfold prop, getProp, setProp. apply getField_setField_same. Qed.

Lemma prop_setProp_other fs key key' v :
  lit key' <> lit key ->
  prop (setProp (JObject fs) key v) key' = prop (JObject fs) key'.
Proof.
  intros N. unfold prop, getProp, setProp.
  apply getField_setField_other. exact N.
Qed.

(** The fields of a record returned by [validate]. *)
Lemma validate_Ok_fields rec r :
  validate toLowerCase NumberToString rec = Ok r ->
  truthy r = true /\
  typeOk (prop r "type") /\ categoryOk (prop r "category") /\
  amountOk (prop r "amount") /\ dateOk NumberToString (prop r "date") /\
  nullOrString (prop r "sub_category") /\ nullOrString (prop r "note").
Proof.
  intros H. destruct (validate_Ok_object _ _ H) as (fs & ->).
  apply validate_Ok_cases in H.
  destruct H as ((T & C & A & D & S & N) & [->|(s & Es & ->)]).
  - repeat split; auto.
  - rewrite prop_setProp_same.
    rewrite !prop_setProp_other by (vm_compute; discriminate).
    repeat split; auto. right. eexists. reflexivity.
Qed.

(** A date that passed validation is kept by [||]: it is null or truthy. *)
Lemma isYMD_nonempty s : isYMD s -> s <> [].
Proof.
  intros (y1 & y2 & y3 & y4 & m1 & m2 & d1 & d2 & E & _). subst.
  discriminate.
Qed.

Lemma dateOk_orElse v d :
  dateOk NumberToString v ->
  orElse v d = if isNull v then d else v.
Proof.
  intros [->|Y]; [reflexivity|].
  destruct v; try reflexivity; unfold orElse; simpl.
  - exfalso. revert Y. rewrite <- ymdRe_iff. vm_compute. discriminate.
  - exfalso. revert Y. rewrite <- ymdRe_iff. destruct b; vm_compute; discriminate.
  - destruct (Qeq_bool q 0) eqn:Z; [|reflexivity].
    exfalso. revert Y. simpl. rewrite Z. rewrite <- ymdRe_iff.
    vm_compute. discriminate.
  - destruct s; [|reflexivity]. exfalso. simpl in Y.
    apply (isYMD_nonempty _ Y). reflexivity.
Qed.

End OrchestratorFacts.

(** The description the orchestrator takes from a record: its sub_category
    when that is a non-empty string, else "Transaction". *)
Definition descriptionOf (r : jsvalue) : jsvalue :=
  match prop r "sub_category" with
  | JString (c :: s) => JString (c :: s)
  | _ => JString (lit "Transaction")
  end.

(** The body of a successful response of the structuring function. *)
Definition okBody (r : jsvalue) : jsvalue :=
  JObject [(lit "ok", JBool true); (lit "record", r)].

Definition today0 : jsstr := lit "2026-11-02".

(** A host whose generic date parsing accepts nothing. *)
Definition hostRejects : jsstr -> option jsstr := fun _ => None.

Definition numberToString0 : Q -> jsstr := fun _ => lit "1".

(** A record of the AI path whose merchant name is the empty string. *)
Definition recordEmptyName : jsvalue :=
  JObject [(lit "date", JNull); (lit "type", JString (lit "out"));
           (lit "category", JString (lit "other"));
           (lit "sub_category", JString []);
           (lit "amount", JNumber 5); (lit "note", JNull)].

(** What the orchestrator treats as an invalid result: [json()] threw, or
    [ok] or [record] is missing or falsy. *)
Definition invalidBody (body : option jsvalue) : Prop :=
  match body with
  | None => True
  | Some v => (truthy (prop v "ok") && truthy (prop v "record"))%bool = false
  end.

(** C10. Fallback is decided by the HTTP status alone. A response with an
    OK status whose body has a falsy [ok] or no [record] does not reach the
    legacy parser: the handler's catch answers 500 "Failed to structure
    receipt data", and no transaction is produced. The legacy path is taken
    exactly on a non-OK status. *)
Theorem ok_status_invalid_body_is_error
    (toLowerCase : jsstr -> jsstr) (today : jsstr)
    (hostDate : jsstr -> option jsstr) (ocrText : jsstr)
    (status : Z) (body : option jsvalue) :
  statusOk status = true ->
  invalidBody body ->
  (exists why,
     structureReceipt toLowerCase today hostDate ocrText
       (FetchResponse status body)
     = inr {| er_status := 500;
              er_error := "Failed to structure receipt data";
              er_details := why |})
  /\ (forall status' body',
        statusOk status' = false ->
        structureReceipt toLowerCase today hostDate ocrText
          (FetchResponse status' body')
        = inl (legacyStructured toLowerCase today hostDate ocrText))
  /\ (forall status' v,
        statusOk status' = true -> ~ invalidBody (Some v) ->
        structureReceipt toLowerCase today hostDate ocrText
          (FetchResponse status' (Some v))
        = inl (recordStructured today (prop v "record"))).
Proof.
  intros Hs Hb. split; [|split].
  - unfold structureReceipt. rewrite Hs. simpl negb. cbv iota.
    destruct body as [v|]; [|exists HostException; reflexivity].
    simpl in Hb. unfold prop in Hb.
    destruct v; simpl in *;
      try (exists HostException; reflexivity);
      try (exists InvalidResult; reflexivity).
    rewrite Hb. exists InvalidResult. reflexivity.
  - intros status' body' Hs'. unfold structureReceipt. rewrite Hs'.
    reflexivity.
  - intros status' v Hs' Hv. unfold structureReceipt. rewrite Hs'.
    simpl negb. cbv iota. simpl in Hv. apply not_false_is_true in Hv.
    unfold prop in *.
    destruct v; simpl in *; try discriminate.
    rewrite Hv. reflexivity.
Qed.

(** C10 at a 200 response whose body is [{ok: false, error: ...}]. *)
Lemma ok_status_invalid_body_witness :
  exists why,
    structureReceipt asciiLower today0 hostRejects (lit "Total 5")
      (FetchResponse 200
         (Some (JObject [(lit "ok", JBool false);
                         (lit "error", JString (lit "Error: x"))])))
    = inr {| er_status := 500;
             er_error := "Failed to structure receipt data";
             er_details := why |}.
Proof.
  apply (ok_status_invalid_body_is_error asciiLower today0 hostRejects
           (lit "Total 5") 200
           (Some (JObject [(lit "ok", JBool false);
                           (lit "error", JString (lit "Error: x"))]))).
  - reflexivity.
  - reflexivity.
Defined.

(** A record of the AI path whose date is not a string but an array that
    holds one. *)
Definition recordArrayDate : jsvalue :=
  JObject [(lit "date", JArray [JString (lit "2025-01-01")]);
           (lit "type", JString (lit "out"));
           (lit "category", JString (lit "other"));
           (lit "sub_category", JNull);
           (lit "amount", JNumber 5); (lit "note", JNull)].

(** C2 at its failing input. The date check hands [rec.date] to
    [RegExp.prototype.test], which takes the string form of its argument:
    a date that is an array holding "2025-01-01" is neither null nor a
    string matching YYYY-MM-DD, yet it passes [validate], whatever the host
    functions, no error names the field, and the orchestrator stores the
    array as the date of the transaction. The checks of sub_category and
    note ask for [typeof] string first; the check of the date does not. *)
Theorem array_date_is_accepted
    (toLowerCase : jsstr -> jsstr) (today : jsstr)
    (hostDate : jsstr -> option jsstr) (NumberToString : Q -> jsstr)
    (ocrText : jsstr) :
  prop recordArrayDate "date" <> JNull
  /\ isString (prop recordArrayDate "date") = false
  /\ validate toLowerCase NumberToString recordArrayDate = Ok recordArrayDate
  /\ structureReceipt toLowerCase today hostDate ocrText
       (FetchResponse 200 (Some (okBody recordArrayDate)))
     = inl {| sd_date := JArray [JString (lit "2025-01-01")];
              sd_type := debit;
              sd_category := JString (lit "other");
              sd_description := JString (lit "Transaction");
              sd_amount := JNumber 5; sd_notes := JNull |}.
Proof.
  split; [discriminate|]. split; [reflexivity|]. split; reflexivity.
Qed.

(** A record of the AI path whose amount is zero. *)
Definition recordZeroAmount : jsvalue :=
  JObject [(lit "date", JNull); (lit "type", JString (lit "out"));
           (lit "category", JString (lit "other"));
           (lit "sub_category", JNull);
           (lit "amount", JNumber 0); (lit "note", JNull)].

(** C8 at its failing input. A record with amount 0 passes [validate]
    unchanged, whatever the host functions, and the orchestrator stores it
    through the AI path with amount 0: there is no error and no fallback. *)
Theorem zero_amount_is_accepted
    (toLowerCase : jsstr -> jsstr) (today : jsstr)
    (hostDate : jsstr -> option jsstr) (NumberToString : Q -> jsstr)
    (ocrText : jsstr) :
  validate toLowerCase NumberToString recordZeroAmount = Ok recordZeroAmount
  /\ structureReceipt toLowerCase today hostDate ocrText
       (FetchResponse 200 (Some (okBody recordZeroAmount)))
     = inl {| sd_date := JString today; sd_type := debit;
              sd_category := JString (lit "other");
              sd_description := JString (lit "Transaction");
              sd_amount := JNumber 0; sd_notes := JNull |}.
Proof.
  split; reflexivity.
Qed.

(* ===================================================================== *)
(** * Locating the JSON object in a reply                                  *)
(* ===================================================================== *)

Lemma app_same_length (A : Type) (a b x y : list A) :
  a ++ x = b ++ y -> length a = length b -> a = b /\ x = y.
Proof.
  revert b. induction a as [|c a IH]; intros [|d b] E L; simpl in *;
    try discriminate; auto.
  inversion E; subst. destruct (IH b H1) as [-> ->]; [lia|]. auto.
Qed.

(** When two splits of one text differ in where they cut, the earlier cut
    falls inside the longer prefix. *)
Lemma app_shorter_prefix (A : Type) (a b x : list A) (c : A) (y : list A) :
  a ++ x = b ++ c :: y -> length b < length a -> In c a.
Proof.
  revert b. induction a as [|d a IH]; intros b E L; simpl in *; [lia|].
  destruct b as [|e b]; simpl in *.
  - inversion E; subst. left. reflexivity.
  - inversion E; subst. right. apply (IH b); [assumption | lia].
Qed.

Lemma star_any_reads : forall w sn s cs,
  Matches (RStar (RChar anyChar)) (MState sn (w ++ s) cs)
          (MState (rev w ++ sn) s cs).
Proof.
  induction w as [|c w IH]; intros sn s cs; simpl.
  - constructor.
  - eapply MStarStep.
    + constructor. reflexivity.
    + simpl. rewrite length_app. lia.
    + rewrite <- app_assoc. simpl. apply IH.
Qed.

(** What [/\{[\s\S]*\}$/] matches at a position: an opening brace, any
    text, and a closing brace that ends the subject. *)
Lemma jsonRe_at pre post st' :
  Matches jsonRe (startAt pre post) st' ->
  exists mid, post = ch "{" :: mid ++ [ch "}"] /\ rest st' = [].
Proof.
  unfold startAt, jsonRe.
  cbv beta iota delta [rseq rc rchar].
  intros M. inv_matches.
  match goal with H : Matches (RStar _) _ _ |- _ =>
    apply Matches_reads in H; destruct H as (w & R & S) end.
  repeat match goal with
         | H : cu_eqb _ _ = true |- _ => apply cu_eqb_eq in H; subst
         | H : rest _ = [] |- _ => simpl in H; subst
         end.
  simpl in R, S. subst.
  exists w. split; reflexivity.
Qed.

Lemma jsonRe_matches pre mid :
  exists st',
    Matches jsonRe (startAt pre (ch "{" :: mid ++ [ch "}"])) st'.
Proof.
  unfold startAt, jsonRe. cbv beta iota delta [rseq rc rchar].
  eexists. econstructor; [constructor; reflexivity|].
  econstructor; [apply star_any_reads|].
  econstructor; [constructor; reflexivity|].
  constructor. reflexivity.
Qed.

(** The match of [extractJson]: from the first opening brace to the end of
    the reply, when the reply ends with a closing brace. *)
Lemma jsonRe_exec_found pre mid :
  ~ In (ch "{") pre ->
  exists m,
    exec jsonRe (pre ++ ch "{" :: mid ++ [ch "}"]) = Some m /\
    m_text m = ch "{" :: mid ++ [ch "}"].
Proof.
  intros Hpre.
  destruct (exec jsonRe (pre ++ ch "{" :: mid ++ [ch "}"])) as [m|] eqn:E.
  - exists m. split; [reflexivity|].
    apply exec_Some in E.
    destruct E as (pre' & post' & Es & _ & M & R & _ & Hmin).
    destruct (jsonRe_at _ _ _ M) as (mid' & Et & Rn).
    subst post'. rewrite Rn, app_nil_r in Es, Et, M.
    assert (L : length pre' = length pre).
    { destruct (Nat.lt_trichotomy (length pre') (length pre)) as [L|[L|L]];
        [exfalso | exact L | exfalso].
      - rewrite Et in Es. apply Hpre.
        eapply app_shorter_prefix; eauto.
      - destruct (jsonRe_matches pre mid) as (st' & M').
        eapply (Hmin pre); eauto. }
    symmetry in Es. destruct (app_same_length _ _ _ _ _ Es L) as [_ E'].
    exact E'.
  - exfalso. rewrite exec_None in E.
    destruct (jsonRe_matches pre mid) as (st' & M').
    eapply E; eauto.
Qed.

Lemma jsonRe_exec_none s :
  (forall pre mid, s <> pre ++ ch "{" :: mid ++ [ch "}"]) ->
  exec jsonRe s = None.
Proof.
  intros H. destruct (exec jsonRe s) as [m|] eqn:E; [|reflexivity].
  exfalso. apply exec_Some in E.
  destruct E as (pre' & post' & Es & _ & M & R & _).
  destruct (jsonRe_at _ _ _ M) as (mid' & Et & Rn).
  subst post'. rewrite Rn, app_nil_r in Es, Et.
  apply (H pre' mid'). rewrite <- Et. exact Es.
Qed.

(** C3 (amended). [extractJson] takes the text from the first opening
    brace to the END of the reply, which must be a closing brace, and hands
    it to the strict JSON parser: commentary before the object is
    tolerated, anything after the last closing brace is not. A reply that
    does not have this shape gives "No JSON found in response"; one that has
    it but does not parse gives "Invalid JSON in response". *)
Theorem extractJson_first_brace_to_end
    (JSON_parse : jsstr -> option jsvalue) :
  (forall pre mid,
      ~ In (ch "{") pre ->
      extractJson JSON_parse (pre ++ ch "{" :: mid ++ [ch "}"])
      = match JSON_parse (ch "{" :: mid ++ [ch "}"]) with
        | Some v => Ok v
        | None => Throw (lit "Invalid JSON in response")
        end)
  /\ (forall s,
        (forall pre mid, s <> pre ++ ch "{" :: mid ++ [ch "}"]) ->
        extractJson JSON_parse s = Throw (lit "No JSON found in response")).
Proof.
  split.
  - intros pre mid Hpre. unfold extractJson.
    destruct (jsonRe_exec_found pre mid Hpre) as (m & -> & ->).
    reflexivity.
  - intros s H. unfold extractJson. rewrite (jsonRe_exec_none s H).
    reflexivity.
Qed.

(** A parser that knows the empty object only. *)
Definition parseEmptyObject (s : jsstr) : option jsvalue :=
  if str_eqb s (lit "{}") then Some (JObject []) else None.

(** C3, as stated, fails on a reply with text after the object: in
    [{} ok] the first opening and the last closing brace delimit [{}], which
    parses, yet the result is "No JSON found in response". *)
Lemma extractJson_trailing_text_counterexample :
  (exists pre mid post,
      lit "{} ok" = pre ++ ch "{" :: mid ++ ch "}" :: post
      /\ ~ In (ch "{") pre /\ ~ In (ch "}") post
      /\ parseEmptyObject (ch "{" :: mid ++ [ch "}"]) = Some (JObject []))
  /\ extractJson parseEmptyObject (lit "{} ok")
     = Throw (lit "No JSON found in response").
Proof.
  split.
  - exists [], [], (lit " ok"). split; [reflexivity|].
    split; [intros []|]. split; [|reflexivity].
    vm_compute. intuition discriminate.
  - vm_compute. reflexivity.
Qed.

(* ===================================================================== *)
(** * The amount of the legacy parser                                      *)
(* ===================================================================== *)

(** The order of numbers: [num_leb] is a total preorder. *)
Definition num_le (a b : jsnum) : Prop := num_leb a b = true.
Definition num_lt (a b : jsnum) : Prop := num_ltb a b = true.

(** A number that is not negative. *)
Definition nonneg (n : jsnum) : Prop := num_le (Finite 0) n.

Lemma num_le_refl a : num_le a a.
Proof.
  destruct a as [q|[|]]; try reflexivity.
  apply Qle_bool_iff. apply Qle_refl.
Qed.

Lemma num_le_trans a b c : num_le a b -> num_le b c -> num_le a c.
Proof.
  unfold num_le.
  destruct a as [x|[|]], b as [y|[|]], c as [z|[|]]; simpl;
    try reflexivity; try discriminate.
  rewrite !Qle_bool_iff. apply Qle_trans.
Qed.

Lemma num_lt_le a b : num_lt a b -> num_le a b.
Proof.
  unfold num_lt, num_le, num_ltb.
  destruct a as [x|[|]], b as [y|[|]]; simpl;
    try reflexivity; try discriminate.
  intros H. apply Qle_bool_iff. apply Qlt_le_weak. apply Qnot_le_lt.
  intros L. apply Qle_bool_iff in L. rewrite L in H. discriminate.
Qed.

Lemma num_max2_cases a b :
  (num_max2 a b = a /\ num_le b a) \/ (num_max2 a b = b /\ num_le a b).
Proof.
  unfold num_max2. destruct (num_leb a b) eqn:E.
  - right. split; [reflexivity | exact E].
  - left. split; [reflexivity|]. apply num_lt_le.
    unfold num_lt, num_ltb. rewrite E. reflexivity.
Qed.

(** [Math.max] returns one of its arguments, and none is larger. *)
Lemma maxOf_spec : forall l a,
  In (maxOf a l) (a :: l) /\ Forall (fun x => num_le x (maxOf a l)) (a :: l).
Proof.
  unfold maxOf.
  induction l as [|b l IH]; intros a; simpl.
  - split; [left; reflexivity|]. constructor; [apply num_le_refl | constructor].
  - destruct (IH (num_max2 a b)) as (I & F).
    inversion F as [|x l' Hx Hl]; subst.
    destruct (num_max2_cases a b) as [(E & L)|(E & L)]; rewrite E in *.
    + split.
      * destruct I as [I|I]; [left; exact I | right; right; exact I].
      * constructor; [exact Hx|]. constructor; [|exact Hl].
        eapply num_le_trans; eauto.
    + split.
      * destruct I as [I|I]; [right; left; exact I | right; right; exact I].
      * constructor; [eapply num_le_trans; eauto|].
        constructor; [exact Hx | exact Hl].
Qed.

Lemma keepPositive_positive : forall l,
  Forall (fun a => num_lt (Finite 0) a) (keepPositive l).
Proof.
  induction l as [|[q|] l IH]; simpl; auto.
  destruct (num_ltb (Finite 0) q) eqn:E; auto.
Qed.

Lemma Forall_flat_map (A B : Type) (P : B -> Prop) (f : A -> list B) :
  forall l, (forall x, Forall P (f x)) -> Forall P (flat_map f l).
Proof.
  induction l as [|x l IH]; intros H; simpl; [constructor|].
  apply Forall_app. split; auto.
Qed.

Section AmountFacts.

Variable toLowerCase : jsstr -> jsstr.

(** A line of the "total" fallback that carries a positive number. *)
Definition positiveTotal (line : jsstr) (a : jsnum) : Prop :=
  isTotalLine toLowerCase line = true /\
  extractNumberFromLine line = Some a /\ num_lt (Finite 0) a.

Lemma totalLineAmount_first : forall lines before line after a,
  lines = before ++ line :: after ->
  (forall l b, In l before -> ~ positiveTotal l b) ->
  positiveTotal line a ->
  totalLineAmount toLowerCase lines = Some a.
Proof.
  intros lines before. revert lines.
  induction before as [|l0 before IH]; intros lines line after a E Hb (T & N & P);
    subst lines; simpl.
  - rewrite T, N. unfold num_lt in P. rewrite P. reflexivity.
  - assert (IHa : totalLineAmount toLowerCase (before ++ line :: after) = Some a).
    { eapply IH; eauto.
      - intros l b I. apply Hb. right. exact I.
      - repeat split; assumption. }
    destruct (isTotalLine toLowerCase l0) eqn:T0; [|exact IHa].
    destruct (extractNumberFromLine l0) as [q|] eqn:N0; [|exact IHa].
    destruct (num_ltb (Finite 0) q) eqn:P0; [|exact IHa].
    exfalso. apply (Hb l0 q); [left; reflexivity|].
    repeat split; auto.
Qed.

Lemma totalLineAmount_none : forall lines,
  (forall l b, In l lines -> ~ positiveTotal l b) ->
  totalLineAmount toLowerCase lines = None.
Proof.
  induction lines as [|l0 lines IH]; intros H; simpl; [reflexivity|].
  assert (IHn : totalLineAmount toLowerCase lines = None).
  { apply IH. intros l b I. apply H. right. exact I. }
  destruct (isTotalLine toLowerCase l0) eqn:T0; [|exact IHn].
  destruct (extractNumberFromLine l0) as [q|] eqn:N0; [|exact IHn].
  destruct (num_ltb (Finite 0) q) eqn:P0; [|exact IHn].
  exfalso. apply (H l0 q); [left; reflexivity|].
  repeat split; auto.
Qed.

Lemma totalLineAmount_positive : forall lines a,
  totalLineAmount toLowerCase lines = Some a -> num_lt (Finite 0) a.
Proof.
  induction lines as [|l0 lines IH]; intros a; simpl; [discriminate|].
  destruct (isTotalLine toLowerCase l0); [|apply IH].
  destruct (extractNumberFromLine l0) as [q|]; [|apply IH].
  destruct (num_ltb (Finite 0) q) eqn:P0; [|apply IH].
  intros E. inversion E; subst. exact P0.
Qed.

End AmountFacts.

Lemma currencyAmounts_positive text :
  Forall (fun a => num_lt (Finite 0) a) (currencyAmounts text).
Proof.
  unfold currencyAmounts. apply Forall_flat_map.
  intros p. unfold currencyAmountsOf. apply keepPositive_positive.
Qed.

Lemma reasonableAmounts_bounds numbers :
  Forall (fun n => num_lt (Finite 0) n /\ num_lt n (Finite 100000))
         (reasonableAmounts numbers).
Proof.
  unfold reasonableAmounts. apply Forall_forall. intros n I.
  apply filter_In in I. destruct I as (_ & B).
  apply andb_true_iff in B. exact B.
Qed.

(* ===================================================================== *)
(** * What the building blocks of the patterns match                       *)
(* ===================================================================== *)

(** A text spells a literal up to ASCII case. *)
Definition ciEq (w n : jsstr) : Prop :=
  Forall2 (fun x c => cu_eqb_ci c x = true) w n.

Lemma ciEq_length w n : ciEq w n -> length w = length n.
Proof. induction 1; simpl; congruence. Qed.

(** Iterating a class reads a run of the class and sets no group. *)
Lemma star_class_reads p st st' :
  Matches (RStar (RChar p)) st st' ->
  exists w,
    Forall (fun c => p c = true) w /\
    rest st = w ++ rest st' /\ seen st' = rev w ++ seen st /\
    caps st' = caps st.
Proof.
  intros M. remember (RStar (RChar p)) as r eqn:Er.
  induction M; inversion Er; subst.
  - exists []. repeat split; auto.
  - destruct (IHM2 eq_refl) as (w & F & R & S & C).
    inv_match M1. simpl in *.
    exists (c :: w). simpl. rewrite <- app_assoc. simpl.
    repeat split; auto. rewrite R. reflexivity.
Qed.

Lemma star_class_build p : forall w sn s cs,
  Forall (fun c => p c = true) w ->
  Matches (RStar (RChar p)) (MState sn (w ++ s) cs)
          (MState (rev w ++ sn) s cs).
Proof.
  induction w as [|c w IH]; intros sn s cs F; simpl.
  - constructor.
  - inv_match F. eapply MStarStep.
    + constructor. assumption.
    + simpl. rewrite length_app. lia.
    + rewrite <- app_assoc. simpl. apply IH. assumption.
Qed.

(** A literal under the i flag reads one of its spellings. *)
Lemma lit_ci_reads : forall n st st',
  Matches (rseq (map rchar_ci n)) st st' ->
  exists w, ciEq w n /\ rest st = w ++ rest st' /\
            seen st' = rev w ++ seen st /\ caps st' = caps st.
Proof.
  induction n as [|c n IH]; intros st st' M.
  - simpl in M. inv_match M. exists []. repeat split; constructor.
  - destruct n as [|c' n].
    + simpl in M. unfold rchar_ci in M. inv_match M.
      exists [c0]. repeat split; auto. repeat constructor. assumption.
    + change (rseq (map rchar_ci (c :: c' :: n)))
        with (RSeq (rchar_ci c) (rseq (map rchar_ci (c' :: n)))) in M.
      inversion M as [| |r1 r2 st0 st1 st2 M1 M2| | | | | | | |]; subst; clear M.
      unfold rchar_ci in M1. inv_match M1.
      apply IH in M2. destruct M2 as (w & E & R & S & C).
      simpl in *. exists (c0 :: w). simpl. rewrite <- app_assoc. simpl.
      repeat split; auto.
      * constructor; assumption.
      * rewrite R. reflexivity.
Qed.

Lemma lit_ci_build : forall n w sn s cs,
  ciEq w n ->
  Matches (rseq (map rchar_ci n)) (MState sn (w ++ s) cs)
          (MState (rev w ++ sn) s cs).
Proof.
  induction n as [|c n IH]; intros w sn s cs E; inv_match E; simpl.
  - constructor.
  - destruct n as [|c' n].
    + match goal with H : Forall2 _ _ [] |- _ => inv_match H end.
      simpl. constructor. assumption.
    + change (rseq (rchar_ci c :: map rchar_ci (c' :: n)))
        with (RSeq (rchar_ci c) (rseq (map rchar_ci (c' :: n)))).
      econstructor.
      * constructor. eassumption.
      * rewrite <- app_assoc. simpl. apply IH. assumption.
Qed.

(** An alternation matches what one of its branches matches. *)
Lemma ralt_reads : forall rs st st',
  Matches (ralt rs) st st' -> exists r, In r rs /\ Matches r st st'.
Proof.
  induction rs as [|r rs IH]; intros st st' M.
  - simpl in M. inv_match M. discriminate.
  - destruct rs as [|r' rs].
    + simpl in M. exists r. split; [left; reflexivity | exact M].
    + change (ralt (r :: r' :: rs)) with (RAlt r (ralt (r' :: rs))) in M.
      inversion M as [| | |r1 r2 st0 st1 M1|r1 r2 st0 st1 M1| | | | | |];
        subst; clear M.
      * exists r. split; [left; reflexivity | assumption].
      * apply IH in M1. destruct M1 as (r0 & I & M0).
        exists r0. split; [right; exact I | exact M0].
Qed.

Lemma ralt_build : forall rs r st st',
  In r rs -> Matches r st st' -> Matches (ralt rs) st st'.
Proof.
  induction rs as [|r0 rs IH]; intros r st st' I M; [destruct I|].
  destruct rs as [|r' rs].
  - destruct I as [->|[]]. exact M.
  - change (ralt (r0 :: r' :: rs)) with (RAlt r0 (ralt (r' :: rs))).
    destruct I as [->|I].
    + apply MAltL. exact M.
    + apply MAltR. eapply IH; eauto.
Qed.

(** One of a list of names, in any ASCII case. *)
Definition spells (names : list string) (w : jsstr) : Prop :=
  exists name, In name names /\ ciEq w (lit name).

Lemma names_ci_reads names st st' :
  Matches (ralt (map rlit_ci names)) st st' ->
  exists w, spells names w /\ rest st = w ++ rest st' /\
            seen st' = rev w ++ seen st /\ caps st' = caps st.
Proof.
  intros M. apply ralt_reads in M. destruct M as (r & I & M).
  apply in_map_iff in I. destruct I as (name & <- & I).
  apply lit_ci_reads in M. destruct M as (w & E & R & S & C).
  exists w. repeat split; auto. exists name. auto.
Qed.

Lemma names_ci_build names w sn s cs :
  spells names w ->
  Matches (ralt (map rlit_ci names)) (MState sn (w ++ s) cs)
          (MState (rev w ++ sn) s cs).
Proof.
  intros (name & I & E).
  eapply ralt_build; [apply in_map; exact I|].
  apply lit_ci_build. exact E.
Qed.

(* ===================================================================== *)
(** * The merchant of the legacy parser                                    *)
(* ===================================================================== *)

(** [w] stands in [line] as the whole line, or somewhere in it with a
    white-space code unit right after it. *)
Definition spelledIn (w line : jsstr) : Prop :=
  line = w \/ exists a c b, line = a ++ w ++ c :: b /\ isSpace c = true.

(** The line names a well-known merchant where the patterns look. *)
Definition mentionsMerchant (line : jsstr) : Prop :=
  exists w, spells merchantNames w /\ spelledIn w line.

Lemma merchant_spelling_nonempty w :
  spells merchantNames w -> exists c s, w = c :: s.
Proof.
  intros (name & I & E). apply ciEq_length in E.
  destruct w as [|c s]; [|eauto]. exfalso.
  unfold merchantNames in I. simpl in I.
  repeat (destruct I as [<-|I]; [discriminate|]). exact I.
Qed.

Lemma merchantWhole_at pre post st' :
  Matches merchantWhole (startAt pre post) st' ->
  pre = [] /\ spells merchantNames post /\ getcap 1 (caps st') = Some post
  /\ rest st' = [].
Proof.
  unfold merchantWhole, startAt. cbv beta iota delta [rseq].
  intros M. inv_matches.
  match goal with H : seen _ = [] |- _ =>
    simpl in H; apply rev_nil_inv in H; subst pre end.
  match goal with H : Matches rMerchant _ _ |- _ =>
    apply names_ci_reads in H; destruct H as (w & Sp & R & _ & C) end.
  match goal with H : rest _ = [] |- _ => simpl in H; rename H into He end.
  simpl in R. rewrite He, app_nil_r in R. subst post.
  repeat split; auto. simpl.
  rewrite (consumed_app _ _ w); [reflexivity|].
  simpl. rewrite He, app_nil_r. reflexivity.
Qed.

Lemma merchantWhole_build w :
  spells merchantNames w ->
  exists st', Matches merchantWhole (startAt [] w) st'.
Proof.
  intros Sp. unfold merchantWhole, startAt. cbv beta iota delta [rseq].
  eexists. econstructor; [constructor; reflexivity|].
  econstructor.
  - constructor. rewrite <- (app_nil_r w) at 1.
    apply names_ci_build. exact Sp.
  - constructor. reflexivity.
Qed.

Lemma merchantSpaced_at pre post st' :
  Matches merchantSpaced (startAt pre post) st' ->
  exists w c b,
    spells merchantNames w /\ isSpace c = true /\ post = w ++ c :: b /\
    getcap 1 (caps st') = Some w.
Proof.
  unfold merchantSpaced, startAt. cbv beta iota delta [rseq rplus rspace].
  intros M. inv_matches.
  match goal with H : Matches rMerchant _ _ |- _ =>
    apply names_ci_reads in H; destruct H as (w & Sp & R & _ & C) end.
  match goal with H : Matches (RStar _) _ _ |- _ =>
    apply star_class_reads in H; destruct H as (_ & _ & _ & _ & C') end.
  match goal with H : rest _ = c :: s |- _ => rename H into Rc end.
  simpl in R, C, C'. rewrite Rc in R.
  exists w, c, s. repeat split; auto.
  rewrite C'. simpl.
  rewrite (consumed_app _ _ w); [reflexivity|].
  simpl. rewrite Rc. exact R.
Qed.

Lemma merchantSpaced_build a w c b :
  spells merchantNames w -> isSpace c = true ->
  exists st', Matches merchantSpaced (startAt a (w ++ c :: b)) st'.
Proof.
  intros Sp Hc. unfold merchantSpaced, startAt.
  cbv beta iota delta [rseq rplus rspace].
  eexists. econstructor.
  - constructor. apply names_ci_build. exact Sp.
  - econstructor.
    + unfold setcap. simpl. constructor. exact Hc.
    + apply MStarDone.
Qed.

Lemma merchantInLine_Some line r :
  merchantInLine line merchantPatterns = Some r ->
  spells merchantNames r /\ spelledIn r line.
Proof.
  unfold merchantPatterns. simpl.
  destruct (exec merchantWhole line) as [m|] eqn:E1.
  - intros H. inversion H; subst; clear H.
    apply exec_Some in E1.
    destruct E1 as (pre & post & Es & _ & M & R & Ec & _).
    apply merchantWhole_at in M. destruct M as (-> & Sp & G & Rn).
    rewrite R in Rn. subst post. rewrite app_nil_r in *.
    destruct (merchant_spelling_nonempty _ Sp) as (c & s & Ew).
    unfold merchantOfMatch, m_group. rewrite Ec, G, Ew. rewrite <- Ew.
    split; [exact Sp|]. left. exact Es.
  - destruct (exec merchantSpaced line) as [m|] eqn:E2; [|discriminate].
    intros H. inversion H; subst; clear H.
    apply exec_Some in E2.
    destruct E2 as (pre & post & Es & _ & M & R & Ec & _).
    apply merchantSpaced_at in M.
    destruct M as (w & c & b & Sp & Hc & Ep & G).
    destruct (merchant_spelling_nonempty _ Sp) as (c0 & s0 & Ew).
    unfold merchantOfMatch, m_group. rewrite Ec, G, Ew. rewrite <- Ew.
    split; [exact Sp|]. right. exists pre, c, b. split; [|exact Hc].
    rewrite Es, Ep. reflexivity.
Qed.

Lemma merchantInLine_mentions line :
  mentionsMerchant line ->
  merchantInLine line merchantPatterns <> None.
Proof.
  intros (w & Sp & [->|(a & c & b & -> & Hc)]);
    unfold merchantPatterns; simpl.
  - destruct (exec merchantWhole w) eqn:E1; [discriminate|].
    exfalso. rewrite exec_None in E1.
    destruct (merchantWhole_build w Sp) as (st' & M).
    apply (E1 [] w eq_refl st' M).
  - destruct (exec merchantWhole _) eqn:E1; [discriminate|].
    destruct (exec merchantSpaced _) eqn:E2; [discriminate|].
    exfalso. rewrite exec_None in E2.
    destruct (merchantSpaced_build a w c b Sp Hc) as (st' & M).
    apply (E2 a (w ++ c :: b) eq_refl st' M).
Qed.

Lemma merchantInLine_None line :
  merchantInLine line merchantPatterns = None <-> ~ mentionsMerchant line.
Proof.
  split.
  - intros E Hm. apply (merchantInLine_mentions line Hm E).
  - intros H. destruct (merchantInLine line merchantPatterns) as [r|] eqn:E;
      [|reflexivity].
    exfalso. apply H. apply merchantInLine_Some in E.
    destruct E as (Sp & Si). exists r. auto.
Qed.

(** The loop over the lines stops at the first line that names a
    merchant. *)
Lemma knownMerchant_first : forall lines before line after,
  lines = before ++ line :: after ->
  (forall l, In l before -> ~ mentionsMerchant l) ->
  mentionsMerchant line ->
  exists r, knownMerchant lines = Some r /\
            spells merchantNames r /\ spelledIn r line.
Proof.
  intros lines before. revert lines.
  induction before as [|l0 before IH]; intros lines line after E Hb Hm;
    subst lines; cbn [app knownMerchant].
  - destruct (merchantInLine line merchantPatterns) as [r|] eqn:El.
    + exists r. split; [reflexivity|]. apply merchantInLine_Some. exact El.
    + exfalso. apply merchantInLine_None in El. contradiction.
  - assert (El : merchantInLine l0 merchantPatterns = None).
    { apply merchantInLine_None. apply Hb. left. reflexivity. }
    rewrite El. eapply IH; eauto. intros l I. apply Hb. right. exact I.
Qed.

Lemma knownMerchant_none : forall lines,
  (forall l, In l lines -> ~ mentionsMerchant l) ->
  knownMerchant lines = None.
Proof.
  induction lines as [|l0 lines IH]; intros H; cbn [knownMerchant];
    [reflexivity|].
  assert (El : merchantInLine l0 merchantPatterns = None).
  { apply merchantInLine_None. apply H. left. reflexivity. }
  rewrite El. apply IH. intros l I. apply H. right. exact I.
Qed.

Lemma knownMerchant_nonempty : forall lines r,
  knownMerchant lines = Some r -> r <> [].
Proof.
  induction lines as [|l0 lines IH]; intros r; cbn [knownMerchant];
    [discriminate|].
  destruct (merchantInLine l0 merchantPatterns) as [r0|] eqn:El; [|apply IH].
  intros E. inversion E; subst. apply merchantInLine_Some in El.
  destruct El as (Sp & _).
  destruct (merchant_spelling_nonempty _ Sp) as (c & s & ->). discriminate.
Qed.

(** The head of the sorted candidates is a shortest candidate. *)
Lemma sortByLength_head : forall l,
  match sortByLength l with
  | [] => l = []
  | r :: _ => In r l /\ forall c, In c l -> length r <= length c
  end.
Proof.
  induction l as [|x l IH]; simpl; [reflexivity|].
  destruct (sortByLength l) as [|h t]; simpl.
  - subst l. split; [left; reflexivity|].
    intros c [<-|[]]. apply Nat.le_refl.
  - destruct IH as (I & Hmin).
    destruct (length x <=? length h) eqn:L.
    + apply Nat.leb_le in L. split; [left; reflexivity|].
      intros c [<-|Ic]; [apply Nat.le_refl|].
      eapply Nat.le_trans; [exact L | apply Hmin; exact Ic].
    + apply Nat.leb_gt in L. split; [right; exact I|].
      intros c [<-|Ic]; [lia | apply Hmin; exact Ic].
Qed.

(** What the three patterns of the candidate filter accept. *)
Lemma letterRe_iff line :
  test letterRe line = true <-> exists c, In c line /\ isLetter c = true.
Proof.
  rewrite test_true_iff. unfold letterRe, startAt. split.
  - intros (pre & post & st' & Es & M). inv_matches.
    exists c. split; [|assumption]. apply in_or_app. right. left. reflexivity.
  - intros (c & I & L). apply in_split in I. destruct I as (a & b & ->).
    exists a, (c :: b). eexists. split; [reflexivity|].
    constructor. exact L.
Qed.

Lemma priceRe_iff line :
  test priceRe line = true <->
  exists d s, line = cDollar :: d :: s /\ isDigit d = true.
Proof.
  rewrite test_true_iff. unfold priceRe, startAt.
  cbv beta iota delta [rseq rchar rdigit]. split.
  - intros (pre & post & st' & Es & M). inv_matches.
    match goal with H : seen _ = [] |- _ =>
      simpl in H; apply rev_nil_inv in H; subst pre end.
    match goal with H : cu_eqb _ _ = true |- _ =>
      apply cu_eqb_eq in H; subst end.
    simpl. eauto.
  - intros (d & s & -> & D). exists [], (cDollar :: d :: s). eexists.
    split; [reflexivity|].
    econstructor; [constructor; reflexivity|].
    econstructor; [constructor; apply cu_eqb_eq; reflexivity|].
    constructor. exact D.
Qed.

Lemma digit_is_noise c : isDigit c = true -> isNumericNoise c = true.
Proof. intros H. unfold isNumericNoise. rewrite H. reflexivity. Qed.

Lemma numericLineRe_iff line :
  test numericLineRe line = true <->
  exists d s, line = d :: s /\ isDigit d = true /\
              Forall (fun c => isNumericNoise c = true) s.
Proof.
  rewrite test_true_iff. unfold numericLineRe, startAt.
  cbv beta iota delta [rseq rplus rdigit]. split.
  - intros (pre & post & st' & Es & M). inv_matches.
    match goal with H : seen _ = [] |- _ =>
      simpl in H; apply rev_nil_inv in H; subst pre end.
    repeat match goal with H : Matches (RStar _) _ _ |- _ =>
      apply star_class_reads in H;
      let w := fresh "w" in let F := fresh "F" in let R := fresh "R" in
      destruct H as (w & F & R & _ & _) end.
    match goal with H : rest _ = [] |- _ => rename H into He end.
    simpl in *. rewrite He, app_nil_r in *. subst.
    eexists _, _. split; [reflexivity|]. split; [assumption|].
    apply Forall_app. split; [|assumption].
    eapply Forall_impl; [|eassumption]. apply digit_is_noise.
  - intros (d & s & -> & D & F).
    pose proof (star_class_build isNumericNoise s [d] [] [] F) as B.
    rewrite app_nil_r in B.
    exists [], (d :: s). eexists.
    split; [reflexivity|].
    econstructor; [constructor; reflexivity|].
    econstructor; [econstructor; [constructor; exact D | apply MStarDone]|].
    econstructor; [exact B|].
    constructor. reflexivity.
Qed.

(** A line made of a digit followed by digits, white space and the signs
    [/ - . : *] only, and a line that starts with a price. *)
Definition numericLine (line : jsstr) : Prop :=
  exists d s, line = d :: s /\ isDigit d = true /\
              Forall (fun c => isNumericNoise c = true) s.

Definition priceLine (line : jsstr) : Prop :=
  exists d s, line = cDollar :: d :: s /\ isDigit d = true.

(** The candidates, spelled out. *)
Definition plausibleName (toLowerCase : jsstr -> jsstr) (line : jsstr) : Prop :=
  2 < length line /\ length line < 50
  /\ (exists c, In c line /\ isLetter c = true)
  /\ (forall w, In w noiseWords -> includes (toLowerCase line) (lit w) = false)
  /\ ~ numericLine line /\ ~ priceLine line
  /\ includes line (lit "866-") = false
  /\ includes line (lit "phone") = false.

Lemma test_false_iff r line (P : Prop) :
  (test r line = true <-> P) -> (negb (test r line) = true <-> ~ P).
Proof.
  intros H. rewrite negb_true_iff. split.
  - intros F HP. apply H in HP. congruence.
  - intros N. destruct (test r line) eqn:T; [|reflexivity].
    exfalso. apply N, H. reflexivity.
Qed.

Lemma isCandidate_iff toLowerCase line :
  isCandidate toLowerCase line = true <-> plausibleName toLowerCase line.
Proof.
  unfold isCandidate, plausibleName.
  rewrite !andb_true_iff, !Nat.ltb_lt, letterRe_iff, forallb_forall.
  rewrite (test_false_iff _ _ _ (numericLineRe_iff line)).
  rewrite (test_false_iff _ _ _ (priceRe_iff line)).
  rewrite !negb_true_iff.
  fold (numericLine line). fold (priceLine line).
  split.
  - intros (((((((A & B) & C) & D) & E) & F) & G) & H).
    repeat split; auto.
    intros w I. apply negb_true_iff. apply D. exact I.
  - intros (A & B & C & D & E & F & G & H).
    repeat split; auto.
    intros w I. apply negb_true_iff. apply D. exact I.
Qed.

(** C6 (amended). [extractMerchant] first looks, line by line, for one of
    the fifteen well-known merchant names in any ASCII case, standing as the
    whole line or anywhere in the line right before a white-space code unit
    (not only as a prefix); the first line with such a name gives the
    result, which is the name as the line spells it. Otherwise the result is
    a shortest candidate line, a candidate being a line of length strictly
    between 2 and 50 that has a letter and none of the exclusions. With no
    candidate it is "Unknown Merchant". *)
Theorem extractMerchant_policy
    (toLowerCase : jsstr -> jsstr) (lines : list jsstr) (fullText : jsstr) :
  let r := extractMerchant toLowerCase lines fullText in
  let candidates := candidateLines toLowerCase lines in
  let unnamed := forall l, In l lines -> ~ mentionsMerchant l in
  (forall before line after,
      lines = before ++ line :: after ->
      (forall l, In l before -> ~ mentionsMerchant l) ->
      mentionsMerchant line ->
      spells merchantNames r /\ spelledIn r line)
  /\ (forall line, In line candidates <->
                   In line lines /\ plausibleName toLowerCase line)
  /\ (unnamed -> candidates <> [] ->
      In r candidates /\ forall c, In c candidates -> length r <= length c)
  /\ (unnamed -> candidates = [] -> r = lit "Unknown Merchant").
Proof.
  intros r candidates unnamed. split; [|split; [|split]].
  - intros before line after E Hb Hm.
    destruct (knownMerchant_first lines before line after E Hb Hm)
      as (r' & Ek & Sp & Si).
    subst r. unfold extractMerchant. rewrite Ek. auto.
  - intros line. subst candidates. unfold candidateLines.
    rewrite filter_In, isCandidate_iff. reflexivity.
  - intros Hu Hc. subst r. unfold extractMerchant.
    rewrite (knownMerchant_none lines Hu). fold candidates.
    pose proof (sortByLength_head candidates) as Hs.
    destruct (sortByLength candidates) as [|first rest']; [contradiction|].
    exact Hs.
  - intros Hu Hc. subst r. unfold extractMerchant.
    rewrite (knownMerchant_none lines Hu). fold candidates.
    rewrite Hc. reflexivity.
Qed.

(** A line that names a merchant in its middle. *)
Definition payUberLine : jsstr := lit "Pay Uber now".

(** C6, as stated, fails on a line that names a merchant elsewhere than
    at its start: "Pay Uber now" neither is nor starts with a merchant name
    (in any case) and is the only, hence shortest, candidate, yet the result
    is "Uber" and not the line. *)
Lemma extractMerchant_inner_name_counterexample :
  extractMerchant asciiLower [payUberLine] payUberLine = lit "Uber"
  /\ forallb (fun name =>
                negb (startsWith (asciiLower payUberLine)
                        (asciiLower (lit name))))
       merchantNames = true
  /\ candidateLines asciiLower [payUberLine] = [payUberLine]
  /\ lit "Uber" <> payUberLine.
Proof.
  split; [vm_compute; reflexivity|].
  split; [vm_compute; reflexivity|].
  split; [vm_compute; reflexivity|].
  vm_compute. discriminate.
Qed.

(* ===================================================================== *)
(** * The legacy parser as a whole                                         *)
(* ===================================================================== *)

Lemma extractAmount_nonneg toLowerCase text lines :
  nonneg (extractAmount toLowerCase text lines).
Proof.
  unfold extractAmount, nonneg.
  pose proof (currencyAmounts_positive text) as Ft.
  destruct (currencyAmounts text) as [|a amounts].
  - destruct (totalLineAmount toLowerCase lines) as [amount|] eqn:Et.
    + apply num_lt_le. eapply totalLineAmount_positive. exact Et.
    + pose proof (reasonableAmounts_bounds (extractAllNumbers text)) as Fb.
      destruct (reasonableAmounts (extractAllNumbers text)) as [|n ns].
      * apply num_le_refl.
      * destruct (maxOf_spec ns n) as (I & _).
        rewrite Forall_forall in Fb. apply num_lt_le. apply (Fb _ I).
  - destruct (maxOf_spec amounts a) as (I & _).
    rewrite Forall_forall in Ft. apply num_lt_le. apply (Ft _ I).
Qed.

Lemma extractMerchant_nonempty toLowerCase lines fullText :
  extractMerchant toLowerCase lines fullText <> [].
Proof.
  unfold extractMerchant.
  destruct (knownMerchant lines) as [name|] eqn:Ek.
  - eapply knownMerchant_nonempty. exact Ek.
  - pose proof (sortByLength_head (candidateLines toLowerCase lines)) as Hs.
    destruct (sortByLength (candidateLines toLowerCase lines)) as [|first rest'].
    + discriminate.
    + destruct Hs as (I & _). unfold candidateLines in I.
      apply filter_In in I. destruct I as (_ & C).
      apply isCandidate_iff in C. destruct C as (L & _).
      destruct first; [simpl in L; lia | discriminate].
Qed.

Lemma extractType_credit toLowerCase text :
  extractType toLowerCase text = credit <->
  exists k, In k creditIndicators /\ includes (toLowerCase text) (lit k) = true.
Proof.
  unfold extractType. rewrite <- keywordHit_iff.
  destruct (keywordHit (toLowerCase text) creditIndicators);
    split; intros; congruence.
Qed.

Lemma extractDate_default today hostDate text :
  (forall pattern, In pattern datePatterns ->
     datePatternStep hostDate text pattern = None) ->
  extractDate today hostDate text = today.
Proof.
  unfold extractDate. generalize datePatterns.
  induction l as [|p l IH]; intros H; simpl; [reflexivity|].
  rewrite (H p (or_introl eq_refl)). apply IH.
  intros q I. apply H. right. exact I.
Qed.

(** A receipt in which nothing is found. *)
Definition blankText : jsstr := lit "!!".


(** A receipt without amount, date or merchant, but with a credit word. *)
Definition refundText : jsstr := lit "refund transaction".


(* ===================================================================== *)
(** * The matcher does not tell one digit from another                     *)
(* ===================================================================== *)

Definition digits10 : list cu := [48; 49; 50; 51; 52; 53; 54; 55; 56; 57]%N.

(** A class that holds of all digits or of none. *)
Definition digitBlindPred (p : cu -> bool) : bool :=
  forallb (fun d => Bool.eqb (p d) (p 48%N)) digits10.

(** A pattern all of whose classes are such. *)
Fixpoint digitBlind (r : regex) : bool :=
  match r with
  | RChar p => digitBlindPred p
  | RSeq a b | RAlt a b => (digitBlind a && digitBlind b)%bool
  | RStar a | RGroup _ a => digitBlind a
  | _ => true
  end.

(** A renaming of digits: digits go to digits, the rest stays. *)
Definition renames (f : cu -> cu) : Prop :=
  forall c, (isDigit c = true -> isDigit (f c) = true) /\
            (isDigit c = false -> f c = c).

Lemma isDigit_cases c : isDigit c = true -> In c digits10.
Proof.
  unfold isDigit, inRange. rewrite andb_true_iff, !N.leb_le.
  intros (L & U). unfold digits10. simpl.
  assert (c = 48 \/ c = 49 \/ c = 50 \/ c = 51 \/ c = 52 \/ c = 53 \/ c = 54
          \/ c = 55 \/ c = 56 \/ c = 57)%N as H by lia.
  intuition.
Qed.

Lemma digitBlindPred_digit p c :
  digitBlindPred p = true -> isDigit c = true -> p c = p 48%N.
Proof.
  unfold digitBlindPred. rewrite forallb_forall. intros H D.
  apply Bool.eqb_prop. apply H. apply isDigit_cases. exact D.
Qed.

Lemma digitBlindPred_rename p f c :
  digitBlindPred p = true -> renames f -> p (f c) = p c.
Proof.
  intros B R. destruct (R c) as (Rd & Rn).
  destruct (isDigit c) eqn:D.
  - rewrite (digitBlindPred_digit p (f c) B (Rd eq_refl)).
    rewrite (digitBlindPred_digit p c B D). reflexivity.
  - rewrite (Rn eq_refl). reflexivity.
Qed.

Section Renaming.

Variable f : cu -> cu.
Hypothesis Hf : renames f.

Definition mapCaps (cs : list (nat * jsstr)) : list (nat * jsstr) :=
  map (fun ic => (fst ic, map f (snd ic))) cs.

Definition mapSt (st : mstate) : mstate :=
  MState (map f (seen st)) (map f (rest st)) (mapCaps (caps st)).

Definition mapRes (m : rresult) : rresult :=
  RResult (m_index m) (map f (m_text m)) (mapCaps (m_caps m))
          (mapSt (m_end m)).

Lemma consumed_map st st' :
  consumed (mapSt st) (mapSt st') = map f (consumed st st').
Proof.
  unfold consumed, mapSt. simpl. rewrite !length_map.
  apply firstn_map.
Qed.

Lemma setcap_map i st st' :
  setcap i (mapSt st) (mapSt st') = mapSt (setcap i st st').
Proof.
  unfold setcap. rewrite consumed_map. reflexivity.
Qed.

Lemma isWordSeen_map st : isWordSeen (mapSt st) = isWordSeen st.
Proof.
  unfold isWordSeen, mapSt. simpl. destruct (seen st); [reflexivity|].
  simpl. apply (digitBlindPred_rename isWordChar); [reflexivity | exact Hf].
Qed.

Lemma isWordNext_map st : isWordNext (mapSt st) = isWordNext st.
Proof.
  unfold isWordNext, mapSt. simpl. destruct (rest st); [reflexivity|].
  simpl. apply (digitBlindPred_rename isWordChar); [reflexivity | exact Hf].
Qed.

(** Two continuations that agree up to the renaming. *)
Definition agree (k' k : mstate -> option mstate) : Prop :=
  forall st, k' (mapSt st) = option_map mapSt (k st).

Lemma star_loop_map (m : matcher) :
  (forall st k' k, agree k' k ->
     m (mapSt st) k' = option_map mapSt (m st k)) ->
  forall n st k' k, agree k' k ->
    star_loop m n (mapSt st) k' = option_map mapSt (star_loop m n st k).
Proof.
  intros Hm. induction n as [|n IH]; intros st k' k A; simpl.
  - apply A.
  - rewrite (Hm st _
               (fun st' => if length (rest st') <? length (rest st)
                           then star_loop m n st' k else None)).
    + destruct (m st _); simpl; [reflexivity | apply A].
    + intros st'. simpl. rewrite !length_map.
      destruct (length (rest st') <? length (rest st)); [|reflexivity].
      apply IH. exact A.
Qed.

(** On a renamed subject a digit-blind pattern runs as on the subject. *)
Lemma rmatch_map (r : regex) :
  digitBlind r = true ->
  forall st k' k, agree k' k ->
    rmatch r (mapSt st) k' = option_map mapSt (rmatch r st k).
Proof.
  induction r; intros B st k' k A; simpl in B |- *.
  - apply A.
  - destruct st as [sn s cs]. simpl. destruct s as [|c s]; [reflexivity|].
    simpl. rewrite (digitBlindPred_rename p f c B Hf).
    destruct (p c); [|reflexivity].
    apply (A (MState (c :: sn) s cs)).
  - apply andb_true_iff in B. destruct B as (B1 & B2).
    apply IHr1; [exact B1|]. intros st'. apply IHr2; assumption.
  - apply andb_true_iff in B. destruct B as (B1 & B2).
    rewrite (IHr1 B1 st k' k A).
    destruct (rmatch r1 st k); simpl; [reflexivity|].
    apply IHr2; assumption.
  - unfold mapSt at 1. simpl. rewrite length_map.
    apply (star_loop_map (rmatch r)); [|exact A].
    intros st0 k0' k0 A0. apply IHr; assumption.
  - apply IHr; [exact B|]. intros st'. rewrite setcap_map. apply A.
  - rewrite isWordSeen_map, isWordNext_map.
    destruct (xorb _ _); [apply A | reflexivity].
  - destruct st as [sn s cs]. simpl.
    destruct sn; simpl; [apply (A (MState [] s cs)) | reflexivity].
  - destruct st as [sn s cs]. simpl.
    destruct s; simpl; [apply (A (MState sn [] cs)) | reflexivity].
Qed.

Lemma agree_Some : agree Some Some.
Proof. intros st. reflexivity. Qed.

Lemma search_map r :
  digitBlind r = true ->
  forall s sn,
    search r (map f sn) (map f s) = option_map mapRes (search r sn s).
Proof.
  intros B.
  assert (Hres : forall sn s st',
            RResult (length (map f sn))
              (consumed (MState (map f sn) (map f s) []) (mapSt st'))
              (caps (mapSt st')) (mapSt st')
            = mapRes (RResult (length sn) (consumed (MState sn s []) st')
                        (caps st') st')).
  { intros sn s st'. unfold mapRes. cbn [m_index m_text m_caps m_end].
    rewrite length_map, <- (consumed_map (MState sn s []) st').
    reflexivity. }
  induction s as [|c s IH]; intros sn; cbn [search map].
  - change (rmatch r (MState (map f sn) [] []) Some)
      with (rmatch r (mapSt (MState sn [] [])) Some).
    rewrite (rmatch_map r B (MState sn [] []) Some Some agree_Some).
    destruct (rmatch r _ Some) as [st'|]; cbn [option_map]; [|reflexivity].
    f_equal. apply (Hres sn [] st').
  - change (rmatch r (MState (map f sn) (f c :: map f s) []) Some)
      with (rmatch r (mapSt (MState sn (c :: s) [])) Some).
    rewrite (rmatch_map r B (MState sn (c :: s) []) Some Some agree_Some).
    destruct (rmatch r _ Some) as [st'|]; cbn [option_map].
    + f_equal. apply (Hres sn (c :: s) st').
    + apply (IH (c :: sn)).
Qed.

Lemma exec_map r s :
  digitBlind r = true ->
  exec r (map f s) = option_map mapRes (exec r s).
Proof. intros B. apply (search_map r B s []). Qed.

Lemma matchAll_loop_map r :
  digitBlind r = true ->
  forall fuel sn s,
    matchAll_loop fuel r (map f sn) (map f s)
    = map mapRes (matchAll_loop fuel r sn s).
Proof.
  intros B. induction fuel as [|fuel IH]; intros sn s; simpl; [reflexivity|].
  rewrite (search_map r B s sn).
  destruct (search r sn s) as [m|]; simpl; [|reflexivity].
  destruct (m_text m) as [|c t]; simpl.
  - destruct (rest (m_end m)) as [|c' s']; simpl; [reflexivity|].
    f_equal. apply (IH (c' :: seen (m_end m)) s').
  - f_equal. apply IH.
Qed.

Lemma matchG_map r s :
  digitBlind r = true ->
  matchG r (map f s) = option_map (map (map f)) (matchG r s).
Proof.
  intros B. unfold matchG, matchAll. rewrite length_map.
  change (matchAll_loop (S (length s)) r [] (map f s))
    with (matchAll_loop (S (length s)) r (map f []) (map f s)).
  rewrite (matchAll_loop_map r B (S (length s)) [] s).
  destruct (matchAll_loop (S (length s)) r [] s); simpl; [reflexivity|].
  rewrite !map_map. reflexivity.
Qed.

Lemma getcap_map i cs :
  getcap i (mapCaps cs) = option_map (map f) (getcap i cs).
Proof.
  induction cs as [|(j, s) cs IH]; simpl; [reflexivity|].
  destruct (Nat.eqb i j); [reflexivity | exact IH].
Qed.

(** A text without digits is not changed, and is found where it was. *)
Definition digitFree (s : jsstr) : Prop :=
  Forall (fun c => isDigit c = false) s.

Lemma map_digitFree s : digitFree s -> map f s = s.
Proof.
  induction 1 as [|c s D _ IH]; simpl; [reflexivity|].
  rewrite IH. destruct (Hf c) as (_ & Rn). rewrite (Rn D). reflexivity.
Qed.

Lemma cu_eqb_rename x c :
  isDigit x = false -> cu_eqb x (f c) = cu_eqb x c.
Proof.
  intros Dx. destruct (Hf c) as (Rd & Rn).
  destruct (isDigit c) eqn:D; [|rewrite (Rn eq_refl); reflexivity].
  assert (N1 : cu_eqb x (f c) = false).
  { destruct (cu_eqb x (f c)) eqn:E; [|reflexivity].
    apply cu_eqb_eq in E. subst x. rewrite (Rd eq_refl) in Dx. discriminate. }
  assert (N2 : cu_eqb x c = false).
  { destruct (cu_eqb x c) eqn:E; [|reflexivity].
    apply cu_eqb_eq in E. subst x. congruence. }
  congruence.
Qed.

Lemma startsWith_map k : digitFree k ->
  forall s, startsWith (map f s) k = startsWith s k.
Proof.
  induction 1 as [|x k D _ IH]; intros s; simpl; [reflexivity|].
  destruct s as [|c s]; simpl; [reflexivity|].
  rewrite (cu_eqb_rename x c D), IH. reflexivity.
Qed.

Lemma includes_map k : digitFree k ->
  forall s, includes (map f s) k = includes s k.
Proof.
  intros D. induction s as [|c s IH].
  - cbn [map includes]. rewrite <- (startsWith_map k D []). reflexivity.
  - cbn [map includes]. rewrite <- (startsWith_map k D (c :: s)), IH.
    reflexivity.
Qed.

End Renaming.

(* ===================================================================== *)
(** * The date of the legacy parser                                        *)
(* ===================================================================== *)

(** What one pattern of [extractDate] leads to, before the host is asked:
    a date decoded with the month table, or a text for [new Date]. *)
Inductive dateOutcome : Type :=
| ByTable (year month day : jsstr)
| ByHost (dateStr : jsstr).

Definition hasMonthName (dateStr : jsstr) : bool :=
  existsb (fun m => includes dateStr (lit m)) monthNames.

Definition groupOr (i : nat) (m : rresult) : jsstr :=
  match m_group i m with Some s => s | None => lit "undefined" end.

Definition dateOutcomeOf (text : jsstr) (pattern : regex)
  : option dateOutcome :=
  match matchG pattern text with
  | None => None
  | Some matches =>
      let dateStr := hd [] matches in
      if hasMonthName dateStr then
        match exec monthMatchRe dateStr with
        | Some monthMatch =>
            Some (ByTable (groupOr 3 monthMatch) (groupOr 1 monthMatch)
                    (groupOr 2 monthMatch))
        | None => Some (ByHost dateStr)
        end
      else Some (ByHost dateStr)
  end.

Definition isoDate (year month day : jsstr) : jsstr :=
  year ++ lit "-" ++ month ++ lit "-" ++ day.

Definition runOutcome (hostDate : jsstr -> option jsstr) (o : dateOutcome)
  : option jsstr :=
  match o with
  | ByTable year month day =>
      Some (isoDate year (monthLookup monthMap month) (padStart2 day))
  | ByHost dateStr => hostDate dateStr
  end.

(** The outcomes of the five patterns, in order. *)
Definition datePlan (text : jsstr) : list (option dateOutcome) :=
  map (dateOutcomeOf text) datePatterns.

Fixpoint firstDate (today : jsstr) (hostDate : jsstr -> option jsstr)
    (plan : list (option dateOutcome)) : jsstr :=
  match plan with
  | [] => today
  | None :: plan' => firstDate today hostDate plan'
  | Some o :: plan' =>
      match runOutcome hostDate o with
      | Some d => d
      | None => firstDate today hostDate plan'
      end
  end.

Lemma datePatternStep_outcome hostDate text pattern :
  datePatternStep hostDate text pattern
  = match dateOutcomeOf text pattern with
    | Some o => runOutcome hostDate o
    | None => None
    end.
Proof.
  unfold datePatternStep, dateOutcomeOf.
  destruct (matchG pattern text) as [matches|]; [|reflexivity].
  cbv zeta. fold (hasMonthName (hd [] matches)).
  destruct (hasMonthName (hd [] matches)); [|reflexivity].
  destruct (exec monthMatchRe (hd [] matches)); reflexivity.
Qed.

(** [extractDate] is the walk through the plan. *)
Lemma extractDate_plan today hostDate text :
  extractDate today hostDate text = firstDate today hostDate (datePlan text).
Proof.
  unfold extractDate, datePlan. generalize datePatterns.
  induction l as [|p l IH]; simpl; [reflexivity|].
  rewrite datePatternStep_outcome.
  destruct (dateOutcomeOf text p) as [o|]; [|exact IH].
  destruct (runOutcome hostDate o); [reflexivity | exact IH].
Qed.

Definition mapOutcome (f : cu -> cu) (o : dateOutcome) : dateOutcome :=
  match o with
  | ByTable y m d => ByTable (map f y) (map f m) (map f d)
  | ByHost s => ByHost (map f s)
  end.

Lemma monthNames_digitFree :
  Forall (fun m => digitFree (lit m)) monthNames.
Proof. repeat constructor. Qed.

Lemma hasMonthName_map f s :
  renames f -> hasMonthName (map f s) = hasMonthName s.
Proof.
  intros Hf. unfold hasMonthName.
  pose proof monthNames_digitFree as F. revert F.
  generalize monthNames. induction l as [|m l IH]; intros F; simpl;
    [reflexivity|].
  inversion F; subst.
  rewrite (includes_map f Hf (lit m)); [|assumption].
  rewrite IH; [reflexivity | assumption].
Qed.

Lemma groupOr_map f i m :
  renames f -> groupOr i (mapRes f m) = map f (groupOr i m).
Proof.
  intros Hf. unfold groupOr, m_group, mapRes. cbn [m_caps].
  rewrite getcap_map.
  destruct (getcap i (m_caps m)); cbn [option_map]; [reflexivity|].
  symmetry. apply (map_digitFree f Hf). repeat constructor.
Qed.

(** Renaming the digits of the text renames them in the outcome. *)
Lemma dateOutcomeOf_map f text pattern :
  renames f -> digitBlind pattern = true ->
  dateOutcomeOf (map f text) pattern
  = option_map (mapOutcome f) (dateOutcomeOf text pattern).
Proof.
  intros Hf B. unfold dateOutcomeOf.
  rewrite (matchG_map f Hf pattern text B).
  destruct (matchG pattern text) as [matches|]; simpl; [|reflexivity].
  assert (Eh : hd [] (map (map f) matches) = map f (hd [] matches))
    by (destruct matches; reflexivity).
  rewrite Eh, (hasMonthName_map f _ Hf).
  destruct (hasMonthName (hd [] matches)); [|reflexivity].
  rewrite (exec_map f Hf monthMatchRe _ eq_refl).
  destruct (exec monthMatchRe (hd [] matches)) as [mm|]; simpl;
    [|reflexivity].
  rewrite !(groupOr_map f _ _ Hf). reflexivity.
Qed.

Lemma datePlan_map f text :
  renames f ->
  datePlan (map f text) = map (option_map (mapOutcome f)) (datePlan text).
Proof.
  intros Hf. unfold datePlan.
  assert (B : Forall (fun p => digitBlind p = true) datePatterns)
    by (repeat constructor).
  revert B. generalize datePatterns.
  induction l as [|p l IH]; intros B; simpl; [reflexivity|].
  inversion B; subst.
  rewrite (dateOutcomeOf_map f text p Hf); [|assumption].
  rewrite IH; [reflexivity | assumption].
Qed.

(** A renaming given by a table. *)
Fixpoint renameBy (table : list (cu * cu)) (c : cu) : cu :=
  match table with
  | [] => c
  | (k, d) :: table' => if cu_eqb k c then d else renameBy table' c
  end.

Lemma renameBy_renames table :
  Forall (fun kd => isDigit (fst kd) = true /\ isDigit (snd kd) = true) table ->
  renames (renameBy table).
Proof.
  induction 1 as [|(k, d) table (Dk & Dd) _ IH]; intros c; simpl.
  - split; auto.
  - simpl in Dk, Dd. destruct (cu_eqb k c) eqn:E.
    + apply cu_eqb_eq in E. subst k. split; [auto | congruence].
    + apply IH.
Qed.

Fixpoint firstOutcome (plan : list (option dateOutcome)) : option dateOutcome :=
  match plan with
  | [] => None
  | Some o :: _ => Some o
  | None :: plan' => firstOutcome plan'
  end.

Lemma firstOutcome_map g plan :
  firstOutcome (map (option_map g) plan) = option_map g (firstOutcome plan).
Proof.
  induction plan as [|[o|] plan IH]; simpl; auto.
Qed.

Lemma firstDate_table today hostDate plan y m d :
  firstOutcome plan = Some (ByTable y m d) ->
  firstDate today hostDate plan
  = isoDate y (monthLookup monthMap m) (padStart2 d).
Proof.
  induction plan as [|[o|] plan IH]; simpl; intros H.
  - discriminate.
  - inversion H; subst. reflexivity.
  - apply IH. exact H.
Qed.

Definition outcome_eqb (a b : dateOutcome) : bool :=
  match a, b with
  | ByTable y m d, ByTable y' m' d' =>
      (str_eqb y y' && str_eqb m m' && str_eqb d d')%bool
  | ByHost s, ByHost s' => str_eqb s s'
  | _, _ => false
  end.

Definition optOutcome_eqb (a b : option dateOutcome) : bool :=
  match a, b with
  | Some x, Some y => outcome_eqb x y
  | None, None => true
  | _, _ => false
  end.

Fixpoint plan_eqb (a b : list (option dateOutcome)) : bool :=
  match a, b with
  | [], [] => true
  | x :: a', y :: b' => (optOutcome_eqb x y && plan_eqb a' b')%bool
  | _, _ => false
  end.

Lemma outcome_eqb_eq a b : outcome_eqb a b = true -> a = b.
Proof.
  destruct a, b; simpl; try discriminate.
  - rewrite !andb_true_iff, !str_eqb_eq. intros ((-> & ->) & ->). reflexivity.
  - rewrite str_eqb_eq. intros ->. reflexivity.
Qed.

Lemma optOutcome_eqb_eq a b : optOutcome_eqb a b = true -> a = b.
Proof.
  destruct a, b; simpl; try discriminate; [|reflexivity].
  intros H. f_equal. apply outcome_eqb_eq. exact H.
Qed.

Lemma plan_eqb_eq : forall a b, plan_eqb a b = true -> a = b.
Proof.
  induction a as [|x a IH]; intros [|y b]; simpl; try discriminate;
    [reflexivity|].
  rewrite andb_true_iff. intros (H1 & H2).
  f_equal; [apply optOutcome_eqb_eq; exact H1 | apply IH; exact H2].
Qed.

(** ** The formats, as families of texts *)

Definition optComma (b : bool) : jsstr := if b then lit "," else [].

(** No weekday, or one of the seven with or without its comma. *)
Definition weekdayChoices : list (option (string * bool)) :=
  None :: flat_map (fun w => [Some (w, true); Some (w, false)]) weekdayNames.

Definition weekdayPrefix (wd : option (string * bool)) : jsstr :=
  match wd with
  | Some (w, c) => lit w ++ optComma c ++ lit " "
  | None => []
  end.

(** Formats (a) and (b): "Fri, Sep 19, 2025", "Sep 5 2025", ... *)
Definition namedDate (wd : option (string * bool)) (name : string)
    (day : jsstr) (comma : bool) (year : jsstr) : jsstr :=
  weekdayPrefix wd ++ lit name ++ lit " " ++ day ++ optComma comma
  ++ lit " " ++ year.

(** Format (c): three numbers and two separators. *)
Definition numericDate (a : jsstr) (s1 : cu) (b : jsstr) (s2 : cu) (c : jsstr)
  : jsstr :=
  a ++ [s1] ++ b ++ [s2] ++ c.

(** Format (d): "19 Sep 2025". *)
Definition dayMonthYear (day : jsstr) (name : string) (year : jsstr) : jsstr :=
  day ++ lit " " ++ lit name ++ lit " " ++ year.

(** Other ways to write a month that the patterns accept under the i flag
    and the [[a-z]*] of the last pattern. *)
Definition otherCaseMonths : list string :=
  ["JAN"; "FEB"; "MAR"; "APR"; "MAY"; "JUN";
   "JUL"; "AUG"; "SEP"; "OCT"; "NOV"; "DEC";
   "jan"; "feb"; "mar"; "apr"; "may"; "jun";
   "jul"; "aug"; "sep"; "oct"; "nov"; "dec"]%string.

Definition fullMonths : list string :=
  ["January"; "February"; "March"; "April"; "June"; "July"; "August";
   "September"; "October"; "November"; "December"]%string.

Definition monthSpellings : list string :=
  monthNames ++ otherCaseMonths ++ fullMonths.

Definition dateSeps : list cu := [ch "/"; ch "-"; ch "."].

Definition digitsOf (n : nat) (s : jsstr) : Prop :=
  length s = n /\ Forall (fun c => isDigit c = true) s.

(** The plans of the families, computed on texts with marker digits. *)
Definition namedDateCheck : bool :=
  forallb (fun wd =>
  forallb (fun name =>
  forallb (fun day0 =>
  forallb (fun comma =>
    optOutcome_eqb
      (firstOutcome (datePlan (namedDate wd name day0 comma (lit "3456"))))
      (Some (ByTable (lit "3456") (lit name) day0)))
  [true; false]) [lit "1"; lit "12"]) monthNames) weekdayChoices.

Definition numericDateCheck : bool :=
  forallb (fun a0 =>
  forallb (fun s1 =>
  forallb (fun b0 =>
  forallb (fun s2 =>
    let dmy := numericDate a0 s1 b0 s2 (lit "3456") in
    let ymd := numericDate (lit "3456") s1 a0 s2 b0 in
    (plan_eqb (datePlan dmy) [None; None; Some (ByHost dmy); None; None]
     && plan_eqb (datePlan ymd) [None; None; None; Some (ByHost ymd); None])%bool)
  dateSeps) [lit "7"; lit "78"]) dateSeps) [lit "1"; lit "12"].

Definition dayMonthYearCheck : bool :=
  forallb (fun day0 =>
  forallb (fun name =>
    let t := dayMonthYear day0 name (lit "3456") in
    plan_eqb (datePlan t) [None; None; None; None; Some (ByHost t)])
  monthSpellings) [lit "1"; lit "12"].

Definition otherCaseCheck : bool :=
  forallb (fun name =>
  forallb (fun day0 =>
  forallb (fun comma =>
    let t := namedDate None name day0 comma (lit "3456") in
    plan_eqb (datePlan t) [None; Some (ByHost t); None; None; None])
  [true; false]) [lit "1"; lit "12"]) otherCaseMonths.

Lemma namedDateCheck_ok : namedDateCheck = true.
Proof. vm_compute. reflexivity. Qed.

Lemma numericDateCheck_ok : numericDateCheck = true.
Proof. vm_compute. reflexivity. Qed.

Lemma dayMonthYearCheck_ok : dayMonthYearCheck = true.
Proof. vm_compute. reflexivity. Qed.

Lemma otherCaseCheck_ok : otherCaseCheck = true.
Proof. vm_compute. reflexivity. Qed.

Lemma monthLookup_name name mm :
  In (name, mm) monthMap -> monthLookup monthMap (lit name) = lit mm.
Proof.
  unfold monthMap. simpl In. intros H.
  repeat (destruct H as [H|H]; [inversion H; subst; reflexivity|]).
  destruct H.
Qed.

Lemma monthMap_names name mm : In (name, mm) monthMap -> In name monthNames.
Proof.
  unfold monthMap, monthNames. simpl In. intros H.
  repeat (destruct H as [H|H]; [inversion H; subst; tauto|]).
  destruct H.
Qed.

Lemma monthName_digitFree name : In name monthNames -> digitFree (lit name).
Proof.
  intros I. pose proof monthNames_digitFree as F.
  rewrite Forall_forall in F. apply F. exact I.
Qed.

Lemma monthSpelling_digitFree name :
  In name monthSpellings -> digitFree (lit name).
Proof.
  assert (F : Forall (fun m => digitFree (lit m)) monthSpellings)
    by (repeat constructor).
  rewrite Forall_forall in F. apply F.
Qed.

Lemma weekdayPrefix_digitFree wd :
  In wd weekdayChoices -> digitFree (weekdayPrefix wd).
Proof.
  unfold weekdayChoices. simpl In. intros H.
  repeat (destruct H as [H|H]; [subst wd; repeat constructor|]).
  destruct H.
Qed.

Lemma optComma_digitFree b : digitFree (optComma b).
Proof. destruct b; repeat constructor. Qed.

Lemma digitsOf_1 s : digitsOf 1 s -> exists a, s = [a] /\ isDigit a = true.
Proof.
  intros (L & F). destruct s as [|a [|b s]]; try discriminate.
  inversion F; subst. eauto.
Qed.

Lemma digitsOf_2 s :
  digitsOf 2 s ->
  exists a b, s = [a; b] /\ isDigit a = true /\ isDigit b = true.
Proof.
  intros (L & F). destruct s as [|a [|b [|c s]]]; try discriminate.
  inversion F as [|? ? Ha F']; subst. inversion F'; subst. eauto.
Qed.

Lemma digitsOf_4 s :
  digitsOf 4 s ->
  exists a b c d, s = [a; b; c; d] /\ isDigit a = true /\ isDigit b = true
                  /\ isDigit c = true /\ isDigit d = true.
Proof.
  intros (L & F).
  destruct s as [|a [|b [|c [|d [|e s]]]]]; try discriminate.
  inversion F as [|? ? Ha F1]; subst. inversion F1 as [|? ? Hb F2]; subst.
  inversion F2 as [|? ? Hc F3]; subst. inversion F3; subst.
  exists a, b, c, d. auto.
Qed.

Lemma dateSep_digitFree c : In c dateSeps -> digitFree [c].
Proof.
  unfold dateSeps. simpl In. intros H.
  repeat (destruct H as [H|H]; [subst c; repeat constructor|]).
  destruct H.
Qed.

Lemma In_bools (b : bool) : In b [true; false].
Proof. destruct b; simpl; auto. Qed.

Section DateFamilies.

Variable today : jsstr.
Variable hostDate : jsstr -> option jsstr.
Variable f : cu -> cu.
Hypothesis Hf : renames f.

Lemma namedDate_renamed wd name mm day0 comma :
  In wd weekdayChoices -> In (name, mm) monthMap ->
  In day0 [lit "1"; lit "12"] ->
  extractDate today hostDate
    (namedDate wd name (map f day0) comma (map f (lit "3456")))
  = isoDate (map f (lit "3456")) (lit mm) (padStart2 (map f day0)).
Proof.
  intros Iw Im Id. pose proof (monthMap_names name mm Im) as Hn.
  assert (E : namedDate wd name (map f day0) comma (map f (lit "3456"))
              = map f (namedDate wd name day0 comma (lit "3456"))).
  { unfold namedDate. rewrite !map_app.
    rewrite (map_digitFree f Hf _ (weekdayPrefix_digitFree wd Iw)).
    rewrite (map_digitFree f Hf _ (monthName_digitFree name Hn)).
    rewrite (map_digitFree f Hf _ (optComma_digitFree comma)).
    rewrite (map_digitFree f Hf (lit " ")) by (repeat constructor).
    reflexivity. }
  rewrite E, extractDate_plan, (datePlan_map f _ Hf).
  rewrite (firstDate_table today hostDate _
             (map f (lit "3456")) (map f (lit name)) (map f day0)).
  - rewrite (map_digitFree f Hf _ (monthName_digitFree name Hn)).
    rewrite (monthLookup_name name mm Im). reflexivity.
  - rewrite firstOutcome_map.
    pose proof namedDateCheck_ok as C. unfold namedDateCheck in C.
    rewrite forallb_forall in C. specialize (C wd Iw).
    rewrite forallb_forall in C. specialize (C name Hn).
    rewrite forallb_forall in C. specialize (C day0 Id).
    rewrite forallb_forall in C. specialize (C comma (In_bools comma)).
    apply optOutcome_eqb_eq in C. rewrite C. reflexivity.
Qed.

Definition askHost (text : jsstr) : jsstr :=
  match hostDate text with Some d => d | None => today end.

Lemma numericDate_renamed a0 s1 b0 s2 :
  In a0 [lit "1"; lit "12"] -> In s1 dateSeps ->
  In b0 [lit "7"; lit "78"] -> In s2 dateSeps ->
  let y := map f (lit "3456") in
  extractDate today hostDate (numericDate (map f a0) s1 (map f b0) s2 y)
  = askHost (numericDate (map f a0) s1 (map f b0) s2 y)
  /\ extractDate today hostDate (numericDate y s1 (map f a0) s2 (map f b0))
     = askHost (numericDate y s1 (map f a0) s2 (map f b0)).
Proof.
  intros Ia I1 Ib I2 y. subst y.
  assert (E : forall a b c,
            numericDate (map f a) s1 (map f b) s2 (map f c)
            = map f (numericDate a s1 b s2 c)).
  { intros a b c. unfold numericDate. rewrite !map_app.
    rewrite (map_digitFree f Hf _ (dateSep_digitFree s1 I1)).
    rewrite (map_digitFree f Hf _ (dateSep_digitFree s2 I2)).
    reflexivity. }
  pose proof numericDateCheck_ok as C. unfold numericDateCheck in C.
  rewrite forallb_forall in C. specialize (C a0 Ia).
  rewrite forallb_forall in C. specialize (C s1 I1).
  rewrite forallb_forall in C. specialize (C b0 Ib).
  rewrite forallb_forall in C. specialize (C s2 I2).
  cbv zeta in C. apply andb_true_iff in C. destruct C as (C1 & C2).
  apply plan_eqb_eq in C1, C2.
  split.
  - rewrite E, extractDate_plan, (datePlan_map f _ Hf), C1. reflexivity.
  - rewrite E, extractDate_plan, (datePlan_map f _ Hf), C2. reflexivity.
Qed.

Lemma dayMonthYear_renamed day0 name :
  In day0 [lit "1"; lit "12"] -> In name monthSpellings ->
  let t := dayMonthYear (map f day0) name (map f (lit "3456")) in
  extractDate today hostDate t = askHost t.
Proof.
  intros Id Hn t. subst t.
  assert (E : dayMonthYear (map f day0) name (map f (lit "3456"))
              = map f (dayMonthYear day0 name (lit "3456"))).
  { unfold dayMonthYear. rewrite !map_app.
    rewrite (map_digitFree f Hf _ (monthSpelling_digitFree name Hn)).
    rewrite (map_digitFree f Hf (lit " ")) by (repeat constructor).
    reflexivity. }
  pose proof dayMonthYearCheck_ok as C. unfold dayMonthYearCheck in C.
  rewrite forallb_forall in C. specialize (C day0 Id).
  rewrite forallb_forall in C. specialize (C name Hn).
  cbv zeta in C. apply plan_eqb_eq in C.
  rewrite E, extractDate_plan, (datePlan_map f _ Hf), C. reflexivity.
Qed.

Lemma otherCase_renamed name day0 comma :
  In name otherCaseMonths -> In day0 [lit "1"; lit "12"] ->
  let t := namedDate None name (map f day0) comma (map f (lit "3456")) in
  extractDate today hostDate t = askHost t.
Proof.
  intros Hn Id t. subst t.
  assert (Is : In name monthSpellings).
  { unfold monthSpellings. apply in_or_app. right.
    apply in_or_app. left. exact Hn. }
  assert (E : namedDate None name (map f day0) comma (map f (lit "3456"))
              = map f (namedDate None name day0 comma (lit "3456"))).
  { unfold namedDate, weekdayPrefix. rewrite !map_app.
    rewrite (map_digitFree f Hf _ (monthSpelling_digitFree name Is)).
    rewrite (map_digitFree f Hf _ (optComma_digitFree comma)).
    rewrite (map_digitFree f Hf (lit " ")) by (repeat constructor).
    reflexivity. }
  pose proof otherCaseCheck_ok as C. unfold otherCaseCheck in C.
  rewrite forallb_forall in C. specialize (C name Hn).
  rewrite forallb_forall in C. specialize (C day0 Id).
  rewrite forallb_forall in C. specialize (C comma (In_bools comma)).
  cbv zeta in C. apply plan_eqb_eq in C.
  rewrite E, extractDate_plan, (datePlan_map f _ Hf), C. reflexivity.
Qed.

End DateFamilies.

(** One or two digits. *)
Definition shortDigits (s : jsstr) : Prop := digitsOf 1 s \/ digitsOf 2 s.

Lemma shortDigits_cases s :
  shortDigits s ->
  exists d1 d2, isDigit d1 = true /\ isDigit d2 = true /\
                (s = [d1] \/ s = [d1; d2]).
Proof.
  intros [H|H].
  - destruct (digitsOf_1 s H) as (a & -> & A). exists a, a. auto.
  - destruct (digitsOf_2 s H) as (a & b & -> & A & B). exists a, b. auto.
Qed.

(** The renaming that sends the markers 1 2, 7 8 and 3 4 5 6 to given
    digits. *)
Definition markerRenaming (a1 a2 b1 b2 y1 y2 y3 y4 : cu) : cu -> cu :=
  renameBy [(49, a1); (50, a2); (55, b1); (56, b2);
            (51, y1); (52, y2); (53, y3); (54, y4)]%N.

Lemma markerRenaming_renames a1 a2 b1 b2 y1 y2 y3 y4 :
  isDigit a1 = true -> isDigit a2 = true ->
  isDigit b1 = true -> isDigit b2 = true ->
  isDigit y1 = true -> isDigit y2 = true ->
  isDigit y3 = true -> isDigit y4 = true ->
  renames (markerRenaming a1 a2 b1 b2 y1 y2 y3 y4).
Proof.
  intros. apply renameBy_renames. repeat constructor; simpl; assumption.
Qed.

Section DateFormats.

Variable today : jsstr.
Variable hostDate : jsstr -> option jsstr.

(** Formats (a) and (b) are decoded with the month table. *)
Lemma namedDate_by_table wd name mm day comma year :
  In wd weekdayChoices -> In (name, mm) monthMap ->
  shortDigits day -> digitsOf 4 year ->
  extractDate today hostDate (namedDate wd name day comma year)
  = isoDate year (lit mm) (padStart2 day).
Proof.
  intros Iw Im Hd Hy.
  destruct (shortDigits_cases day Hd) as (d1 & d2 & D1 & D2 & Ed).
  destruct (digitsOf_4 year Hy) as (y1 & y2 & y3 & y4 & -> & Y1 & Y2 & Y3 & Y4).
  pose proof (markerRenaming_renames d1 d2 d1 d2 y1 y2 y3 y4
                D1 D2 D1 D2 Y1 Y2 Y3 Y4) as Hf.
  destruct Ed as [-> | ->].
  - apply (namedDate_renamed today hostDate _ Hf wd name mm (lit "1") comma);
      simpl; auto.
  - apply (namedDate_renamed today hostDate _ Hf wd name mm (lit "12") comma);
      simpl; auto.
Qed.

(** Format (c), in either order of its fields, is left to the host. *)
Lemma numericDate_by_host a s1 b s2 y :
  shortDigits a -> shortDigits b -> digitsOf 4 y ->
  In s1 dateSeps -> In s2 dateSeps ->
  extractDate today hostDate (numericDate a s1 b s2 y)
  = askHost today hostDate (numericDate a s1 b s2 y)
  /\ extractDate today hostDate (numericDate y s1 a s2 b)
     = askHost today hostDate (numericDate y s1 a s2 b).
Proof.
  intros Ha Hb Hy I1 I2.
  destruct (shortDigits_cases a Ha) as (a1 & a2 & A1 & A2 & Ea).
  destruct (shortDigits_cases b Hb) as (b1 & b2 & B1 & B2 & Eb).
  destruct (digitsOf_4 y Hy) as (y1 & y2 & y3 & y4 & -> & Y1 & Y2 & Y3 & Y4).
  pose proof (markerRenaming_renames a1 a2 b1 b2 y1 y2 y3 y4
                A1 A2 B1 B2 Y1 Y2 Y3 Y4) as Hf.
  destruct Ea as [-> | ->]; destruct Eb as [-> | ->].
  - apply (numericDate_renamed today hostDate _ Hf (lit "1") s1 (lit "7") s2);
      simpl; auto.
  - apply (numericDate_renamed today hostDate _ Hf (lit "1") s1 (lit "78") s2);
      simpl; auto.
  - apply (numericDate_renamed today hostDate _ Hf (lit "12") s1 (lit "7") s2);
      simpl; auto.
  - apply (numericDate_renamed today hostDate _ Hf (lit "12") s1 (lit "78") s2);
      simpl; auto.
Qed.

(** Format (d) is left to the host as well, however the month is
    written. *)
Lemma dayMonthYear_by_host day name year :
  shortDigits day -> In name monthSpellings -> digitsOf 4 year ->
  extractDate today hostDate (dayMonthYear day name year)
  = askHost today hostDate (dayMonthYear day name year).
Proof.
  intros Hd Hn Hy.
  destruct (shortDigits_cases day Hd) as (d1 & d2 & D1 & D2 & Ed).
  destruct (digitsOf_4 year Hy) as (y1 & y2 & y3 & y4 & -> & Y1 & Y2 & Y3 & Y4).
  pose proof (markerRenaming_renames d1 d2 d1 d2 y1 y2 y3 y4
                D1 D2 D1 D2 Y1 Y2 Y3 Y4) as Hf.
  destruct Ed as [-> | ->].
  - apply (dayMonthYear_renamed today hostDate _ Hf (lit "1") name);
      simpl; auto.
  - apply (dayMonthYear_renamed today hostDate _ Hf (lit "12") name);
      simpl; auto.
Qed.

(** So is format (b) when the month is not capitalised as in the table. *)
Lemma otherCase_by_host name day comma year :
  In name otherCaseMonths -> shortDigits day -> digitsOf 4 year ->
  extractDate today hostDate (namedDate None name day comma year)
  = askHost today hostDate (namedDate None name day comma year).
Proof.
  intros Hn Hd Hy.
  destruct (shortDigits_cases day Hd) as (d1 & d2 & D1 & D2 & Ed).
  destruct (digitsOf_4 year Hy) as (y1 & y2 & y3 & y4 & -> & Y1 & Y2 & Y3 & Y4).
  pose proof (markerRenaming_renames d1 d2 d1 d2 y1 y2 y3 y4
                D1 D2 D1 D2 Y1 Y2 Y3 Y4) as Hf.
  destruct Ed as [-> | ->].
  - apply (otherCase_renamed today hostDate _ Hf name (lit "1") comma);
      simpl; auto.
  - apply (otherCase_renamed today hostDate _ Hf name (lit "12") comma);
      simpl; auto.
Qed.

End DateFormats.



(* ===================================================================== *)
(** * The categorizer over all descriptions                                *)
(* ===================================================================== *)

(** [getAllCategories()]: [Object.keys(CATEGORY_KEYWORDS)]. *)
Definition getAllCategories : list string := map fst CATEGORY_KEYWORDS.

Lemma N_of_ascii_inj a b : N_of_ascii a = N_of_ascii b -> a = b.
Proof.
  intros E. rewrite <- (ascii_N_embedding a), <- (ascii_N_embedding b), E.
  reflexivity.
Qed.

Lemma list_ascii_of_string_inj a b :
  list_ascii_of_string a = list_ascii_of_string b -> a = b.
Proof.
  intros E.
  rewrite <- (string_of_list_ascii_of_string a),
          <- (string_of_list_ascii_of_string b), E.
  reflexivity.
Qed.

(** Two literals of the source are the same text only if they are the same
    literal. *)
Lemma lit_inj a b : lit a = lit b -> a = b.
Proof.
  unfold lit. intros E. apply list_ascii_of_string_inj.
  revert E. generalize (list_ascii_of_string a) (list_ascii_of_string b).
  intros l. induction l as [|x l IH]; intros [|y l']; simpl; intros E;
    try discriminate; [reflexivity|].
  inversion E. f_equal; [apply N_of_ascii_inj; assumption | apply IH; assumption].
Qed.

(** A text that contains [k] contains what [k] contains. *)
Lemma includes_trans s k k' :
  includes s k = true -> includes k k' = true -> includes s k' = true.
Proof.
  rewrite !includes_iff. intros (a & b & E) (a' & b' & E').
  exists (a ++ a'), (b' ++ b). subst. rewrite <- !app_assoc. reflexivity.
Qed.

Section ScanFacts.

Variable lower : jsstr.
Variable type : txtype.

(** What the scan returns is the first row that is not passed over and has a
    keyword in the description. *)
Lemma scanCategories_Some : forall entries c,
  scanCategories lower type entries = Some c ->
  exists before kws after,
    entries = before ++ (c, kws) :: after /\
    (forall c' kws', In (c', kws') before ->
       skippedRow type c' \/ ~ rowHit lower kws') /\
    ~ skippedRow type c /\ rowHit lower kws.
Proof.
  induction entries as [|[c0 k0] entries IH]; simpl; intros c E; [discriminate|].
  destruct (String.eqb c0 "Income" && negb (txtype_eqb type credit))%bool eqn:S.
  - destruct (IH c E) as (before & kws & after & E1 & Hb & Hs & Hh).
    exists ((c0, k0) :: before), kws, after. subst entries.
    repeat split; trivial.
    intros c' kws' [X|X]; [inversion X; subst|auto].
    left. apply skipped_test. exact S.
  - destruct (keywordHit lower k0) eqn:K.
    + inversion E; subst. exists [], k0, entries.
      repeat split; trivial.
      * intros ? ? [].
      * intros X. apply skipped_test in X. congruence.
      * apply keywordHit_iff. exact K.
    + destruct (IH c E) as (before & kws & after & E1 & Hb & Hs & Hh).
      exists ((c0, k0) :: before), kws, after. subst entries.
      repeat split; trivial.
      intros c' kws' [X|X]; [inversion X; subst|auto].
      right. intros X'. apply keywordHit_iff in X'. congruence.
Qed.

Lemma scanCategories_None : forall entries,
  scanCategories lower type entries = None ->
  forall c kws, In (c, kws) entries ->
    skippedRow type c \/ ~ rowHit lower kws.
Proof.
  induction entries as [|[c0 k0] entries IH]; simpl; intros E c kws H; [tauto|].
  destruct (String.eqb c0 "Income" && negb (txtype_eqb type credit))%bool eqn:S.
  - destruct H as [X|X]; [inversion X; subst|auto].
    left. apply skipped_test. exact S.
  - destruct (keywordHit lower k0) eqn:K; [discriminate|].
    destruct H as [X|X]; [inversion X; subst|auto].
    right. intros X'. apply keywordHit_iff in X'. congruence.
Qed.

End ScanFacts.

(** The rows of the table have different names, so [CATEGORY_KEYWORDS[c]] is
    the row named [c]. *)
Lemma category_names_NoDup : NoDup getAllCategories.
Proof.
  unfold getAllCategories. simpl.
  repeat (constructor; [simpl; intuition discriminate|]). constructor.
Qed.

Lemma keywordsOf_row : forall table c kws,
  NoDup (map fst table) -> In (c, kws) table -> keywordsOf table c = kws.
Proof.
  induction table as [|[c0 k0] table IH]; simpl; intros c kws N H; [tauto|].
  inversion N as [|? ? Hnot Hnd]; subst.
  destruct H as [X|X].
  - inversion X; subst. rewrite String.eqb_refl. reflexivity.
  - destruct (String.eqb c0 c) eqn:E.
    + apply String.eqb_eq in E. subst. exfalso. apply Hnot.
      change c with (fst (c, kws)). apply in_map. exact X.
    + apply IH; assumption.
Qed.

Lemma category_row c kws :
  In (c, kws) CATEGORY_KEYWORDS -> keywordsOf CATEGORY_KEYWORDS c = kws.
Proof. apply keywordsOf_row. exact category_names_NoDup. Qed.

Lemma row_in_table before c kws after :
  CATEGORY_KEYWORDS = before ++ (c, kws) :: after ->
  In (c, kws) CATEGORY_KEYWORDS.
Proof. intros E. rewrite E. apply in_or_app. right. left. reflexivity. Qed.

(** The result of [categorizeTransaction], by cases. *)
Lemma categorize_cases toLowerCase description type :
  let lower := toLowerCase description in
  let income := keywordsOf CATEGORY_KEYWORDS "Income" in
  let result := categorizeTransaction toLowerCase description type in
  (type = credit /\ rowHit lower income /\ result = lit "Income")
  \/ (~ (type = credit /\ rowHit lower income) /\
      ((exists c, scanCategories lower type CATEGORY_KEYWORDS = Some c
                  /\ result = lit c)
       \/ (scanCategories lower type CATEGORY_KEYWORDS = None
           /\ result = lit "Uncategorized"))).
Proof.
  intros lower income result. unfold result, categorizeTransaction.
  fold lower. fold income.
  destruct (txtype_eqb type credit && keywordHit lower income)%bool eqn:B.
  - left. apply andb_true_iff in B. destruct B as [B1 B2].
    repeat split; [destruct type; [discriminate|reflexivity]
                  | apply keywordHit_iff; exact B2].
  - right. split.
    + intros [T H]. subst type. apply keywordHit_iff in H.
      fold income in H. rewrite H in B. discriminate.
    + destruct (scanCategories lower type CATEGORY_KEYWORDS) as [c|].
      * left. exists c. split; reflexivity.
      * right. split; reflexivity.
Qed.

(** X1. Whatever the description, the category is "Uncategorized" or one of
    the names [getAllCategories] lists, and "Income" is never given to a
    debit. *)
Theorem categorize_in_known_categories
    (toLowerCase : jsstr -> jsstr) (description : jsstr) (type : txtype) :
  let result := categorizeTransaction toLowerCase description type in
  (result = lit "Uncategorized"
   \/ exists c, In c getAllCategories /\ result = lit c)
  /\ (result = lit "Income" -> type = credit)
  /\ categorizeTransaction toLowerCase description debit <> lit "Income".
Proof.
  assert (Hcred : forall ty,
    categorizeTransaction toLowerCase description ty = lit "Income" ->
    ty = credit).
  { intros ty E.
    destruct (categorize_cases toLowerCase description ty)
      as [(T & _) | (_ & [(c & S & R) | (S & R)])]; [exact T | |].
    - rewrite R in E. apply lit_inj in E. subst c.
      apply scanCategories_Some in S.
      destruct S as (b & k & a & _ & _ & Hs & _).
      destruct ty; [exfalso; apply Hs; split; reflexivity | reflexivity].
    - rewrite R in E. apply lit_inj in E. discriminate. }
  intros result. split; [|split].
  - destruct (categorize_cases toLowerCase description type)
      as [(_ & _ & R) | (_ & [(c & S & R) | (S & R)])].
    + right. exists "Income"%string. split; [|exact R].
      unfold getAllCategories. simpl. tauto.
    + right. exists c. split; [|exact R].
      apply scanCategories_Some in S.
      destruct S as (b & k & a & E & _).
      unfold getAllCategories. rewrite E, map_app. apply in_or_app.
      right. left. reflexivity.
    + left. exact R.
  - apply Hcred.
  - intros E. apply Hcred in E. discriminate.
Qed.

(** The scan does not look at the direction when no Income row can hit. *)
Lemma scanCategories_direction lower : forall entries,
  (forall c kws, In (c, kws) entries -> c = "Income"%string ->
     keywordHit lower kws = false) ->
  scanCategories lower credit entries = scanCategories lower debit entries.
Proof.
  induction entries as [|[c0 k0] entries IH]; intros H; [reflexivity|].
  cbn [scanCategories txtype_eqb negb].
  rewrite IH by (intros c kws Hin; apply H; right; exact Hin).
  destruct (String.eqb c0 "Income") eqn:E; cbn [andb]; [|reflexivity].
  apply String.eqb_eq in E.
  rewrite (H c0 k0 (or_introl eq_refl) E). reflexivity.
Qed.

Lemma income_row c kws :
  In (c, kws) CATEGORY_KEYWORDS -> c = "Income"%string ->
  kws = keywordsOf CATEGORY_KEYWORDS "Income".
Proof. intros H E. subst c. symmetry. apply category_row. exact H. Qed.

(** X2. The direction of a transaction changes its category only through
    the Income row: a credit is "Income" exactly when a keyword of that row
    occurs in the lower-cased description, and otherwise gets the category
    the same description gets as a debit. *)
Theorem categorize_direction_only_through_income
    (toLowerCase : jsstr -> jsstr) (description : jsstr) :
  let lower := toLowerCase description in
  let income := keywordsOf CATEGORY_KEYWORDS "Income" in
  let asCredit := categorizeTransaction toLowerCase description credit in
  let asDebit := categorizeTransaction toLowerCase description debit in
  (asCredit = lit "Income" <-> rowHit lower income)
  /\ (asCredit = lit "Income" \/ asCredit = asDebit)
  /\ (~ rowHit lower income -> asCredit = asDebit).
Proof.
  intros lower income asCredit asDebit.
  assert (Hno : ~ rowHit lower income -> asCredit = asDebit).
  { intros Hn. unfold asCredit, asDebit, categorizeTransaction.
    fold lower. fold income.
    assert (K : keywordHit lower income = false).
    { destruct (keywordHit lower income) eqn:K; [|reflexivity].
      exfalso. apply Hn. apply keywordHit_iff. exact K. }
    rewrite K. cbn [txtype_eqb andb].
    rewrite (scanCategories_direction lower CATEGORY_KEYWORDS); [reflexivity|].
    intros c kws H E. rewrite (income_row c kws H E). exact K. }
  assert (Hiff : asCredit = lit "Income" <-> rowHit lower income).
  { split.
    - intros E.
      destruct (categorize_cases toLowerCase description credit)
        as [(_ & H & _) | (_ & [(c & S & R) | (S & R)])]; [exact H | |].
      + fold asCredit in R. rewrite R in E. apply lit_inj in E. subst c.
        apply scanCategories_Some in S.
        destruct S as (b & k & a & E1 & _ & _ & Hh).
        rewrite (income_row _ _ (row_in_table _ _ _ _ E1) eq_refl) in Hh.
        exact Hh.
      + fold asCredit in R. rewrite R in E. apply lit_inj in E. discriminate.
    - intros H.
      destruct (categorize_cases toLowerCase description credit)
        as [(_ & _ & R) | (N & _)]; [exact R|].
      exfalso. apply N. split; [reflexivity | exact H]. }
  split; [exact Hiff | split; [|exact Hno]].
  destruct (keywordHit lower income) eqn:K.
  - left. apply Hiff. apply keywordHit_iff. exact K.
  - right. apply Hno. intros H. apply keywordHit_iff in H. congruence.
Qed.

(** X3. A category is given only on the evidence of one of its own
    keywords: when the result is a row of the table, a keyword of that row
    occurs in the lower-cased description; and the result is "Uncategorized"
    exactly when no row has one, the Income row not counting on a debit. *)
Theorem categorize_keyword_evidence
    (toLowerCase : jsstr -> jsstr) (description : jsstr) (type : txtype) :
  let lower := toLowerCase description in
  let result := categorizeTransaction toLowerCase description type in
  (forall c, In c getAllCategories -> result = lit c ->
     rowHit lower (keywordsOf CATEGORY_KEYWORDS c))
  /\ (result = lit "Uncategorized" <->
      forall c kws, In (c, kws) CATEGORY_KEYWORDS ->
        skippedRow type c \/ ~ rowHit lower kws).
Proof.
  intros lower result. split.
  - intros c Hc E.
    destruct (categorize_cases toLowerCase description type)
      as [(_ & H & R) | (_ & [(c' & S & R) | (S & R)])];
      fold result in R; rewrite R in E; apply lit_inj in E; subst c.
    + exact H.
    + apply scanCategories_Some in S.
      destruct S as (b & k & a & E1 & _ & _ & Hh).
      rewrite (category_row _ _ (row_in_table _ _ _ _ E1)). exact Hh.
    + exfalso. revert Hc. unfold getAllCategories. simpl.
      intuition discriminate.
  - split.
    + intros E.
      destruct (categorize_cases toLowerCase description type)
        as [(_ & _ & R) | (_ & [(c' & S & R) | (S & R)])];
        fold result in R.
      * rewrite R in E. apply lit_inj in E. discriminate.
      * exfalso. rewrite R in E. apply lit_inj in E. subst c'.
        apply scanCategories_Some in S.
        destruct S as (b & k & a & E1 & _).
        apply row_in_table in E1. revert E1. simpl.
        intuition discriminate.
      * apply scanCategories_None. exact S.
    + intros H.
      destruct (categorize_cases toLowerCase description type)
        as [(T & Hi & R) | (_ & [(c' & S & R) | (S & R)])];
        fold result in R.
      * exfalso.
        destruct (H "Income"%string (keywordsOf CATEGORY_KEYWORDS "Income"))
          as [(_ & X) | X].
        -- simpl. tauto.
        -- congruence.
        -- apply X. exact Hi.
      * exfalso. apply scanCategories_Some in S.
        destruct S as (b & k & a & E1 & _ & Hs & Hh).
        destruct (H c' k (row_in_table _ _ _ _ E1)); contradiction.
      * exact R.
Qed.

(** A keyword of one of the first rows found in the description keeps the
    scan within these rows. *)
Lemma scanCategories_early lower type : forall early late,
  (exists c kws, In (c, kws) early /\ ~ skippedRow type c
                 /\ rowHit lower kws) ->
  exists c, scanCategories lower type (early ++ late) = Some c
            /\ In c (map fst early).
Proof.
  induction early as [|[c0 k0] early IH]; intros late (c & kws & H & Hs & Hh);
    [destruct H|].
  simpl.
  destruct (String.eqb c0 "Income" && negb (txtype_eqb type credit))%bool eqn:S.
  - destruct H as [X|X].
    + inversion X; subst. apply skipped_test in S. contradiction.
    + destruct (IH late) as (c' & E & I); [exists c, kws; auto|].
      exists c'. split; [exact E | right; exact I].
  - destruct (keywordHit lower k0) eqn:K.
    + exists c0. split; [reflexivity | left; reflexivity].
    + destruct H as [X|X].
      * inversion X; subst. apply keywordHit_iff in Hh. congruence.
      * destruct (IH late) as (c' & E & I); [exists c, kws; auto|].
        exists c'. split; [exact E | right; exact I].
Qed.

(** The result when a keyword of one of the first [n] rows, none of them
    the Income row, occurs in the description. *)
Lemma categorize_early toLowerCase description type n k c kws :
  In (c, kws) (firstn n CATEGORY_KEYWORDS) -> c <> "Income"%string ->
  In k kws -> includes (toLowerCase description) (lit k) = true ->
  let result := categorizeTransaction toLowerCase description type in
  result = lit "Income"
  \/ exists c', In c' (map fst (firstn n CATEGORY_KEYWORDS)) /\ result = lit c'.
Proof.
  intros Hrow Hc Hk Hi result.
  destruct (categorize_cases toLowerCase description type)
    as [(_ & _ & R) | (_ & Hscan)]; [left; exact R|].
  right.
  destruct (scanCategories_early (toLowerCase description) type
              (firstn n CATEGORY_KEYWORDS) (skipn n CATEGORY_KEYWORDS))
    as (c' & E & I).
  { exists c, kws. repeat split; trivial.
    - intros (X & _). contradiction.
    - exists k. split; assumption. }
  rewrite firstn_skipn in E.
  destruct Hscan as [(c'' & S & R) | (S & _)]; [|congruence].
  exists c'. split; [exact I|].
  rewrite E in S. inversion S; subst c''. exact R.
Qed.

(** X4. Rows come in a fixed order, so a keyword that contains a keyword of
    an earlier row never decides. A debit whose description has a Dining
    keyword is "Dining" whatever else it mentions; and a description with
    "food basics" or "whole foods" is never "Groceries", one with
    "metro pass" never "Transport", one with "gas bill" never "Utilities":
    "food", "metro" and "gas" of the rows before win. *)
Theorem categorize_shadowed_keywords
    (toLowerCase : jsstr -> jsstr) (description : jsstr) (type : txtype) :
  let lower := toLowerCase description in
  let result := categorizeTransaction toLowerCase description type in
  (rowHit lower (keywordsOf CATEGORY_KEYWORDS "Dining") ->
     result = lit "Dining" \/ (type = credit /\ result = lit "Income"))
  /\ (includes lower (lit "food basics") = true
      \/ includes lower (lit "whole foods") = true ->
      result <> lit "Groceries")
  /\ (includes lower (lit "metro pass") = true -> result <> lit "Transport")
  /\ (includes lower (lit "gas bill") = true -> result <> lit "Utilities").
Proof.
  intros lower result.
  assert (Hcred : result = lit "Income" -> type = credit).
  { intros E.
    destruct (categorize_cases toLowerCase description type)
      as [(T & _) | (_ & [(c & S & R) | (S & R)])]; [exact T | |];
      fold result in R; rewrite R in E; apply lit_inj in E;
      [|discriminate].
    subst c. apply scanCategories_Some in S.
    destruct S as (b & k & a & _ & _ & Hs & _).
    destruct type; [exfalso; apply Hs; split; reflexivity | reflexivity]. }
  assert (Hfood : includes lower (lit "food") = true -> result <> lit "Groceries").
  { intros H E.
    destruct (categorize_early toLowerCase description type 1 "food"
                "Dining" (keywordsOf CATEGORY_KEYWORDS "Dining"))
      as [R | (c' & I & R)]; try (simpl; tauto); try discriminate; trivial.
    - fold result in R. rewrite R in E. apply lit_inj in E. discriminate.
    - fold result in R. rewrite R in E. apply lit_inj in E. subst c'.
      simpl in I. intuition discriminate. }
  split; [|split; [|split]].
  - intros (k & Hk & Hi).
    destruct (categorize_early toLowerCase description type 1 k
                "Dining" (keywordsOf CATEGORY_KEYWORDS "Dining"))
      as [R | (c' & I & R)]; try (simpl; tauto); try discriminate; trivial.
    left. simpl in I. destruct I as [I|[]]. subst c'. exact R.
  - intros [H|H]; apply Hfood; (eapply includes_trans; [exact H|]);
      vm_compute; reflexivity.
  - intros H E.
    destruct (categorize_early toLowerCase description type 2 "metro"
                "Groceries" (keywordsOf CATEGORY_KEYWORDS "Groceries"))
      as [R | (c' & I & R)]; try (simpl; tauto); try discriminate.
    + eapply includes_trans; [exact H|]. vm_compute. reflexivity.
    + fold result in R. rewrite R in E. apply lit_inj in E. discriminate.
    + fold result in R. rewrite R in E. apply lit_inj in E. subst c'.
      simpl in I. intuition discriminate.
  - intros H E.
    destruct (categorize_early toLowerCase description type 3 "gas"
                "Transport" (keywordsOf CATEGORY_KEYWORDS "Transport"))
      as [R | (c' & I & R)]; try (simpl; tauto); try discriminate.
    + eapply includes_trans; [exact H|]. vm_compute. reflexivity.
    + fold result in R. rewrite R in E. apply lit_inj in E. discriminate.
    + fold result in R. rewrite R in E. apply lit_inj in E. subst c'.
      simpl in I. intuition discriminate.
Qed.

(* ===================================================================== *)
(** * The numbers of the legacy parser                                     *)
(* ===================================================================== *)

Lemma In_firstn_In (A : Type) (x : A) : forall n l, In x (firstn n l) -> In x l.
Proof.
  intros n l H. rewrite <- (firstn_skipn n l). apply in_or_app. left. exact H.
Qed.

Lemma In_skipn_In (A : Type) (x : A) : forall n l, In x (skipn n l) -> In x l.
Proof.
  intros n l H. rewrite <- (firstn_skipn n l). apply in_or_app. right. exact H.
Qed.

(** A replacement brings in nothing but the replacement text. *)
Lemma replace_loop_In c by_ : forall ms pos s,
  In c (replace_loop ms pos s by_) -> In c s \/ In c by_.
Proof.
  induction ms as [|m ms IH]; simpl; intros pos s H; [left; exact H|].
  apply in_app_or in H. destruct H as [H|H].
  - left. eapply In_firstn_In. exact H.
  - apply in_app_or in H. destruct H as [H|H]; [right; exact H|].
    apply IH in H. destruct H as [H|H]; [left|right; exact H].
    eapply In_skipn_In. exact H.
Qed.

Lemma replaceAll_In c r by_ s :
  In c (replaceAll r by_ s) -> In c s \/ In c by_.
Proof. apply replace_loop_In. Qed.

Lemma digitFree_In s : digitFree s <-> forall c, In c s -> isDigit c = false.
Proof. unfold digitFree. apply Forall_forall. Qed.

Lemma replaceAll_digitFree r by_ s :
  digitFree s -> digitFree by_ -> digitFree (replaceAll r by_ s).
Proof.
  rewrite !digitFree_In. intros Hs Hb c H.
  apply replaceAll_In in H. destruct H; auto.
Qed.

Lemma digitFree_app_r a b : digitFree (a ++ b) -> digitFree b.
Proof.
  rewrite !digitFree_In. intros H c I. apply H. apply in_or_app. right. exact I.
Qed.

Lemma digitFree_part a l b : digitFree (a ++ l ++ b) -> digitFree l.
Proof.
  rewrite !digitFree_In. intros H c I. apply H.
  apply in_or_app. right. apply in_or_app. left. exact I.
Qed.

(** A sufficient condition, read off the syntax, for every match of a
    pattern to read a digit. *)
Fixpoint readsDigit (r : regex) : Prop :=
  match r with
  | RChar p => forall c, p c = true -> isDigit c = true
  | RSeq a b => readsDigit a \/ readsDigit b
  | RAlt a b => readsDigit a /\ readsDigit b
  | RGroup _ a => readsDigit a
  | _ => False
  end.

Lemma readsDigit_reads r : forall st st',
  Matches r st st' -> readsDigit r ->
  exists w, rest st = w ++ rest st' /\ ~ digitFree w.
Proof.
  intros st st' M.
  induction M as [st|p c sn s cs Hp|r1 r2 st st1 st2 M1 IH1 M2 IH2
                 |r1 r2 st st' M IH|r1 r2 st st' M IH|r st
                 |r st st1 st2 M1 IH1 L M2 IH2|i r st st' M IH|st Hx|st Hx
                 |st Hx];
    simpl; intros Hr; try contradiction.
  - exists [c]. split; [reflexivity|].
    intros F. inversion F as [|? ? Hc ?]; subst.
    rewrite (Hr c Hp) in Hc. discriminate.
  - destruct (Matches_reads _ _ _ M1) as (w1 & R1 & _).
    destruct (Matches_reads _ _ _ M2) as (w2 & R2 & _).
    exists (w1 ++ w2). split; [rewrite R1, R2, app_assoc; reflexivity|].
    intros F. apply Forall_app in F. destruct F as [F1 F2].
    destruct Hr as [Hr|Hr].
    + destruct (IH1 Hr) as (w & R & N). apply N.
      rewrite R1 in R. apply app_inv_tail in R. subst w. exact F1.
    + destruct (IH2 Hr) as (w & R & N). apply N.
      rewrite R2 in R. apply app_inv_tail in R. subst w. exact F2.
  - apply IH. tauto.
  - apply IH. tauto.
  - destruct (IH Hr) as (w & R & N). exists w. split; [|exact N].
    simpl. exact R.
Qed.

(** Such a pattern finds nothing in a text without digits. *)
Lemma search_digitFree r s sn :
  readsDigit r -> digitFree s -> search r sn s = None.
Proof.
  intros Hr Hs. apply search_None. intros pre post E st' M.
  destruct (readsDigit_reads _ _ _ M Hr) as (w & R & N). simpl in R.
  apply N. subst s. apply digitFree_app_r in Hs. rewrite R in Hs.
  apply Forall_app in Hs. tauto.
Qed.

Lemma exec_digitFree r s : readsDigit r -> digitFree s -> exec r s = None.
Proof. apply search_digitFree. Qed.

Lemma matchAll_digitFree r s : readsDigit r -> digitFree s -> matchAll r s = [].
Proof.
  intros Hr Hs. unfold matchAll. simpl.
  rewrite (search_digitFree r s [] Hr Hs). reflexivity.
Qed.

Lemma matchG_digitFree r s : readsDigit r -> digitFree s -> matchG r s = None.
Proof.
  intros Hr Hs. unfold matchG. rewrite matchAll_digitFree by assumption.
  reflexivity.
Qed.

Ltac reads_digit :=
  cbn;
  first [ solve [intros c H; exact H]
        | solve [split; reads_digit]
        | solve [left; reads_digit]
        | solve [right; reads_digit] ].

Lemma numberRe_readsDigit : readsDigit (RGroup 1 numberRe).
Proof. reads_digit. Qed.

Lemma numberRe_plain_readsDigit : readsDigit numberRe.
Proof. reads_digit. Qed.

Lemma currencyPatterns_readsDigit r :
  In r currencyPatterns -> readsDigit r.
Proof. intros [E|[E|[]]]; subst r; reads_digit. Qed.

Lemma datePatterns_readsDigit r : In r datePatterns -> readsDigit r.
Proof.
  intros [E|[E|[E|[E|[E|[]]]]]]; subst r;
    unfold datePattern1, datePattern2, datePattern3, datePattern4,
           datePattern5; cbn [rseq readsDigit];
    unfold rrange, rdigit; cbn [readsDigit]; intuition.
Qed.

(** Rounding to a double keeps the sign. *)
Lemma halfEven_nonneg n d : (0 <= n)%Z -> (0 < d)%Z -> (0 <= halfEven n d)%Z.
Proof.
  intros Hn Hd. unfold halfEven.
  pose proof (Z.div_pos n d Hn Hd) as Hq.
  destruct (2 * (n mod d) ?= d)%Z; [destruct (Z.even _)|..]; lia.
Qed.

Lemma roundPositive_nonneg n d :
  (0 < n)%Z -> (0 < d)%Z -> nonneg (roundPositive n d).
Proof.
  intros Hn Hd. unfold roundPositive, nonneg, num_le.
  set (p := Z.max _ _).
  destruct (0 <=? p)%Z eqn:Ep.
  - apply Z.leb_le in Ep.
    destruct (2 ^ 1024 <=? _)%Z; [reflexivity|].
    cbn [num_leb]. apply Qle_bool_iff. unfold Qle. cbn [Qnum Qden inject_Z].
    assert (0 <= halfEven n (d * 2 ^ p))%Z.
    { apply halfEven_nonneg; [lia|].
      apply Z.mul_pos_pos; [lia | apply Z.pow_pos_nonneg; lia]. }
    assert (0 <= 2 ^ p)%Z by (apply Z.pow_nonneg; lia).
    nia.
  - apply Z.leb_gt in Ep.
    cbn [num_leb]. apply Qle_bool_iff. rewrite Qred_correct.
    unfold Qle. cbn [Qnum Qden].
    assert (0 <= halfEven (n * 2 ^ (- p)) d)%Z.
    { apply halfEven_nonneg; [|lia].
      apply Z.mul_nonneg_nonneg; [lia | apply Z.pow_nonneg; lia]. }
    lia.
Qed.

Lemma roundDouble_nonneg q : (0 <= q)%Q -> nonneg (roundDouble q).
Proof.
  intros H. unfold roundDouble. destruct q as [n d]. cbn [Qnum Qden].
  destruct n as [|n|n].
  - apply num_le_refl.
  - apply roundPositive_nonneg; lia.
  - exfalso. unfold Qle in H. cbn [Qnum Qden] in H. lia.
Qed.

(** The value [parseFloat] reads at the head of a text that begins with a
    digit. *)
Lemma decimalQ_nonneg int frac : (0 <= decimalQ int frac)%Q.
Proof.
  unfold decimalQ. destruct frac; unfold Qle; cbn [Qnum Qden]; lia.
Qed.

Lemma parseFloat_digit d w :
  isDigit d = true -> exists n, parseFloat (d :: w) = Some n /\ nonneg n.
Proof.
  intros D. unfold parseFloat. simpl. rewrite D.
  destruct (takeDigits w) as [ds r].
  eexists. split; [reflexivity|].
  apply roundDouble_nonneg. apply decimalQ_nonneg.
Qed.

(** What the number pattern with its group captures begins with a digit. *)
Lemma numberRe_group pre post st' :
  Matches (RGroup 1 numberRe) (startAt pre post) st' ->
  exists d w, getcap 1 (caps st') = Some (d :: w) /\ isDigit d = true.
Proof.
  intros M. inversion M as [| | | | | | |i r' u0 u1 G| | |]; subst.
  unfold numberRe, rseq, rplus, rdigit in G.
  inversion G as [| |r1 r2 s0 s1 s2 M1 M2| | | | | | | |]; subst.
  inversion M1 as [| |r1' r2' t0 t1 t2 N1 N2| | | | | | | |]; subst.
  inversion N1 as [|p c sn s cs Hp| | | | | | | | |]; subst.
  destruct (Matches_reads _ _ _ N2) as (w1 & R1 & _).
  destruct (Matches_reads _ _ _ M2) as (w2 & R2 & _).
  simpl in R1. exists c, (w1 ++ w2). split; [|exact Hp].
  simpl. f_equal.
  match goal with |- consumed ?a ?b = _ => apply (consumed_app a b) end.
  simpl. rewrite R1, R2, <- app_assoc. reflexivity.
Qed.

(** X5. [extractNumberFromLine] always returns a number, never NaN: what
    its pattern captures begins with a digit, so [parseFloat] reads it. The
    number is not negative, and it is 0 for a line without a digit. *)
Theorem extractNumberFromLine_is_a_number (line : jsstr) :
  (exists n, extractNumberFromLine line = Some n /\ nonneg n)
  /\ (digitFree line -> extractNumberFromLine line = Some (Finite 0)).
Proof.
  unfold extractNumberFromLine. split.
  - set (cleaned := replaceAll spacesRe (lit " ") _).
    destruct (exec (RGroup 1 numberRe) cleaned) as [m|] eqn:E.
    + apply exec_Some in E.
      destruct E as (pre & post & _ & _ & M & _ & C & _).
      apply numberRe_group in M. destruct M as (d & w & G & D).
      unfold m_group. rewrite C, G. apply parseFloat_digit. exact D.
    + exists (Finite 0). split; [reflexivity | apply num_le_refl].
  - intros H. rewrite exec_digitFree; [reflexivity | |].
    + exact numberRe_readsDigit.
    + apply replaceAll_digitFree; [|apply digitFree_In; vm_compute; intros c [X|[]]; subst; reflexivity].
      apply replaceAll_digitFree; [|constructor].
      apply replaceAll_digitFree; [exact H | constructor].
Qed.

(* ===================================================================== *)
(** * Tokens of a text                                                     *)
(* ===================================================================== *)

(** The code units of a class that a text begins with. *)
Fixpoint leading (p : cu -> bool) (s : jsstr) : jsstr :=
  match s with
  | c :: s' => if p c then c :: leading p s' else []
  | [] => []
  end.

(** The same, [n] of them at most. *)
Fixpoint leadingUpTo (n : nat) (p : cu -> bool) (s : jsstr) : jsstr :=
  match n, s with
  | S n', c :: s' => if p c then c :: leadingUpTo n' p s' else []
  | _, _ => []
  end.

Section Tokens.

(** A reader takes a token off the head of a text, or finds none there. *)
Variable read : jsstr -> option jsstr.

(** The tokens of a text, from left to right. Where a token is read, the
    reading resumes after it: [skip] counts the code units of the last
    token that are still ahead. *)
Fixpoint tokensFrom (skip : nat) (s : jsstr) : list jsstr :=
  match s with
  | [] => []
  | c :: s' =>
      match skip with
      | S n => tokensFrom n s'
      | O =>
          match read s with
          | Some tok => tok :: tokensFrom (length tok - 1) s'
          | None => tokensFrom 0 s'
          end
      end
  end.

Definition tokens (s : jsstr) : list jsstr := tokensFrom 0 s.

(** The first token of a text. *)
Fixpoint firstToken (s : jsstr) : option jsstr :=
  match read s with
  | Some tok => Some tok
  | None =>
      match s with
      | [] => None
      | _ :: s' => firstToken s'
      end
  end.

(** The text with each of its tokens replaced by [by_]. *)
Fixpoint replaceTokens (by_ : jsstr) (skip : nat) (s : jsstr) : jsstr :=
  match s with
  | [] => []
  | c :: s' =>
      match skip with
      | S n => replaceTokens by_ n s'
      | O =>
          match read s with
          | Some tok => by_ ++ replaceTokens by_ (length tok - 1) s'
          | None => c :: replaceTokens by_ 0 s'
          end
      end
  end.

(** The pattern [r], started anywhere, matches what [read] takes, and sets
    the groups [groups] of the token; a token is a prefix of the text that
    is not empty. *)
Definition readsAs (r : regex) (groups : jsstr -> list (nat * jsstr)) : Prop :=
  (forall s tok, read s = Some tok ->
     tok <> [] /\ s = tok ++ skipn (length tok) s)
  /\ forall sn s,
       rmatch r (MState sn s []) Some
       = match read s with
         | Some tok =>
             Some (MState (rev tok ++ sn) (skipn (length tok) s) (groups tok))
         | None => None
         end.

Variable r : regex.
Variable groups : jsstr -> list (nat * jsstr).
Hypothesis Hreads : readsAs r groups.

Lemma search_readsAs s sn :
  search r sn s
  = match read s with
    | Some tok =>
        Some (RResult (length sn) tok (groups tok)
                (MState (rev tok ++ sn) (skipn (length tok) s) (groups tok)))
    | None =>
        match s with
        | [] => None
        | c :: s' => search r (c :: sn) s'
        end
    end.
Proof.
  destruct Hreads as (Hp & Hm).
  assert (E : search r sn s
              = match rmatch r (MState sn s []) Some with
                | Some st' =>
                    Some (RResult (length sn)
                            (consumed (MState sn s []) st') (caps st') st')
                | None =>
                    match s with
                    | [] => None
                    | c :: s' => search r (c :: sn) s'
                    end
                end)
    by (destruct s; reflexivity).
  rewrite E, Hm. destruct (read s) as [tok|] eqn:Er; [|reflexivity].
  destruct (Hp s tok Er) as (_ & Es).
  f_equal. f_equal. apply consumed_app. exact Es.
Qed.

Lemma tokensFrom_skip tok : forall post,
  tokensFrom (length tok) (tok ++ post) = tokensFrom 0 post.
Proof.
  induction tok as [|c tok IH]; intros post; [reflexivity | apply IH].
Qed.

Lemma replaceTokens_skip by_ tok : forall post,
  replaceTokens by_ (length tok) (tok ++ post) = replaceTokens by_ 0 post.
Proof.
  induction tok as [|c tok IH]; intros post; [reflexivity | apply IH].
Qed.

(** The matches of the pattern with the g flag are the tokens. *)
Lemma matchAll_loop_readsAs : forall n s sn fuel,
  length s <= n -> n < fuel ->
  map (fun m => (m_text m, m_caps m)) (matchAll_loop fuel r sn s)
  = map (fun tok => (tok, groups tok)) (tokens s).
Proof.
  destruct Hreads as (Hp & _).
  induction n as [|n IH]; intros s sn fuel L F.
  - destruct s; [|simpl in L; lia]. destruct fuel; [lia|].
    cbn [matchAll_loop]. rewrite search_readsAs.
    destruct (read []) as [tok|] eqn:Er; [|reflexivity].
    destruct (Hp _ _ Er) as (N & E). destruct tok; [congruence|discriminate].
  - destruct fuel as [|fuel]; [lia|].
    cbn [matchAll_loop]. rewrite search_readsAs.
    destruct (read s) as [tok|] eqn:Er.
    + destruct (Hp _ _ Er) as (N & E).
      destruct tok as [|c tok]; [congruence|].
      cbn [m_text m_end rest seen].
      remember (skipn (length (c :: tok)) s) as post eqn:Ep. clear Ep.
      subst s. rewrite length_app in L. cbn [length] in L.
      cbn [map m_text m_caps]. unfold tokens.
      change ((c :: tok) ++ post) with (c :: tok ++ post) at 1.
      cbn [tokensFrom]. change (c :: tok ++ post) with ((c :: tok) ++ post).
      rewrite Er.
      replace (length (c :: tok) - 1) with (length tok) by (simpl; lia).
      rewrite tokensFrom_skip.
      cbn [map]. f_equal. apply IH; lia.
    + destruct s as [|c s']; [reflexivity|].
      unfold tokens. cbn [tokensFrom]. rewrite Er.
      change (map (fun m => (m_text m, m_caps m))
                (matchAll_loop (S fuel) r (c :: sn) s')
              = map (fun tok => (tok, groups tok)) (tokensFrom 0 s')).
      apply IH; simpl in L; lia.
Qed.

Lemma matchAll_readsAs s :
  map (fun m => (m_text m, m_caps m)) (matchAll r s)
  = map (fun tok => (tok, groups tok)) (tokens s).
Proof.
  unfold matchAll. apply (matchAll_loop_readsAs (length s)); lia.
Qed.

Lemma matchG_readsAs s :
  matchG r s = match tokens s with [] => None | ts => Some ts end.
Proof.
  unfold matchG. pose proof (matchAll_readsAs s) as H.
  assert (Ht : map m_text (matchAll r s) = tokens s).
  { apply (f_equal (map fst)) in H. rewrite !map_map in H. cbn [fst] in H.
    rewrite map_id in H. exact H. }
  destruct (matchAll r s) as [|m ms]; rewrite <- Ht; reflexivity.
Qed.

(** The first match of the pattern is the first token. *)
Lemma exec_readsAs s :
  option_map (fun m => (m_text m, m_caps m)) (exec r s)
  = option_map (fun tok => (tok, groups tok)) (firstToken s).
Proof.
  unfold exec. generalize (@nil cu) as sn.
  induction s as [|c s IH]; intros sn; rewrite search_readsAs;
    cbn [firstToken]; destruct (read _) as [tok|]; try reflexivity.
  apply IH.
Qed.

(** Replacing the matches replaces the tokens. *)
Lemma replace_loop_readsAs by_ : forall n s sn fuel,
  length s <= n -> n < fuel ->
  replace_loop (matchAll_loop fuel r sn s) (length sn) s by_
  = replaceTokens by_ 0 s.
Proof.
  destruct Hreads as (Hp & _).
  induction n as [|n IH]; intros s sn fuel L F.
  - destruct s; [|simpl in L; lia]. destruct fuel; [lia|].
    cbn [matchAll_loop]. rewrite search_readsAs.
    destruct (read []) as [tok|] eqn:Er; [|reflexivity].
    destruct (Hp _ _ Er) as (N & E). destruct tok; [congruence|discriminate].
  - destruct fuel as [|fuel]; [lia|].
    cbn [matchAll_loop]. rewrite search_readsAs.
    destruct (read s) as [tok|] eqn:Er.
    + destruct (Hp _ _ Er) as (N & E).
      destruct tok as [|c tok]; [congruence|].
      cbn [m_text m_end rest seen].
      remember (skipn (length (c :: tok)) s) as post eqn:Ep.
      cbn [replace_loop m_index m_text]. rewrite Nat.sub_diag.
      cbn [firstn app Nat.add]. rewrite <- Ep. clear Ep.
      subst s. rewrite length_app in L. cbn [length] in L.
      change ((c :: tok) ++ post) with (c :: tok ++ post) at 1.
      cbn [replaceTokens]. change (c :: tok ++ post) with ((c :: tok) ++ post).
      rewrite Er.
      replace (length (c :: tok) - 1) with (length tok) by (simpl; lia).
      rewrite replaceTokens_skip.
      f_equal.
      replace (length sn + length (c :: tok))
        with (length (rev (c :: tok) ++ sn))
        by (rewrite length_app, length_rev; simpl; lia).
      apply IH; lia.
    + destruct s as [|c s']; [reflexivity|].
      cbn [replaceTokens]. rewrite Er.
      change (replace_loop (matchAll_loop (S fuel) r (c :: sn) s')
                (length sn) (c :: s') by_
              = c :: replaceTokens by_ 0 s').
      assert (Hi : forall ms,
        match ms with
        | [] => True
        | m :: _ => S (length sn) <= m_index m
        end ->
        replace_loop ms (length sn) (c :: s') by_
        = c :: replace_loop ms (length (c :: sn)) s' by_).
      { intros [|m ms] Hm; [reflexivity|].
        cbn [replace_loop length].
        replace (m_index m - length sn) with (S (m_index m - S (length sn)))
          by lia.
        reflexivity. }
      rewrite Hi.
      * f_equal. apply IH; simpl in L; lia.
      * cbn [matchAll_loop].
        destruct (search r (c :: sn) s') as [m|] eqn:Es; [|exact I].
        apply search_Some in Es.
        destruct Es as (pre & post & _ & _ & Ei & _).
        assert (Hm : S (length sn) <= m_index m)
          by (rewrite Ei; simpl; lia).
        destruct (m_text m); destruct (rest (m_end m)); exact Hm.
Qed.

Lemma replaceAll_readsAs by_ s :
  replaceAll r by_ s = replaceTokens by_ 0 s.
Proof.
  unfold replaceAll, matchAll.
  apply (replace_loop_readsAs by_ (length s) s []); lia.
Qed.

End Tokens.
(** ** The readers of the amount patterns *)

Definition isComma (c : cu) : bool := cu_eqb (ch ",") c.
Definition isPoint (c : cu) : bool := cu_eqb (ch ".") c.

(** One code unit of a class. *)
Definition oneOf (p : cu -> bool) (s : jsstr) : option jsstr :=
  match s with
  | c :: _ => if p c then Some [c] else None
  | [] => None
  end.

(** A run of white space. *)
Definition spaceRun (s : jsstr) : option jsstr :=
  match leading isSpace s with
  | [] => None
  | run => Some run
  end.

(** A number: digits, then a point when one follows, then the digits that
    follow the point. *)
Definition numberToken (s : jsstr) : option jsstr :=
  match leading isDigit s with
  | [] => None
  | int =>
      match skipn (length int) s with
      | c :: after =>
          if isPoint c then Some (int ++ c :: leading isDigit after)
          else Some int
      | [] => Some int
      end
  end.

(** The groups of a comma and three digits that a text begins with. *)
Fixpoint commaGroups (s : jsstr) : jsstr :=
  match s with
  | c :: d1 :: d2 :: d3 :: s' =>
      if (isComma c && isDigit d1 && isDigit d2 && isDigit d3)%bool
      then c :: d1 :: d2 :: d3 :: commaGroups s'
      else []
  | _ => []
  end.

(** A point and two digits, when the text begins with them. *)
Definition centsOf (s : jsstr) : jsstr :=
  match s with
  | c :: d1 :: d2 :: _ =>
      if (isPoint c && isDigit d1 && isDigit d2)%bool then [c; d1; d2] else []
  | _ => []
  end.

(** The amount after a currency symbol: one to three digits, then the
    groups of a comma and three digits, then a point and two digits. *)
Definition amountToken (s : jsstr) : option jsstr :=
  match leadingUpTo 3 isDigit s with
  | [] => None
  | int =>
      let s1 := skipn (length int) s in
      let groups := commaGroups s1 in
      let s2 := skipn (length groups) s1 in
      Some (int ++ groups ++ centsOf s2)
  end.

(** A currency symbol with the amount after it. *)
Definition currencyToken (symbol : cu -> bool) (s : jsstr) : option jsstr :=
  match s with
  | c :: s' =>
      if symbol c
      then match amountToken s' with
           | Some amount => Some (c :: amount)
           | None => None
           end
      else None
  | [] => None
  end.

(** ** What the patterns read *)

Lemma leading_prefix p : forall s,
  s = leading p s ++ skipn (length (leading p s)) s.
Proof.
  induction s as [|c s IH]; [reflexivity|]. simpl.
  destruct (p c); [|reflexivity]. simpl. f_equal. exact IH.
Qed.

Lemma leading_done p : forall s,
  leading p (skipn (length (leading p s)) s) = [].
Proof.
  induction s as [|c s IH]; [reflexivity|]. simpl.
  destruct (p c) eqn:E; [exact IH|]. simpl. rewrite E. reflexivity.
Qed.

Lemma leadingUpTo_prefix p : forall n s,
  s = leadingUpTo n p s ++ skipn (length (leadingUpTo n p s)) s.
Proof.
  induction n as [|n IH]; intros [|c s]; try reflexivity. simpl.
  destruct (p c); [|reflexivity]. simpl. f_equal. apply IH.
Qed.

Lemma commaGroups_prefix : forall n s,
  length s <= n ->
  s = commaGroups s ++ skipn (length (commaGroups s)) s.
Proof.
  induction n as [|n IH]; intros s L.
  - destruct s; [reflexivity | simpl in L; lia].
  - destruct s as [|c [|d1 [|d2 [|d3 s']]]]; try reflexivity.
    cbn [commaGroups].
    destruct (isComma c && isDigit d1 && isDigit d2 && isDigit d3)%bool;
      [|reflexivity].
    cbn [length skipn app]. do 4 f_equal. apply IH. simpl in L. lia.
Qed.

Lemma centsOf_prefix s : s = centsOf s ++ skipn (length (centsOf s)) s.
Proof.
  destruct s as [|c [|d1 [|d2 s']]]; try reflexivity. cbn [centsOf].
  destruct (isPoint c && isDigit d1 && isDigit d2)%bool; reflexivity.
Qed.

(** Greedy iteration of a class reads the whole run, when what follows
    succeeds there. *)
Lemma star_class_greedy p k res : forall n s sn cs,
  length s <= n ->
  k (MState (rev (leading p s) ++ sn) (skipn (length (leading p s)) s) cs)
  = Some res ->
  star_loop (rmatch (RChar p)) n (MState sn s cs) k = Some res.
Proof.
  remember (rmatch (RChar p)) as m eqn:Em.
  assert (Hm : forall sn c s cs k',
            m (MState sn (c :: s) cs) k'
            = if p c then k' (MState (c :: sn) s cs) else None)
    by (subst m; reflexivity).
  assert (Hm0 : forall sn cs k', m (MState sn [] cs) k' = None)
    by (subst m; reflexivity).
  clear Em.
  induction n as [|n IH]; intros s sn cs L H.
  - destruct s; [exact H | simpl in L; lia].
  - destruct s as [|c s]; cbn [star_loop].
    + rewrite Hm0. exact H.
    + rewrite Hm. cbn [leading] in H. destruct (p c).
      * cbn [rest length].
        rewrite (proj2 (Nat.ltb_lt _ _) (Nat.lt_succ_diag_r _)).
        rewrite (IH s (c :: sn) cs); [reflexivity | simpl in L; lia |].
        cbn [rev length skipn] in H. rewrite <- app_assoc in H. exact H.
      * exact H.
Qed.

Lemma rmatch_star_class p k res s sn cs :
  k (MState (rev (leading p s) ++ sn) (skipn (length (leading p s)) s) cs)
  = Some res ->
  rmatch (RStar (RChar p)) (MState sn s cs) k = Some res.
Proof.
  intros H. cbn [rmatch rest]. apply star_class_greedy; [lia | exact H].
Qed.

(** The equations of the matcher. *)
Lemma rmatch_seq r1 r2 st k :
  rmatch (RSeq r1 r2) st k = rmatch r1 st (fun st' => rmatch r2 st' k).
Proof. reflexivity. Qed.

Lemma rmatch_alt r1 r2 st k :
  rmatch (RAlt r1 r2) st k
  = match rmatch r1 st k with
    | Some res => Some res
    | None => rmatch r2 st k
    end.
Proof. reflexivity. Qed.

Lemma rmatch_empty st k : rmatch REmpty st k = k st.
Proof. reflexivity. Qed.

Lemma rmatch_group i r st k :
  rmatch (RGroup i r) st k = rmatch r st (fun st' => k (setcap i st st')).
Proof. reflexivity. Qed.

Lemma rmatch_char p sn s cs k :
  rmatch (RChar p) (MState sn s cs) k
  = match s with
    | c :: s' => if p c then k (MState (c :: sn) s' cs) else None
    | [] => None
    end.
Proof. reflexivity. Qed.

(** [\s+] reads a run of white space. *)
Lemma spacesRe_rmatch f sn s cs :
  rmatch spacesRe (MState sn s cs) (fun st' => Some (f st'))
  = match spaceRun s with
    | Some tok =>
        Some (f (MState (rev tok ++ sn) (skipn (length tok) s) cs))
    | None => None
    end.
Proof.
  unfold spacesRe, rplus, rspace, spaceRun.
  rewrite rmatch_seq, rmatch_char.
  destruct s as [|c s]; [reflexivity|]. cbn [leading].
  destruct (isSpace c); [|reflexivity]. cbv iota.
  apply rmatch_star_class. cbv beta.
  cbn [rev length skipn]. rewrite <- app_assoc. reflexivity.
Qed.

Lemma skipn_leading_point p (s : jsstr) d after :
  skipn (length (leading p s)) s = d :: after ->
  forall w,
    skipn (length (leading p s ++ d :: w)) s = skipn (length w) after.
Proof.
  intros E w. rewrite length_app. cbn [length].
  rewrite Nat.add_comm, <- skipn_skipn, E. reflexivity.
Qed.

(** [\d+\.?\d*] reads a number. *)
Lemma numberRe_rmatch f sn s cs :
  rmatch numberRe (MState sn s cs) (fun st' => Some (f st'))
  = match numberToken s with
    | Some tok =>
        Some (f (MState (rev tok ++ sn) (skipn (length tok) s) cs))
    | None => None
    end.
Proof.
  unfold numberRe, rseq, rplus, ropt, rdigit.
  rewrite !rmatch_seq, rmatch_char.
  destruct s as [|c s]; [reflexivity|].
  unfold numberToken. cbn [leading].
  destruct (isDigit c); [|reflexivity]. cbv iota.
  set (int := leading isDigit s).
  pose proof (leading_done isDigit s) as Hafter. fold int in Hafter.
  cbn [length skipn].
  assert (Hk : forall res,
    (match skipn (length int) s with
     | [] => Some (f (MState (rev int ++ c :: sn) [] cs))
     | d :: after =>
         if isPoint d
         then Some (f (MState (rev (leading isDigit after)
                                 ++ d :: rev int ++ c :: sn)
                          (skipn (length (leading isDigit after)) after) cs))
         else Some (f (MState (rev int ++ c :: sn) (d :: after) cs))
     end) = Some res ->
    rmatch (RStar (RChar isDigit)) (MState (c :: sn) s cs)
      (fun st' =>
         rmatch (RSeq (RAlt (rc ".") REmpty) (RStar (RChar isDigit))) st'
           (fun st'0 => Some (f st'0)))
    = Some res).
  { intros res H. apply rmatch_star_class. fold int. cbv beta.
    rewrite rmatch_seq, rmatch_alt. unfold rc, rchar. rewrite rmatch_char.
    destruct (skipn (length int) s) as [|d after] eqn:Ea.
    - rewrite rmatch_empty. apply rmatch_star_class. exact H.
    - unfold isPoint in H. destruct (cu_eqb (ch ".") d) eqn:Ed.
      + erewrite rmatch_star_class; [reflexivity|]. exact H.
      + rewrite rmatch_empty. apply rmatch_star_class. rewrite Hafter.
        exact H. }
  destruct (skipn (length int) s) as [|d after] eqn:Ea.
  - apply Hk. cbn [rev]. rewrite <- app_assoc.
    pose proof (leading_prefix isDigit s) as Hs. fold int in Hs.
    rewrite Ea, app_nil_r in Hs.
    change (skipn (length (c :: int)) (c :: s)) with (skipn (length int) s).
    rewrite Ea. reflexivity.
  - destruct (isPoint d) eqn:Ed.
    + apply Hk. f_equal. f_equal. f_equal.
      * cbn [app rev]. rewrite rev_app_distr. cbn [rev].
        rewrite <- !app_assoc. reflexivity.
      * change (skipn (length ((c :: int) ++ d :: leading isDigit after))
                  (c :: s))
          with (skipn (length (int ++ d :: leading isDigit after)) s).
        symmetry. apply (skipn_leading_point isDigit s d after Ea).
    + apply Hk. cbn [rev]. rewrite <- app_assoc.
      change (skipn (length (c :: int)) (c :: s)) with (skipn (length int) s).
      rewrite Ea. reflexivity.
Qed.

(** [\d{1,3}] reads up to three digits, one at least. *)
Lemma digits13_none sn s cs k :
  leadingUpTo 3 isDigit s = [] ->
  rmatch (rrange 1 2 rdigit) (MState sn s cs) k = None.
Proof.
  intros H. destruct s as [|c s]; [reflexivity|].
  cbn [leadingUpTo] in H. cbn. destruct (isDigit c); [discriminate|].
  reflexivity.
Qed.

Lemma digits13_greedy sn s cs k res :
  leadingUpTo 3 isDigit s <> [] ->
  k (MState (rev (leadingUpTo 3 isDigit s) ++ sn)
       (skipn (length (leadingUpTo 3 isDigit s)) s) cs) = Some res ->
  rmatch (rrange 1 2 rdigit) (MState sn s cs) k = Some res.
Proof.
  intros N H.
  destruct s as [|c1 s]; [exfalso; apply N; reflexivity|].
  cbn [leadingUpTo] in N, H.
  cbn [rrange rupto ropt rdigit rmatch rest seen caps].
  destruct (isDigit c1); [|exfalso; apply N; reflexivity].
  destruct s as [|c2 s]; [exact H|].
  destruct (isDigit c2); [|exact H].
  destruct s as [|c3 s]; [cbn in H |- *; rewrite H; reflexivity|].
  destruct (isDigit c3); cbn in H |- *; rewrite H; reflexivity.
Qed.

(** [(?:,\d{3})*] reads the groups of a comma and three digits. *)
Definition commaGroup : regex := rseq [rc ","; rrange 3 0 rdigit].

Lemma commaGroup_rmatch sn s cs k :
  rmatch commaGroup (MState sn s cs) k
  = match s with
    | c :: d1 :: d2 :: d3 :: s' =>
        if (isComma c && isDigit d1 && isDigit d2 && isDigit d3)%bool
        then k (MState (d3 :: d2 :: d1 :: c :: sn) s' cs)
        else None
    | _ => None
    end.
Proof.
  unfold commaGroup, isComma.
  destruct s as [|c [|d1 [|d2 [|d3 s']]]]; cbn;
    repeat match goal with
           | |- context [if ?b then _ else _] => destruct b; cbn
           end; reflexivity.
Qed.

Lemma star_groups_greedy k res : forall n s sn cs,
  length s <= n ->
  k (MState (rev (commaGroups s) ++ sn)
       (skipn (length (commaGroups s)) s) cs) = Some res ->
  star_loop (rmatch commaGroup) n (MState sn s cs) k = Some res.
Proof.
  remember (rmatch commaGroup) as m eqn:Em.
  assert (Hm : forall sn s cs k',
            m (MState sn s cs) k'
            = match s with
              | c :: d1 :: d2 :: d3 :: s' =>
                  if (isComma c && isDigit d1 && isDigit d2 && isDigit d3)%bool
                  then k' (MState (d3 :: d2 :: d1 :: c :: sn) s' cs)
                  else None
              | _ => None
              end)
    by (subst m; apply commaGroup_rmatch).
  clear Em.
  induction n as [n IH] using lt_wf_ind. intros s sn cs L H.
  destruct n as [|n]; [destruct s; [exact H | simpl in L; lia]|].
  cbn [star_loop]. rewrite Hm.
  destruct s as [|c [|d1 [|d2 [|d3 s']]]]; try exact H.
  cbn [commaGroups] in H.
  destruct (isComma c && isDigit d1 && isDigit d2 && isDigit d3)%bool;
    [|exact H].
  cbn [rest length].
  assert (Hl : (length s' <? S (S (S (S (length s'))))) = true)
    by (apply Nat.ltb_lt; lia).
  rewrite Hl.
  rewrite (IH n (Nat.lt_succ_diag_r n) s' (d3 :: d2 :: d1 :: c :: sn) cs);
    [reflexivity | simpl in L; lia |].
  cbn [rev length skipn] in H. rewrite <- !app_assoc in H. exact H.
Qed.

(** [(?:\.\d{2})?] reads a point and two digits, when they are there. *)
Lemma cents_greedy sn s cs k res :
  k (MState (rev (centsOf s) ++ sn) (skipn (length (centsOf s)) s) cs)
  = Some res ->
  rmatch (ropt (rseq [rc "."; rrange 2 0 rdigit])) (MState sn s cs) k
  = Some res.
Proof.
  intros H. unfold isPoint in *.
  destruct s as [|c [|d1 [|d2 s']]]; cbn in H |- *;
    repeat match goal with
           | |- context [if ?b then _ else _] => destruct b; cbn in H |- *
           end; rewrite ?H; try reflexivity; exact H.
Qed.

(** [\d{1,3}(?:,\d{3})*(?:\.\d{2})?] reads an amount. *)
Lemma amountBody_rmatch f sn s cs :
  rmatch amountBody (MState sn s cs) (fun st' => Some (f st'))
  = match amountToken s with
    | Some tok =>
        Some (f (MState (rev tok ++ sn) (skipn (length tok) s) cs))
    | None => None
    end.
Proof.
  unfold amountBody, amountToken. cbn [rseq]. rewrite !rmatch_seq.
  destruct (leadingUpTo 3 isDigit s) as [|i0 int'] eqn:Ei.
  { apply digits13_none. exact Ei. }
  rewrite <- Ei. set (int := leadingUpTo 3 isDigit s) in *.
  assert (Ni : int <> []) by (rewrite Ei; discriminate).
  set (s1 := skipn (length int) s).
  set (groups := commaGroups s1).
  set (s2 := skipn (length groups) s1).
  apply digits13_greedy; [exact Ni|]. fold int s1. cbv beta.
  change (RStar (rseq [rc ","; rrange 3 0 rdigit])) with (RStar commaGroup).
  cbn [rmatch rest]. apply star_groups_greedy; [lia|]. fold groups s2.
  apply cents_greedy.
  f_equal. f_equal. f_equal.
  - rewrite !rev_app_distr, <- !app_assoc. reflexivity.
  - rewrite !length_app.
    unfold s2, s1. rewrite !skipn_skipn. f_equal. lia.
Qed.

(** ** The patterns of the parser as readers *)

Lemma oneOf_readsAs p : readsAs (oneOf p) (RChar p) (fun _ => []).
Proof.
  split.
  - intros [|c s] tok; [discriminate|]. unfold oneOf.
    destruct (p c); [|discriminate]. intros E. inversion E; subst.
    split; [discriminate | reflexivity].
  - intros sn [|c s]; [reflexivity|]. rewrite rmatch_char. unfold oneOf.
    destruct (p c); reflexivity.
Qed.

Lemma spaceRun_readsAs : readsAs spaceRun spacesRe (fun _ => []).
Proof.
  split.
  - intros s tok. unfold spaceRun. intros E.
    destruct (leading isSpace s) as [|c run] eqn:El; [discriminate|].
    inversion E; subst. split; [discriminate|].
    rewrite <- El. apply leading_prefix.
  - intros sn s. apply (spacesRe_rmatch (fun st => st)).
Qed.

Lemma numberToken_prefix s tok :
  numberToken s = Some tok ->
  tok <> [] /\ s = tok ++ skipn (length tok) s
  /\ exists d w, tok = d :: w /\ isDigit d = true.
Proof.
  unfold numberToken. intros E.
  pose proof (leading_prefix isDigit s) as Hs.
  destruct (leading isDigit s) as [|d int] eqn:El; [discriminate|].
  assert (Hd : isDigit d = true).
  { destruct s as [|c s]; [discriminate|]. cbn [leading] in El.
    destruct (isDigit c) eqn:Ec; [|discriminate]. inversion El; subst.
    exact Ec. }
  destruct (skipn (length (d :: int)) s) as [|c after] eqn:Ea.
  - inversion E; subst tok. split; [discriminate|]. split.
    + rewrite Ea. exact Hs.
    + exists d, int. auto.
  - destruct (isPoint c).
    + inversion E; subst tok. split; [discriminate|]. split.
      * change (d :: int ++ c :: leading isDigit after)
          with ((d :: int) ++ c :: leading isDigit after).
        rewrite <- El in Ea |- *.
        rewrite (skipn_leading_point isDigit s c after Ea).
        rewrite El, Hs at 1. rewrite <- app_assoc. f_equal.
        cbn [app]. f_equal. apply leading_prefix.
      * exists d, (int ++ c :: leading isDigit after). auto.
    + inversion E; subst tok. split; [discriminate|]. split.
      * rewrite Ea. exact Hs.
      * exists d, int. auto.
Qed.

Lemma numberToken_readsAs : readsAs numberToken numberRe (fun _ => []).
Proof.
  split.
  - intros s tok E. destruct (numberToken_prefix s tok E) as (N & P & _).
    auto.
  - intros sn s. apply (numberRe_rmatch (fun st => st)).
Qed.

Lemma numberToken_group_readsAs :
  readsAs numberToken (RGroup 1 numberRe) (fun tok => [(1, tok)]).
Proof.
  split.
  - intros s tok E. destruct (numberToken_prefix s tok E) as (N & P & _).
    auto.
  - intros sn s. rewrite rmatch_group.
    rewrite (numberRe_rmatch (fun st' => setcap 1 (MState sn s []) st')).
    destruct (numberToken s) as [tok|] eqn:E; [|reflexivity].
    destruct (numberToken_prefix s tok E) as (_ & P & _).
    unfold setcap. cbn [seen rest caps]. do 4 f_equal.
    apply consumed_app. exact P.
Qed.

Lemma amountToken_prefix s tok :
  amountToken s = Some tok ->
  s = tok ++ skipn (length tok) s
  /\ exists d w, tok = d :: w /\ isDigit d = true.
Proof.
  unfold amountToken. intros E.
  pose proof (leadingUpTo_prefix isDigit 3 s) as Hs.
  destruct (leadingUpTo 3 isDigit s) as [|d int] eqn:El; [discriminate|].
  assert (Hd : isDigit d = true).
  { destruct s as [|c s]; [discriminate|]. cbn [leadingUpTo] in El.
    destruct (isDigit c) eqn:Ec; [|discriminate]. inversion El; subst.
    exact Ec. }
  cbv zeta in E.
  assert (Et : (d :: int)
               ++ commaGroups (skipn (length (d :: int)) s)
               ++ centsOf
                    (skipn
                       (length (commaGroups (skipn (length (d :: int)) s)))
                       (skipn (length (d :: int)) s)) = tok)
    by congruence.
  clear E. subst tok. split.
  - set (s1 := skipn (length (d :: int)) s) in *.
    pose proof (commaGroups_prefix (length s1) s1 (le_n _)) as H1.
    set (groups := commaGroups s1) in *.
    set (s2 := skipn (length groups) s1) in *.
    pose proof (centsOf_prefix s2) as H2.
    rewrite !length_app.
    replace (length (d :: int) + (length groups + length (centsOf s2)))
      with (length (centsOf s2) + (length groups + length (d :: int)))
      by lia.
    rewrite <- !skipn_skipn. fold s1 s2.
    rewrite <- !app_assoc, <- H2, <- H1. exact Hs.
  - eexists _, _. split; [reflexivity | exact Hd].
Qed.

Lemma currencyToken_prefix symbol s tok :
  currencyToken symbol s = Some tok ->
  tok <> [] /\ s = tok ++ skipn (length tok) s
  /\ exists c d w, tok = c :: d :: w /\ isDigit d = true.
Proof.
  unfold currencyToken. destruct s as [|c s]; [discriminate|].
  destruct (symbol c); [|discriminate].
  destruct (amountToken s) as [amount|] eqn:Ea; [|discriminate].
  intros E. inversion E; subst tok.
  destruct (amountToken_prefix s amount Ea) as (P & d & w & -> & Hd).
  split; [discriminate|]. split.
  - cbn [length skipn app]. f_equal. exact P.
  - exists c, d, w. auto.
Qed.

Lemma currencyToken_readsAs symbol :
  readsAs (currencyToken symbol)
    (RSeq (RChar symbol) (RGroup 1 amountBody)) (fun tok => [(1, tl tok)]).
Proof.
  split.
  - intros s tok E.
    destruct (currencyToken_prefix symbol s tok E) as (N & P & _). auto.
  - intros sn s. rewrite rmatch_seq, rmatch_char. unfold currencyToken.
    destruct s as [|c s]; [reflexivity|].
    destruct (symbol c); [|reflexivity].
    rewrite rmatch_group.
    rewrite (amountBody_rmatch
               (fun st' => setcap 1 (MState (c :: sn) s []) st')).
    destruct (amountToken s) as [amount|] eqn:E; [|reflexivity].
    destruct (amountToken_prefix s amount E) as (P & _).
    unfold setcap. cbn [seen rest caps length skipn rev tl].
    rewrite <- app_assoc. do 4 f_equal.
    apply consumed_app. exact P.
Qed.

(** Every token was read somewhere. *)
Lemma tokensFrom_In read tok : forall s skip,
  In tok (tokensFrom read skip s) -> exists s', read s' = Some tok.
Proof.
  induction s as [|c s IH]; intros skip I; [destruct I|].
  cbn [tokensFrom] in I. destruct skip as [|n]; [|eapply IH; exact I].
  destruct (read (c :: s)) as [t|] eqn:E; [|eapply IH; exact I].
  destruct I as [->|I]; [eexists; exact E | eapply IH; exact I].
Qed.

(** Deleting the code units of a class. *)
Lemma replaceTokens_oneOf p : forall s,
  replaceTokens (oneOf p) [] 0 s = filter (fun c => negb (p c)) s.
Proof.
  induction s as [|c s IH]; [reflexivity|].
  cbn [replaceTokens oneOf filter]. destruct (p c); cbn [negb length Nat.sub app].
  - exact IH.
  - f_equal. exact IH.
Qed.

Lemma replaceAll_class p s :
  replaceAll (RChar p) [] s = filter (fun c => negb (p c)) s.
Proof.
  rewrite (replaceAll_readsAs (oneOf p) (RChar p) (fun _ => [])
             (oneOf_readsAs p)).
  apply replaceTokens_oneOf.
Qed.

(* ===================================================================== *)
(** * The amounts written in a text                                        *)
(* ===================================================================== *)

(** The text without its currency symbols and commas. *)
Definition plainText (s : jsstr) : jsstr :=
  filter (fun c => negb (isComma c)) (filter (fun c => negb (isCurrency c)) s).

(** The value of a number written in decimal digits, with or without a
    fractional part: the double nearest to it. *)
Definition numberValue (tok : jsstr) : jsnum :=
  let int := leading isDigit tok in
  let frac :=
    match skipn (length int) tok with
    | c :: after => if isPoint c then leading isDigit after else []
    | [] => []
    end in
  roundDouble (decimalQ int frac).

(** The currency tokens of a text: those that begin with a dollar sign,
    then those that begin with one of the other symbols. *)
Definition currencyTokens (text : jsstr) : list jsstr :=
  tokens (currencyToken (cu_eqb cDollar)) text
  ++ tokens (currencyToken isOtherCurrency) text.

(** The amount of a currency token: the number after the symbol, its
    commas left out. *)
Definition amountOf (tok : jsstr) : jsnum :=
  numberValue (filter (fun c => negb (isComma c)) (tl tok)).

(** The numbers greater than 0. *)
Definition positive (l : list jsnum) : list jsnum :=
  filter (num_ltb (Finite 0)) l.

(** The amounts greater than 0 that come with a currency symbol, the bare
    numbers of a text, and the first number of a line (0 when it has
    none). *)
Definition taggedAmounts (text : jsstr) : list jsnum :=
  positive (map amountOf (currencyTokens text)).

Definition bareNumbers (text : jsstr) : list jsnum :=
  map numberValue (tokens numberToken (plainText text)).

Definition firstNumber (line : jsstr) : jsnum :=
  match firstToken numberToken (plainText line) with
  | Some tok => numberValue tok
  | None => Finite 0
  end.

(** ** The parser reads these amounts *)

Lemma digit_is_plain d :
  isDigit d = true ->
  isSpace d = false /\ isComma d = false /\ isPoint d = false
  /\ isCurrency d = false.
Proof.
  intros H. apply isDigit_cases in H. simpl in H.
  repeat (destruct H as [H|H]; [subst d; repeat split; reflexivity|]).
  destruct H.
Qed.

Lemma takeDigits_leading : forall s,
  takeDigits s
  = (leading isDigit s, skipn (length (leading isDigit s)) s).
Proof.
  induction s as [|c s IH]; [reflexivity|]. cbn [takeDigits leading].
  destruct (isDigit c); [|reflexivity]. rewrite IH. reflexivity.
Qed.

Lemma parseFloat_numberValue s :
  leading isDigit s <> [] -> parseFloat s = Some (numberValue s).
Proof.
  intros N. unfold parseFloat, numberValue. rewrite takeDigits_leading.
  destruct (leading isDigit s) as [|d int] eqn:El; [congruence|].
  destruct (skipn (length (d :: int)) s) as [|c after]; [reflexivity|].
  unfold isPoint. change (ch ".") with 46%N. unfold cu_eqb.
  rewrite (N.eqb_sym 46 c). destruct (c =? 46)%N; [|reflexivity].
  rewrite takeDigits_leading. reflexivity.
Qed.

Lemma parseFloat_digit_head d w :
  isDigit d = true -> parseFloat (d :: w) = Some (numberValue (d :: w)).
Proof.
  intros H. apply parseFloat_numberValue. cbn [leading]. rewrite H.
  discriminate.
Qed.

Lemma keepPositive_Some (v : jsstr -> jsnum) : forall l,
  keepPositive (map (fun t => Some (v t)) l) = positive (map v l).
Proof.
  induction l as [|t l IH]; [reflexivity|].
  cbn [map keepPositive]. unfold positive. cbn [filter].
  destruct (num_ltb (Finite 0) (v t)); [f_equal|]; exact IH.
Qed.

Lemma plainText_replaceAll s :
  replaceAll commaRe [] (replaceAll currencyRe [] s) = plainText s.
Proof.
  unfold commaRe, currencyRe, rc, rchar.
  change (RChar (cu_eqb (ch ","))) with (RChar isComma).
  rewrite !replaceAll_class. reflexivity.
Qed.

Lemma currencyAmountsOf_read symbol text :
  currencyAmountsOf text (RSeq (RChar symbol) (RGroup 1 amountBody))
  = positive (map amountOf (tokens (currencyToken symbol) text)).
Proof.
  unfold currencyAmountsOf.
  set (h := fun x : jsstr * list (nat * jsstr) =>
              parseFloat
                (replaceAll commaRe []
                   (match getcap 1 (snd x) with Some s => s | None => [] end))).
  rewrite (map_ext _ (fun m => h (m_text m, m_caps m)))
    by (intros m; reflexivity).
  rewrite <- (map_map (fun m => (m_text m, m_caps m)) h).
  rewrite (matchAll_readsAs _ _ _ (currencyToken_readsAs symbol)).
  rewrite map_map. unfold h. cbn [snd getcap Nat.eqb].
  rewrite <- keepPositive_Some. f_equal.
  apply map_ext_in. intros tok I.
  apply tokensFrom_In in I. destruct I as (s' & E).
  destruct (currencyToken_prefix _ _ _ E) as (_ & _ & c & d & w & -> & Hd).
  unfold amountOf. cbn [tl].
  unfold commaRe, rc, rchar.
  change (RChar (cu_eqb (ch ","))) with (RChar isComma).
  rewrite replaceAll_class. cbn [filter].
  destruct (digit_is_plain d Hd) as (_ & Hc & _). rewrite Hc. cbn [negb].
  apply parseFloat_digit_head. exact Hd.
Qed.

Lemma currencyAmounts_read text : currencyAmounts text = taggedAmounts text.
Proof.
  unfold currencyAmounts, currencyPatterns, taggedAmounts, currencyTokens,
    rchar.
  cbn [flat_map]. rewrite app_nil_r, !currencyAmountsOf_read.
  unfold positive. rewrite map_app, filter_app. reflexivity.
Qed.

Lemma extractAllNumbers_read text :
  extractAllNumbers text = positive (bareNumbers text).
Proof.
  unfold extractAllNumbers, bareNumbers. rewrite plainText_replaceAll.
  rewrite (matchG_readsAs _ _ _ numberToken_readsAs).
  assert (H : keepPositive (map parseFloat (tokens numberToken (plainText text)))
              = positive (map numberValue
                            (tokens numberToken (plainText text)))).
  { rewrite <- keepPositive_Some. f_equal. apply map_ext_in. intros tok I.
    apply tokensFrom_In in I. destruct I as (s' & E).
    destruct (numberToken_prefix _ _ E) as (_ & _ & d & w & -> & Hd).
    apply parseFloat_digit_head. exact Hd. }
  destruct (tokens numberToken (plainText text)); [reflexivity | exact H].
Qed.

(** Runs of white space do not change the first number of a text. *)
Lemma firstToken_Some read : forall s tok,
  firstToken read s = Some tok -> exists s', read s' = Some tok.
Proof.
  induction s as [|c s IH]; intros tok; cbn [firstToken].
  - destruct (read []) eqn:E; [|discriminate].
    intros X. inversion X; subst. eexists. exact E.
  - destruct (read (c :: s)) eqn:E.
    + intros X. inversion X; subst. eexists. exact E.
    + apply IH.
Qed.

Definition oneSpace (skip : nat) (s : jsstr) : jsstr :=
  replaceTokens spaceRun (lit " ") skip s.

Lemma oneSpace_cons c s :
  oneSpace 0 (c :: s)
  = if isSpace c then 32%N :: oneSpace (length (leading isSpace s)) s
    else c :: oneSpace 0 s.
Proof.
  unfold oneSpace. cbn [replaceTokens]. unfold spaceRun. cbn [leading].
  destruct (isSpace c); [|reflexivity].
  cbn [length Nat.sub]. rewrite Nat.sub_0_r. reflexivity.
Qed.

Lemma leading_oneSpace : forall s,
  leading isDigit (oneSpace 0 s) = leading isDigit s.
Proof.
  induction s as [|c s IH]; [reflexivity|]. rewrite oneSpace_cons.
  cbn [leading]. destruct (isDigit c) eqn:Ed.
  - destruct (digit_is_plain c Ed) as (Hs & _). rewrite Hs.
    cbn [leading]. rewrite Ed, IH. reflexivity.
  - destruct (isSpace c); [reflexivity|]. cbn [leading]. rewrite Ed.
    reflexivity.
Qed.

Lemma skipn_oneSpace : forall s,
  skipn (length (leading isDigit s)) (oneSpace 0 s)
  = oneSpace 0 (skipn (length (leading isDigit s)) s).
Proof.
  induction s as [|c s IH]; [reflexivity|].
  cbn [leading]. destruct (isDigit c) eqn:Ed; [|reflexivity].
  rewrite oneSpace_cons.
  destruct (digit_is_plain c Ed) as (Hs & _). rewrite Hs.
  cbn [length skipn]. exact IH.
Qed.

Lemma numberToken_oneSpace s :
  numberToken (oneSpace 0 s) = numberToken s.
Proof.
  unfold numberToken. rewrite leading_oneSpace.
  destruct (leading isDigit s) as [|d int] eqn:El; [reflexivity|].
  rewrite <- El, skipn_oneSpace.
  destruct (skipn (length (leading isDigit s)) s) as [|c after];
    [reflexivity|].
  rewrite oneSpace_cons. destruct (isSpace c) eqn:Es.
  - change (isPoint 32%N) with false. cbv iota.
    destruct (isPoint c) eqn:Ep; [|reflexivity].
    exfalso. unfold isPoint in Ep. apply cu_eqb_eq in Ep. subst c.
    discriminate.
  - destruct (isPoint c); [|reflexivity].
    rewrite leading_oneSpace. reflexivity.
Qed.

Lemma firstToken_oneSpace : forall s skip,
  skip <= length (leading isSpace s) ->
  firstToken numberToken (oneSpace skip s) = firstToken numberToken s.
Proof.
  induction s as [|c s IH]; intros skip L; [destruct skip; reflexivity|].
  assert (Hnone : isDigit c = false -> numberToken (c :: s) = None).
  { intros Hd. unfold numberToken. cbn [leading]. rewrite Hd. reflexivity. }
  destruct skip as [|n].
  - pose proof (numberToken_oneSpace (c :: s)) as Hn.
    rewrite oneSpace_cons in Hn |- *. destruct (isSpace c) eqn:Es.
    + assert (Hd : isDigit c = false).
      { destruct (isDigit c) eqn:Ed; [|reflexivity].
        destruct (digit_is_plain c Ed) as (X & _). congruence. }
      cbn [firstToken]. rewrite Hnone by exact Hd.
      change (numberToken (32%N :: ?x)) with (@None jsstr).
      apply IH. lia.
    + cbn [firstToken]. rewrite Hn.
      destruct (numberToken (c :: s)); [reflexivity|].
      apply IH. lia.
  - cbn [leading] in L. destruct (isSpace c) eqn:Es; [|simpl in L; lia].
    assert (Hd : isDigit c = false).
    { destruct (isDigit c) eqn:Ed; [|reflexivity].
      destruct (digit_is_plain c Ed) as (X & _). congruence. }
    change (oneSpace (S n) (c :: s)) with (oneSpace n s).
    cbn [firstToken]. rewrite Hnone by exact Hd.
    apply IH. simpl in L. lia.
Qed.

Lemma extractNumberFromLine_read line :
  extractNumberFromLine line = Some (firstNumber line).
Proof.
  unfold extractNumberFromLine, firstNumber. rewrite plainText_replaceAll.
  rewrite (replaceAll_readsAs _ _ _ spaceRun_readsAs).
  fold (oneSpace 0 (plainText line)).
  pose proof (exec_readsAs _ _ _ numberToken_group_readsAs
                (oneSpace 0 (plainText line))) as H.
  rewrite firstToken_oneSpace in H by lia.
  destruct (exec (RGroup 1 numberRe) (oneSpace 0 (plainText line))) as [m|];
    destruct (firstToken numberToken (plainText line)) as [tok|] eqn:Ef;
    try discriminate; [|reflexivity].
  cbn [option_map] in H. inversion H as [[Ht Hc]].
  unfold m_group. rewrite Hc. cbn [getcap Nat.eqb].
  apply firstToken_Some in Ef. destruct Ef as (s' & E).
  destruct (numberToken_prefix _ _ E) as (_ & _ & d & w & -> & Hd).
  rewrite ?Ht. apply parseFloat_digit_head. exact Hd.
Qed.

(** The line has one of the words of a total, in any letter case. *)
Definition namesTotal (toLowerCase : jsstr -> jsstr) (line : jsstr) : Prop :=
  exists w a b,
    In w ["total"; "amount"; "balance"]%string
    /\ toLowerCase line = a ++ lit w ++ b.

Lemma isTotalLine_iff toLowerCase line :
  isTotalLine toLowerCase line = true <-> namesTotal toLowerCase line.
Proof.
  unfold isTotalLine, namesTotal. rewrite !orb_true_iff, !includes_iff.
  split.
  - intros [[(a & b & E)|(a & b & E)]|(a & b & E)].
    + exists "total"%string, a, b. simpl. auto.
    + exists "amount"%string, a, b. simpl. auto.
    + exists "balance"%string, a, b. simpl. auto.
  - intros (w & a & b & [<-|[<-|[<-|[]]]] & E).
    + left. left. exists a, b. exact E.
    + left. right. exists a, b. exact E.
    + right. exists a, b. exact E.
Qed.

Lemma positiveTotal_iff toLowerCase line a :
  positiveTotal toLowerCase line a <->
  namesTotal toLowerCase line /\ firstNumber line = a /\ num_lt (Finite 0) a.
Proof.
  unfold positiveTotal. rewrite isTotalLine_iff, extractNumberFromLine_read.
  split; intros (T & E & P); repeat split; auto; congruence.
Qed.

Lemma reasonableAmounts_read text :
  reasonableAmounts (extractAllNumbers text)
  = filter (fun n => (num_ltb (Finite 0) n && num_ltb n (Finite 100000))%bool)
           (bareNumbers text).
Proof.
  rewrite extractAllNumbers_read. unfold reasonableAmounts, positive.
  induction (bareNumbers text) as [|n l IH]; [reflexivity|].
  cbn [filter]. destruct (num_ltb (Finite 0) n) eqn:E; cbn [andb filter].
  - rewrite E. cbn [andb]. destruct (num_ltb n (Finite 100000)); [f_equal|];
      exact IH.
  - exact IH.
Qed.


(** A receipt whose only currency token is a zero; one whose first amount
    has four digits before the point and no comma; one whose first total
    line shows a zero; and one whose only number has more digits than a
    double holds. *)
Definition zeroTaggedText : jsstr := lit "$0.00
Tip 5".

Definition fourDigitText : jsstr := lit "$1234.56
$200.00".

Definition zeroTotalText : jsstr := lit "Total 0.00
Balance 5".

Definition longDecimalText : jsstr := lit "99999.99999999999999".


(* ===================================================================== *)
(** * The lines of a receipt                                               *)
(* ===================================================================== *)

(** [s.trim()] cuts white space off both ends and nothing else. *)
Lemma trimStart_split s :
  exists a, s = a ++ trimStart s /\ Forall (fun c => isSpace c = true) a.
Proof.
  induction s as [|c s IH]; simpl.
  - exists []. split; [reflexivity | constructor].
  - destruct (isSpace c) eqn:E.
    + destruct IH as (a & E1 & F). exists (c :: a). split.
      * simpl. f_equal. exact E1.
      * constructor; assumption.
    + exists []. split; [reflexivity | constructor].
Qed.

Lemma trimStart_head s : isSpace (hd 0%N (trimStart s)) = false.
Proof.
  induction s as [|c s IH]; simpl; [reflexivity|].
  destruct (isSpace c) eqn:E; [exact IH | exact E].
Qed.

Lemma last_rev (l : jsstr) d : last (rev l) d = hd d l.
Proof.
  destruct l as [|c l]; simpl; [reflexivity|]. apply last_last.
Qed.

Lemma trim_split s :
  exists a b, s = a ++ trim s ++ b
    /\ Forall (fun c => isSpace c = true) a
    /\ Forall (fun c => isSpace c = true) b.
Proof.
  unfold trim.
  destruct (trimStart_split s) as (a & Ea & Fa).
  destruct (trimStart_split (rev (trimStart s))) as (b & Eb & Fb).
  exists a, (rev b). repeat split; trivial.
  - rewrite <- rev_app_distr, <- Eb, rev_involutive. exact Ea.
  - apply Forall_rev. exact Fb.
Qed.

Lemma trim_hd s : isSpace (hd 0%N (trim s)) = false.
Proof.
  unfold trim.
  destruct (trimStart_split (rev (trimStart s))) as (b & Eb & _).
  assert (E : trimStart s = rev (trimStart (rev (trimStart s))) ++ rev b).
  { rewrite <- rev_app_distr, <- Eb, rev_involutive. reflexivity. }
  pose proof (trimStart_head s) as H. rewrite E in H.
  destruct (rev (trimStart (rev (trimStart s)))); [reflexivity | exact H].
Qed.

Lemma trim_last s : isSpace (last (trim s) 0%N) = false.
Proof. unfold trim. rewrite last_rev. apply trimStart_head. Qed.

(** [s.split('\n')] cuts the text at its line feeds. *)
Lemma splitLines_aux_part : forall s cur line,
  In line (splitLines_aux cur s) ->
  exists a b, rev cur ++ s = a ++ line ++ b.
Proof.
  induction s as [|c s IH]; simpl; intros cur line H.
  - destruct H as [H|[]]. subst line. exists [], [].
    rewrite !app_nil_r. reflexivity.
  - destruct (cu_eqb c 10) eqn:E.
    + destruct H as [H|H].
      * subst line. exists [], (c :: s). reflexivity.
      * apply IH in H. destruct H as (a & b & H). simpl in H.
        exists (rev cur ++ c :: a), b. rewrite H, <- app_assoc. reflexivity.
    + apply IH in H. destruct H as (a & b & H). exists a, b.
      rewrite <- H. simpl. rewrite <- app_assoc. reflexivity.
Qed.

Lemma splitLines_aux_no_feed : forall s cur line,
  In line (splitLines_aux cur s) -> ~ In 10%N cur -> ~ In 10%N line.
Proof.
  induction s as [|c s IH]; simpl; intros cur line H N.
  - destruct H as [H|[]]. subst line. rewrite <- in_rev. exact N.
  - destruct (cu_eqb c 10) eqn:E.
    + destruct H as [H|H].
      * subst line. rewrite <- in_rev. exact N.
      * eapply IH; [exact H | intros []].
    + eapply IH; [exact H|]. intros [X|X]; [|contradiction].
      subst c. discriminate.
Qed.

Lemma part_of_part (a b a' b' l m : jsstr) (t : jsstr) :
  t = a ++ l ++ b -> l = a' ++ m ++ b' -> t = (a ++ a') ++ m ++ (b' ++ b).
Proof. intros E1 E2. subst. rewrite <- !app_assoc. reflexivity. Qed.

(** What the lines of a receipt are like: not empty, without a line feed,
    without white space at either end, and a piece of the text. *)
Definition cleanLine (ocrText line : jsstr) : Prop :=
  line <> [] /\ ~ In 10%N line
  /\ isSpace (hd 0%N line) = false /\ isSpace (last line 0%N) = false
  /\ exists a b, ocrText = a ++ line ++ b.

Lemma receiptLines_In ocrText line :
  In line (receiptLines ocrText) -> cleanLine ocrText line.
Proof.
  unfold receiptLines. intros H. apply filter_In in H. destruct H as (H & L).
  apply in_map_iff in H. destruct H as (piece & E & H). subst line.
  destruct (trim_split piece) as (a & b & Ep & _ & _).
  repeat split.
  - intros X. rewrite X in L. discriminate.
  - intros X. eapply splitLines_aux_no_feed; [exact H | intros [] |].
    rewrite Ep. apply in_or_app. right. apply in_or_app. left. exact X.
  - apply trim_hd.
  - apply trim_last.
  - apply splitLines_aux_part in H. destruct H as (a' & b' & H).
    simpl in H. exists (a' ++ a), (b ++ b').
    eapply part_of_part; eassumption.
Qed.

(** X6. Every line [parseReceiptText] works on is clean: it is not empty,
    holds no line feed, neither begins nor ends with white space, and
    stands in the OCR text as it is. *)
Theorem receiptLines_clean (ocrText : jsstr) :
  Forall (cleanLine ocrText) (receiptLines ocrText).
Proof. apply Forall_forall. intros line. apply receiptLines_In. Qed.

(* ===================================================================== *)
(** * Receipts without digits                                              *)
(* ===================================================================== *)

Lemma currencyAmounts_digitFree text :
  digitFree text -> currencyAmounts text = [].
Proof.
  intros H. unfold currencyAmounts.
  assert (G : forall ps, (forall r, In r ps -> readsDigit r) ->
                flat_map (currencyAmountsOf text) ps = []).
  { induction ps as [|p ps IH]; intros Hp; simpl; [reflexivity|].
    rewrite IH by (intros r I; apply Hp; right; exact I).
    unfold currencyAmountsOf.
    rewrite matchAll_digitFree; [reflexivity | apply Hp; left; reflexivity | exact H]. }
  apply G. exact currencyPatterns_readsDigit.
Qed.

Lemma extractAllNumbers_digitFree text :
  digitFree text -> extractAllNumbers text = [].
Proof.
  intros H. unfold extractAllNumbers.
  rewrite matchG_digitFree; [reflexivity | exact numberRe_plain_readsDigit |].
  apply replaceAll_digitFree; [|constructor].
  apply replaceAll_digitFree; [exact H | constructor].
Qed.

Lemma extractNumberFromLine_digitFree line :
  digitFree line -> extractNumberFromLine line = Some (Finite 0).
Proof.
  intros H. unfold extractNumberFromLine.
  rewrite exec_digitFree; [reflexivity | exact numberRe_readsDigit |].
  apply replaceAll_digitFree;
    [|apply digitFree_In; intros c [X|[]]; subst; reflexivity].
  apply replaceAll_digitFree; [|constructor].
  apply replaceAll_digitFree; [exact H | constructor].
Qed.

Lemma totalLineAmount_digitFree toLowerCase : forall lines,
  Forall digitFree lines -> totalLineAmount toLowerCase lines = None.
Proof.
  induction lines as [|line lines IH]; intros F; simpl; [reflexivity|].
  inversion F; subst.
  rewrite extractNumberFromLine_digitFree by assumption.
  rewrite IH by assumption.
  destruct (isTotalLine toLowerCase line); reflexivity.
Qed.

Lemma receiptLines_digitFree ocrText :
  digitFree ocrText -> Forall digitFree (receiptLines ocrText).
Proof.
  intros H. apply Forall_forall. intros line I.
  apply receiptLines_In in I. destruct I as (_ & _ & _ & _ & a & b & E).
  rewrite E in H. eapply digitFree_part. exact H.
Qed.

(** X7. A receipt text without a single digit has the amount 0 and the
    processing day as its date: no pattern of [extractAmount] or
    [extractDate] matches without a digit. *)
Theorem receipt_without_digits
    (toLowerCase : jsstr -> jsstr) (today : jsstr)
    (hostDate : jsstr -> option jsstr) (ocrText : jsstr) :
  digitFree ocrText ->
  let p := parseReceiptText toLowerCase today hostDate ocrText in
  pt_amount p = Finite 0 /\ pt_date p = today
  /\ currencyAmounts ocrText = [] /\ extractAllNumbers ocrText = [].
Proof.
  intros H p. unfold p, parseReceiptText. cbn [pt_amount pt_date].
  split; [|split; [|split]].
  - unfold extractAmount.
    rewrite currencyAmounts_digitFree by exact H.
    rewrite totalLineAmount_digitFree
      by (apply receiptLines_digitFree; exact H).
    rewrite extractAllNumbers_digitFree by exact H. reflexivity.
  - apply extractDate_default. intros pattern I.
    unfold datePatternStep.
    rewrite matchG_digitFree;
      [reflexivity | apply datePatterns_readsDigit; exact I | exact H].
  - apply currencyAmounts_digitFree. exact H.
  - apply extractAllNumbers_digitFree. exact H.
Qed.

Lemma receipt_without_digits_witness :
  let p := parseReceiptText asciiLower today0 hostRejects (lit "Thank you") in
  pt_amount p = Finite 0 /\ pt_date p = today0
  /\ currencyAmounts (lit "Thank you") = []
  /\ extractAllNumbers (lit "Thank you") = [].
Proof.
  apply (receipt_without_digits asciiLower today0 hostRejects
           (lit "Thank you")).
  repeat constructor.
Defined.

(* ===================================================================== *)
(** * Where the description comes from                                     *)
(* ===================================================================== *)

Lemma knownMerchant_Some : forall lines r,
  knownMerchant lines = Some r ->
  exists line, In line lines /\
    merchantInLine line merchantPatterns = Some r.
Proof.
  induction lines as [|line lines IH]; cbn [knownMerchant]; intros r H;
    [discriminate|].
  destruct (merchantInLine line merchantPatterns) as [name|] eqn:E.
  - inversion H; subst. exists line. split; [left; reflexivity | exact E].
  - destruct (IH r H) as (l & I & E'). exists l. split; [right|]; assumption.
Qed.

Lemma spelledIn_part w line : spelledIn w line -> exists a b, line = a ++ w ++ b.
Proof.
  intros [E|(a & c & b & E & _)].
  - subst. exists [], []. rewrite app_nil_r. reflexivity.
  - exists a, (c :: b). exact E.
Qed.

Lemma merchant_spelling_length w :
  spells merchantNames w -> 0 < length w <= 11.
Proof.
  intros (name & I & C). apply ciEq_length in C. rewrite C.
  simpl in I.
  repeat (destruct I as [I|I]; [subst name; vm_compute; split; lia|]).
  destruct I.
Qed.

(** The description of the legacy parser: a piece of the receipt or the
    default, and of bounded length. *)
Lemma description_source toLowerCase ocrText :
  let d := extractMerchant toLowerCase (receiptLines ocrText) ocrText in
  0 < length d < 50
  /\ (d = lit "Unknown Merchant" \/ exists a b, ocrText = a ++ d ++ b).
Proof.
  intros d. unfold d, extractMerchant.
  destruct (knownMerchant (receiptLines ocrText)) as [name|] eqn:Ek.
  - apply knownMerchant_Some in Ek. destruct Ek as (line & I & E).
    apply merchantInLine_Some in E. destruct E as (S & P).
    split.
    + apply merchant_spelling_length in S. lia.
    + right. apply receiptLines_In in I.
      destruct I as (_ & _ & _ & _ & a & b & Et).
      apply spelledIn_part in P. destruct P as (a' & b' & El).
      exists (a ++ a'), (b' ++ b). eapply part_of_part; eassumption.
  - pose proof (sortByLength_head
                  (candidateLines toLowerCase (receiptLines ocrText))) as Hs.
    destruct (sortByLength (candidateLines toLowerCase (receiptLines ocrText)))
      as [|first rest'].
    + split; [vm_compute; split; lia | left; reflexivity].
    + destruct Hs as (I & _). unfold candidateLines in I.
      apply filter_In in I. destruct I as (I & C).
      apply isCandidate_iff in C. destruct C as (L1 & L2 & _).
      split; [lia|]. right. apply receiptLines_In in I.
      destruct I as (_ & _ & _ & _ & a & b & Et). exists a, b. exact Et.
Qed.

(** X8. The description of the legacy parser is never empty, is shorter
    than 50 code units, and is either the default "Unknown Merchant" or a
    piece of the OCR text as it stands. *)
Theorem description_comes_from_the_receipt
    (toLowerCase : jsstr -> jsstr) (today : jsstr)
    (hostDate : jsstr -> option jsstr) (ocrText : jsstr) :
  let d := pt_description
             (parseReceiptText toLowerCase today hostDate ocrText) in
  0 < length d < 50
  /\ (d = lit "Unknown Merchant" \/ exists a b, ocrText = a ++ d ++ b).
Proof. apply description_source. Qed.

(* ===================================================================== *)
(** * Income on the fallback path                                          *)
(* ===================================================================== *)

(** Text within ASCII, where [toLowerCase] is [asciiLower]. *)
Definition isAscii (s : jsstr) : Prop := Forall (fun c => (c < 128)%N) s.

Lemma isAscii_part a l b : isAscii (a ++ l ++ b) -> isAscii l.
Proof.
  unfold isAscii. rewrite !Forall_app. tauto.
Qed.

Lemma asciiLower_part a l b :
  asciiLower (a ++ l ++ b) = asciiLower a ++ asciiLower l ++ asciiLower b.
Proof. unfold asciiLower. rewrite !map_app. reflexivity. Qed.

(** Every keyword of the Income row is a credit indicator of the parser. *)
Lemma income_keywords_are_indicators k :
  In k (keywordsOf CATEGORY_KEYWORDS "Income") -> In k creditIndicators.
Proof.
  simpl. intros H.
  repeat (destruct H as [H|H]; [subst k; simpl; tauto|]). destruct H.
Qed.

Lemma default_description_no_income k :
  In k (keywordsOf CATEGORY_KEYWORDS "Income") ->
  includes (asciiLower (lit "Unknown Merchant")) (lit k) = false.
Proof.
  simpl. intros H.
  repeat (destruct H as [H|H]; [subst k; vm_compute; reflexivity|]).
  destruct H.
Qed.

Lemma isAscii_lit_default : isAscii (lit "Unknown Merchant").
Proof. repeat constructor. Qed.

(** X9. On the fallback path, within ASCII text, the category is "Income"
    exactly when the description holds a keyword of the Income row, and the
    transaction is then a credit: the keyword stands in the receipt too,
    where [extractType] finds it among its credit indicators. *)
Theorem legacy_income_is_a_credit
    (toLowerCase : jsstr -> jsstr) (today : jsstr)
    (hostDate : jsstr -> option jsstr) (ocrText : jsstr) :
  (forall s, isAscii s -> toLowerCase s = asciiLower s) ->
  isAscii ocrText ->
  let p := parseReceiptText toLowerCase today hostDate ocrText in
  let sd := legacyStructured toLowerCase today hostDate ocrText in
  let mentionsIncome :=
    rowHit (toLowerCase (pt_description p))
           (keywordsOf CATEGORY_KEYWORDS "Income") in
  (sd_category sd = JString (lit "Income") <-> mentionsIncome)
  /\ (mentionsIncome -> sd_type sd = credit).
Proof.
  intros Hlow Ha p sd mentionsIncome.
  assert (Hcredit : mentionsIncome -> pt_type p = credit).
  { intros (k & Hk & Hi). unfold p, parseReceiptText. cbn [pt_type].
    apply extractType_credit. exists k.
    split; [apply income_keywords_are_indicators; exact Hk|].
    unfold p, parseReceiptText in Hi. cbn [pt_description] in Hi.
    destruct (description_source toLowerCase ocrText) as (_ & [E|(a & b & E)]).
    - exfalso. rewrite E, (Hlow _ isAscii_lit_default) in Hi.
      rewrite default_description_no_income in Hi by exact Hk. discriminate.
    - rewrite (Hlow ocrText Ha).
      assert (Hd : isAscii (extractMerchant toLowerCase
                              (receiptLines ocrText) ocrText)).
      { rewrite E in Ha. eapply isAscii_part. exact Ha. }
      rewrite (Hlow _ Hd) in Hi. apply includes_iff in Hi.
      destruct Hi as (x & y & Hi).
      rewrite E at 1. rewrite asciiLower_part, Hi.
      apply includes_iff. exists (asciiLower a ++ x), (y ++ asciiLower b).
      rewrite <- !app_assoc. reflexivity. }
  assert (Hcat : sd_category sd
                 = JString (categorizeTransaction toLowerCase
                              (pt_description p) (pt_type p))) by reflexivity.
  split; [split|].
  - intros E. rewrite Hcat in E.
    assert (E' : categorizeTransaction toLowerCase (pt_description p)
                   (pt_type p) = lit "Income") by congruence.
    clear E.
    destruct (categorize_cases toLowerCase (pt_description p) (pt_type p))
      as [(_ & H & _) | (_ & [(c & S & R) | (S & R)])]; [exact H | |].
    + rewrite R in E'. apply lit_inj in E'. subst c.
      apply scanCategories_Some in S.
      destruct S as (b & k & a & E1 & _ & _ & Hh).
      rewrite (income_row _ _ (row_in_table _ _ _ _ E1) eq_refl) in Hh.
      exact Hh.
    + rewrite R in E'. apply lit_inj in E'. discriminate.
  - intros H. rewrite Hcat. f_equal.
    destruct (categorize_cases toLowerCase (pt_description p) (pt_type p))
      as [(_ & _ & R) | (N & _)]; [exact R|].
    exfalso. apply N. split; [apply Hcredit; exact H | exact H].
  - exact Hcredit.
Qed.

Lemma legacy_income_is_a_credit_witness :
  let ocrText := lit "Payroll deposit" in
  let p := parseReceiptText asciiLower today0 hostRejects ocrText in
  let sd := legacyStructured asciiLower today0 hostRejects ocrText in
  let mentionsIncome :=
    rowHit (asciiLower (pt_description p))
           (keywordsOf CATEGORY_KEYWORDS "Income") in
  (sd_category sd = JString (lit "Income") <-> mentionsIncome)
  /\ (mentionsIncome -> sd_type sd = credit).
Proof.
  apply (legacy_income_is_a_credit asciiLower today0 hostRejects
           (lit "Payroll deposit")).
  - intros s _. reflexivity.
  - repeat constructor.
Defined.

(* ===================================================================== *)
(** * What the validator lets through                                      *)
(* ===================================================================== *)

(** The six keys of a record of the AI extractor. *)
Definition recordKeys : list string :=
  ["date"; "type"; "category"; "sub_category"; "amount"; "note"]%string.

(** A record that meets the six conditions is returned, its sub_category
    normalized. *)
Lemma validate_accepts toLowerCase NumberToString fs :
  recordOk NumberToString (JObject fs) ->
  validate toLowerCase NumberToString (JObject fs)
  = match prop (JObject fs) "sub_category" with
    | JString s =>
        Ok (setProp (JObject fs) "sub_category"
              (JString (slice0 60 (toLowerCase s))))
    | _ => Ok (JObject fs)
    end.
Proof.
  intros (T & C & A & D & S & N).
  unfold validate. simpl truthy. simpl typeof. simpl negb. simpl orb.
  cbv iota. set (rec := JObject fs) in *.
  apply typeOk_test in T. rewrite T.
  apply includesValue_iff in C. rewrite C.
  simpl negb. cbv iota.
  apply amountOk_test in A. rewrite A.
  apply (dateOk_test NumberToString) in D. rewrite D.
  apply nullOrString_test in S. rewrite S.
  apply nullOrString_test in N. rewrite N.
  reflexivity.
Qed.

Lemma undefined_not_a_date NumberToString :
  ~ dateOk NumberToString JUndefined.
Proof.
  intros [E|(y1 & y2 & y3 & y4 & m1 & m2 & d1 & d2 & E & _)]; discriminate.
Qed.

Lemma recordOk_complete NumberToString r key :
  recordOk NumberToString r -> In key recordKeys -> prop r key <> JUndefined.
Proof.
  intros (T & C & A & D & S & N) I E.
  simpl in I.
  destruct I as [I|[I|[I|[I|[I|[I|[]]]]]]]; subst key; rewrite E in *.
  - exact (undefined_not_a_date _ D).
  - destruct T; discriminate.
  - destruct C as (c & _ & X). discriminate.
  - destruct S as [X|(s & X)]; discriminate.
  - destruct A as [(q & X & _)|X]; discriminate.
  - destruct N as [X|(s & X)]; discriminate.
Qed.

Lemma validate_Ok_recordOk toLowerCase NumberToString rec r :
  validate toLowerCase NumberToString rec = Ok r ->
  recordOk NumberToString rec /\ recordOk NumberToString r.
Proof.
  intros H. split.
  - destruct (validate_Ok_object _ _ _ _ H) as (fs & ->).
    apply validate_Ok_cases in H. tauto.
  - apply validate_Ok_fields in H. unfold recordOk. tauto.
Qed.

Lemma validate_sub_category_length toLowerCase NumberToString rec r s :
  validate toLowerCase NumberToString rec = Ok r ->
  prop r "sub_category" = JString s -> length s <= 60.
Proof.
  intros V Es.
  destruct (validate_Ok_recordOk _ _ _ _ V) as (Hrec & _).
  destruct (validate_Ok_object _ _ _ _ V) as (fs & ->).
  rewrite (validate_accepts toLowerCase NumberToString fs Hrec) in V.
  destruct (prop (JObject fs) "sub_category") as [| |b|q|neg|s1|vs|fs1] eqn:E;
    try (assert (R : r = JObject fs) by congruence; subst r; congruence).
  assert (R : r = setProp (JObject fs) "sub_category"
                    (JString (slice0 60 (toLowerCase s1)))) by congruence.
  subst r. rewrite prop_setProp_same in Es.
  assert (R : s = slice0 60 (toLowerCase s1)) by congruence.
  subst s. apply firstn_le_length.
Qed.

(** X10. [validate] lets through complete objects only. A value that is
    not an object is rejected as "Invalid record structure", an array as
    having no valid type; and an accepted record has each of its six keys,
    before and after: a key left out reads [undefined], which is neither
    [null] nor of the type wanted. *)
Theorem validate_wants_a_complete_object
    (toLowerCase : jsstr -> jsstr) (NumberToString : Q -> jsstr)
    (rec : jsvalue) :
  (forall r, validate toLowerCase NumberToString rec = Ok r ->
     (exists fs, rec = JObject fs)
     /\ forall key, In key recordKeys ->
          prop rec key <> JUndefined /\ prop r key <> JUndefined)
  /\ ((forall fs, rec <> JObject fs) ->
      validate toLowerCase NumberToString rec
      = Throw (match rec with
               | JArray _ => lit "Invalid type - must be 'in' or 'out'"
               | _ => lit "Invalid record structure"
               end)).
Proof.
  split.
  - intros r H. split; [eapply validate_Ok_object; exact H|].
    intros key I. apply validate_Ok_recordOk in H. destruct H as (H1 & H2).
    split; eapply recordOk_complete; eassumption.
  - intros N. destruct rec as [| |b|q|neg|s|vs|fs]; try reflexivity.
    + unfold validate. simpl. destruct b; reflexivity.
    + unfold validate. simpl. destruct (negb (Qeq_bool q 0)); reflexivity.
    + unfold validate. simpl. destruct s; reflexivity.
    + exfalso. apply (N fs). reflexivity.
Qed.

Lemma setField_setField fs key v w :
  setField (setField fs key v) key w = setField fs key w.
Proof.
  induction fs as [|[k x] fs IH]; simpl.
  - assert (E : str_eqb key key = true) by (apply str_eqb_eq; reflexivity).
    rewrite E. reflexivity.
  - destruct (str_eqb k key) eqn:E; simpl; rewrite E; [reflexivity|].
    rewrite IH. reflexivity.
Qed.

Lemma firstn_twice (A : Type) n (l : list A) :
  firstn n (firstn n l) = firstn n l.
Proof. rewrite firstn_firstn, Nat.min_id. reflexivity. Qed.

(** X11. What [validate] returns is itself a valid record: it meets the six
    conditions and [validate] accepts it again; and where lower-casing what
    is in lower case changes nothing, [validate] returns it unchanged. *)
Theorem validate_output_is_valid
    (toLowerCase : jsstr -> jsstr) (NumberToString : Q -> jsstr)
    (rec r : jsvalue) :
  validate toLowerCase NumberToString rec = Ok r ->
  recordOk NumberToString r
  /\ (exists r', validate toLowerCase NumberToString r = Ok r')
  /\ ((forall s, toLowerCase (slice0 60 (toLowerCase s))
                 = slice0 60 (toLowerCase s)) ->
      validate toLowerCase NumberToString r = Ok r).
Proof.
  intros H.
  destruct (validate_Ok_recordOk _ _ _ _ H) as (_ & Hr).
  destruct (validate_Ok_object _ _ _ _ H) as (fs & ->).
  destruct (validate_Ok_cases _ _ _ _ H) as (_ & [->|(s & Es & ->)]).
  - split; [exact Hr|]. split; [exists (JObject fs)|intros _]; exact H.
  - unfold setProp in *.
    pose proof (validate_accepts toLowerCase NumberToString _ Hr) as V.
    change (prop (JObject (setField fs (lit "sub_category")
                             (JString (slice0 60 (toLowerCase s)))))
                 "sub_category")
      with (getField (setField fs (lit "sub_category")
                        (JString (slice0 60 (toLowerCase s))))
                     (lit "sub_category")) in V.
    rewrite getField_setField_same in V.
    split; [exact Hr|]. split; [eexists; exact V|].
    intros Hid. rewrite V. unfold setProp.
    rewrite setField_setField, Hid. unfold slice0. rewrite firstn_twice.
    reflexivity.
Qed.

Lemma validate_output_is_valid_witness :
  recordOk numberToString0 recordZeroAmount
  /\ (exists r', validate asciiLower numberToString0 recordZeroAmount = Ok r')
  /\ ((forall s, asciiLower (slice0 60 (asciiLower s))
                 = slice0 60 (asciiLower s)) ->
      validate asciiLower numberToString0 recordZeroAmount
      = Ok recordZeroAmount).
Proof.
  apply (validate_output_is_valid asciiLower numberToString0
           recordZeroAmount recordZeroAmount).
  reflexivity.
Defined.

(* ===================================================================== *)
(** * The structuring function as a whole ([structure_with_gemini])        *)
(* ===================================================================== *)

(** What a [throw] carries: [new Error(msg)], or an exception of the host
    (a rejected [fetch], a body that is no JSON, a TypeError), known by its
    [String()]. *)
Inductive thrown : Type :=
| ErrorOf (msg : jsstr)
| HostThrow (text : jsstr).

(** [String(error)] *)
Definition thrownString (t : thrown) : jsstr :=
  match t with
  | ErrorOf msg => errorString msg
  | HostThrow text => text
  end.

(** What [fetch] of the Gemini endpoint does: it rejects, or answers with a
    status, the text of the body ([res.text()]) and what [res.json()]
    gives, the [String()] of its exception when it throws. *)
Inductive geminiReply : Type :=
| GeminiRejects (text : jsstr)
| GeminiReplies (status : Z) (bodyText : jsstr) (json : jsvalue + jsstr).

(** A request as the handler sees it: the method, the Authorization header
    ([null] when absent) and [req.json()] ([None] when it throws). *)
Record request : Type := {
  req_method : jsstr;
  req_authorization : option jsstr;
  req_json : option jsvalue
}.

(** The body of a response: a text, or the value given to
    [JSON.stringify]. *)
Inductive responseBody : Type :=
| TextBody (s : jsstr)
| JsonBody (v : jsvalue).

Record response : Type := {
  res_status : Z;
  res_body : responseBody
}.

(** [v?.[0]] *)
Definition optIndex0 (v : jsvalue) : jsvalue :=
  match v with
  | JArray (x :: _) => x
  | JString (c :: _) => JString [c]
  | JObject fs => getField fs (lit "0")
  | _ => JUndefined
  end.

(** [a ?? b] *)
Definition nullish (a b : jsvalue) : jsvalue :=
  match a with
  | JUndefined | JNull => b
  | _ => a
  end.

(** [json?.candidates?.[0]?.content?.parts?.[0]?.text ?? ""] *)
Definition replyText (json : jsvalue) : jsvalue :=
  nullish
    (prop (optIndex0 (prop (prop (optIndex0 (prop json "candidates"))
                                 "content") "parts")) "text")
    (JString []).

(** [userPrompt(ocrText)] *)
Definition userPrompt (ocrText : jsstr) : jsstr :=
  lit "OCR_TEXT:" ++ [10; 34; 34; 34; 10]%N ++ ocrText
  ++ [10; 34; 34; 34; 10; 10]%N ++ lit "Return ONLY valid JSON per schema.".

(** [{ ok: false, error }] with a status. *)
Definition failure (status : Z) (error : jsstr) : response :=
  {| res_status := status;
     res_body := JsonBody (JObject [(lit "ok", JBool false);
                                    (lit "error", JString error)]) |}.

Definition textResponse (status : Z) (s : string) : response :=
  {| res_status := status; res_body := TextBody (lit s) |}.

Section StructureFunction.

Variable toLowerCase : jsstr -> jsstr.
Variable JSON_parse : jsstr -> option jsvalue.
Variable NumberToString : Q -> jsstr.

(** [Deno.env.get("GEMINI_API_KEY")]; [None] when it is not set. *)
Variable GEMINI_API_KEY : option jsstr.

(** [fetch] of the Gemini endpoint, by the prompt sent. *)
Variable geminiFetch : jsstr -> geminiReply.

(** The [String()] of the TypeErrors of the host: calling [trim] on what is
    no string, and taking a property of [null]. *)
Variable trimTypeError : jsstr.
Variable destructureTypeError : jsstr.

(** [callGemini(prompt)] *)
Definition callGemini (prompt : jsstr) : jsstr + thrown :=
  match GEMINI_API_KEY with
  | None | Some [] => inr (ErrorOf (lit "GEMINI_API_KEY not configured"))
  | Some (_ :: _) =>
      match geminiFetch prompt with
      | GeminiRejects text => inr (HostThrow text)
      | GeminiReplies status errorText json =>
          if negb (statusOk status)
          then inr (ErrorOf (lit "Gemini API error: "
                             ++ ToString NumberToString
                                  (JNumber (inject_Z status))
                             ++ lit " " ++ errorText))
          else
            match json with
            | inr text => inr (HostThrow text)
            | inl json =>
                match replyText json with
                | JString text => inl (trim text)
                | _ => inr (HostThrow trimTypeError)
                end
            end
      end
  end.

(** The handler of [Deno.serve]. *)
Definition structureHandler (req : request) : response :=
  if str_eqb (req_method req) (lit "OPTIONS") then textResponse 200 "ok"
  else if negb (str_eqb (req_method req) (lit "POST"))
  then textResponse 405 "Method not allowed"
  else
    match req_authorization req with
    | None | Some [] => textResponse 401 "Missing Authorization header"
    | Some (_ :: _) =>
        match req_json req with
        | None => failure 400 (lit "Invalid JSON in request body")
        | Some requestBody =>
            match getProp requestBody "ocrText" with
            | None => failure 500 destructureTypeError
            | Some (JString (c :: s)) =>
                let ocrText := c :: s in
                match callGemini (userPrompt ocrText) with
                | inr (HostThrow text) => failure 500 text
                | inr (ErrorOf msg) =>
                    let (status, body) :=
                      structureWithGemini toLowerCase JSON_parse
                        NumberToString (GeminiThrows msg) in
                    {| res_status := status; res_body := JsonBody body |}
                | inl resp =>
                    let (status, body) :=
                      structureWithGemini toLowerCase JSON_parse
                        NumberToString (GeminiText resp) in
                    {| res_status := status; res_body := JsonBody body |}
                end
            | Some _ => failure 400 (lit "ocrText required as string")
            end
        end
    end.

(** [response.json()] on a response of the function: the value given to
    [JSON.stringify] as it is after the round trip, or the parse of a text
    body, [None] when that throws. *)
Definition bodyJson (body : responseBody) : option jsvalue :=
  match body with
  | JsonBody v => Some (jsonRoundTrip v)
  | TextBody s => JSON_parse s
  end.

(** The orchestrator's [fetch] of this function when the request gets
    through: a POST with the caller's Authorization header and the body
    [JSON.stringify({ ocrText })]; what comes back is the status of the
    response and what [response.json()] reads from it. *)
Definition structureCall (ocrText : jsvalue) (authorization : jsstr)
  : fetchOutcome :=
  let res :=
    structureHandler
      {| req_method := lit "POST";
         req_authorization := Some authorization;
         req_json := Some (jsonRoundTrip
                             (JObject [(lit "ocrText", ocrText)])) |} in
  FetchResponse (res_status res) (bodyJson (res_body res)).

End StructureFunction.

(** The request asks for a structuring: a POST with an Authorization header
    and a JSON body whose [ocrText] is a string that is not empty. *)
Definition asksStructuring (req : request) (ocrText : jsstr) : Prop :=
  req_method req = lit "POST"
  /\ (exists a, req_authorization req = Some a /\ a <> [])
  /\ (exists requestBody,
        req_json req = Some requestBody
        /\ getProp requestBody "ocrText" = Some (JString ocrText))
  /\ ocrText <> [].

(** The reply of the structuring function to a failure. *)
Definition isFailure (res : response) : Prop :=
  exists error,
    res_body res = JsonBody (JObject [(lit "ok", JBool false);
                                      (lit "error", JString error)]).

Lemma structureWithGemini_cases toLowerCase JSON_parse NumberToString g :
  (exists r,
     structureWithGemini toLowerCase JSON_parse NumberToString g
     = (200%Z, okBody r)
     /\ exists resp parsed,
          g = GeminiText resp
          /\ extractJson JSON_parse resp = Ok parsed
          /\ validate toLowerCase NumberToString parsed = Ok r)
  \/ (exists msg,
        structureWithGemini toLowerCase JSON_parse NumberToString g
        = (500%Z, JObject [(lit "ok", JBool false);
                           (lit "error", JString (errorString msg))])).
Proof.
  unfold structureWithGemini. destruct g as [msg|resp].
  - right. exists msg. reflexivity.
  - destruct (extractJson JSON_parse resp) as [parsed|msg] eqn:E.
    + destruct (validate toLowerCase NumberToString parsed) as [r|msg] eqn:V.
      * left. exists r. split; [reflexivity|]. exists resp, parsed. auto.
      * right. exists msg. reflexivity.
    + right. exists msg. reflexivity.
Qed.

(** X12. The replies of the structuring function. Status 200 comes with
    the text "ok" for OPTIONS, or with [{ok: true, record}] where the record
    has passed [validate]: it meets the six conditions and its sub_category
    has at most 60 code units. Every other reply has status 400, 401, 405 or
    500, and a JSON body, if any, of the form [{ok: false, error}]. *)
Theorem structure_reply_shapes
    (toLowerCase : jsstr -> jsstr) (JSON_parse : jsstr -> option jsvalue)
    (NumberToString : Q -> jsstr) (GEMINI_API_KEY : option jsstr)
    (geminiFetch : jsstr -> geminiReply)
    (trimTypeError destructureTypeError : jsstr) (req : request) :
  let res := structureHandler toLowerCase JSON_parse NumberToString
               GEMINI_API_KEY geminiFetch trimTypeError
               destructureTypeError req in
  (req_method req = lit "OPTIONS" /\ res = textResponse 200 "ok")
  \/ (exists r ocrText,
        res = {| res_status := 200; res_body := JsonBody (okBody r) |}
        /\ asksStructuring req ocrText
        /\ recordOk NumberToString r
        /\ forall s, prop r "sub_category" = JString s -> length s <= 60)
  \/ (In (res_status res) [400; 401; 405; 500]%Z
      /\ ((exists s, res_body res = TextBody s) \/ isFailure res)).
Proof.
  intros res. unfold res, structureHandler.
  destruct (str_eqb (req_method req) (lit "OPTIONS")) eqn:Eo.
  { left. apply str_eqb_eq in Eo. auto. }
  right.
  destruct (str_eqb (req_method req) (lit "POST")) eqn:Ep; cbn [negb].
  2:{ right. split; [simpl; tauto | left; eexists; reflexivity]. }
  apply str_eqb_eq in Ep.
  destruct (req_authorization req) as [[|a0 a]|] eqn:Ea;
    try (right; split; [simpl; tauto | left; eexists; reflexivity]).
  destruct (req_json req) as [requestBody|] eqn:Ej;
    [|right; split; [simpl; tauto | right; eexists; reflexivity]].
  destruct (getProp requestBody "ocrText") as [ocr|] eqn:Eg;
    [|right; split; [simpl; tauto | right; eexists; reflexivity]].
  destruct ocr as [| |b|q|neg|[|c s]|vs|fs];
    try (right; split; [simpl; tauto | right; eexists; reflexivity]).
  assert (Hasks : asksStructuring req (c :: s)).
  { repeat split; trivial.
    - exists (a0 :: a). split; [exact Ea | discriminate].
    - exists requestBody. split; [exact Ej | exact Eg].
    - discriminate. }
  assert (Hafter : forall g,
    let (status, body) :=
      structureWithGemini toLowerCase JSON_parse NumberToString g in
    (exists r,
        {| res_status := status; res_body := JsonBody body |}
        = {| res_status := 200; res_body := JsonBody (okBody r) |}
        /\ recordOk NumberToString r
        /\ forall s0, prop r "sub_category" = JString s0 -> length s0 <= 60)
    \/ (In status [400; 401; 405; 500]%Z
        /\ exists error,
             body = JObject [(lit "ok", JBool false);
                             (lit "error", JString error)])).
  { intros g.
    destruct (structureWithGemini_cases toLowerCase JSON_parse
                NumberToString g)
      as [(r & E & resp & parsed & _ & _ & V) | (msg & E)]; rewrite E.
    - left. exists r. split; [reflexivity|].
      destruct (validate_Ok_recordOk _ _ _ _ V) as (_ & Hr).
      split; [exact Hr|]. intros s0 Es.
      eapply validate_sub_category_length; eassumption.
    - right. split; [simpl; tauto | eexists; reflexivity]. }
  destruct (callGemini NumberToString GEMINI_API_KEY geminiFetch
              trimTypeError (userPrompt (c :: s))) as [resp|[msg|text]].
  - specialize (Hafter (GeminiText resp)).
    destruct (structureWithGemini toLowerCase JSON_parse NumberToString
                (GeminiText resp)) as [status body].
    destruct Hafter as [(r & E & Hr & Hl) | (I & error & E)].
    + left. exists r, (c :: s). auto.
    + right. split; [exact I | right; exists error; subst; reflexivity].
  - specialize (Hafter (GeminiThrows msg)).
    destruct (structureWithGemini toLowerCase JSON_parse NumberToString
                (GeminiThrows msg)) as [status body].
    destruct Hafter as [(r & E & Hr & Hl) | (I & error & E)].
    + left. exists r, (c :: s). auto.
    + right. split; [exact I | right; exists error; subst; reflexivity].
  - right. split; [simpl; tauto | right; eexists; reflexivity].
Qed.

(** X13. Gemini is asked only when the request asks for a structuring, and
    then about the prompt made of its [ocrText] alone: the reply to a
    request that does not ask is the same whatever the key and whatever
    [fetch] would do, and the reply to one that asks depends on [fetch]
    only through its answer to [userPrompt(ocrText)]. *)
Theorem structure_asks_gemini_only_when_asked
    (toLowerCase : jsstr -> jsstr) (JSON_parse : jsstr -> option jsvalue)
    (NumberToString : Q -> jsstr)
    (trimTypeError destructureTypeError : jsstr) (req : request) :
  let handler key fetch :=
    structureHandler toLowerCase JSON_parse NumberToString key fetch
      trimTypeError destructureTypeError req in
  ((forall ocrText, ~ asksStructuring req ocrText) ->
   forall key1 key2 fetch1 fetch2, handler key1 fetch1 = handler key2 fetch2)
  /\ (forall ocrText key fetch1 fetch2,
        asksStructuring req ocrText ->
        fetch1 (userPrompt ocrText) = fetch2 (userPrompt ocrText) ->
        handler key fetch1 = handler key fetch2).
Proof.
  intros handler. unfold handler, structureHandler. split.
  - intros Hn key1 key2 fetch1 fetch2.
    destruct (str_eqb (req_method req) (lit "OPTIONS")); [reflexivity|].
    destruct (str_eqb (req_method req) (lit "POST")) eqn:Ep;
      [|reflexivity].
    apply str_eqb_eq in Ep. cbn [negb].
    destruct (req_authorization req) as [[|a0 a]|] eqn:Ea; try reflexivity.
    destruct (req_json req) as [requestBody|] eqn:Ej; [|reflexivity].
    destruct (getProp requestBody "ocrText") as [ocr|] eqn:Eg; [|reflexivity].
    destruct ocr as [| |b|q|neg|[|c s]|vs|fs]; try reflexivity.
    exfalso. apply (Hn (c :: s)). repeat split; trivial.
    + exists (a0 :: a). split; [exact Ea | discriminate].
    + exists requestBody. split; [exact Ej | exact Eg].
    + discriminate.
  - intros ocrText key fetch1 fetch2 (_ & _ & (rb & Ej & Eg) & _) Ef.
    destruct (str_eqb (req_method req) (lit "OPTIONS")); [reflexivity|].
    destruct (negb (str_eqb (req_method req) (lit "POST"))); [reflexivity|].
    destruct (req_authorization req) as [[|a0 a]|]; try reflexivity.
    rewrite Ej, Eg.
    destruct ocrText as [|c s]; [reflexivity|].
    unfold callGemini. rewrite Ef. reflexivity.
Qed.

(* ===================================================================== *)
(** * The reply of Gemini                                                  *)
(* ===================================================================== *)

Definition allSpace (s : jsstr) : Prop := Forall (fun c => isSpace c = true) s.

Lemma trimStart_spaces ws s :
  allSpace ws -> isSpace (hd 0%N s) = false -> trimStart (ws ++ s) = s.
Proof.
  intros F H. induction F as [|c ws Hc F IH]; simpl.
  - destruct s as [|c s]; simpl in *; [reflexivity|]. rewrite H. reflexivity.
  - rewrite Hc. exact IH.
Qed.

(** [trim] takes off the white space around a text that neither begins nor
    ends with white space. *)
Lemma trim_spaces ws core ws' :
  allSpace ws -> allSpace ws' -> core <> [] ->
  isSpace (hd 0%N core) = false -> isSpace (last core 0%N) = false ->
  trim (ws ++ core ++ ws') = core.
Proof.
  intros F F' N H L. unfold trim.
  rewrite trimStart_spaces; trivial.
  2:{ destruct core; [contradiction | exact H]. }
  rewrite rev_app_distr, trimStart_spaces.
  - apply rev_involutive.
  - apply Forall_rev. exact F'.
  - rewrite <- (rev_involutive core) in L. rewrite last_rev in L. exact L.
Qed.

Lemma last_snoc (mid : jsstr) c d : last (c :: mid ++ [d]) 0%N = d.
Proof.
  change (c :: mid ++ [d]) with ((c :: mid) ++ [d]). apply last_last.
Qed.

(** X14. What [callGemini] makes of a reply with an OK status. When the
    reply has no [candidates], or its text is the empty string, the response
    text is empty and [extractJson] finds no JSON in it. When the text is an
    object text, from "{" to "}", with white space around it, [callGemini]
    returns the object text alone, and [extractJson] parses all of it. *)
Theorem gemini_reply_is_trimmed
    (JSON_parse : jsstr -> option jsvalue) (NumberToString : Q -> jsstr)
    (GEMINI_API_KEY : option jsstr) (geminiFetch : jsstr -> geminiReply)
    (trimTypeError : jsstr)
    (prompt : jsstr) (status : Z) (bodyText : jsstr) (json : jsvalue) :
  (exists k ks, GEMINI_API_KEY = Some (k :: ks)) ->
  geminiFetch prompt = GeminiReplies status bodyText (inl json) ->
  statusOk status = true ->
  let reply := callGemini NumberToString GEMINI_API_KEY geminiFetch
                 trimTypeError prompt in
  (prop json "candidates" = JUndefined -> replyText json = JString [])
  /\ (replyText json = JString [] ->
      reply = inl []
      /\ extractJson JSON_parse [] = Throw (lit "No JSON found in response"))
  /\ (forall ws mid ws',
        allSpace ws -> allSpace ws' ->
        replyText json = JString (ws ++ (ch "{" :: mid ++ [ch "}"]) ++ ws') ->
        reply = inl (ch "{" :: mid ++ [ch "}"])
        /\ extractJson JSON_parse (ch "{" :: mid ++ [ch "}"])
           = match JSON_parse (ch "{" :: mid ++ [ch "}"]) with
             | Some v => Ok v
             | None => Throw (lit "Invalid JSON in response")
             end).
Proof.
  intros (k & ks & Ek) Ef Es reply.
  assert (Hreply : forall text, replyText json = JString text ->
                     reply = inl (trim text)).
  { intros text Et. unfold reply, callGemini.
    rewrite Ek, Ef, Es, Et. reflexivity. }
  split; [|split].
  - intros E. unfold replyText. rewrite E. reflexivity.
  - intros E. split; [rewrite (Hreply _ E); reflexivity | reflexivity].
  - intros ws mid ws' F F' E. split.
    + rewrite (Hreply _ E). f_equal. apply trim_spaces; trivial.
      * discriminate.
      * rewrite last_snoc. reflexivity.
    + unfold extractJson.
      destruct (jsonRe_exec_found [] mid) as (m & Em & Et); [intros []|].
      change ([] ++ ch "{" :: mid ++ [ch "}"])
        with (ch "{" :: mid ++ [ch "}"]) in Em.
      rewrite Em, Et. reflexivity.
Qed.

Definition replyWithObject : jsvalue :=
  JObject [(lit "candidates",
     JArray [JObject [(lit "content",
       JObject [(lit "parts",
         JArray [JObject [(lit "text", JString (lit " {} "))]])])]])].

Lemma gemini_reply_is_trimmed_witness :
  callGemini numberToString0 (Some (lit "key"))
    (fun _ => GeminiReplies 200 [] (inl replyWithObject)) [] []
  = inl (lit "{}").
Proof.
  pose proof (gemini_reply_is_trimmed parseEmptyObject numberToString0
                (Some (lit "key"))
                (fun _ => GeminiReplies 200 [] (inl replyWithObject)) []
                [] 200 [] replyWithObject) as H.
  destruct H as (_ & _ & H).
  - exists (ch "k"), (lit "ey"). reflexivity.
  - reflexivity.
  - reflexivity.
  - destruct (H (lit " ") [] (lit " ")) as (E & _).
    + repeat constructor.
    + repeat constructor.
    + reflexivity.
    + exact E.
Defined.

(* ===================================================================== *)
(** * The image handler ([process_image/index.ts])                         *)
(* ===================================================================== *)

(** [Deno.env]: the variables the handler reads, [None] when not set. *)
Record environment : Type := {
  SUPABASE_URL : option jsstr;
  SUPABASE_SERVICE_ROLE_KEY : option jsstr;
  OCR_PROVIDER : option jsstr;
  GOOGLE_VISION_API_KEY : option jsstr;
  OCRSPACE_API_KEY : option jsstr
}.

(** Truthiness of what [Deno.env.get] or [headers.get] returns. *)
Definition isSet (v : option jsstr) : bool :=
  match v with
  | Some (_ :: _) => true
  | _ => false
  end.

(** [Deno.env.get('OCR_PROVIDER') || 'google'] *)
Definition ocrProviderOf (env : environment) : jsstr :=
  match OCR_PROVIDER env with
  | Some (c :: s) => c :: s
  | _ => lit "google"
  end.

(** [s.replace(pat, by)] for a string [pat]: the first occurrence. *)
Fixpoint replaceFirst (pat by_ s : jsstr) : jsstr :=
  if startsWith s pat then by_ ++ skipn (length pat) s
  else
    match s with
    | [] => []
    | c :: s' => c :: replaceFirst pat by_ s'
    end.

(** [authorization.replace('Bearer ', '')] *)
Definition jwtOf (authorization : jsstr) : jsstr :=
  replaceFirst (lit "Bearer ") [] authorization.

(** [imagePath.startsWith(`${user.id}/`)] *)
Definition ownsImage (userId imagePath : jsstr) : bool :=
  startsWith imagePath (userId ++ lit "/").

(** The path the upload page stores a receipt under
    ([`${session.user.id}/${filename}`], [UploadPage.tsx]) and the header
    it sends ([`Bearer ${session.access_token}`]). *)
Definition uploadPath (userId filename : jsstr) : jsstr :=
  userId ++ lit "/" ++ filename.

Definition bearer (access_token : jsstr) : jsstr :=
  lit "Bearer " ++ access_token.

(** The row given to [insert]. *)
Record transactionRow : Type := {
  row_user_id : jsstr;
  row_date : jsvalue;
  row_description : jsvalue;
  row_amount : jsvalue;
  row_type : txtype;
  row_category : jsvalue;
  row_notes : jsvalue;
  row_image_path : jsstr
}.

(** The responses of the handler: a text with a status; [{error}] or
    [{error, details}] with a status; and, with status 200,
    [{transaction, debug: {ocrText, structuredData}}]. *)
Inductive imageResponse : Type :=
| ImageText (status : Z) (text : string)
| ImageError (status : Z) (error : string) (details : option jsstr)
| ImageStructureError (e : errorResponse)
| ImageSaved (transaction : jsvalue) (ocrText : jsvalue)
             (structured : structuredData).

Definition imageStatus (r : imageResponse) : Z :=
  match r with
  | ImageText status _ => status
  | ImageError status _ _ => status
  | ImageStructureError e => er_status e
  | ImageSaved _ _ _ => 200
  end.

(** What [fetch] of the Vision endpoint does. *)
Inductive visionReply : Type :=
| VisionRejects (text : jsstr)
| VisionReplies (status : Z) (responseText : jsstr).

(** What [fetch] of OCR.Space does; [json] is [response.json()], [None]
    when it throws. *)
Inductive ocrSpaceReply : Type :=
| OcrSpaceRejects
| OcrSpaceReplies (status : Z) (json : option jsvalue).

(** [/^[A-Za-z0-9+/]+=*$/] *)
Definition isBase64Char (c : cu) : bool :=
  (isLetter c || isDigit c || cu_eqb c (ch "+") || cu_eqb c (ch "/"))%bool.

Definition base64Re : regex :=
  rseq [RBegin; rplus (RChar isBase64Char); RStar (rc "="); REnd].

(** The base-64 alphabet, and [btoa] on a string of bytes. *)
Definition base64Digit (n : N) : cu :=
  if (n <? 26)%N then (65 + n)%N
  else if (n <? 52)%N then (97 + (n - 26))%N
  else if (n <? 62)%N then (48 + (n - 52))%N
  else if (n =? 62)%N then 43%N
  else 47%N.

Fixpoint btoa (bytes : list N) : jsstr :=
  match bytes with
  | [] => []
  | [a] =>
      [base64Digit (a / 4); base64Digit ((a mod 4) * 16); 61; 61]%N
  | [a; b] =>
      [base64Digit (a / 4); base64Digit ((a mod 4) * 16 + b / 16);
       base64Digit ((b mod 16) * 4); 61]%N
  | a :: b :: c :: bytes' =>
      (base64Digit (a / 4) :: base64Digit ((a mod 4) * 16 + b / 16)
       :: base64Digit ((b mod 16) * 4 + c / 64) :: base64Digit (c mod 64)
       :: btoa bytes')%N
  end.

(** [String.fromCharCode(...uint8Array)]: one code unit for each byte. The
    bytes are spread as arguments of one call, and the host throws a
    RangeError when they are more than a call can take ([None]). *)
Definition fromCharCodeSpread (maxArguments : nat) (bytes : list N)
  : option (list N) :=
  if maxArguments <? length bytes then None else Some bytes.

(** [!base64 || !/^[A-Za-z0-9+/]+=*$/.test(base64)] *)
Definition badBase64 (base64 : jsstr) : bool :=
  (match base64 with [] => true | _ :: _ => false end
   || negb (test base64Re base64))%bool.

Section ImageFunction.

Variable toLowerCase : jsstr -> jsstr.
Variable today : jsstr.
Variable hostDate : jsstr -> option jsstr.
Variable JSON_parse : jsstr -> option jsvalue.
Variable JSON_stringify : jsvalue -> jsstr.
Variable NumberToString : Q -> jsstr.

Variable env : environment.

(** [supabaseClient.auth.getUser(jwt)]: the id of the user, [None] for
    [authError || !user]. *)
Variable getUser : jsstr -> option jsstr.

(** [storage.from('receipts').download(path)]: the bytes of the file,
    [None] for [downloadError || !fileData]. *)
Variable download : jsstr -> option (list N).

(** [fetch] of the Vision endpoint, by the base-64 content sent. *)
Variable visionFetch : jsstr -> visionReply.

(** [createSignedUrl(path, 300)]: the URL, [None] for
    [urlError || !signedUrlData]. *)
Variable createSignedUrl : jsstr -> option jsstr.

(** [fetch] of OCR.Space, by the URL and the key sent. *)
Variable ocrSpaceFetch : jsstr -> jsstr -> ocrSpaceReply.

(** [fetch] of the structuring function, by the [ocrText] and the
    Authorization header sent. *)
Variable structureFetch : jsvalue -> jsstr -> fetchOutcome.

(** [insert(row).select().single()]: the transaction, or the message of
    [dbError]. *)
Variable dbInsert : transactionRow -> jsvalue + jsstr.

(** The [String()] and the message of the TypeErrors of the host. *)
Variable typeErrorText : jsstr.
Variable typeErrorMessage : jsstr.
Variable parseErrorText : jsstr.

(** The most arguments the host lets a call spread, and the [String()] of
    the RangeError it throws beyond. *)
Variable maxArguments : nat.
Variable rangeErrorText : jsstr.

(** [`${x}`] *)
Definition interpolate (v : jsvalue) : jsstr := ToString NumberToString v.

(** [errorJson?.error?.message ?? errorJson?.responses?.[0]?.error?.message
     ?? JSON.stringify(errorJson)] *)
Definition visionErrorMessage (errorJson : jsvalue) : jsvalue :=
  nullish (prop (prop errorJson "error") "message")
    (nullish (prop (prop (optIndex0 (prop errorJson "responses")) "error")
                   "message")
       (JString (JSON_stringify errorJson))).

(** [try { ... } catch (e) { ... }] where both blocks end in a [throw]. *)
Definition tryCatch (tried : thrown) (handler : thrown -> thrown) : thrown :=
  handler tried.

(** The branch [!response.ok] of [performGoogleVisionOCR]: what it throws. *)
Definition visionStatusError (status : Z) (responseText : jsstr) : thrown :=
  tryCatch
    (match JSON_parse responseText with
     | None => HostThrow parseErrorText
     | Some errorJson =>
         ErrorOf (lit "Vision API " ++ interpolate (JNumber (inject_Z status))
                  ++ lit ": " ++ interpolate (visionErrorMessage errorJson))
     end)
    (fun parseError =>
       ErrorOf (lit "Vision API " ++ interpolate (JNumber (inject_Z status))
                ++ lit ": " ++ responseText)).

(** [performGoogleVisionOCR(supabaseClient, imagePath)] *)
Definition performGoogleVisionOCR (imagePath : jsstr) : jsvalue + thrown :=
  if negb (isSet (GOOGLE_VISION_API_KEY env))
  then inr (ErrorOf (lit "Google Vision API key not configured"))
  else
    match download imagePath with
    | None => inr (ErrorOf (lit "Failed to download image from storage"))
    | Some bytes =>
      match fromCharCodeSpread maxArguments bytes with
      | None => inr (HostThrow rangeErrorText)
      | Some binary =>
        let base64 := btoa binary in
        if badBase64 base64
        then inr (ErrorOf (lit "Invalid base64 content generated from image"))
        else
          match visionFetch base64 with
          | VisionRejects text => inr (HostThrow text)
          | VisionReplies status responseText =>
              if negb (statusOk status)
              then inr (visionStatusError status responseText)
              else
                match JSON_parse responseText with
                | None => inr (HostThrow parseErrorText)
                | Some result =>
                    match getProp result "responses" with
                    | None => inr (HostThrow typeErrorText)
                    | Some responses =>
                        let first := optIndex0 responses in
                        if truthy (prop first "error")
                        then inr (ErrorOf
                                    (lit "Google Vision API error: "
                                     ++ interpolate
                                          (prop (prop first "error")
                                                "message")))
                        else
                          let fullTextAnnotation :=
                            prop (prop first "fullTextAnnotation") "text" in
                          if truthy fullTextAnnotation
                          then inl fullTextAnnotation
                          else
                            let textAnnotation :=
                              prop (optIndex0 (prop first "textAnnotations"))
                                   "description" in
                            if truthy textAnnotation
                            then inl textAnnotation
                            else inr (ErrorOf
                                        (lit "No text detected in image"))
                    end
                end
          end
      end
    end.

(** [performOCRSpaceOCR(supabaseClient, imagePath)] *)
Definition performOCRSpaceOCR (imagePath : jsstr) : jsvalue + thrown :=
  match OCRSPACE_API_KEY env with
  | None | Some [] => inr (ErrorOf (lit "OCR.Space API key not configured"))
  | Some (k :: ks) =>
      match createSignedUrl imagePath with
      | None =>
          inr (ErrorOf (lit "Failed to get image URL for OCR processing"))
      | Some signedUrl =>
          match ocrSpaceFetch signedUrl (k :: ks) with
          | OcrSpaceRejects =>
              inr (ErrorOf (lit "Failed to call OCR.Space API"))
          | OcrSpaceReplies status json =>
              if negb (statusOk status)
              then inr (ErrorOf (lit "Failed to call OCR.Space API"))
              else
                match json with
                | None =>
                    inr (ErrorOf (lit "Invalid response from OCR.Space API"))
                | Some result =>
                    match getProp result "IsErroredOnProcessing" with
                    | None => inr (HostThrow typeErrorText)
                    | Some errored =>
                        if truthy errored
                        then inr (ErrorOf
                                    (lit "OCR.Space error: "
                                     ++ interpolate
                                          (prop result "ErrorMessage")))
                        else
                          let parsedText :=
                            prop (optIndex0 (prop result "ParsedResults"))
                                 "ParsedText" in
                          if truthy parsedText then inl parsedText
                          else inr (ErrorOf
                                      (lit "No text detected in image"))
                    end
                end
          end
      end
  end.

(** [performOCR(supabaseClient, imagePath)] *)
Definition performOCR (imagePath : jsstr) : jsvalue + thrown :=
  if str_eqb (ocrProviderOf env) (lit "google")
  then performGoogleVisionOCR imagePath
  else performOCRSpaceOCR imagePath.

(** The [try] block that computes [structuredData], for any value of
    [ocrText]: the legacy parser is given a string, and throws a TypeError
    on anything else. *)
Definition structureValue (ocrText : jsvalue) (f : fetchOutcome)
  : structuredData + errorResponse :=
  match ocrText, f with
  | JString text, _ => structureReceipt toLowerCase today hostDate text f
  | _, FetchResponse status body =>
      if negb (statusOk status) then inr (structureError HostException)
      else structureReceipt toLowerCase today hostDate [] f
  | _, FetchRejects => inr (structureError HostException)
  end.

Definition rowOf (userId imagePath : jsstr) (sd : structuredData)
  : transactionRow :=
  {| row_user_id := userId;
     row_date := sd_date sd;
     row_description := sd_description sd;
     row_amount := sd_amount sd;
     row_type := sd_type sd;
     row_category := sd_category sd;
     row_notes := sd_notes sd;
     row_image_path := imagePath |}.

(** The handler of [Deno.serve]: its response, and the row it gave to
    [insert], if it came to that. *)
Definition processImage (req : request)
  : imageResponse * option transactionRow :=
  if str_eqb (req_method req) (lit "OPTIONS") then (ImageText 200 "ok", None)
  else if negb (str_eqb (req_method req) (lit "POST"))
  then (ImageText 405 "Method not allowed", None)
  else if (negb (isSet (SUPABASE_URL env))
           || negb (isSet (SUPABASE_SERVICE_ROLE_KEY env)))%bool
  then (ImageError 500 "Server configuration error" None, None)
  else if (str_eqb (ocrProviderOf env) (lit "google")
           && negb (isSet (GOOGLE_VISION_API_KEY env)))%bool
  then (ImageError 500 "OCR service not configured" None, None)
  else if (str_eqb (ocrProviderOf env) (lit "ocrspace")
           && negb (isSet (OCRSPACE_API_KEY env)))%bool
  then (ImageError 500 "OCR service not configured" None, None)
  else if (negb (str_eqb (ocrProviderOf env) (lit "google"))
           && negb (str_eqb (ocrProviderOf env) (lit "ocrspace")))%bool
  then (ImageError 500 "Invalid OCR provider configured" None, None)
  else
    match req_authorization req with
    | None | Some [] => (ImageText 401 "Missing Authorization header", None)
    | Some (a0 :: a) =>
        let authorization := a0 :: a in
        match getUser (jwtOf authorization) with
        | None => (ImageText 401 "Invalid authorization token", None)
        | Some userId =>
            match req_json req with
            | None => (ImageText 400 "Invalid request body", None)
            | Some requestBody =>
                match getProp requestBody "imagePath" with
                | None =>
                    (ImageError 500 "Internal server error"
                       (Some typeErrorMessage), None)
                | Some imagePathValue =>
                    if negb (truthy imagePathValue)
                    then (ImageText 400 "Missing imagePath", None)
                    else
                      match imagePathValue with
                      | JString imagePath =>
                          if negb (ownsImage userId imagePath)
                          then (ImageText 403 "Unauthorized access to image",
                                None)
                          else
                            match performOCR imagePath with
                            | inr _ =>
                                (ImageError 500 "Failed to process image" None,
                                 None)
                            | inl ocrText =>
                                if negb (truthy ocrText)
                                then (ImageText 500
                                        "Failed to extract text from image",
                                      None)
                                else
                                  match structureValue ocrText
                                          (structureFetch ocrText
                                             authorization) with
                                  | inr e => (ImageStructureError e, None)
                                  | inl sd =>
                                      let row := rowOf userId imagePath sd in
                                      match dbInsert row with
                                      | inr message =>
                                          (ImageError 500
                                             "Failed to save transaction"
                                             (Some message), Some row)
                                      | inl transaction =>
                                          (ImageSaved transaction ocrText sd,
                                           Some row)
                                      end
                                  end
                            end
                      | _ =>
                          (ImageError 500 "Internal server error"
                             (Some typeErrorMessage), None)
                      end
                end
            end
        end
    end.

End ImageFunction.

(* ===================================================================== *)
(** * Whose image it is                                                    *)
(* ===================================================================== *)

(** Two texts cut at their first "/" agree on what is before it. *)
Lemma first_slash_unique : forall (u u' b b' : jsstr),
  ~ In (ch "/") u -> ~ In (ch "/") u' ->
  u ++ ch "/" :: b = u' ++ ch "/" :: b' -> u = u'.
Proof.
  induction u as [|c u IH]; intros [|c' u'] b b' N N' E; simpl in E.
  - reflexivity.
  - exfalso. apply N'. inversion E; subst. left. reflexivity.
  - exfalso. apply N. inversion E; subst. left. reflexivity.
  - inversion E; subst. f_equal.
    apply (IH u' b b'); trivial.
    + intros X. apply N. right. exact X.
    + intros X. apply N'. right. exact X.
Qed.

Lemma ownsImage_iff u path :
  ownsImage u path = true <-> exists b, path = u ++ ch "/" :: b.
Proof.
  unfold ownsImage. rewrite startsWith_iff. split; intros (b & E); exists b.
  - rewrite E, <- app_assoc. reflexivity.
  - rewrite E, <- app_assoc. reflexivity.
Qed.

(** X15. The folder check keeps users apart. For user ids without "/" (they
    are UUIDs), a path passes [imagePath.startsWith(`${user.id}/`)] for one
    user at most; the path the upload page stores a receipt under passes
    for its own user and for no other. *)
Theorem image_folders_are_separate (u u' path filename : jsstr) :
  ~ In (ch "/") u -> ~ In (ch "/") u' ->
  (ownsImage u path = true -> ownsImage u' path = true -> u = u')
  /\ ownsImage u (uploadPath u filename) = true
  /\ (u <> u' -> ownsImage u' (uploadPath u filename) = false).
Proof.
  intros N N'.
  assert (H : forall p, ownsImage u p = true -> ownsImage u' p = true -> u = u').
  { intros p H1 H2. apply ownsImage_iff in H1. apply ownsImage_iff in H2.
    destruct H1 as (b & E1). destruct H2 as (b' & E2). rewrite E1 in E2.
    eapply first_slash_unique; eassumption. }
  assert (Hown : ownsImage u (uploadPath u filename) = true).
  { apply ownsImage_iff. exists filename. reflexivity. }
  split; [apply H | split; [exact Hown|]].
  intros D. destruct (ownsImage u' (uploadPath u filename)) eqn:E;
    [|reflexivity].
  exfalso. apply D. apply (H (uploadPath u filename)); assumption.
Qed.

Lemma image_folders_are_separate_witness :
  (ownsImage (lit "u1") (lit "u1/a.png") = true ->
   ownsImage (lit "u12") (lit "u1/a.png") = true -> lit "u1" = lit "u12")
  /\ ownsImage (lit "u1") (uploadPath (lit "u1") (lit "a.png")) = true
  /\ (lit "u1" <> lit "u12" ->
      ownsImage (lit "u12") (uploadPath (lit "u1") (lit "a.png")) = false).
Proof.
  apply (image_folders_are_separate (lit "u1") (lit "u12") (lit "u1/a.png")
           (lit "a.png")).
  - simpl. intros [X|[X|[]]]; discriminate.
  - simpl. intros [X|[X|[X|[]]]]; discriminate.
Defined.

(* ===================================================================== *)
(** * The base-64 content of an image                                      *)
(* ===================================================================== *)

Lemma base64Digit_in_alphabet n :
  (n < 64)%N -> isBase64Char (base64Digit n) = true.
Proof.
  intros H. rewrite <- (N2Nat.id n).
  assert (K : N.to_nat n < 64) by lia.
  generalize dependent (N.to_nat n). clear.
  intros k K.
  do 64 (destruct k as [|k]; [vm_compute; reflexivity|]). lia.
Qed.

Lemma list_ind3 (A : Type) (P : list A -> Prop) :
  P [] -> (forall a, P [a]) -> (forall a b, P [a; b]) ->
  (forall a b c l, P l -> P (a :: b :: c :: l)) ->
  forall l, P l.
Proof.
  intros H0 H1 H2 H3.
  assert (G : forall n l, length l <= n -> P l).
  { induction n as [|n IH]; intros l L.
    - destruct l; [exact H0 | simpl in L; lia].
    - destruct l as [|a [|b [|c l]]]; auto.
      apply H3. apply IH. simpl in L. lia. }
  intros l. apply (G (length l)). lia.
Qed.

(** What [btoa] writes: digits of the alphabet, then the padding. *)
Lemma btoa_shape : forall bytes,
  Forall (fun b => (b < 256)%N) bytes ->
  exists body pad,
    btoa bytes = body ++ pad
    /\ Forall (fun c => isBase64Char c = true) body
    /\ Forall (fun c => cu_eqb (ch "=") c = true) pad
    /\ (bytes <> [] -> body <> []).
Proof.
  induction bytes as [|a|a b|a b c l IH] using list_ind3; intros F.
  - exists [], []. repeat split; auto.
  - inversion F as [|? ? Ha _]; subst.
    exists [base64Digit (a / 4); base64Digit ((a mod 4) * 16)]%N, [61; 61]%N.
    split; [reflexivity|]. split; [|split; [repeat constructor | discriminate]].
    repeat constructor; apply base64Digit_in_alphabet;
      zify; Z.to_euclidean_division_equations; lia.
  - inversion F as [|? ? Ha F']; subst. inversion F' as [|? ? Hb _]; subst.
    exists [base64Digit (a / 4); base64Digit ((a mod 4) * 16 + b / 16);
            base64Digit ((b mod 16) * 4)]%N, [61%N].
    split; [reflexivity|]. split; [|split; [repeat constructor | discriminate]].
    repeat constructor; apply base64Digit_in_alphabet;
      zify; Z.to_euclidean_division_equations; lia.
  - inversion F as [|? ? Ha F']; subst. inversion F' as [|? ? Hb F'']; subst.
    inversion F'' as [|? ? Hc F3]; subst.
    destruct (IH F3) as (body & pad & E & Fb & Fp & _).
    exists ([base64Digit (a / 4); base64Digit ((a mod 4) * 16 + b / 16);
             base64Digit ((b mod 16) * 4 + c / 64); base64Digit (c mod 64)]%N
            ++ body), pad.
    split; [cbn [btoa]; rewrite E; reflexivity|].
    split; [|split; [exact Fp | discriminate]].
    apply Forall_app. split; [|exact Fb].
    repeat constructor; apply base64Digit_in_alphabet;
      zify; Z.to_euclidean_division_equations; lia.
Qed.

Lemma base64Re_accepts body pad :
  body <> [] ->
  Forall (fun c => isBase64Char c = true) body ->
  Forall (fun c => cu_eqb (ch "=") c = true) pad ->
  test base64Re (body ++ pad) = true.
Proof.
  intros N Fb Fp. apply test_true_iff.
  exists [], (body ++ pad). destruct body as [|c body]; [contradiction|].
  inversion Fb as [|? ? Hc Fb']; subst.
  eexists. split; [reflexivity|].
  unfold base64Re, rseq, rplus, startAt. simpl rev.
  eapply MSeq; [apply MBegin; reflexivity|].
  eapply MSeq.
  - eapply MSeq.
    + apply (MChar isBase64Char c [] (body ++ pad) []). exact Hc.
    + apply (star_class_build isBase64Char body [c] pad []). exact Fb'.
  - eapply MSeq.
    + pose proof (star_class_build (cu_eqb (ch "=")) pad (rev body ++ [c])
                    [] [] Fp) as M.
      rewrite app_nil_r in M. exact M.
    + apply MEnd. reflexivity.
Qed.

(** For a file of at least one byte, [btoa] yields a text that is not
    empty and matches [/^[A-Za-z0-9+/]+=*$/]. *)
Lemma badBase64_btoa (bytes : list N) :
  Forall (fun b => (b < 256)%N) bytes ->
  badBase64 (btoa bytes) = match bytes with [] => true | _ :: _ => false end.
Proof.
  intros F. destruct bytes as [|a bytes]; [reflexivity|].
  destruct (btoa_shape (a :: bytes) F) as (body & pad & E & Fb & Fp & N).
  assert (Nb : body <> []) by (apply N; discriminate).
  unfold badBase64. rewrite E, base64Re_accepts by assumption.
  destruct body; [contradiction | reflexivity].
Qed.

(* ===================================================================== *)
(** * What the image handler does                                          *)
(* ===================================================================== *)

Ltac break_match :=
  match goal with
  | |- context [match ?x with _ => _ end] => destruct x eqn:?
  end.

Section ImageFacts.

Variable toLowerCase : jsstr -> jsstr.
Variable today : jsstr.
Variable hostDate : jsstr -> option jsstr.
Variable JSON_parse : jsstr -> option jsvalue.
Variable JSON_stringify : jsvalue -> jsstr.
Variable NumberToString : Q -> jsstr.
Variable env : environment.
Variable getUser : jsstr -> option jsstr.
Variable download : jsstr -> option (list N).
Variable visionFetch : jsstr -> visionReply.
Variable createSignedUrl : jsstr -> option jsstr.
Variable ocrSpaceFetch : jsstr -> jsstr -> ocrSpaceReply.
Variable structureFetch : jsvalue -> jsstr -> fetchOutcome.
Variable dbInsert : transactionRow -> jsvalue + jsstr.
Variable typeErrorText typeErrorMessage parseErrorText : jsstr.
Variable maxArguments : nat.
Variable rangeErrorText : jsstr.

Let google :=
  performGoogleVisionOCR JSON_parse JSON_stringify NumberToString env
    download visionFetch typeErrorText parseErrorText maxArguments
    rangeErrorText.

Let ocr :=
  performOCR JSON_parse JSON_stringify NumberToString env download
    visionFetch createSignedUrl ocrSpaceFetch typeErrorText parseErrorText
    maxArguments rangeErrorText.

Let handler :=
  processImage toLowerCase today hostDate JSON_parse JSON_stringify
    NumberToString env getUser download visionFetch createSignedUrl
    ocrSpaceFetch structureFetch dbInsert typeErrorText typeErrorMessage
    parseErrorText maxArguments rangeErrorText.

(** X16. What the conversion of the image to base 64 lets through. The
    bytes are first spread as the arguments of [String.fromCharCode]: an
    image of more bytes than a call of the host can take makes that call
    throw a RangeError, before the sanity check and before the Vision API
    is asked. Below that size the sanity check turns away the empty image
    and nothing else: for a file of at least one byte, [btoa] yields a text
    that is not empty and matches [/^[A-Za-z0-9+/]+=*$/], and it is this
    text that is sent. *)
Theorem base64_check_rejects_only_the_empty_image
    (imagePath : jsstr) (bytes : list N) :
  isSet (GOOGLE_VISION_API_KEY env) = true ->
  download imagePath = Some bytes ->
  Forall (fun b => (b < 256)%N) bytes ->
  (maxArguments < length bytes ->
   google imagePath = inr (HostThrow rangeErrorText))
  /\ (bytes = [] ->
      google imagePath
      = inr (ErrorOf (lit "Invalid base64 content generated from image")))
  /\ (bytes <> [] -> length bytes <= maxArguments ->
      badBase64 (btoa bytes) = false
      /\ forall reply, visionFetch (btoa bytes) = VisionRejects reply ->
           google imagePath = inr (HostThrow reply)).
Proof.
  intros K D F. unfold google, performGoogleVisionOCR. rewrite K, D.
  cbn [negb]. unfold fromCharCodeSpread. split; [|split].
  - intros L. apply Nat.ltb_lt in L. rewrite L. reflexivity.
  - intros ->. cbn [length]. destruct (maxArguments <? 0) eqn:L.
    + apply Nat.ltb_lt in L. lia.
    + reflexivity.
  - intros N L.
    assert (B : badBase64 (btoa bytes) = false).
    { rewrite (badBase64_btoa bytes F). destruct bytes; [contradiction|].
      reflexivity. }
    split; [exact B|]. intros reply R.
    assert (L' : (maxArguments <? length bytes) = false)
      by (apply Nat.ltb_ge; exact L).
    rewrite L', B, R. reflexivity.
Qed.

(** What [performOCR] returns is truthy. *)
Lemma performOCR_truthy imagePath text :
  ocr imagePath = inl text -> truthy text = true.
Proof.
  unfold ocr, performOCR, performGoogleVisionOCR, performOCRSpaceOCR.
  repeat break_match; intros E; inversion E; subst; assumption.
Qed.

(** When the handler gives a row to [insert]. *)
Lemma handler_insert req :
  match snd (handler req) with
  | None => forall t o sd, fst (handler req) <> ImageSaved t o sd
  | Some row =>
      exists authorization requestBody imagePath ocrText sd,
        req_method req = lit "POST"
        /\ req_authorization req = Some authorization
        /\ getUser (jwtOf authorization) = Some (row_user_id row)
        /\ req_json req = Some requestBody
        /\ getProp requestBody "imagePath" = Some (JString imagePath)
        /\ ownsImage (row_user_id row) imagePath = true
        /\ ocr imagePath = inl ocrText /\ truthy ocrText = true
        /\ row = rowOf (row_user_id row) imagePath sd
        /\ fst (handler req)
           = match dbInsert row with
             | inl transaction => ImageSaved transaction ocrText sd
             | inr message =>
                 ImageError 500 "Failed to save transaction" (Some message)
             end
  end.
Proof.
  unfold handler, processImage.
  destruct (str_eqb (req_method req) (lit "OPTIONS"));
    [cbn; intros; discriminate|].
  destruct (str_eqb (req_method req) (lit "POST")) eqn:Ep; cbn [negb];
    [|cbn; intros; discriminate].
  apply str_eqb_eq in Ep.
  repeat match goal with
  | |- context [if (?a || ?b)%bool then _ else _] =>
      destruct (a || b)%bool; [cbn; intros; discriminate|]
  | |- context [if (?a && ?b)%bool then _ else _] =>
      destruct (a && b)%bool; [cbn; intros; discriminate|]
  end.
  destruct (req_authorization req) as [[|a0 a]|] eqn:Ea;
    try (cbn; intros; discriminate).
  destruct (getUser (jwtOf (a0 :: a))) as [userId|] eqn:Eu;
    [|cbn; intros; discriminate].
  destruct (req_json req) as [requestBody|] eqn:Ej;
    [|cbn; intros; discriminate].
  destruct (getProp requestBody "imagePath") as [v|] eqn:Eg;
    [|cbn; intros; discriminate].
  destruct (truthy v) eqn:Et; cbn [negb]; [|cbn; intros; discriminate].
  destruct v as [| |b|q|neg|imagePath|vs|fs]; try (cbn; intros; discriminate).
  destruct (ownsImage userId imagePath) eqn:Eo; cbn [negb];
    [|cbn; intros; discriminate].
  fold ocr.
  destruct (ocr imagePath) as [ocrText|t] eqn:Eocr;
    [|cbn; intros; discriminate].
  rewrite (performOCR_truthy _ _ Eocr). cbn [negb].
  destruct (structureValue toLowerCase today hostDate ocrText
              (structureFetch ocrText (a0 :: a))) as [sd|e];
    [|cbn; intros; discriminate].
  assert (Hrow : snd (match dbInsert (rowOf userId imagePath sd) with
                      | inl transaction =>
                          (ImageSaved transaction ocrText sd,
                           Some (rowOf userId imagePath sd))
                      | inr message =>
                          (ImageError 500 "Failed to save transaction"
                             (Some message),
                           Some (rowOf userId imagePath sd))
                      end) = Some (rowOf userId imagePath sd))
    by (destruct (dbInsert (rowOf userId imagePath sd)); reflexivity).
  rewrite Hrow.
  exists (a0 :: a), requestBody, imagePath, ocrText, sd.
  cbn [row_user_id rowOf].
  repeat split; trivial.
  - eapply performOCR_truthy. exact Eocr.
  - destruct (dbInsert (rowOf userId imagePath sd)); reflexivity.
Qed.

(** X17. The branch of the handler for an empty OCR text is never taken:
    [performOCR] returns a text only when it is truthy and throws
    otherwise, so no request is answered "Failed to extract text from
    image". *)
Theorem ocr_text_is_never_missing (req : request) :
  (forall imagePath text, ocr imagePath = inl text -> truthy text = true)
  /\ fst (handler req) <> ImageText 500 "Failed to extract text from image".
Proof.
  split; [apply performOCR_truthy|].
  unfold handler, processImage.
  repeat match goal with
  | |- context [if ?c then (_, None) else _] =>
      destruct c; [cbn; discriminate|]
  end.
  destruct (req_authorization req) as [[|a0 a]|]; try (cbn; discriminate).
  destruct (getUser (jwtOf (a0 :: a))) as [userId|]; [|cbn; discriminate].
  destruct (req_json req) as [requestBody|]; [|cbn; discriminate].
  destruct (getProp requestBody "imagePath") as [v|]; [|cbn; discriminate].
  destruct (negb (truthy v)); [cbn; discriminate|].
  destruct v as [| |b|q|neg|imagePath|vs|fs]; try (cbn; discriminate).
  destruct (negb (ownsImage userId imagePath)); [cbn; discriminate|].
  fold ocr.
  destruct (ocr imagePath) as [ocrText|t] eqn:Eocr; [|cbn; discriminate].
  rewrite (performOCR_truthy _ _ Eocr). cbn [negb].
  destruct (structureValue toLowerCase today hostDate ocrText
              (structureFetch ocrText (a0 :: a))) as [sd|e];
    [|cbn; discriminate].
  destruct (dbInsert (rowOf userId imagePath sd)); cbn; discriminate.
Qed.

(** X18. A transaction is written only for the owner of the image. When the
    handler gives a row to [insert], the request is a POST whose token
    [getUser] accepts, the row carries the id of that user and the image
    path of the request, and the path lies in the folder of that user. A
    saved transaction (status 200) is one whose row [insert] took, made of
    the fields of [structuredData] as they are. The token checked is the
    Authorization header without its "Bearer ". *)
Theorem image_is_saved_for_its_owner (req : request) :
  (forall row, snd (handler req) = Some row ->
     exists authorization requestBody imagePath,
       req_method req = lit "POST"
       /\ req_authorization req = Some authorization
       /\ getUser (jwtOf authorization) = Some (row_user_id row)
       /\ req_json req = Some requestBody
       /\ getProp requestBody "imagePath" = Some (JString imagePath)
       /\ ownsImage (row_user_id row) imagePath = true
       /\ row_image_path row = imagePath)
  /\ (forall transaction ocrText sd,
        fst (handler req) = ImageSaved transaction ocrText sd ->
        exists row,
          snd (handler req) = Some row
          /\ dbInsert row = inl transaction
          /\ row_date row = sd_date sd
          /\ row_description row = sd_description sd
          /\ row_amount row = sd_amount sd
          /\ row_type row = sd_type sd
          /\ row_category row = sd_category sd
          /\ row_notes row = sd_notes sd
          /\ truthy ocrText = true)
  /\ (forall token, jwtOf (bearer token) = token).
Proof.
  pose proof (handler_insert req) as H.
  split; [|split].
  - intros row E. rewrite E in H.
    destruct H as (authorization & requestBody & imagePath & ocrText & sd
                   & H1 & H2 & H3 & H4 & H5 & H6 & _ & _ & H9 & _).
    exists authorization, requestBody, imagePath.
    repeat split; trivial. rewrite H9. reflexivity.
  - intros transaction ocrText sd E.
    destruct (snd (handler req)) as [row|]; [|exfalso; eapply H; exact E].
    destruct H as (authorization & requestBody & imagePath & ocrText' & sd'
                   & _ & _ & _ & _ & _ & _ & _ & Ht & H9 & H10).
    rewrite E in H10.
    destruct (dbInsert row) as [t|m] eqn:Ed; [|discriminate].
    inversion H10; subst t ocrText' sd'.
    exists row. rewrite H9. cbn [rowOf row_date row_description row_amount
                                 row_type row_category row_notes].
    repeat split; trivial. rewrite <- H9. exact Ed.
  - intros token. reflexivity.
Qed.

End ImageFacts.

(* ===================================================================== *)
(** * Month names of the query function ([query/index.ts])                 *)
(* ===================================================================== *)

(** [months] of [monthNameToNumber]. *)
Definition months : list (string * Z) :=
  [("january", 0); ("jan", 0);
   ("february", 1); ("feb", 1);
   ("march", 2); ("mar", 2);
   ("april", 3); ("apr", 3);
   ("may", 4);
   ("june", 5); ("jun", 5);
   ("july", 6); ("jul", 6);
   ("august", 7); ("aug", 7);
   ("september", 8); ("sep", 8); ("sept", 8);
   ("october", 9); ("oct", 9);
   ("november", 10); ("nov", 10);
   ("december", 11); ("dec", 11)]%string%Z.

(** What [months[key] ?? -1] is: a number, or an inherited property. *)
Inductive monthValue : Type :=
| MonthNumber (n : Z)
| MonthInherited (key : jsstr).

Fixpoint monthsLookup (table : list (string * Z)) (key : jsstr) : option Z :=
  match table with
  | [] => None
  | (k, n) :: table' =>
      if str_eqb (lit k) key then Some n else monthsLookup table' key
  end.

Section QueryFunction.

Variable toLowerCase : jsstr -> jsstr.

(** The names an object literal inherits from [Object.prototype] in the
    host ("constructor", "toString", ...): reading one of them from [months]
    gives a function or an object, not [undefined]. *)
Variable inheritedName : jsstr -> bool.

(** [monthNameToNumber(monthName)] *)
Definition monthNameToNumber (monthName : jsstr) : monthValue :=
  let key := toLowerCase monthName in
  match monthsLookup months key with
  | Some n => MonthNumber n
  | None => if inheritedName key then MonthInherited key else MonthNumber (-1)
  end.

End QueryFunction.

Lemma monthsLookup_Some : forall table key n,
  monthsLookup table key = Some n -> exists k, In (k, n) table /\ lit k = key.
Proof.
  induction table as [|[k m] table IH]; simpl; intros key n H; [discriminate|].
  destruct (str_eqb (lit k) key) eqn:E.
  - inversion H; subst. apply str_eqb_eq in E. exists k. auto.
  - destruct (IH key n H) as (k' & I & E'). exists k'. auto.
Qed.

Lemma monthsLookup_None : forall table key,
  monthsLookup table key = None ->
  forall k m, In (k, m) table -> lit k <> key.
Proof.
  induction table as [|[k' m'] table IH]; simpl; intros key E k m I Ek;
    [exact I|].
  destruct (str_eqb (lit k') key) eqn:T; [discriminate|].
  destruct I as [X|X].
  - inversion X; subst k' m'. subst key.
    assert (T' : str_eqb (lit k) (lit k) = true)
      by (apply str_eqb_eq; reflexivity).
    congruence.
  - exact (IH key E k m X Ek).
Qed.

Lemma months_range k n : In (k, n) months -> (0 <= n <= 11)%Z.
Proof.
  simpl. intros H.
  repeat (destruct H as [H|H]; [inversion H; subst; lia|]). destruct H.
Qed.

(** The two-digit number of a month, as the receipt parser writes it. *)
Definition twoDigits (n : Z) : jsstr :=
  [(48 + Z.to_N (n / 10))%N; (48 + Z.to_N (n mod 10))%N].

(** X19. [monthNameToNumber] gives a month from 0 to 11 for a name of its
    table, whatever the case of its letters, and -1 for any other name, but
    for the names an object inherits from [Object.prototype], for which
    [months[key] ?? -1] is what is inherited and not -1. Its numbering
    agrees with the month table of the receipt parser: the abbreviation
    that parser writes as month "09" is month 8 here, and so for all
    twelve. *)
Theorem monthNameToNumber_range
    (toLowerCase : jsstr -> jsstr) (inheritedName : jsstr -> bool)
    (monthName : jsstr) :
  let key := toLowerCase monthName in
  match monthNameToNumber toLowerCase inheritedName monthName with
  | MonthNumber n =>
      (-1 <= n <= 11)%Z
      /\ (n = (-1)%Z <->
          inheritedName key = false
          /\ forall k m, In (k, m) months -> lit k <> key)
  | MonthInherited k =>
      k = key /\ inheritedName key = true
      /\ forall k m, In (k, m) months -> lit k <> key
  end
  /\ ((forall abbr, In abbr monthNames ->
         toLowerCase (lit abbr) = asciiLower (lit abbr)) ->
      forall abbr digits, In (abbr, digits) monthMap ->
        exists n, monthNameToNumber toLowerCase inheritedName (lit abbr)
                  = MonthNumber n
                  /\ lit digits = twoDigits (n + 1)).
Proof.
  intros key. split.
  - unfold monthNameToNumber. fold key.
    destruct (monthsLookup months key) as [n|] eqn:E.
    + apply monthsLookup_Some in E. destruct E as (k & I & Ek).
      pose proof (months_range _ _ I) as R.
      split; [lia|]. split; [lia|].
      intros (_ & H). exfalso. exact (H k n I Ek).
    + pose proof (monthsLookup_None _ _ E) as Hnone.
      destruct (inheritedName key) eqn:X.
      * repeat split; trivial.
      * split; [lia|]. split; [intros _; split; trivial | reflexivity].
  - intros Hlow abbr digits I.
    assert (Ia : In abbr monthNames).
    { revert I. simpl. intros I.
      repeat (destruct I as [I|I]; [inversion I; subst; simpl; tauto|]).
      destruct I. }
    unfold monthNameToNumber. rewrite (Hlow abbr Ia).
    revert I. simpl. intros I.
    repeat (destruct I as [I|I];
            [inversion I; subst; eexists; split; vm_compute; reflexivity|]).
    destruct I.
Qed.

(* ===================================================================== *)
(** * The orchestrator and the structuring function together               *)
(* ===================================================================== *)

(** A property that is not [undefined] arrives, as its value arrives. *)
Lemma prop_jsonRoundTrip fs key :
  prop (JObject fs) key <> JUndefined ->
  prop (jsonRoundTrip (JObject fs)) key
  = jsonRoundTrip (prop (JObject fs) key).
Proof.
  unfold prop, getProp. cbn [jsonRoundTrip].
  induction fs as [|[k x] fs IH]; intros H.
  - exfalso. apply H. reflexivity.
  - cbn [getField] in H |- *.
    destruct (str_eqb k (lit key)) eqn:E.
    + destruct x; try (cbn [getField]; rewrite E; reflexivity).
      exfalso. apply H. reflexivity.
    + destruct x; try (cbn [getField]; rewrite E); apply IH; exact H.
Qed.

Lemma validate_Ok_is_object toLowerCase NumberToString rec r :
  validate toLowerCase NumberToString rec = Ok r -> exists fs, r = JObject fs.
Proof.
  intros H. destruct (validate_Ok_object _ _ _ _ H) as (fs & ->).
  apply validate_Ok_cases in H. destruct H as (_ & [->|(s & _ & ->)]);
    eexists; reflexivity.
Qed.

Section TogetherFacts.

Variable toLowerCase : jsstr -> jsstr.
Variable today : jsstr.
Variable hostDate : jsstr -> option jsstr.
Variable JSON_parse : jsstr -> option jsvalue.
Variable NumberToString : Q -> jsstr.
Variable GEMINI_API_KEY : option jsstr.
Variable geminiFetch : jsstr -> geminiReply.
Variable trimTypeError : jsstr.
Variable destructureTypeError : jsstr.

(** A date that passed validation is still one when it arrives. *)
Lemma dateOk_arrives v d :
  dateOk NumberToString v ->
  orElse (jsonRoundTrip v) d = if isNull v then d else jsonRoundTrip v.
Proof.
  intros [->|Y]; [reflexivity|].
  destruct v; try reflexivity; unfold orElse; simpl.
  - exfalso. revert Y. rewrite <- ymdRe_iff. vm_compute. discriminate.
  - exfalso. revert Y. rewrite <- ymdRe_iff. destruct b; vm_compute; discriminate.
  - destruct (Qeq_bool q 0) eqn:Z; [|reflexivity].
    exfalso. revert Y. simpl. rewrite Z. rewrite <- ymdRe_iff.
    vm_compute. discriminate.
  - exfalso. revert Y. rewrite <- ymdRe_iff.
    destruct negative; vm_compute; discriminate.
  - destruct s; [|reflexivity]. exfalso. simpl in Y.
    apply (isYMD_nonempty _ Y). reflexivity.
Qed.

(** The transaction built from a validated record that arrives as JSON. *)
Lemma recordStructured_arrives rec r :
  validate toLowerCase NumberToString rec = Ok r ->
  let sd := recordStructured today (jsonRoundTrip r) in
  sd_date sd
  = (if isNull (prop r "date") then JString today
     else jsonRoundTrip (prop r "date"))
  /\ (prop r "type" = JString (lit "in") /\ sd_type sd = credit
      \/ prop r "type" = JString (lit "out") /\ sd_type sd = debit)
  /\ sd_category sd = prop r "category"
  /\ sd_description sd = descriptionOf r
  /\ sd_amount sd
     = match prop r "amount" with JInfinity _ => JNull | a => a end
  /\ sd_notes sd = prop r "note".
Proof.
  intros Hv sd.
  destruct (validate_Ok_is_object _ _ _ _ Hv) as (fs & ->).
  destruct (validate_Ok_fields _ _ _ _ Hv) as (_ & Ty & Ca & Am & Da & Su & No).
  assert (Hd : prop (JObject fs) "date" <> JUndefined).
  { intros X. rewrite X in Da. exact (undefined_not_a_date _ Da). }
  assert (Ht : prop (JObject fs) "type" <> JUndefined)
    by (destruct Ty as [X|X]; rewrite X; discriminate).
  assert (Hc : prop (JObject fs) "category" <> JUndefined)
    by (destruct Ca as (c & _ & X); rewrite X; discriminate).
  assert (Ha : prop (JObject fs) "amount" <> JUndefined)
    by (destruct Am as [(q & X & _)|X]; rewrite X; discriminate).
  assert (Hs : prop (JObject fs) "sub_category" <> JUndefined)
    by (destruct Su as [X|(s & X)]; rewrite X; discriminate).
  assert (Hn : prop (JObject fs) "note" <> JUndefined)
    by (destruct No as [X|(s & X)]; rewrite X; discriminate).
  subst sd. unfold recordStructured.
  cbn [sd_date sd_type sd_category sd_description sd_amount sd_notes].
  rewrite !prop_jsonRoundTrip by assumption.
  split; [apply dateOk_arrives; exact Da|].
  split.
  { destruct Ty as [E|E]; rewrite E; [left | right]; split; reflexivity. }
  split.
  { destruct Ca as (c & _ & X). rewrite X. reflexivity. }
  split.
  { unfold descriptionOf.
    destruct Su as [X|(s & X)]; rewrite X; [reflexivity|].
    destruct s; reflexivity. }
  split.
  { destruct Am as [(q & X & _)|X]; rewrite X; reflexivity. }
  destruct No as [X|(s & X)]; rewrite X; reflexivity.
Qed.

(** An OK response that carries a validated record takes the AI path. *)
Lemma structureReceipt_arrives ocrText status rec r :
  statusOk status = true ->
  validate toLowerCase NumberToString rec = Ok r ->
  structureReceipt toLowerCase today hostDate ocrText
    (FetchResponse status (Some (jsonRoundTrip (okBody r))))
  = inl (recordStructured today (jsonRoundTrip r)).
Proof.
  intros Hs Hv. destruct (validate_Ok_is_object _ _ _ _ Hv) as (fs & ->).
  unfold structureReceipt. rewrite Hs. reflexivity.
Qed.

(** What the call of the structuring function brings back: the validated
    record of a reply of Gemini, with status 200, or a status that is
    not OK. *)
Lemma structureCall_outcome ocrText authorization :
  let call :=
    structureCall toLowerCase JSON_parse NumberToString GEMINI_API_KEY
      geminiFetch trimTypeError destructureTypeError
      (JString ocrText) authorization in
  let reply :=
    callGemini NumberToString GEMINI_API_KEY geminiFetch trimTypeError
      (userPrompt ocrText) in
  (exists resp parsed r,
      authorization <> [] /\ ocrText <> []
      /\ reply = inl resp
      /\ extractJson JSON_parse resp = Ok parsed
      /\ validate toLowerCase NumberToString parsed = Ok r
      /\ call = FetchResponse 200 (Some (jsonRoundTrip (okBody r))))
  \/ ((authorization = [] \/ ocrText = []
       \/ forall resp parsed r,
            reply = inl resp ->
            extractJson JSON_parse resp = Ok parsed ->
            validate toLowerCase NumberToString parsed = Ok r -> False)
      /\ exists status body,
           call = FetchResponse status body /\ statusOk status = false).
Proof.
  intros call reply. subst call. unfold structureCall, structureHandler.
  cbn [req_method req_authorization req_json].
  change (str_eqb (lit "POST") (lit "OPTIONS")) with false.
  change (str_eqb (lit "POST") (lit "POST")) with true.
  cbn [negb].
  destruct authorization as [|a0 a].
  { right. split; [left; reflexivity|]. eexists _, _. split; reflexivity. }
  change (getProp (jsonRoundTrip (JObject [(lit "ocrText", JString ocrText)]))
            "ocrText") with (Some (JString ocrText)).
  cbv iota.
  destruct ocrText as [|c s].
  { right. split; [right; left; reflexivity|].
    eexists _, _. split; reflexivity. }
  fold reply. destruct reply as [resp|[msg|text]] eqn:Er.
  - unfold structureWithGemini.
    destruct (extractJson JSON_parse resp) as [parsed|msg] eqn:Ej.
    + destruct (validate toLowerCase NumberToString parsed) as [r|msg] eqn:Ev.
      * left. exists resp, parsed, r.
        repeat split; try discriminate; auto.
      * right. split.
        -- right. right. intros resp' parsed' r' E1 E2 E3.
           inversion E1; subst. congruence.
        -- eexists _, _. split; reflexivity.
    + right. split.
      * right. right. intros resp' parsed' r' E1 E2 E3.
        inversion E1; subst. congruence.
      * eexists _, _. split; reflexivity.
  - right. split; [right; right; intros; discriminate|].
    eexists _, _. split; reflexivity.
  - right. split; [right; right; intros; discriminate|].
    eexists _, _. split; reflexivity.
Qed.

End TogetherFacts.

(** C1 (amended). The transaction comes from one path in full, or there is
    none. (1) When the structuring function answers with an OK status and a
    validated record [r], the output is: date = r.date if non-null else
    today; type = credit for "in" and debit for "out"; category =
    r.category; description = r.sub_category if it is a non-empty string,
    else "Transaction"; amount = r.amount as it arrives in JSON, which is
    [null] for an infinite amount; notes = r.note. (2) When the answer has a
    status that is not OK, every field is the legacy parser's, the category
    being the keyword categorizer's on its description and type, and notes
    null. (3) When [fetch] rejects, no transaction is built: the handler
    answers 500 "Failed to structure receipt data". (4) Every transaction
    built is the one of (2) or the mapping of (1) applied to the record
    received: no field crosses over. (5) When the request gets through, the
    AI path is taken exactly when Gemini replies, [extractJson] finds an
    object in the reply and [validate] accepts it; on every other outcome
    of the structuring function the legacy path is taken in full. *)
Theorem orchestrator_one_path_in_full
    (toLowerCase : jsstr -> jsstr) (today : jsstr)
    (hostDate : jsstr -> option jsstr) (NumberToString : Q -> jsstr)
    (ocrText : jsstr) :
  let run := structureReceipt toLowerCase today hostDate ocrText in
  let legacy := parseReceiptText toLowerCase today hostDate ocrText in
  let legacyTransaction :=
    {| sd_date := JString (pt_date legacy);
       sd_type := pt_type legacy;
       sd_category :=
         JString (categorizeTransaction toLowerCase
                    (pt_description legacy) (pt_type legacy));
       sd_description := JString (pt_description legacy);
       sd_amount := JNum (pt_amount legacy);
       sd_notes := JNull |} in
  (forall rec r status,
      statusOk status = true ->
      validate toLowerCase NumberToString rec = Ok r ->
      exists sd,
        run (FetchResponse status (Some (jsonRoundTrip (okBody r)))) = inl sd
        /\ sd_date sd
           = (if isNull (prop r "date") then JString today
              else jsonRoundTrip (prop r "date"))
        /\ (forall s, prop r "date" = JString s -> sd_date sd = JString s)
        /\ (prop r "type" = JString (lit "in") /\ sd_type sd = credit
            \/ prop r "type" = JString (lit "out") /\ sd_type sd = debit)
        /\ sd_category sd = prop r "category"
        /\ sd_description sd = descriptionOf r
        /\ sd_amount sd
           = match prop r "amount" with JInfinity _ => JNull | a => a end
        /\ sd_notes sd = prop r "note")
  /\ (forall status body,
        statusOk status = false ->
        run (FetchResponse status body) = inl legacyTransaction)
  /\ run FetchRejects
     = inr {| er_status := 500;
              er_error := "Failed to structure receipt data";
              er_details := HostException |}
  /\ (forall f sd,
        run f = inl sd ->
        (exists status body,
            f = FetchResponse status body /\ statusOk status = false
            /\ sd = legacyTransaction)
        \/ (exists status result,
              f = FetchResponse status (Some result)
              /\ statusOk status = true
              /\ sd = recordStructured today (prop result "record")))
  /\ (forall JSON_parse GEMINI_API_KEY geminiFetch trimTypeError
             destructureTypeError authorization,
        authorization <> [] -> ocrText <> [] ->
        let reply :=
          callGemini NumberToString GEMINI_API_KEY geminiFetch
            trimTypeError (userPrompt ocrText) in
        let out :=
          run (structureCall toLowerCase JSON_parse NumberToString
                 GEMINI_API_KEY geminiFetch trimTypeError
                 destructureTypeError (JString ocrText) authorization) in
        (exists resp parsed r,
            reply = inl resp
            /\ extractJson JSON_parse resp = Ok parsed
            /\ validate toLowerCase NumberToString parsed = Ok r
            /\ out = inl (recordStructured today (jsonRoundTrip r)))
        \/ ((forall resp parsed r,
               reply = inl resp ->
               extractJson JSON_parse resp = Ok parsed ->
               validate toLowerCase NumberToString parsed = Ok r -> False)
            /\ out = inl legacyTransaction)).
Proof.
  intros run legacy legacyTransaction.
  split; [|split; [|split; [|split]]].
  - intros rec r status Hs Hv.
    exists (recordStructured today (jsonRoundTrip r)).
    split.
    { apply (structureReceipt_arrives toLowerCase today hostDate
               NumberToString ocrText status rec r Hs Hv). }
    destruct (recordStructured_arrives toLowerCase today NumberToString
                rec r Hv) as (D & T & C & S & A & N).
    split; [exact D|]. split; [|tauto].
    intros s Es. rewrite D, Es. reflexivity.
  - intros status body Hs. subst run. unfold structureReceipt.
    rewrite Hs. reflexivity.
  - reflexivity.
  - intros f sd. subst run. unfold structureReceipt.
    destruct f as [|status body]; [discriminate|].
    destruct (statusOk status) eqn:Hs; cbn [negb].
    + destruct body as [result|]; [|discriminate].
      destruct (getProp result "ok") as [ok|]; [|discriminate].
      destruct (getProp result "record") as [record|] eqn:Er; [|discriminate].
      destruct (truthy ok && truthy record)%bool; [|discriminate].
      intros E. inversion E; subst. right. exists status, result.
      repeat split; auto. unfold prop. rewrite Er. reflexivity.
    + intros E. inversion E; subst. left. exists status, body.
      repeat split; auto.
  - intros JSON_parse GEMINI_API_KEY geminiFetch trimTypeError
           destructureTypeError authorization Ha Ho reply out.
    destruct (structureCall_outcome toLowerCase JSON_parse NumberToString
                GEMINI_API_KEY geminiFetch trimTypeError
                destructureTypeError ocrText authorization)
      as [(resp & parsed & r & _ & _ & Er & Ej & Ev & Ec)
         | ([X|[X|Hn]] & status & body & Ec & Hs)];
      try contradiction.
    + left. exists resp, parsed, r. repeat split; auto.
      subst out. rewrite Ec.
      apply (structureReceipt_arrives toLowerCase today hostDate
               NumberToString ocrText 200 parsed r eq_refl Ev).
    + right. split; [exact Hn|]. subst out. rewrite Ec.
      subst run. unfold structureReceipt. rewrite Hs. reflexivity.
Qed.

(** A reply of Gemini whose first candidate holds this text. *)
Definition geminiSays (text : jsstr) : jsvalue :=
  JObject [(lit "candidates",
     JArray [JObject [(lit "content",
       JObject [(lit "parts",
         JArray [JObject [(lit "text", JString text)]])])]])].

(** A record whose amount is written with more digits than a double holds,
    such as 1e400, as [JSON.parse] reads it. *)
Definition recordHugeAmount : jsvalue :=
  JObject [(lit "date", JNull); (lit "type", JString (lit "out"));
           (lit "category", JString (lit "other"));
           (lit "sub_category", JNull);
           (lit "amount", JInfinity false); (lit "note", JNull)].

(** C1, as stated, fails in three places. A validated record whose
    sub_category is the empty string has the field present (a string, not
    null), yet the description is "Transaction", not the field. When the
    call of the AI extractor fails because [fetch] rejects, the output does
    not come from the legacy parser: there is no output, but the error
    response. And a validated record whose amount is infinite gives a
    transaction whose amount is [null], not the amount of the record. *)
Lemma orchestrator_description_counterexample :
  let run := structureReceipt asciiLower today0 hostRejects (lit "Total 5") in
  (validate asciiLower numberToString0 recordEmptyName = Ok recordEmptyName
   /\ prop recordEmptyName "sub_category" = JString []
   /\ exists sd,
        run (FetchResponse 200 (Some (jsonRoundTrip (okBody recordEmptyName))))
        = inl sd
        /\ sd_description sd = JString (lit "Transaction")
        /\ sd_description sd <> prop recordEmptyName "sub_category")
  /\ (run FetchRejects
      = inr {| er_status := 500;
               er_error := "Failed to structure receipt data";
               er_details := HostException |}
      /\ run FetchRejects
         <> inl (legacyStructured asciiLower today0 hostRejects
                   (lit "Total 5")))
  /\ (validate asciiLower numberToString0 recordHugeAmount
      = Ok recordHugeAmount
      /\ prop recordHugeAmount "amount" = JInfinity false
      /\ exists sd,
           run (structureCall asciiLower (fun _ => Some recordHugeAmount)
                  numberToString0 (Some (lit "key"))
                  (fun _ => GeminiReplies 200 []
                              (inl (geminiSays (lit "{}"))))
                  [] [] (JString (lit "Total 5")) (lit "Bearer token"))
           = inl sd
           /\ sd_amount sd = JNull
           /\ sd_amount sd <> prop recordHugeAmount "amount").
Proof.
  intros run. split; [|split].
  - split; [vm_compute; reflexivity|]. split; [reflexivity|].
    eexists. split; [vm_compute; reflexivity|].
    split; [reflexivity | vm_compute; discriminate].
  - split; [reflexivity | discriminate].
  - split; [vm_compute; reflexivity|]. split; [reflexivity|].
    eexists. split; [vm_compute; reflexivity|].
    split; [reflexivity | vm_compute; discriminate].
Qed.

(* ===================================================================== *)
(** * What reaches the database                                            *)
(* ===================================================================== *)

Lemma categorize_is_named toLowerCase description type :
  categorizeTransaction toLowerCase description type <> [].
Proof.
  destruct (categorize_cases toLowerCase description type)
    as [(_ & _ & R) | (_ & [(c & S & R) | (S & R)])]; rewrite R;
    try discriminate.
  apply scanCategories_Some in S. destruct S as (b & k & a & E & _).
  apply row_in_table in E. revert E. simpl. intros E.
  repeat (destruct E as [E|E]; [inversion E; subst; discriminate|]).
  destruct E.
Qed.

(** A date that passed validation arrives as a value. *)
Lemma dateOk_arrives_set NumberToString v :
  dateOk NumberToString v -> v <> JNull ->
  jsonRoundTrip v <> JNull /\ jsonRoundTrip v <> JUndefined.
Proof.
  intros [->|Y] N; [contradiction|].
  destruct v as [| |b|q|neg|s|vs|fs]; try (split; discriminate).
  - exfalso. exact (undefined_not_a_date _ (or_intror Y)).
  - contradiction.
  - exfalso. revert Y. rewrite <- ymdRe_iff.
    destruct neg; vm_compute; discriminate.
Qed.

(** X20. After a call that reached the structuring function, the
    transaction the orchestrator is about to insert has, on either path, a
    date that is neither [null] nor [undefined] and a description and a
    category that are strings and not empty. Its amount is a number that is
    not negative, with one exception: the infinite amount of a validated
    record arrives as [null]. *)
Theorem structured_data_is_complete
    (toLowerCase : jsstr -> jsstr) (today : jsstr)
    (hostDate : jsstr -> option jsstr) (JSON_parse : jsstr -> option jsvalue)
    (NumberToString : Q -> jsstr) (GEMINI_API_KEY : option jsstr)
    (geminiFetch : jsstr -> geminiReply)
    (trimTypeError destructureTypeError : jsstr)
    (ocrText authorization : jsstr) :
  exists sd,
    structureReceipt toLowerCase today hostDate ocrText
      (structureCall toLowerCase JSON_parse NumberToString GEMINI_API_KEY
         geminiFetch trimTypeError destructureTypeError
         (JString ocrText) authorization)
    = inl sd
    /\ sd_date sd <> JNull /\ sd_date sd <> JUndefined
    /\ (exists d, sd_description sd = JString d /\ d <> [])
    /\ (exists c, sd_category sd = JString c /\ c <> [])
    /\ ((exists n, sd_amount sd = JNum n /\ nonneg n)
        \/ (sd_amount sd = JNull
            /\ exists resp parsed r,
                 callGemini NumberToString GEMINI_API_KEY geminiFetch
                   trimTypeError (userPrompt ocrText) = inl resp
                 /\ extractJson JSON_parse resp = Ok parsed
                 /\ validate toLowerCase NumberToString parsed = Ok r
                 /\ prop r "amount" = JInfinity false)).
Proof.
  destruct (structureCall_outcome toLowerCase JSON_parse NumberToString
              GEMINI_API_KEY geminiFetch trimTypeError
              destructureTypeError ocrText authorization)
    as [(resp & parsed & r & _ & _ & Er & Ej & Ev & Ec)
       | (_ & status & body & Ec & Hs)]; rewrite Ec.
  - exists (recordStructured today (jsonRoundTrip r)). split.
    { apply (structureReceipt_arrives toLowerCase today hostDate
               NumberToString ocrText 200 parsed r eq_refl Ev). }
    destruct (recordStructured_arrives toLowerCase today NumberToString
                parsed r Ev) as (D & _ & C & S & A & _).
    destruct (validate_Ok_fields _ _ _ _ Ev) as (_ & _ & Ca & Am & Da & _).
    rewrite D, C, S, A.
    split; [|split; [|split; [|split]]].
    + destruct (isNull (prop r "date")) eqn:N; [discriminate|].
      apply (dateOk_arrives_set NumberToString); [exact Da|].
      intros X. rewrite X in N. discriminate.
    + destruct (isNull (prop r "date")) eqn:N; [discriminate|].
      apply (dateOk_arrives_set NumberToString); [exact Da|].
      intros X. rewrite X in N. discriminate.
    + unfold descriptionOf.
      destruct (prop r "sub_category") as [| |b|q|neg|[|c s]|vs|fs];
        eexists; split; try reflexivity; discriminate.
    + destruct Ca as (c & I & X). rewrite X. exists (lit c).
      split; [reflexivity|]. revert I. simpl. intros I.
      repeat (destruct I as [I|I]; [subst c; discriminate|]). destruct I.
    + destruct Am as [(q & X & Hq)|X]; rewrite X.
      * left. exists (Finite q). split; [reflexivity|].
        apply Qle_bool_iff. exact Hq.
      * right. split; [reflexivity|]. exists resp, parsed, r. auto.
  - exists (legacyStructured toLowerCase today hostDate ocrText).
    split; [unfold structureReceipt; rewrite Hs; reflexivity|].
    cbn [legacyStructured sd_date sd_description sd_category sd_amount].
    split; [discriminate|]. split; [discriminate|].
    split; [|split].
    + eexists. split; [reflexivity|]. apply extractMerchant_nonempty.
    + eexists. split; [reflexivity|]. apply categorize_is_named.
    + left. eexists. split; [reflexivity|]. apply extractAmount_nonneg.
Qed.

(* ===================================================================== *)
(** * A run of the image handler                                           *)
(* ===================================================================== *)

Definition env0 : environment :=
  {| SUPABASE_URL := Some (lit "https://project.supabase.co");
     SUPABASE_SERVICE_ROLE_KEY := Some (lit "service-role-key");
     OCR_PROVIDER := None;
     GOOGLE_VISION_API_KEY := Some (lit "vision-key");
     OCRSPACE_API_KEY := None |}.

(** A reply of the Vision API with a full text annotation. *)
Definition visionResult (text : jsstr) : jsvalue :=
  JObject [(lit "responses",
     JArray [JObject [(lit "fullTextAnnotation",
       JObject [(lit "text", JString text)])]])].

Definition walmartReceipt : jsstr :=
  lit "Walmart" ++ [10%N] ++ lit "Total $45.67".

Definition uploadRequest : request :=
  {| req_method := lit "POST";
     req_authorization := Some (bearer (lit "token"));
     req_json := Some (JObject [(lit "imagePath",
                                 JString (uploadPath (lit "u1")
                                            (lit "1_receipt.png")))]) |}.

Definition savedTransaction : jsvalue :=
  JObject [(lit "id", JString (lit "t1"))].

Definition handler0 (structureFetch : jsvalue -> jsstr -> fetchOutcome)
  : request -> imageResponse * option transactionRow :=
  processImage asciiLower today0 hostRejects
    (fun _ => Some (visionResult walmartReceipt)) (fun _ => [])
    numberToString0 env0
    (fun jwt => if str_eqb jwt (lit "token") then Some (lit "u1") else None)
    (fun _ => Some [255; 216; 255]%N)
    (fun _ => VisionReplies 200 [])
    (fun _ => None) (fun _ _ => OcrSpaceRejects)
    structureFetch
    (fun _ => inl savedTransaction) [] [] [] 1000 [].

(** The structuring function is down: the legacy parser reads the receipt,
    and the row is written for the user of the token. *)
Example processImage_saves_a_receipt :
  handler0 (fun _ _ => FetchResponse 500 None) uploadRequest
  = (ImageSaved savedTransaction (JString walmartReceipt)
       {| sd_date := JString today0; sd_type := debit;
          sd_category := JString (lit "Groceries");
          sd_description := JString (lit "Walmart");
          sd_amount := JNum (roundDouble 45.67); sd_notes := JNull |},
     Some {| row_user_id := lit "u1";
             row_date := JString today0;
             row_description := JString (lit "Walmart");
             row_amount := JNum (roundDouble 45.67);
             row_type := debit;
             row_category := JString (lit "Groceries");
             row_notes := JNull;
             row_image_path := lit "u1/1_receipt.png" |}).
Proof. vm_compute. reflexivity. Qed.

(** The image of another user is refused before any OCR. *)
Example processImage_refuses_a_foreign_image :
  handler0 (fun _ _ => FetchResponse 500 None)
    {| req_method := lit "POST";
       req_authorization := Some (bearer (lit "token"));
       req_json := Some (JObject [(lit "imagePath",
                                   JString (lit "u2/1_receipt.png"))]) |}
  = (ImageText 403 "Unauthorized access to image", None).
Proof. vm_compute. reflexivity. Qed.

(** An image path that is a number has no [startsWith]. *)
Example processImage_path_not_a_string :
  handler0 (fun _ _ => FetchResponse 500 None)
    {| req_method := lit "POST";
       req_authorization := Some (bearer (lit "token"));
       req_json := Some (JObject [(lit "imagePath", JNumber 7)]) |}
  = (ImageError 500 "Internal server error" (Some []), None).
Proof. vm_compute. reflexivity. Qed.

(** An image of four bytes in a host that spreads two arguments at most:
    the conversion throws, and the handler answers that it failed to
    process the image. *)
Definition smallHost : request -> imageResponse * option transactionRow :=
  processImage asciiLower today0 hostRejects
    (fun _ => Some (visionResult walmartReceipt)) (fun _ => [])
    numberToString0 env0
    (fun jwt => if str_eqb jwt (lit "token") then Some (lit "u1") else None)
    (fun _ => Some [255; 216; 255; 224]%N)
    (fun _ => VisionRejects (lit "offline"))
    (fun _ => None) (fun _ _ => OcrSpaceRejects)
    (fun _ _ => FetchResponse 500 None)
    (fun _ => inl savedTransaction) [] [] [] 2 (lit "RangeError").

Example processImage_image_too_large :
  smallHost uploadRequest
  = (ImageError 500 "Failed to process image" None, None).
Proof. vm_compute. reflexivity. Qed.

Lemma base64_check_rejects_only_the_empty_image_witness :
  let google :=
    performGoogleVisionOCR (fun _ => Some (visionResult walmartReceipt))
      (fun _ => []) numberToString0 env0
      (fun _ => Some [255; 216; 255; 224]%N)
      (fun _ => VisionRejects (lit "offline")) [] [] 1000
      (lit "RangeError") in
  let bytes := [255; 216; 255; 224]%N in
  (1000 < length bytes ->
   google (lit "u1/1_receipt.png") = inr (HostThrow (lit "RangeError")))
  /\ (bytes = [] ->
      google (lit "u1/1_receipt.png")
      = inr (ErrorOf (lit "Invalid base64 content generated from image")))
  /\ (bytes <> [] -> length bytes <= 1000 ->
      badBase64 (btoa bytes) = false
      /\ forall reply,
           VisionRejects (lit "offline") = VisionRejects reply ->
           google (lit "u1/1_receipt.png") = inr (HostThrow reply)).
Proof.
  apply (base64_check_rejects_only_the_empty_image
           (fun _ => Some (visionResult walmartReceipt)) (fun _ => [])
           numberToString0 env0 (fun _ => Some [255; 216; 255; 224]%N)
           (fun _ => VisionRejects (lit "offline")) [] [] 1000
           (lit "RangeError") (lit "u1/1_receipt.png")
           [255; 216; 255; 224]%N).
  - reflexivity.
  - reflexivity.
  - repeat constructor.
Defined.

(* ===================================================================== *)
(** * Ties among merchant candidates                                       *)
(* ===================================================================== *)

Lemma sortByLength_nil l : sortByLength l = [] -> l = [].
Proof.
  intros E. pose proof (sortByLength_head l) as H. rewrite E in H. exact H.
Qed.

(** The stable sort by length puts first the earliest of the shortest. *)
Lemma sortByLength_first_shortest : forall l r others,
  sortByLength l = r :: others ->
  exists before after,
    l = before ++ r :: after
    /\ (forall c, In c before -> length r < length c)
    /\ (forall c, In c after -> length r <= length c).
Proof.
  induction l as [|x l IH]; simpl; intros r others E; [discriminate|].
  destruct (sortByLength l) as [|y ys] eqn:S.
  - apply sortByLength_nil in S. subst l. simpl in E. inversion E; subst.
    exists [], []. repeat split; intros c [].
  - destruct (IH y ys eq_refl) as (b & a & El & Hb & Ha).
    simpl in E. destruct (length x <=? length y) eqn:L.
    + inversion E; subst r others. apply Nat.leb_le in L.
      exists [], l. repeat split; [intros c [] |].
      intros c I. rewrite El in I. apply in_app_or in I.
      destruct I as [I|[I|I]].
      * apply Hb in I. lia.
      * subst c. exact L.
      * apply Ha in I. lia.
    + inversion E; subst r others. apply Nat.leb_gt in L.
      exists (x :: b), a. rewrite El. repeat split; [|exact Ha].
      intros c [I|I]; [subst c; exact L | apply Hb; exact I].
Qed.

(** X21. Among the candidate lines, [extractMerchant] picks the earliest of
    the shortest: the sort by length is stable, so every candidate before
    the one returned is strictly longer and none after it is shorter. *)
Theorem extractMerchant_first_of_the_shortest
    (toLowerCase : jsstr -> jsstr) (lines : list jsstr) (fullText : jsstr) :
  knownMerchant lines = None ->
  candidateLines toLowerCase lines <> [] ->
  let r := extractMerchant toLowerCase lines fullText in
  exists before after,
    candidateLines toLowerCase lines = before ++ r :: after
    /\ (forall c, In c before -> length r < length c)
    /\ (forall c, In c after -> length r <= length c).
Proof.
  intros K N r. unfold r, extractMerchant. rewrite K.
  destruct (sortByLength (candidateLines toLowerCase lines)) as [|first others]
    eqn:S.
  - apply sortByLength_nil in S. contradiction.
  - eapply sortByLength_first_shortest. exact S.
Qed.

Lemma extractMerchant_first_of_the_shortest_witness :
  let lines := [lit "Fresh Mart 22"; lit "Corner"; lit "Bakery"] in
  extractMerchant asciiLower lines [] = lit "Corner"
  /\ exists before after,
       candidateLines asciiLower lines
       = before ++ extractMerchant asciiLower lines [] :: after
       /\ (forall c, In c before ->
             length (extractMerchant asciiLower lines []) < length c)
       /\ (forall c, In c after ->
             length (extractMerchant asciiLower lines []) <= length c).
Proof.
  split; [vm_compute; reflexivity|].
  apply (extractMerchant_first_of_the_shortest asciiLower
           [lit "Fresh Mart 22"; lit "Corner"; lit "Bakery"] []).
  - vm_compute. reflexivity.
  - vm_compute. discriminate.
Defined.

(* ===================================================================== *)
(** * Signed URLs ([signed_image_url/index.ts])                            *)
(* ===================================================================== *)

(** The responses of the handler: a text with a status, [{error}] with a
    status, and [{signedUrl}] with status 200. *)
Inductive signedUrlResponse : Type :=
| UrlText (status : Z) (text : string)
| UrlError (status : Z) (error : string)
| UrlSigned (signedUrl : jsstr).

Section SignedUrlFunction.

(** [supabaseClient.auth.getUser(jwt)]: the id of the user, [None] for
    [authError || !user]. *)
Variable getUser : jsstr -> option jsstr.

(** [createSignedUrl(imagePath, 60)]: the URL, [None] for
    [urlError || !signedUrlData]. *)
Variable createSignedUrl : jsstr -> option jsstr.

(** The handler of [Deno.serve]. *)
Definition signedImageUrl (req : request) : signedUrlResponse :=
  if str_eqb (req_method req) (lit "OPTIONS") then UrlText 200 "ok"
  else if negb (str_eqb (req_method req) (lit "POST"))
  then UrlText 405 "Method not allowed"
  else
    match req_authorization req with
    | None | Some [] => UrlText 401 "Missing Authorization header"
    | Some (a0 :: a) =>
        match getUser (jwtOf (a0 :: a)) with
        | None => UrlText 401 "Invalid authorization token"
        | Some userId =>
            match req_json req with
            | None => UrlError 500 "Internal server error"
            | Some requestBody =>
                match getProp requestBody "imagePath" with
                | Some (JString imagePath) =>
                    if negb (ownsImage userId imagePath)
                    then UrlText 403 "Unauthorized access to image"
                    else
                      match createSignedUrl imagePath with
                      | None => UrlText 500 "Failed to generate signed URL"
                      | Some signedUrl => UrlSigned signedUrl
                      end
                | _ => UrlError 500 "Internal server error"
                end
            end
        end
    end.

End SignedUrlFunction.

(** X22. A signed URL is given only to the owner of the image: when the
    handler answers with a signed URL, the request is a POST whose token
    [getUser] accepts for a user, its [imagePath] is a string in the folder
    of that user, and the URL is the one [createSignedUrl] made for that
    path. A body without a string [imagePath] is answered with status 500,
    not with a URL. *)
Theorem signed_url_only_for_the_owner
    (getUser : jsstr -> option jsstr)
    (createSignedUrl : jsstr -> option jsstr) (req : request) :
  (forall signedUrl,
     signedImageUrl getUser createSignedUrl req = UrlSigned signedUrl ->
     exists authorization userId requestBody imagePath,
       req_method req = lit "POST"
       /\ req_authorization req = Some authorization
       /\ getUser (jwtOf authorization) = Some userId
       /\ req_json req = Some requestBody
       /\ getProp requestBody "imagePath" = Some (JString imagePath)
       /\ ownsImage userId imagePath = true
       /\ createSignedUrl imagePath = Some signedUrl)
  /\ (forall authorization userId requestBody,
        req_method req = lit "POST" ->
        req_authorization req = Some authorization -> authorization <> [] ->
        getUser (jwtOf authorization) = Some userId ->
        req_json req = Some requestBody ->
        (forall imagePath,
           getProp requestBody "imagePath" <> Some (JString imagePath)) ->
        signedImageUrl getUser createSignedUrl req
        = UrlError 500 "Internal server error").
Proof.
  unfold signedImageUrl. split.
  - intros signedUrl.
    destruct (str_eqb (req_method req) (lit "OPTIONS")); [discriminate|].
    destruct (str_eqb (req_method req) (lit "POST")) eqn:Ep; cbn [negb];
      [|discriminate].
    apply str_eqb_eq in Ep.
    destruct (req_authorization req) as [[|a0 a]|] eqn:Ea; try discriminate.
    destruct (getUser (jwtOf (a0 :: a))) as [userId|] eqn:Eu; [|discriminate].
    destruct (req_json req) as [requestBody|] eqn:Ej; [|discriminate].
    destruct (getProp requestBody "imagePath") as [[| |b|q|neg|imagePath|vs|fs]|]
      eqn:Eg; try discriminate.
    destruct (ownsImage userId imagePath) eqn:Eo; cbn [negb]; [|discriminate].
    destruct (createSignedUrl imagePath) as [url|] eqn:Ec; [|discriminate].
    intros E. inversion E; subst url.
    exists (a0 :: a), userId, requestBody, imagePath. repeat split; trivial.
  - intros authorization userId requestBody Ep Ea Na Eu Ej Hn.
    rewrite Ep, Ea. cbn [str_eqb lit]. 
    assert (T : str_eqb (lit "POST") (lit "OPTIONS") = false) by reflexivity.
    assert (T' : str_eqb (lit "POST") (lit "POST") = true) by reflexivity.
    rewrite T, T'. cbn [negb].
    destruct authorization as [|a0 a]; [contradiction|].
    rewrite Eu, Ej.
    destruct (getProp requestBody "imagePath") as [[| |b|q|neg|imagePath|vs|fs]|]
      eqn:Eg; try reflexivity.
    exfalso. exact (Hn imagePath eq_refl).
Qed.

(* ===================================================================== *)
(** * Dates of the host ([Date])                                           *)
(* ===================================================================== *)

(** A time value is a number of milliseconds since the beginning of
    1 January 1970 UTC, a day a number of days since that day. The
    definitions follow the Date chapter of ECMAScript on integer arguments;
    NaN is [None]. *)

Open Scope Z_scope.

Definition msPerDay : Z := 86400000.

(** Day(t) *)
Definition Day (t : Z) : Z := t / msPerDay.

(** InLeapYear *)
Definition isLeapYear (y : Z) : bool :=
  ((y mod 4 =? 0) && (negb (y mod 100 =? 0) || (y mod 400 =? 0)))%bool.

(** DayFromYear(y), the day on which year [y] begins. *)
Definition DayFromYear (y : Z) : Z :=
  365 * (y - 1970) + (y - 1969) / 4 - (y - 1901) / 100 + (y - 1601) / 400.

(** The days of a year before its month [mn] (0 is January). *)
Definition daysBeforeMonth (leap : bool) (mn : Z) : Z :=
  match mn with
  | 0 => 0 | 1 => 31 | 2 => 59 | 3 => 90 | 4 => 120 | 5 => 151
  | 6 => 181 | 7 => 212 | 8 => 243 | 9 => 273 | 10 => 304 | _ => 334
  end
  + (if (leap && (2 <=? mn))%bool then 1 else 0).

(** The length of month [mn] (0 is January). *)
Definition daysInMonth (leap : bool) (mn : Z) : Z :=
  match mn with
  | 1 => if leap then 29 else 28
  | 3 | 5 | 8 | 10 => 30
  | _ => 31
  end.

(** MakeDay(year, month, date): months and dates out of range carry over. *)
Definition MakeDay (year month date : Z) : Z :=
  let ym := year + month / 12 in
  let mn := month mod 12 in
  DayFromYear ym + daysBeforeMonth (isLeapYear ym) mn + date - 1.

(** MakeDate(day, time) *)
Definition MakeDate (day time : Z) : Z := day * msPerDay + time.

(** TimeClip(time) *)
Definition TimeClip (time : Z) : option Z :=
  if Z.abs time <=? 8640000000000000 then Some time else None.

(** YearFromTime, MonthFromTime and DateFromTime of a day, computed era by
    era (an era is 400 years, 146097 days, and begins on 1 March). *)
Definition civil (day : Z) : Z * Z * Z :=
  let z := day + 719468 in
  let era := z / 146097 in
  let doe := z mod 146097 in
  let yoe := (doe - doe / 1460 + doe / 36524 - doe / 146096) / 365 in
  let doy := doe - (365 * yoe + yoe / 4 - yoe / 100) in
  let mp := (5 * doy + 2) / 153 in
  let d := doy - (153 * mp + 2) / 5 + 1 in
  let m := if mp <? 10 then mp + 3 else mp - 9 in
  let y := yoe + era * 400 + (if m <=? 2 then 1 else 0) in
  (y, m - 1, d).

(** A date of the calendar. *)
Definition validDate (y mn d : Z) : Prop :=
  0 <= mn <= 11 /\ 1 <= d <= daysInMonth (isLeapYear y) mn.

(** [n] written with [width] decimal digits. *)
Definition digits (width : nat) (n : Z) : jsstr :=
  map (fun k => (48 + Z.to_N ((n / 10 ^ Z.of_nat k) mod 10))%N)
      (rev (seq 0 width)).

(** The date part of [toISOString()]: years from 0 to 9999 have four digits,
    the others a sign and six digits. *)
Definition isoYear (y : Z) : jsstr :=
  if ((0 <=? y) && (y <=? 9999))%bool then digits 4 y
  else (if y <? 0 then lit "-" else lit "+") ++ digits 6 (Z.abs y).

Definition isoDatePart (date : Z * Z * Z) : jsstr :=
  let '(y, mn, d) := date in
  isoYear y ++ lit "-" ++ digits 2 (mn + 1) ++ lit "-" ++ digits 2 d.

Section HostClock.

(** LocalTZA(t, isUTC): the offset of local time from UTC, in milliseconds,
    in force at the time value [t], which is a UTC time when [isUTC] and a
    local time otherwise. With daylight saving it changes in the course of
    a year. *)
Variable LocalTZA : Z -> bool -> Z.

(** LocalTime(t) and UTC(t) *)
Definition LocalTime (t : Z) : Z := t + LocalTZA t true.
Definition UTC (t : Z) : Z := t - LocalTZA t false.

(** [new Date(year, month, date)] for an integer year: the years 0 to 99
    stand for 1900 to 1999; a month that is NaN gives an invalid date. *)
Definition newDate (year : Z) (month : option Z) (date : Z) : option Z :=
  match month with
  | None => None
  | Some m =>
      let yr := if ((0 <=? year) && (year <=? 99))%bool then 1900 + year
                else year in
      TimeClip (UTC (MakeDate (MakeDay yr m date) 0))
  end.

(** [date.getFullYear()] *)
Definition getFullYear (t : Z) : Z := fst (fst (civil (Day (LocalTime t)))).

End HostClock.

(** [date.toISOString().split('T')[0]]: a RangeError for an invalid date. *)
Definition toISODate (date : option Z) : result jsstr :=
  match date with
  | None => Throw (lit "Invalid time value")
  | Some t => Ok (isoDatePart (civil (Day t)))
  end.

Close Scope Z_scope.

(** [lo, lo + 1, ..., lo + n - 1] *)
Fixpoint zrangeFrom (lo : Z) (n : nat) : list Z :=
  match n with
  | O => []
  | S n' => lo :: zrangeFrom (lo + 1) n'
  end.

Definition zrange (lo n : Z) : list Z := zrangeFrom lo (Z.to_nat n).

Definition civil_eqb (a b : Z * Z * Z) : bool :=
  let '(y, m, d) := a in
  let '(y', m', d') := b in
  ((y =? y') && (m =? m') && (d =? d'))%Z%bool.

Lemma zrange_In lo n x :
  (lo <= x < lo + n)%Z -> In x (zrange lo n).
Proof.
  unfold zrange. intros H.
  assert (G : forall k lo, (lo <= x < lo + Z.of_nat k)%Z ->
                           In x (zrangeFrom lo k)).
  { induction k as [|k IH]; intros lo' B; [lia|]. simpl.
    destruct (Z.eq_dec lo' x) as [E|N]; [left; exact E|].
    right. apply IH. lia. }
  apply G. lia.
Qed.

Lemma DayFromYear_period y q :
  DayFromYear (y + 400 * q) = (DayFromYear y + 146097 * q)%Z.
Proof.
  unfold DayFromYear. Z.to_euclidean_division_equations. lia.
Qed.

Lemma isLeapYear_period y q : isLeapYear (y + 400 * q) = isLeapYear y.
Proof.
  unfold isLeapYear.
  assert (E4 : ((y + 400 * q) mod 4 = y mod 4)%Z)
    by (Z.to_euclidean_division_equations; lia).
  assert (E100 : ((y + 400 * q) mod 100 = y mod 100)%Z)
    by (Z.to_euclidean_division_equations; lia).
  assert (E400 : ((y + 400 * q) mod 400 = y mod 400)%Z)
    by (Z.to_euclidean_division_equations; lia).
  rewrite E4, E100, E400. reflexivity.
Qed.

Lemma month_in_year mn :
  (0 <= mn <= 11)%Z -> (mn / 12 = 0 /\ mn mod 12 = mn)%Z.
Proof. intros H. Z.to_euclidean_division_equations. lia. Qed.

Lemma MakeDay_valid y mn d :
  (0 <= mn <= 11)%Z ->
  MakeDay y mn d
  = (DayFromYear y + daysBeforeMonth (isLeapYear y) mn + d - 1)%Z.
Proof.
  intros H. unfold MakeDay. destruct (month_in_year mn H) as (E1 & E2).
  rewrite E1, E2, Z.add_0_r. reflexivity.
Qed.

Lemma MakeDay_period y q mn d :
  (0 <= mn <= 11)%Z ->
  MakeDay (y + 400 * q) mn d = (MakeDay y mn d + 146097 * q)%Z.
Proof.
  intros H. rewrite !MakeDay_valid by exact H.
  rewrite DayFromYear_period, isLeapYear_period. lia.
Qed.

Lemma civil_period day q :
  civil (day + 146097 * q)
  = (fst (fst (civil day)) + 400 * q, snd (fst (civil day)),
     snd (civil day))%Z.
Proof.
  unfold civil.
  replace (day + 146097 * q + 719468)%Z
    with (day + 719468 + q * 146097)%Z by lia.
  rewrite Z.div_add by lia. rewrite Z_mod_plus_full.
  cbv zeta. cbn [fst snd]. f_equal. f_equal. lia.
Qed.

Lemma civil_eqb_eq a b : civil_eqb a b = true -> a = b.
Proof.
  destruct a as [[y m] d], b as [[y' m'] d']. unfold civil_eqb.
  rewrite !andb_true_iff, !Z.eqb_eq. intros [[-> ->] ->]. reflexivity.
Qed.

Lemma daysInMonth_range leap mn : (28 <= daysInMonth leap mn <= 31)%Z.
Proof.
  unfold daysInMonth.
  destruct leap;
    repeat match goal with
    | |- context [match ?x with _ => _ end] => destruct x
    end; lia.
Qed.

(** The fields of every date of one era of 400 years, computed. *)
Lemma era_of_dates :
  forallb (fun y =>
    forallb (fun mn =>
      forallb (fun d => civil_eqb (civil (MakeDay y mn d)) (y, mn, d))
              (zrange 1 (daysInMonth (isLeapYear y) mn)))
      (zrange 0 12))
    (zrange 0 400) = true.
Proof. vm_cast_no_check (eq_refl true). Qed.

Lemma era_of_dates_at y mn d :
  (0 <= y < 400)%Z -> validDate y mn d ->
  civil (MakeDay y mn d) = (y, mn, d).
Proof.
  intros Hy (Hm & Hd). apply civil_eqb_eq.
  pose proof (proj1 (forallb_forall _ _) era_of_dates) as K.
  pose proof (K y (zrange_In 0 400 y ltac:(lia))) as K1.
  cbv beta in K1.
  pose proof (proj1 (forallb_forall _ _) K1 mn
                (zrange_In 0 12 mn ltac:(lia))) as K2.
  cbv beta in K2.
  pose proof (proj1 (forallb_forall _ _) K2 d) as K3.
  cbv beta in K3.
  apply K3. apply zrange_In.
  pose proof (daysInMonth_range (isLeapYear y) mn). lia.
Qed.

(** The getters give back the fields a date was made from. *)
Lemma civil_MakeDay y mn d :
  validDate y mn d -> civil (MakeDay y mn d) = (y, mn, d).
Proof.
  intros (Hm & Hd).
  pose proof (Z.div_mod y 400 ltac:(lia)) as E.
  pose proof (Z.mod_pos_bound y 400 ltac:(lia)) as B.
  set (y0 := (y mod 400)%Z) in *. set (q := (y / 400)%Z) in *.
  assert (Ey : y = (y0 + 400 * q)%Z) by lia.
  rewrite Ey in Hd |- *. rewrite isLeapYear_period in Hd.
  rewrite MakeDay_period by exact Hm. rewrite civil_period.
  rewrite (era_of_dates_at y0 mn d) by (try split; lia).
  reflexivity.
Qed.

(** A year is 365 days long, and a leap year one more. *)
Lemma DayFromYear_next y :
  DayFromYear (y + 1)
  = (DayFromYear y + 365 + (if isLeapYear y then 1 else 0))%Z.
Proof.
  unfold DayFromYear, isLeapYear.
  destruct (y mod 4 =? 0)%Z eqn:E4; destruct (y mod 100 =? 0)%Z eqn:E100;
    destruct (y mod 400 =? 0)%Z eqn:E400; cbn [andb orb negb];
    rewrite ?Z.eqb_eq, ?Z.eqb_neq in *;
    Z.to_euclidean_division_equations; lia.
Qed.

(** Day 0 of the next month is the last day of the month. *)
Lemma MakeDay_month_end y mn :
  (0 <= mn <= 11)%Z ->
  MakeDay y (mn + 1) 0 = MakeDay y mn (daysInMonth (isLeapYear y) mn).
Proof.
  intros H. rewrite (MakeDay_valid y mn) by exact H.
  assert (C : (mn = 11 \/ 0 <= mn <= 10)%Z) by lia.
  destruct C as [->|C].
  - unfold MakeDay. change ((11 + 1) / 12)%Z with 1%Z.
    change ((11 + 1) mod 12)%Z with 0%Z.
    rewrite DayFromYear_next. destruct (isLeapYear y), (isLeapYear (y + 1));
      cbn; lia.
  - rewrite MakeDay_valid by lia.
    assert (K : (mn = 0 \/ mn = 1 \/ mn = 2 \/ mn = 3 \/ mn = 4 \/ mn = 5
                 \/ mn = 6 \/ mn = 7 \/ mn = 8 \/ mn = 9 \/ mn = 10)%Z)
      by lia.
    destruct (isLeapYear y);
      repeat (destruct K as [->|K]; [cbn; lia|]); subst mn; cbn; lia.
Qed.

(* ===================================================================== *)
(** * Text queries ([query/index.ts])                                      *)
(* ===================================================================== *)

(** [.eq], [.ilike], [.gte] and [.lte] of the query builder. *)
Inductive queryFilter : Type :=
| FilterEq (column : string) (value : jsstr)
| FilterIlike (column : string) (pattern : jsstr)
| FilterGte (column : string) (value : jsstr)
| FilterLte (column : string) (value : jsstr).

(** [supabaseClient.from(table).select(columns)] with its filters, in the
    order of the calls. *)
Record dbQuery : Type := DbQuery {
  q_from : string;
  q_select : string;
  q_filters : list queryFilter
}.

(** What a text query throws: the RangeError of [toISOString] on an invalid
    date, or the TypeError of a read on [null] or [undefined]. *)
Inductive queryThrow : Type :=
| InvalidTimeValue
| NotReadable.

Inductive outcome (A : Type) : Type :=
| Returned (a : A)
| Thrown (e : queryThrow).
Arguments Returned {A} a.
Arguments Thrown {A} e.

(** [.] of a pattern without the s flag: no line terminator. *)
Definition isLineTerminator (c : cu) : bool :=
  (cu_eqb c 10 || cu_eqb c 13 || cu_eqb c 8232 || cu_eqb c 8233)%bool.

Definition rlit (s : string) : regex := rseq (map rchar (lit s)).

(** [/how much.*on (\w+) in (\w+)/] *)
Definition categoryRe : regex :=
  rseq [rlit "how much"; RStar (RChar (fun c => negb (isLineTerminator c)));
        rlit "on "; RGroup 1 (rplus (RChar isWordChar)); rlit " in ";
        RGroup 2 (rplus (RChar isWordChar))].

(** [/total spend last (\d+) days/] *)
Definition daysRe : regex :=
  rseq [rlit "total spend last "; RGroup 1 (rplus rdigit); rlit " days"].

(** The answer to a question of neither shape. *)
Definition notUnderstood : jsstr :=
  lit "I don't understand that query. Try asking about spending on specific categories or time periods.".

(** [parseInt(s)] on the texts the function hands it: the leading decimal
    digits; [None] is NaN. *)
Definition parseInt (s : jsstr) : option Z :=
  match fst (takeDigits s) with
  | [] => None
  | ds => Some (Z.of_N (digitsVal 0 ds))
  end.

(** [month !== -1] *)
Definition isMinusOne (month : monthValue) : bool :=
  match month with
  | MonthNumber n => (n =? -1)%Z
  | MonthInherited _ => false
  end.

(** [month] and [month + 1] as [new Date] reads them: what is inherited from
    [Object.prototype] is a function or an object, and reads as NaN, alone
    and with 1 appended to its text. *)
Definition monthNumber (month : monthValue) : option Z :=
  match month with
  | MonthNumber n => Some n
  | MonthInherited _ => None
  end.

Definition monthPlus1 (month : monthValue) : option Z :=
  match month with
  | MonthNumber n => Some (n + 1)%Z
  | MonthInherited _ => None
  end.

(** [new Date(value)] *)
Definition newDateOf (value : option Z) : option Z :=
  match value with
  | None => None
  | Some t => TimeClip t
  end.

(** A template literal writes a missing group as "undefined". *)
Definition templ (o : option jsstr) : jsstr :=
  match o with
  | Some s => s
  | None => lit "undefined"
  end.

Section TextQuery.

Variable toLowerCase : jsstr -> jsstr.
Variable inheritedName : jsstr -> bool.
Variable NumberToString : Q -> jsstr.

(** The clock of the host: the offset of its local time at a time value,
    and the time value of [new Date()] and [Date.now()]. *)
Variable LocalTZA : Z -> bool -> Z.
Variable now : Z.

(** The numbers of the host, with its rounding: the number 0, [a + b],
    ToBoolean, [parseFloat(v)] of any value and [n.toFixed(2)]. *)
Variable number : Type.
Variable numZero : number.
Variable numAdd : number -> number -> number.
Variable numTruthy : number -> bool.
Variable parseFloatOf : jsvalue -> number.
Variable toFixed2 : number -> jsstr.

(** The data of an answer. *)
Inductive queryData : Type :=
| SpentOnCategory (amount : number) (category : option jsstr) (month : jsstr)
| SpentInDays (amount : number) (days : Z).

Record QueryResponse : Type := {
  answerText : jsstr;
  data : option queryData
}.

(** A run of [handleTextQuery]: it ends without a query, or sends one and
    goes on with the rows the database gives ([None] is [null]). *)
Inductive queryRun : Type :=
| Done (o : outcome QueryResponse)
| Asks (q : dbQuery) (k : option (list jsvalue) -> outcome QueryResponse).

(** [transactions.reduce((sum, t) => sum + parseFloat(t.amount), 0)] *)
Fixpoint sumAmounts (sum : number) (transactions : list jsvalue)
  : outcome number :=
  match transactions with
  | [] => Returned sum
  | t :: transactions' =>
      match getProp t "amount" with
      | None => Thrown NotReadable
      | Some amount => sumAmounts (numAdd sum (parseFloatOf amount))
                                  transactions'
      end
  end.

(** [transactions?.reduce(...) || 0] *)
Definition totalOf (transactions : option (list jsvalue)) : outcome number :=
  match transactions with
  | None => Returned numZero
  | Some rows =>
      match sumAmounts numZero rows with
      | Returned sum => Returned (if numTruthy sum then sum else numZero)
      | Thrown e => Thrown e
      end
  end.

(** The answer to "how much ... on [category] in [month]". *)
Definition categoryAnswer (category : option jsstr) (monthName : jsstr)
    (transactions : option (list jsvalue)) : outcome QueryResponse :=
  match totalOf transactions with
  | Thrown e => Thrown e
  | Returned total =>
      Returned
        {| answerText := lit "You spent $" ++ toFixed2 total ++ lit " on "
                         ++ templ category ++ lit " in " ++ monthName
                         ++ lit ".";
           data := Some (SpentOnCategory total category monthName) |}
  end.

(** The answer to "total spend last [days] days". *)
Definition daysAnswer (days : Z) (transactions : option (list jsvalue))
  : outcome QueryResponse :=
  match totalOf transactions with
  | Thrown e => Thrown e
  | Returned total =>
      Returned
        {| answerText := lit "You spent $" ++ toFixed2 total
                         ++ lit " in the last "
                         ++ NumberToString (inject_Z days) ++ lit " days.";
           data := Some (SpentInDays total days) |}
  end.

Definition categoryQuery (userId : jsstr) (category : option jsstr)
    (startDate endDate : jsstr) : dbQuery :=
  {| q_from := "transactions";
     q_select := "amount";
     q_filters := [FilterEq "user_id" userId;
                   FilterIlike "category"
                     (lit "%" ++ templ category ++ lit "%");
                   FilterEq "type" (lit "debit");
                   FilterGte "date" startDate;
                   FilterLte "date" endDate] |}.

Definition daysQuery (userId startDate : jsstr) : dbQuery :=
  {| q_from := "transactions";
     q_select := "amount";
     q_filters := [FilterEq "user_id" userId;
                   FilterEq "type" (lit "debit");
                   FilterGte "date" startDate] |}.

(** The second pattern of [handleTextQuery], and its last return. The days
    are exact as long as the date is valid: a product that the host rounds
    is beyond the range of dates. *)
Definition lastDaysQuery (userId lower : jsstr) : queryRun :=
  match exec daysRe lower with
  | Some daysMatch =>
      let days :=
        match m_group 1 daysMatch with
        | Some text => parseInt text
        | None => None
        end in
      let startDate :=
        newDateOf (match days with
                   | Some d => Some (now - d * 24 * 60 * 60 * 1000)%Z
                   | None => None
                   end) in
      match toISODate startDate, days with
      | Ok start, Some d => Asks (daysQuery userId start) (daysAnswer d)
      | _, _ => Done (Thrown InvalidTimeValue)
      end
  | None =>
      Done (Returned
        {| answerText := notUnderstood; data := None |})
  end.

(** [handleTextQuery(supabaseClient, userId, text)] *)
Definition handleTextQuery (userId text : jsstr) : queryRun :=
  let lower := toLowerCase text in
  match exec categoryRe lower with
  | Some categoryMatch =>
      let category := m_group 1 categoryMatch in
      match m_group 2 categoryMatch with
      | None => Done (Thrown NotReadable)
      | Some monthName =>
          let month := monthNameToNumber toLowerCase inheritedName monthName in
          if negb (isMinusOne month) then
            let year := getFullYear LocalTZA now in
            let startDate := newDate LocalTZA year (monthNumber month) 1 in
            let endDate := newDate LocalTZA year (monthPlus1 month) 0 in
            match toISODate startDate with
            | Throw _ => Done (Thrown InvalidTimeValue)
            | Ok start =>
                match toISODate endDate with
                | Throw _ => Done (Thrown InvalidTimeValue)
                | Ok end_ =>
                    Asks (categoryQuery userId category start end_)
                         (categoryAnswer category monthName)
                end
            end
          else lastDaysQuery userId lower
      end
  | None => lastDaysQuery userId lower
  end.

End TextQuery.

Arguments Done {number} o.
Arguments Asks {number} q k.

(* ===================================================================== *)
(** * The dates a text query asks for                                      *)
(* ===================================================================== *)

Lemma Day_MakeDate day time :
  (0 <= time < msPerDay)%Z -> Day (MakeDate day time) = day.
Proof.
  unfold Day, MakeDate, msPerDay. intros H.
  Z.to_euclidean_division_equations. lia.
Qed.

(** The UTC day of a local midnight: the same day where local time is at
    UTC or behind it at that midnight, the day before where it is ahead. *)
Lemma Day_UTC LocalTZA day :
  let offset := LocalTZA (MakeDate day 0) false in
  (- msPerDay < offset < msPerDay)%Z ->
  Day (UTC LocalTZA (MakeDate day 0))
  = (day - (if 0 <? offset then 1 else 0))%Z.
Proof.
  intros offset H. unfold UTC. fold offset.
  unfold Day, MakeDate, msPerDay in *.
  destruct (0 <? offset)%Z eqn:E;
    [apply Z.ltb_lt in E | apply Z.ltb_ge in E];
    Z.to_euclidean_division_equations; lia.
Qed.

Lemma Day_shift t days :
  Day (t - days * 24 * 60 * 60 * 1000) = (Day t - days)%Z.
Proof.
  unfold Day, msPerDay. Z.to_euclidean_division_equations. lia.
Qed.

Lemma DayFromYear_bound y :
  (100 <= y <= 200000)%Z -> (-700000 <= DayFromYear y <= 73000000)%Z.
Proof.
  unfold DayFromYear. intros H. Z.to_euclidean_division_equations. lia.
Qed.

Lemma daysBeforeMonth_bound leap mn :
  (0 <= daysBeforeMonth leap mn <= 335)%Z.
Proof.
  unfold daysBeforeMonth.
  destruct (leap && (2 <=? mn)%Z)%bool;
    repeat match goal with
    | |- context [match ?x with _ => _ end] => destruct x
    end; lia.
Qed.

(** The offset in force at the local midnight that begins a day of a
    month. *)
Definition offsetAt (LocalTZA : Z -> bool -> Z) (y mn d : Z) : Z :=
  LocalTZA (MakeDate (MakeDay y mn d) 0) false.

(** A day of a month of the years 100 to 200000, at local midnight, is a
    valid time value. *)
Lemma TimeClip_local_midnight LocalTZA y mn d :
  (- msPerDay < offsetAt LocalTZA y mn d < msPerDay)%Z ->
  (100 <= y <= 200000)%Z -> (0 <= mn <= 11)%Z -> (0 <= d <= 31)%Z ->
  TimeClip (UTC LocalTZA (MakeDate (MakeDay y mn d) 0))
  = Some (UTC LocalTZA (MakeDate (MakeDay y mn d) 0)).
Proof.
  intros Hz Hy Hm Hd. unfold TimeClip, UTC, offsetAt in *.
  set (offset := LocalTZA (MakeDate (MakeDay y mn d) 0) false) in *.
  rewrite MakeDay_valid in * by exact Hm.
  pose proof (DayFromYear_bound y Hy) as B1.
  pose proof (daysBeforeMonth_bound (isLeapYear y) mn) as B2.
  unfold MakeDate, msPerDay in *.
  destruct (Z.abs _ <=? 8640000000000000)%Z eqn:E; [reflexivity|].
  apply Z.leb_gt in E. lia.
Qed.

Lemma newDate_valid LocalTZA y mn d :
  (- msPerDay < offsetAt LocalTZA y mn d < msPerDay)%Z ->
  (100 <= y <= 200000)%Z -> (0 <= mn <= 11)%Z -> (0 <= d <= 31)%Z ->
  toISODate (newDate LocalTZA y (Some mn) d)
  = Ok (isoDatePart (civil (MakeDay y mn d
                        - (if 0 <? offsetAt LocalTZA y mn d
                           then 1 else 0))%Z)).
Proof.
  intros Hz Hy Hm Hd. unfold newDate.
  assert (Y : ((0 <=? y) && (y <=? 99))%Z%bool = false).
  { apply andb_false_iff. right. apply Z.leb_gt. lia. }
  rewrite Y, TimeClip_local_midnight by assumption.
  unfold toISODate. rewrite Day_UTC by exact Hz. reflexivity.
Qed.

(** The day before the first of a month. *)
Lemma MakeDay_day_before y mn :
  (0 <= mn <= 11)%Z ->
  (MakeDay y mn 1 - 1)%Z
  = if (mn =? 0)%Z then MakeDay (y - 1) 11 31
    else MakeDay y (mn - 1) (daysInMonth (isLeapYear y) (mn - 1)).
Proof.
  intros H. destruct (mn =? 0)%Z eqn:E.
  - apply Z.eqb_eq in E. subst mn.
    pose proof (MakeDay_month_end (y - 1) 11 ltac:(lia)) as K.
    change (daysInMonth (isLeapYear (y - 1)) 11) with 31%Z in K.
    rewrite <- K. unfold MakeDay.
    change ((11 + 1) / 12)%Z with 1%Z. change ((11 + 1) mod 12)%Z with 0%Z.
    change (0 / 12)%Z with 0%Z. change (0 mod 12)%Z with 0%Z.
    replace (y - 1 + 1)%Z with (y + 0)%Z by lia. lia.
  - apply Z.eqb_neq in E.
    rewrite <- (MakeDay_month_end y (mn - 1)) by lia.
    replace (mn - 1 + 1)%Z with mn by lia.
    rewrite !MakeDay_valid by lia. lia.
Qed.

(** A pattern without groups leaves the captures as they are. *)
Fixpoint noGroup (r : regex) : Prop :=
  match r with
  | RGroup _ _ => False
  | RSeq r1 r2 | RAlt r1 r2 => noGroup r1 /\ noGroup r2
  | RStar r1 => noGroup r1
  | _ => True
  end.

Lemma Matches_noGroup r st st' :
  Matches r st st' -> noGroup r -> caps st' = caps st.
Proof.
  induction 1 as [st|p c sn s cs Hp|r1 r2 st st1 st2 M1 IH1 M2 IH2
                  |r1 r2 st st' M IH|r1 r2 st st' M IH|r st
                  |r st st1 st2 M1 IH1 L M2 IH2|i r st st' M IH
                  |st X|st X|st X]; simpl; intros G; try reflexivity.
  - destruct G as (G1 & G2). rewrite (IH2 G2). exact (IH1 G1).
  - destruct G as (G1 & _). exact (IH G1).
  - destruct G as (_ & G2). exact (IH G2).
  - rewrite (IH2 G). exact (IH1 G).
  - destruct G.
Qed.

Lemma rlit_noGroup s : noGroup (rlit s).
Proof.
  unfold rlit. induction (lit s) as [|c l IH]; simpl; [exact I|].
  destruct l as [|c' l]; simpl; [exact I|]. split; [exact I | exact IH].
Qed.

(** What the pattern of the days captures is a number in decimal digits. *)
Lemma daysRe_group st st' :
  Matches daysRe st st' ->
  exists d w,
    getcap 1 (caps st') = Some (d :: w)
    /\ Forall (fun c => isDigit c = true) (d :: w).
Proof.
  unfold daysRe. cbn [rseq]. intros M.
  inversion M as [| |r1 r2 s0 s1 s2 M1 M2| | | | | | | |]; subst; clear M.
  inversion M2 as [| |r1 r2 t0 t1 t2 N1 N2| | | | | | | |]; subst; clear M2.
  pose proof (Matches_noGroup _ _ _ N2 (rlit_noGroup _)) as C.
  inversion N1 as [| | | | | | |i r' u0 u1 G| | |]; subst; clear N1.
  unfold rplus, rdigit in G.
  inversion G as [| |r1 r2 v0 v1 v2 G1 G2| | | | | | | |]; subst; clear G.
  inversion G1 as [|p c sn s cs Hp| | | | | | | | |]; subst; clear G1.
  apply star_class_reads in G2. destruct G2 as (w & F & R & _ & _).
  simpl in R. exists c, w. split.
  - rewrite C. simpl. f_equal.
    match goal with |- consumed ?a ?b = _ => apply (consumed_app a b) end.
    simpl. rewrite R. reflexivity.
  - constructor; assumption.
Qed.

Lemma takeDigits_all ds :
  Forall (fun c => isDigit c = true) ds -> takeDigits ds = (ds, []).
Proof.
  induction 1 as [|c ds D F IH]; simpl; [reflexivity|].
  rewrite D, IH. reflexivity.
Qed.

Lemma parseInt_digits d w :
  Forall (fun c => isDigit c = true) (d :: w) ->
  parseInt (d :: w) = Some (Z.of_N (digitsVal 0 (d :: w))).
Proof.
  intros F. unfold parseInt. rewrite (takeDigits_all _ F). reflexivity.
Qed.

Section TextQueryFacts.

Variable toLowerCase : jsstr -> jsstr.
Variable inheritedName : jsstr -> bool.
Variable NumberToString : Q -> jsstr.
Variable LocalTZA : Z -> bool -> Z.
Variable now : Z.
Variable number : Type.
Variable numZero : number.
Variable numAdd : number -> number -> number.
Variable numTruthy : number -> bool.
Variable parseFloatOf : jsvalue -> number.
Variable toFixed2 : number -> jsstr.

Let handleText : jsstr -> jsstr -> queryRun number :=
  handleTextQuery toLowerCase inheritedName NumberToString LocalTZA now
    number numZero numAdd numTruthy parseFloatOf toFixed2.

Let answerCategory :=
  categoryAnswer number numZero numAdd numTruthy parseFloatOf toFixed2.

Let answerDays :=
  daysAnswer NumberToString number numZero numAdd numTruthy parseFloatOf
    toFixed2.

(** X23. A question "how much ... on <category> in <month>" whose month is
    in the table asks for the debits of the user in that category between
    two dates, each made at local midnight and written as a UTC date: the
    first day of that month of the current year and its last day, the 29th
    in a February of a leap year. Each date is the day meant where local
    time, at that midnight, is at UTC or behind it, and the day before
    where it is ahead of UTC, by the offset in force on that date, daylight
    saving included: the range then begins on the last day of the month
    before, or leaves out the last day of the month asked for. *)
Theorem text_query_month_range
    (userId text : jsstr) (categoryMatch : rresult) (monthName : jsstr)
    (n : Z) :
  exec categoryRe (toLowerCase text) = Some categoryMatch ->
  m_group 2 categoryMatch = Some monthName ->
  monthsLookup months (toLowerCase monthName) = Some n ->
  (100 <= getFullYear LocalTZA now <= 200000)%Z ->
  let year := getFullYear LocalTZA now in
  let lastDay := daysInMonth (isLeapYear year) n in
  let offsetFirst := offsetAt LocalTZA year n 1 in
  let offsetLast := offsetAt LocalTZA year n lastDay in
  (- msPerDay < offsetFirst < msPerDay)%Z ->
  (- msPerDay < offsetLast < msPerDay)%Z ->
  exists startDate endDate,
    handleText userId text
    = Asks (categoryQuery userId (m_group 1 categoryMatch) startDate endDate)
           (answerCategory (m_group 1 categoryMatch) monthName)
    /\ ((offsetFirst <= 0)%Z -> startDate = isoDatePart (year, n, 1%Z))
    /\ ((0 < offsetFirst)%Z ->
        startDate
        = isoDatePart (if (n =? 0)%Z then ((year - 1)%Z, 11%Z, 31%Z)
                       else (year, (n - 1)%Z,
                             daysInMonth (isLeapYear year) (n - 1))))
    /\ ((offsetLast <= 0)%Z -> endDate = isoDatePart (year, n, lastDay))
    /\ ((0 < offsetLast)%Z ->
        endDate = isoDatePart (year, n, (lastDay - 1)%Z)).
Proof.
  intros Em Eg El Hy year lastDay offsetFirst offsetLast Hz1 Hz2.
  destruct (monthsLookup_Some _ _ _ El) as (k & I & _).
  pose proof (months_range _ _ I) as Hn.
  pose proof (daysInMonth_range (isLeapYear year) n) as Hl.
  unfold handleText, handleTextQuery. rewrite Em, Eg.
  unfold monthNameToNumber. rewrite El.
  assert (N1 : isMinusOne (MonthNumber n) = false)
    by (apply Z.eqb_neq; lia).
  rewrite N1. cbn [negb monthNumber monthPlus1]. fold year.
  rewrite (newDate_valid LocalTZA year n 1) by (assumption || lia).
  fold offsetFirst.
  assert (E2 : toISODate (newDate LocalTZA year (Some (n + 1)%Z) 0)
               = Ok (isoDatePart (civil (MakeDay year n lastDay
                        - (if 0 <? offsetLast then 1 else 0))%Z))).
  { unfold newDate.
    assert (Y : ((0 <=? year) && (year <=? 99))%Z%bool = false).
    { apply andb_false_iff. right. apply Z.leb_gt. unfold year. lia. }
    rewrite Y. rewrite MakeDay_month_end by exact Hn. fold lastDay.
    rewrite TimeClip_local_midnight by (assumption || lia).
    unfold toISODate. rewrite Day_UTC by exact Hz2. reflexivity. }
  rewrite E2.
  eexists _, _. split; [reflexivity|].
  split; [|split; [|split]].
  - intros W.
    assert (S : (0 <? offsetFirst)%Z = false) by (apply Z.ltb_ge; lia).
    rewrite S, Z.sub_0_r. rewrite civil_MakeDay by (split; lia).
    reflexivity.
  - intros E.
    assert (S : (0 <? offsetFirst)%Z = true) by (apply Z.ltb_lt; lia).
    rewrite S. rewrite MakeDay_day_before by exact Hn.
    destruct (n =? 0)%Z eqn:E0.
    + rewrite civil_MakeDay; [reflexivity|]. split; [lia|].
      change (daysInMonth (isLeapYear (year - 1)) 11) with 31%Z. lia.
    + apply Z.eqb_neq in E0. rewrite civil_MakeDay; [reflexivity|].
      pose proof (daysInMonth_range (isLeapYear year) (n - 1)).
      split; lia.
  - intros W.
    assert (S : (0 <? offsetLast)%Z = false) by (apply Z.ltb_ge; lia).
    rewrite S, Z.sub_0_r. rewrite civil_MakeDay by (split; lia).
    reflexivity.
  - intros E.
    assert (S : (0 <? offsetLast)%Z = true) by (apply Z.ltb_lt; lia).
    rewrite S.
    replace (MakeDay year n lastDay - 1)%Z
      with (MakeDay year n (lastDay - 1)%Z)
      by (rewrite !MakeDay_valid by exact Hn; lia).
    rewrite civil_MakeDay; [reflexivity|]. split; [lia|]. fold lastDay. lia.
Qed.

(** X24. A question "total spend last <N> days" that the first pattern does
    not match asks for the debits of the user from the UTC date N days
    before the UTC date of now, N being the decimal number written in the
    question; and when N days before now is beyond the range of dates, no
    query is sent: the function throws a RangeError. *)
Theorem text_query_last_days
    (userId text : jsstr) (daysMatch : rresult) :
  exec categoryRe (toLowerCase text) = None ->
  exec daysRe (toLowerCase text) = Some daysMatch ->
  exists d w,
    m_group 1 daysMatch = Some (d :: w)
    /\ Forall (fun c => isDigit c = true) (d :: w)
    /\ let days := Z.of_N (digitsVal 0 (d :: w)) in
       handleText userId text
       = if (Z.abs (now - days * msPerDay) <=? 8640000000000000)%Z
         then Asks (daysQuery userId (isoDatePart (civil (Day now - days)%Z)))
                   (answerDays days)
         else Done (Thrown InvalidTimeValue).
Proof.
  intros En Ed.
  pose proof Ed as Ed'. apply exec_Some in Ed'.
  destruct Ed' as (pre & post & _ & _ & M & _ & C & _).
  apply daysRe_group in M. destruct M as (d & w & G & F).
  exists d, w. split; [unfold m_group; rewrite C; exact G|].
  split; [exact F|]. intros days.
  unfold handleText, handleTextQuery. rewrite En.
  unfold lastDaysQuery. rewrite Ed.
  unfold m_group. rewrite C, G, (parseInt_digits d w F). fold days.
  unfold newDateOf, TimeClip.
  replace (now - days * 24 * 60 * 60 * 1000)%Z
    with (now - days * msPerDay)%Z by (unfold msPerDay; lia).
  destruct (Z.abs (now - days * msPerDay) <=? 8640000000000000)%Z;
    [|reflexivity].
  unfold toISODate.
  replace (now - days * msPerDay)%Z
    with (now - days * 24 * 60 * 60 * 1000)%Z by (unfold msPerDay; lia).
  rewrite Day_shift. reflexivity.
Qed.

(** X25. A question of the first shape whose month is not in the table:
    for a word that [months] inherits from [Object.prototype], such as
    "constructor", the month is not a number, the dates are invalid and the
    function throws before any query is sent; for any other word the
    function goes on to the second pattern, and answers that it does not
    understand when that one does not match. *)
Theorem text_query_unknown_month
    (userId text : jsstr) (categoryMatch : rresult) (monthName : jsstr) :
  exec categoryRe (toLowerCase text) = Some categoryMatch ->
  m_group 2 categoryMatch = Some monthName ->
  monthsLookup months (toLowerCase monthName) = None ->
  (inheritedName (toLowerCase monthName) = true ->
   handleText userId text = Done (Thrown InvalidTimeValue))
  /\ (inheritedName (toLowerCase monthName) = false ->
      exec daysRe (toLowerCase text) = None ->
      handleText userId text
      = Done (Returned
          {| answerText := notUnderstood; data := None |})).
Proof.
  intros Em Eg El.
  unfold handleText, handleTextQuery. rewrite Em, Eg.
  unfold monthNameToNumber. rewrite El. split.
  - intros Hi. rewrite Hi. reflexivity.
  - intros Hi Ed. rewrite Hi. cbn [isMinusOne Z.eqb negb].
    unfold lastDaysQuery. rewrite Ed. reflexivity.
Qed.

End TextQueryFacts.

(** ** Hosts for the runs

    Hosts whose clock reads 1 March 2024, 00:00 UTC; their numbers are
    exact rationals, and only "constructor" is inherited by [months]. One
    is at UTC all year, one an hour ahead all year, and one keeps the time
    of London: at UTC in winter and an hour ahead from 31 March to
    27 October 2024, 01:00 UTC. *)

Definition atUTC : Z -> bool -> Z := fun _ _ => 0%Z.

Definition hourAhead : Z -> bool -> Z := fun _ _ => 3600000%Z.

Definition londonTime : Z -> bool -> Z :=
  fun t isUTC =>
    let u := if isUTC then t else (t - 3600000)%Z in
    if ((1711846800000 <=? u) && (u <? 1729990800000))%Z%bool
    then 3600000%Z else 0%Z.

Definition askedAt : Z := 1709251200000.

Definition inheritsConstructor (key : jsstr) : bool :=
  str_eqb key (lit "constructor").

Definition exactAmount (v : jsvalue) : Q :=
  match v with
  | JNumber q => q
  | JString s => match parseFloat s with Some (Finite q) => q | _ => 0%Q end
  | _ => 0%Q
  end.

Definition handleTextAt (LocalTZA : Z -> bool -> Z)
  : jsstr -> jsstr -> queryRun Q :=
  handleTextQuery asciiLower inheritsConstructor numberToString0 LocalTZA
    askedAt Q 0%Q Qplus (fun q => negb (Qeq_bool q 0)) exactAmount
    numberToString0.

Definition answerCategoryAt :=
  categoryAnswer Q 0%Q Qplus (fun q => negb (Qeq_bool q 0)) exactAmount
    numberToString0.

Definition answerDaysAt :=
  daysAnswer numberToString0 Q 0%Q Qplus (fun q => negb (Qeq_bool q 0))
    exactAmount numberToString0.

(** The match of a pattern that matches. *)
Definition matchOf (r : regex) (s : jsstr) : rresult :=
  match exec r s with
  | Some m => m
  | None => RResult 0 [] [] (MState [] [] [])
  end.

Definition foodInFebruary : jsstr :=
  lit "How much did I spend on food in February".

Lemma text_query_month_range_witness :
  let categoryMatch := matchOf categoryRe (asciiLower foodInFebruary) in
  let year := getFullYear atUTC askedAt in
  let lastDay := daysInMonth (isLeapYear year) 1 in
  let offsetFirst := offsetAt atUTC year 1 1 in
  let offsetLast := offsetAt atUTC year 1 lastDay in
  exists startDate endDate,
    handleTextAt atUTC (lit "user-1") foodInFebruary
    = Asks (categoryQuery (lit "user-1") (m_group 1 categoryMatch)
              startDate endDate)
           (answerCategoryAt (m_group 1 categoryMatch) (lit "february"))
    /\ ((offsetFirst <= 0)%Z -> startDate = isoDatePart (year, 1%Z, 1%Z))
    /\ ((0 < offsetFirst)%Z ->
        startDate
        = isoDatePart (if (1 =? 0)%Z then ((year - 1)%Z, 11%Z, 31%Z)
                       else (year, (1 - 1)%Z,
                             daysInMonth (isLeapYear year) (1 - 1))))
    /\ ((offsetLast <= 0)%Z -> endDate = isoDatePart (year, 1%Z, lastDay))
    /\ ((0 < offsetLast)%Z ->
        endDate = isoDatePart (year, 1%Z, (lastDay - 1)%Z)).
Proof.
  apply (text_query_month_range asciiLower inheritsConstructor
           numberToString0 atUTC askedAt Q 0%Q Qplus
           (fun q => negb (Qeq_bool q 0)) exactAmount numberToString0
           (lit "user-1") foodInFebruary
           (matchOf categoryRe (asciiLower foodInFebruary))
           (lit "february") 1).
  - vm_compute. reflexivity.
  - vm_compute. reflexivity.
  - vm_compute. reflexivity.
  - vm_compute. split; discriminate.
  - vm_compute. split; reflexivity.
  - vm_compute. split; reflexivity.
Defined.

Definition last30Days : jsstr := lit "Total spend last 30 days".

Lemma text_query_last_days_witness :
  exists d w,
    m_group 1 (matchOf daysRe (asciiLower last30Days)) = Some (d :: w)
    /\ Forall (fun c => isDigit c = true) (d :: w)
    /\ let days := Z.of_N (digitsVal 0 (d :: w)) in
       handleTextAt atUTC (lit "user-1") last30Days
       = if (Z.abs (askedAt - days * msPerDay) <=? 8640000000000000)%Z
         then Asks (daysQuery (lit "user-1")
                      (isoDatePart (civil (Day askedAt - days)%Z)))
                   (answerDaysAt days)
         else Done (Thrown InvalidTimeValue).
Proof.
  apply (text_query_last_days asciiLower inheritsConstructor
           numberToString0 atUTC askedAt Q 0%Q Qplus
           (fun q => negb (Qeq_bool q 0)) exactAmount numberToString0
           (lit "user-1") last30Days
           (matchOf daysRe (asciiLower last30Days))).
  - vm_compute. reflexivity.
  - vm_compute. reflexivity.
Defined.

Definition foodInConstructor : jsstr :=
  lit "how much on food in constructor".

Lemma text_query_unknown_month_witness :
  (inheritsConstructor (asciiLower (lit "constructor")) = true ->
   handleTextAt atUTC (lit "user-1") foodInConstructor
   = Done (Thrown InvalidTimeValue))
  /\ (inheritsConstructor (asciiLower (lit "constructor")) = false ->
      exec daysRe (asciiLower foodInConstructor) = None ->
      handleTextAt atUTC (lit "user-1") foodInConstructor
      = Done (Returned
          {| answerText := notUnderstood; data := None |})).
Proof.
  apply (text_query_unknown_month asciiLower inheritsConstructor
           numberToString0 atUTC askedAt Q 0%Q Qplus
           (fun q => negb (Qeq_bool q 0)) exactAmount numberToString0
           (lit "user-1") foodInConstructor
           (matchOf categoryRe (asciiLower foodInConstructor))
           (lit "constructor")).
  - vm_compute. reflexivity.
  - vm_compute. reflexivity.
  - vm_compute. reflexivity.
Defined.

(* ===================================================================== *)
(** * Runs of the text query                                               *)
(* ===================================================================== *)

(** The query a run sends, if it sends one. *)
Definition asked (number : Type) (run : queryRun number) : option dbQuery :=
  match run with
  | Asks q _ => Some q
  | Done _ => None
  end.

(** February of a leap year, asked at UTC. *)
Example handleTextQuery_february :
  asked Q (handleTextAt atUTC (lit "user-1") foodInFebruary)
  = Some (categoryQuery (lit "user-1") (Some (lit "food"))
            (lit "2024-02-01") (lit "2024-02-29")).
Proof. vm_compute. reflexivity. Qed.

(** The same question in a host one hour ahead of UTC all year, at the
    same instant. *)
Example handleTextQuery_february_east :
  asked Q (handleTextAt hourAhead (lit "user-1") foodInFebruary)
  = Some (categoryQuery (lit "user-1") (Some (lit "food"))
            (lit "2024-01-31") (lit "2024-02-28")).
Proof. vm_compute. reflexivity. Qed.

(** July asked in March in the host that keeps the time of London: the
    offset of July decides, not the one in force when the question is
    asked. *)
Example handleTextQuery_july_london :
  asked Q (handleTextAt londonTime (lit "user-1")
             (lit "how much did I spend on food in July"))
  = Some (categoryQuery (lit "user-1") (Some (lit "food"))
            (lit "2024-06-30") (lit "2024-07-30")).
Proof. vm_compute. reflexivity. Qed.

Example handleTextQuery_last_30_days :
  asked Q (handleTextAt atUTC (lit "user-1") last30Days)
  = Some (daysQuery (lit "user-1") (lit "2024-01-31")).
Proof. vm_compute. reflexivity. Qed.

Example handleTextQuery_constructor :
  handleTextAt atUTC (lit "user-1") foodInConstructor
  = Done (Thrown InvalidTimeValue).
Proof. vm_compute. reflexivity. Qed.

(** A month that is no month, and no days: not understood. *)
Example handleTextQuery_not_understood :
  exists answer,
    handleTextAt atUTC (lit "user-1") (lit "how much on food in summer")
    = Done (Returned answer)
    /\ data Q answer = None.
Proof. eexists. split; vm_compute; reflexivity. Qed.

(* ===================================================================== *)
(** * Runs on the examples of the specification                            *)
(* ===================================================================== *)

Definition twoTagsText : jsstr := lit "Subtotal $12.00
Total $45.67".

Example extractAmount_largest_tag :
  extractAmount asciiLower twoTagsText (receiptLines twoTagsText)
  = roundDouble 45.67.
Proof. vm_compute. reflexivity. Qed.

Example extractAmount_total_line :
  extractAmount asciiLower (lit "Balance due 17.5 x")
    (receiptLines (lit "Balance due 17.5 x"))
  = roundDouble 17.5.
Proof. vm_compute. reflexivity. Qed.

Example extractAmount_bare_number :
  extractAmount asciiLower (lit "Tip 5 of 250000")
    (receiptLines (lit "Tip 5 of 250000"))
  = Finite 5.
Proof. vm_compute. reflexivity. Qed.

Definition bankScreenText : jsstr := lit "Fri, Sep 19, 2025
Amazon
-$83.09
Transaction details".

Example parseReceiptText_bank_screen :
  parseReceiptText asciiLower today0 hostRejects bankScreenText
  = {| pt_date := lit "2025-09-19"; pt_description := lit "Amazon";
       pt_amount := roundDouble 83.09; pt_type := debit |}.
Proof. vm_compute. reflexivity. Qed.

Example extractMerchant_shortest_candidate :
  extractMerchant asciiLower
    [lit "Corner Bakery Cafe"; lit "Joe's"; lit "12:30"] []
  = lit "Joe's".
Proof. vm_compute. reflexivity. Qed.

(** The record of the first few-shot example of the prompt. *)
Definition fewShotRecord : jsvalue :=
  JObject [(lit "date", JString (lit "2025-08-14"));
           (lit "type", JString (lit "out"));
           (lit "category", JString (lit "grocery"));
           (lit "sub_category", JString (lit "Walmart"));
           (lit "amount", JNum (roundDouble 45.67)); (lit "note", JNull)].

Example validate_few_shot :
  validate asciiLower numberToString0 fewShotRecord
  = Ok (setProp fewShotRecord "sub_category" (JString (lit "walmart"))).
Proof. vm_compute. reflexivity. Qed.

Example structureReceipt_few_shot :
  structureReceipt asciiLower today0 hostRejects []
    (FetchResponse 200 (Some (okBody fewShotRecord)))
  = inl {| sd_date := JString (lit "2025-08-14"); sd_type := debit;
           sd_category := JString (lit "grocery");
           sd_description := JString (lit "Walmart");
           sd_amount := JNum (roundDouble 45.67); sd_notes := JNull |}.
Proof. vm_compute. reflexivity. Qed.

Example structureReceipt_negative_amount_falls_back :
  structureReceipt asciiLower today0 hostRejects twoTagsText
    (structureCall asciiLower
       (fun _ => Some (setProp fewShotRecord "amount" (JNumber (-1))))
       numberToString0 (Some (lit "key"))
       (fun _ => GeminiReplies 200 [] (inl (geminiSays (lit "{}"))))
       [] [] (JString twoTagsText) (lit "Bearer token"))
  = inl (legacyStructured asciiLower today0 hostRejects twoTagsText).
Proof. vm_compute. reflexivity. Qed.

Example extractJson_leading_text :
  extractJson parseEmptyObject (lit "Here you go: {}") = Ok (JObject []).
Proof. vm_compute. reflexivity. Qed.

Example extractJson_not_json :
  extractJson parseEmptyObject (lit "{oops}")
  = Throw (lit "Invalid JSON in response").
Proof. vm_compute. reflexivity. Qed.

Example extractJson_no_braces :
  extractJson parseEmptyObject (lit "no object here")
  = Throw (lit "No JSON found in response").
Proof. vm_compute. reflexivity. Qed.

Example validate_bad_category :
  validate asciiLower numberToString0
    (setProp fewShotRecord "category" (JString (lit "Groceries")))
  = Throw (lit "Invalid category").
Proof. vm_compute. reflexivity. Qed.

Example validate_bad_date :
  validate asciiLower numberToString0
    (setProp fewShotRecord "date" (JString (lit "14/08/2025")))
  = Throw (lit "Invalid date format - must be YYYY-MM-DD").
Proof. vm_compute. reflexivity. Qed.

Example validate_negative_amount :
  validate asciiLower numberToString0
    (setProp fewShotRecord "amount" (JNumber (-1)))
  = Throw (lit "Invalid amount - must be positive number").
Proof. vm_compute. reflexivity. Qed.

Example extractMerchant_whole_line :
  extractMerchant asciiLower [lit "Posted Sep 19"; lit "STARBUCKS"] []
  = lit "STARBUCKS".
Proof. vm_compute. reflexivity. Qed.

Example extractMerchant_unknown :
  extractMerchant asciiLower [lit "12:30"; lit "$5.00"; lit "ok"] []
  = lit "Unknown Merchant".
Proof. vm_compute. reflexivity. Qed.
